(** * SSUM-STAR: structural codecs, anchor index and seek-replay engine

    Shallow embedding of the Python sources under [scripts/].

    Conventions of the embedding.
    - A Python [int] is a [Z]; the bit operators are those of [Z]
      (two's complement on an unbounded integer, as in Python).
    - A [bytes] / [bytearray] value is a [list Z] whose elements lie in
      [0, 256); a position in a buffer is a [nat].
    - A raised exception (or [SystemExit]) is an [Err] carrying its kind.
    - A [while] loop whose trip count is not structurally evident runs on
      a fuel argument; the caller supplies a fuel that is proved
      sufficient (section [LoopFuel] for the loops over a body), and a
      loop that really never returns yields [None] for every fuel. *)

From Stdlib Require Import String Ascii ZArith List Lia Bool Sorted.
Import ListNotations.
Local Open Scope Z_scope.

(** ** Outcomes *)

Inductive error : Type :=
| BadMagic            (* "bad magic" *)
| TruncatedVarint     (* "truncated varint" / "unexpected EOF in uvarint" *)
| Overlong            (* "varint too long" / "uvarint too large" *)
| TruncatedBody       (* "truncated body" / "truncated: missing tag" *)
| BadTag              (* "bad tag" / "unknown tag in STAR2A body" *)
| OutOfFuel           (* artefact of the embedding; never returned (LoopFuel) *)
| StructError         (* struct.error: pack out of range, unpack past the end *)
| EOFString           (* "unexpected EOF in string" *)
| BlobTooSmall        (* "star blob too small" *)
| BadCols             (* "unexpected cols in STAR4" *)
| IndexError          (* list index out of range *)
| BadIndexMagic       (* "bad index magic" / "bad idx magic" *)
| BadIndexCase        (* "index is not CASE01" *)
| BadIndexVersion     (* "unsupported index version" *)
| IndexMismatch       (* "Index n_rows does not match STAR file" *)
| BindingMismatch     (* "IDX binding mismatch" *)
| NoSeekKey           (* "Provide --seek_row or --seek_time" *)
| BadAnchorEvery      (* "--anchor_every must be > 0" *)
| InternalError       (* "internal: pos out of bounds" *)
| NegativeUvarint     (* "uvarint requires non-negative" *)
| KeyError            (* dict key missing *)
| ZeroDivision        (* ZeroDivisionError *)
| DateError           (* datetime: OverflowError / ValueError *)
| TypeError           (* '<' not supported between NoneType and int *)
| UnicodeEncodeError  (* 'utf-8' codec can't encode: surrogates not allowed *)
| UnicodeDecodeError. (* 'utf-8' codec can't decode bytes *)

Inductive result (A : Type) : Type :=
| OK (a : A)
| Err (e : error).
Arguments OK {A} a.
Arguments Err {A} e.

Definition bind {A B : Type} (r : result A) (f : A -> result B) : result B :=
  match r with
  | OK a => f a
  | Err e => Err e
  end.

Definition obind {A B : Type} (r : option A) (f : A -> option B) : option B :=
  match r with
  | Some a => f a
  | None => None
  end.

Declare Scope res_scope.
Delimit Scope res_scope with res.
Notation "'do' x <- r ; k" := (bind r (fun x => k))
  (at level 10, x name, r at level 100, k at level 200) : res_scope.
Notation "'do' ( x , y ) <- r ; k" := (bind r (fun p => let '(x, y) := p in k))
  (at level 10, x name, y name, r at level 100, k at level 200) : res_scope.
Notation "'let?' x <- r ; k" := (obind r (fun x => k))
  (at level 10, x name, r at level 100, k at level 200) : res_scope.
Local Open Scope res_scope.

(** ** Varint and ZigZag primitives

    [zigzag_encode], [zigzag_decode] and [varint_encode] are textually the
    same in every module that carries them; the varint readers differ in
    one constant, the largest shift they accept, which is a parameter of
    the shared loop below. *)

Module Prim.

(* def zigzag_encode(x): return (x << 1) ^ (x >> 63) *)
Definition zigzag_encode (x : Z) : Z :=
  Z.lxor (Z.shiftl x 1) (Z.shiftr x 63).

(* def zigzag_decode(u): return (u >> 1) ^ -(u & 1) *)
Definition zigzag_decode (u : Z) : Z :=
  Z.lxor (Z.shiftr u 1) (- (Z.land u 1)).

(* One [while True] of varint_encode:
     b = u & 0x7F; u >>= 7
     if u: out.append(b | 0x80) else: out.append(b); break *)
Fixpoint varint_encode_loop (fuel : nat) (u : Z) (out : list Z)
  : option (list Z) :=
  match fuel with
  | O => None
  | S fuel' =>
      let b := Z.land u 127 in
      let u := Z.shiftr u 7 in
      if negb (u =? 0)
      then varint_encode_loop fuel' u (out ++ [Z.lor b 128])
      else Some (out ++ [b])
  end.

(* Enough iterations for every non-negative [u]: one per started
   group of seven bits. *)
Definition varint_fuel (u : Z) : nat := S (Z.to_nat (Z.log2 u)).

(* [None]: the loop does not return (see [varint_encode_diverges]). *)
Definition varint_encode (u : Z) : option (list Z) :=
  varint_encode_loop (varint_fuel u) u [].

(* The [while True] of varint_decode / read_uvarint.  [rest] is
   [buf[i:]]: it is empty exactly when [i >= len(buf)], and its head is
   [buf[i]].  [limit] is the constant of [if shift > limit: raise]. *)
Fixpoint varint_decode_loop (limit : Z) (rest : list Z) (i : nat)
         (shift u : Z) : result (Z * nat) :=
  match rest with
  | [] => Err TruncatedVarint
  | b :: rest' =>
      let i := S i in
      let u := Z.lor u (Z.shiftl (Z.land b 127) shift) in
      if Z.land b 128 =? 0 then OK (u, i)
      else
        let shift := shift + 7 in
        if shift >? limit then Err Overlong
        else varint_decode_loop limit rest' i shift u
  end.

Definition varint_decode_with (limit : Z) (buf : list Z) (i : nat)
  : result (Z * nat) :=
  varint_decode_loop limit (skipn i buf) i 0 0.

(* for x in t: out += varint_encode(zigzag_encode(int(x))) *)
Fixpoint write_tuple (t : list Z) : option (list Z) :=
  match t with
  | [] => Some []
  | x :: t' =>
      let? bx <- varint_encode (zigzag_encode x);
      let? bt <- write_tuple t';
      Some (bx ++ bt)
  end.

(* for _ in range(k): u, i = varint_decode(buf, i); vals.append(zigzag_decode(u)) *)
Fixpoint read_tuple_with (limit : Z) (k : nat) (buf : list Z) (i : nat)
  : result (list Z * nat) :=
  match k with
  | O => OK ([], i)
  | S k' =>
      do (u, i1) <- varint_decode_with limit buf i;
      do (vs, i2) <- read_tuple_with limit k' buf i1;
      OK (zigzag_decode u :: vs, i2)
  end.

(* Python's [==] on tuples of ints *)
Fixpoint tuple_eqb (a b : list Z) : bool :=
  match a, b with
  | [], [] => true
  | x :: a', y :: b' => (x =? y) && tuple_eqb a' b'
  | _, _ => false
  end.

(* b"..." literals, as character codes *)
Definition bytes_of_string (s : string) : list Z :=
  map (fun c => Z.of_N (N_of_ascii c)) (list_ascii_of_string s).

End Prim.

(** ** Fixed-width little-endian fields ([struct.pack] / [struct.unpack_from]) *)

Module Struct.

Fixpoint le_bytes (k : nat) (v : Z) : list Z :=
  match k with
  | O => []
  | S k' => (v mod 256) :: le_bytes k' (v / 256)
  end.

Fixpoint le_value (bs : list Z) : Z :=
  match bs with
  | [] => 0
  | b :: bs' => b + 256 * le_value bs'
  end.

(* "<B", "<I", "<Q": [k] = 1, 4, 8 *)
Definition pack_unsigned (k : nat) (v : Z) : result (list Z) :=
  if (0 <=? v) && (v <? 256 ^ Z.of_nat k) then OK (le_bytes k v)
  else Err StructError.

(* "<i", "<q": [k] = 4, 8 *)
Definition pack_signed (k : nat) (v : Z) : result (list Z) :=
  if (- (256 ^ Z.of_nat k / 2) <=? v) && (v <? 256 ^ Z.of_nat k / 2)
  then OK (le_bytes k v)
  else Err StructError.

Definition unpack_unsigned (k : nat) (buf : list Z) (off : nat) : result Z :=
  if (off + k <=? length buf)%nat
  then OK (le_value (firstn k (skipn off buf)))
  else Err StructError.

Definition unpack_signed (k : nat) (buf : list Z) (off : nat) : result Z :=
  do u <- unpack_unsigned k buf off;
  OK (if u <? 256 ^ Z.of_nat k / 2 then u else u - 256 ^ Z.of_nat k).

End Struct.

(** ** Case-01: OHLCV bars ([star_case01_spx_replay.py]) *)

Module Case01.
Import Prim.

Record Bar : Type := mkBar
  { d_days : Z; o : Z; h : Z; l : Z; c : Z; v : Z }.

Definition bar0 : Bar := mkBar 0 0 0 0 0 0.

Definition MAGIC : list Z := bytes_of_string "STAR1".

(* the bound of [run < 10_000_000] in the encoder's inner loop *)
Definition RUN_CAP : Z := 10000000.

(* "varint too long" is raised when [shift > 63] *)
Definition varint_decode : list Z -> nat -> result (Z * nat) :=
  varint_decode_with 63.

(* (b0.d_days, b0.o, b0.h, b0.l, b0.c, b0.v) *)
Definition fields (b : Bar) : list Z :=
  [d_days b; o b; h b; l b; c b; v b].

(* (b.d_days - prev.d_days, b.o - prev.o, ...) *)
Definition delta (prev b : Bar) : list Z :=
  [d_days b - d_days prev; o b - o prev; h b - h prev;
   l b - l prev; c b - c prev; v b - v prev].

(* prev = b0; for b in bars[1:]: deltas.append(...); prev = b *)
Fixpoint deltas_from (prev : Bar) (bars : list Bar) : list (list Z) :=
  match bars with
  | [] => []
  | b :: bars' => delta prev b :: deltas_from b bars'
  end.

(* while j < len(deltas) and deltas[j] == tup and run < 10_000_000:
       run += 1; j += 1
   [rest] is [deltas[j:]]; the result is the final [run] and [deltas[j:]]. *)
Fixpoint scan_run (tup : list Z) (rest : list (list Z)) (run : Z)
  : Z * list (list Z) :=
  match rest with
  | d :: rest' =>
      if tuple_eqb d tup && (run <? RUN_CAP)
      then scan_run tup rest' (run + 1)
      else (run, rest)
  | [] => (run, rest)
  end.

(* for _ in range(run): out += b"\x01"; for x in tup: out += ... *)
Fixpoint literal_blocks (k : nat) (bt : list Z) : list Z :=
  match k with
  | O => []
  | S k' => (1 :: bt) ++ literal_blocks k' bt
  end.

(* The body of [while i < len(deltas)]; [deltas] is [deltas[i:]]. *)
Fixpoint encode_body (fuel : nat) (deltas : list (list Z))
  : option (list Z) :=
  match deltas with
  | [] => Some []
  | tup :: after =>
      match fuel with
      | O => None
      | S fuel' =>
          let '(run, rest) := scan_run tup after 1 in
          let? blk <-
            (if run >=? 3
             then let? br <- varint_encode run;
                  let? bt <- write_tuple tup;
                  Some (0 :: br ++ bt)
             else let? bt <- write_tuple tup;
                  Some (literal_blocks (Z.to_nat run) bt));
          let? more <- encode_body fuel' rest;
          Some (blk ++ more)
      end
  end.

(* encode_star(bars, price_scale); the returned [meta] dictionary only
   repeats the arguments and is left out.  [None]: no return. *)
Definition encode_star (bars : list Bar) (price_scale : Z)
  : option (list Z) :=
  match bars with
  | [] =>
      let? bn <- varint_encode 0;
      Some (MAGIC ++ bn)
  | b0 :: rest =>
      let? bn <- varint_encode (Z.of_nat (length bars));
      let? bp <- varint_encode price_scale;
      let? bb <- write_tuple (fields b0);
      let deltas := deltas_from b0 rest in
      let? body <- encode_body (length deltas) deltas;
      Some (MAGIC ++ bn ++ bp ++ bb ++ body)
  end.

(* d, o, h, l, c, v = base; Bar(d, o, h, l, c, v).  The list always
   holds the six values appended just before. *)
Definition bar_of_fields (t : list Z) : Bar :=
  mkBar (nth 0 t 0) (nth 1 t 0) (nth 2 t 0) (nth 3 t 0) (nth 4 t 0) (nth 5 t 0).

(* dd, do, dh, dl, dc, dv = tup; Bar(prev.d_days + dd, prev.o + do, ...) *)
Definition add_delta (prev : Bar) (tup : list Z) : Bar :=
  mkBar (d_days prev + nth 0 tup 0) (o prev + nth 1 tup 0)
        (h prev + nth 2 tup 0) (l prev + nth 3 tup 0)
        (c prev + nth 4 tup 0) (v prev + nth 5 tup 0).

(* for _ in range(int(run)): prev = bars[-1]; bars.append(prev + tup) *)
Fixpoint append_run (k : nat) (tup : list Z) (bars : list Bar) : list Bar :=
  match k with
  | O => bars
  | S k' => append_run k' tup (bars ++ [add_delta (last bars bar0) tup])
  end.

(* while len(bars) < n: ... *)
Fixpoint decode_body (fuel : nat) (buf : list Z) (i : nat) (n : Z)
         (bars : list Bar) : result (list Bar) :=
  if Z.of_nat (length bars) <? n then
    match fuel with
    | O => Err OutOfFuel
    | S fuel' =>
        match nth_error buf i with
        | None => Err TruncatedBody
        | Some tag =>
            let i := S i in
            if tag =? 0 then
              do (run, i) <- varint_decode buf i;
              do (tup, i) <- read_tuple_with 63 6 buf i;
              decode_body fuel' buf i n (append_run (Z.to_nat run) tup bars)
            else if tag =? 1 then
              do (tup, i) <- read_tuple_with 63 6 buf i;
              decode_body fuel' buf i n
                          (bars ++ [add_delta (last bars bar0) tup])
            else Err BadTag
        end
    end
  else OK bars.

(* decode_star(buf) -> (bars, meta); [meta] is [(n, price_scale)], with
   no price_scale entry on the [n == 0] path. *)
Definition decode_star (buf : list Z) : result (list Bar * (Z * option Z)) :=
  if negb (tuple_eqb (firstn 5 buf) MAGIC) then Err BadMagic
  else
    do (n, i) <- varint_decode buf 5;
    if n =? 0 then OK ([], (0, None))
    else
      do (price_scale, i) <- varint_decode buf i;
      do (base, i) <- read_tuple_with 63 6 buf i;
      do bars <- decode_body (S (length buf)) buf i n [bar_of_fields base];
      OK (bars, (n, Some price_scale)).

End Case01.

(** ** Case-01 index builder ([star_index_case01.py]) *)

Module Index01.
Import Prim.
Export Case01.

(* (row_index, byte_offset, snapshot) *)
Definition anchor : Type := (Z * nat * Bar)%type.

(* parse_star1_header(buf) -> (n, price_scale, base, i) *)
Definition parse_star1_header (buf : list Z) : result (Z * Z * Bar * nat) :=
  if negb (tuple_eqb (firstn 5 buf) MAGIC) then Err BadMagic
  else
    do (n, i) <- varint_decode buf 5;
    if n =? 0 then OK (0, 0, bar0, i)
    else
      do (price_scale, i) <- varint_decode buf i;
      do (vals, i) <- read_tuple_with 63 6 buf i;
      OK (n, price_scale, bar_of_fields vals, i).

(* decode_block(buf, i) -> (dd, do, dh, dl, dc, dv, run, new_i) *)
Definition decode_block (buf : list Z) (i : nat)
  : result (list Z * Z * nat) :=
  match nth_error buf i with
  | None => Err TruncatedBody
  | Some tag =>
      let i := S i in
      if tag =? 0 then
        do (run, i) <- varint_decode buf i;
        do (vals, i) <- read_tuple_with 63 6 buf i;
        OK (vals, run, i)
      else if tag =? 1 then
        do (vals, i) <- read_tuple_with 63 6 buf i;
        OK (vals, 1, i)
      else Err BadTag
  end.

(* for _ in range(run):
       cur = Bar(cur + d); row += 1
       if row >= n_rows: break *)
Fixpoint apply_run (k : nat) (tup : list Z) (n_rows : Z) (cur : Bar) (row : Z)
  : Bar * Z :=
  match k with
  | O => (cur, row)
  | S k' =>
      let cur := add_delta cur tup in
      let row := row + 1 in
      if row >=? n_rows then (cur, row)
      else apply_run k' tup n_rows cur row
  end.

Definition last_row (anchors : list anchor) : Z :=
  fst (fst (last anchors (0, O, bar0))).

(* while row < n_rows - 1: ... *)
Fixpoint index_loop (fuel : nat) (buf : list Z) (anchor_every n_rows : Z)
         (row : Z) (pos : nat) (cur : Bar) (anchors : list anchor)
  : result (Z * nat * Bar * list anchor) :=
  if row <? n_rows - 1 then
    match fuel with
    | O => Err OutOfFuel
    | S fuel' =>
        if anchor_every =? 0 then Err ZeroDivision
        else
          let anchors :=
            if row mod anchor_every =? 0 then
              if negb ((row =? 0)
                       && negb (Nat.eqb (length anchors) 0)
                       && (last_row anchors =? 0))
              then anchors ++ [(row, pos, cur)]
              else anchors
            else anchors in
          do (tr, pos2) <- decode_block buf pos;
          let '(tup, run) := tr in
          let '(cur, row) := apply_run (Z.to_nat run) tup n_rows cur row in
          let pos := pos2 in
          if (length buf <? pos)%nat then Err InternalError
          else index_loop fuel' buf anchor_every n_rows row pos cur anchors
    end
  else OK (row, pos, cur, anchors).

(* build_index(star_path, anchor_every) -> (n_rows, anchors); [buf] is
   the content of the file at [star_path]. *)
Definition build_index (buf : list Z) (anchor_every : Z)
  : result (Z * list anchor) :=
  do (hdr, body_i) <- parse_star1_header buf;
  let '(n_rows, price_scale, base) := hdr in
  if n_rows =? 0 then OK (0, [(0, body_i, base)])
  else
    let anchors := [(0, body_i, base)] in
    do (st, anchors) <-
       index_loop (S (length buf)) buf anchor_every n_rows 0 body_i base anchors;
    let '(row, pos, cur) := st in
    let anchors :=
      if negb (last_row anchors =? row) then anchors ++ [(row, pos, cur)]
      else anchors in
    OK (n_rows, anchors).

End Index01.

(** ** Case-01 seek and replay ([star_replay_case01.py]) *)

Module Replay01.
Import Prim Struct.
Export Index01.

(* def want_now(row_i, bar) *)
Definition want_now (seek_row seek_days : option Z) (row_i : Z) (bar : Bar)
  : bool :=
  match seek_row with
  | Some sr => row_i >=? sr
  | None =>
      match seek_days with
      | Some sd => d_days bar >=? sd
      | None => true
      end
  end.

(* for _ in range(run):
       cur = Bar(cur + d); row += 1
       if want_now(row, cur):
           results.append((row, cur))
           if len(results) >= out_rows: break
       if row >= n_rows - 1: break *)
Fixpoint replay_run (k : nat) (tup : list Z) (n_rows : Z)
         (seek_row seek_days : option Z) (out_rows : Z)
         (cur : Bar) (row : Z) (results : list (Z * Bar))
  : Bar * Z * list (Z * Bar) :=
  match k with
  | O => (cur, row, results)
  | S k' =>
      let cur := add_delta cur tup in
      let row := row + 1 in
      if want_now seek_row seek_days row cur then
        let results := results ++ [(row, cur)] in
        if Z.of_nat (length results) >=? out_rows then (cur, row, results)
        else if row >=? n_rows - 1 then (cur, row, results)
        else replay_run k' tup n_rows seek_row seek_days out_rows cur row results
      else if row >=? n_rows - 1 then (cur, row, results)
      else replay_run k' tup n_rows seek_row seek_days out_rows cur row results
  end.

(* while row < n_rows - 1 and len(results) < out_rows: ... *)
Fixpoint replay_loop (fuel : nat) (star_buf : list Z) (n_rows : Z)
         (seek_row seek_days : option Z) (out_rows : Z)
         (row : Z) (pos : nat) (cur : Bar) (results : list (Z * Bar))
  : result (list (Z * Bar)) :=
  if (row <? n_rows - 1) && (Z.of_nat (length results) <? out_rows) then
    match fuel with
    | O => Err OutOfFuel
    | S fuel' =>
        do (tr, pos2) <- decode_block star_buf pos;
        let '(tup, run) := tr in
        let '(cr, results) :=
          replay_run (Z.to_nat run) tup n_rows seek_row seek_days out_rows
                     cur row results in
        let '(cur, row) := cr in
        replay_loop fuel' star_buf n_rows seek_row seek_days out_rows
                    row pos2 cur results
    end
  else OK results.

(* replay_from(star_buf, start_row, start_pos, start_bar, n_rows,
               seek_row, seek_days, out_rows) *)
Definition replay_from (star_buf : list Z) (start_row : Z) (start_pos : nat)
           (start_bar : Bar) (n_rows : Z) (seek_row seek_days : option Z)
           (out_rows : Z) : result (list (Z * Bar)) :=
  let results :=
    if want_now seek_row seek_days start_row start_bar
    then [(start_row, start_bar)] else [] in
  replay_loop (S (length star_buf)) star_buf n_rows seek_row seek_days
              out_rows start_row start_pos start_bar results.

(* for _ in range(n_anchors):
       row_i, byte_off, d_days, o, h, l, c, v = unpack_from("<IIiqqqqq", b, off)
       off += 52 *)
Fixpoint load_anchors (count : nat) (b : list Z) (off : nat)
  : result (list (Z * Z * Bar)) :=
  match count with
  | O => OK []
  | S count' =>
      if (off + 52 <=? length b)%nat then
        do row_i <- unpack_unsigned 4 b off;
        do byte_off <- unpack_unsigned 4 b (off + 4);
        do dd <- unpack_signed 4 b (off + 8);
        do vo <- unpack_signed 8 b (off + 12);
        do vh <- unpack_signed 8 b (off + 20);
        do vl <- unpack_signed 8 b (off + 28);
        do vc <- unpack_signed 8 b (off + 36);
        do vv <- unpack_signed 8 b (off + 44);
        do more <- load_anchors count' b (off + 52);
        OK ((row_i, byte_off, mkBar dd vo vh vl vc vv) :: more)
      else Err StructError
  end.

(* load_index(idx_path) -> (anchor_every, n_rows, anchors, row_keys,
   day_keys); [b] is the content of the index file *)
Definition load_index (b : list Z)
  : result (Z * Z * list (Z * Z * Bar) * list Z * list Z) :=
  if negb (tuple_eqb (firstn 5 b) (bytes_of_string "SIDX1"))
  then Err BadIndexMagic
  else if negb (tuple_eqb (firstn 7 (skipn 5 b)) (bytes_of_string "CASE01" ++ [0]))
  then Err BadIndexCase
  else if negb (24 <=? length b)%nat then Err StructError
  else
    do anchor_every <- unpack_unsigned 4 b 12;
    do n_rows <- unpack_unsigned 4 b 16;
    do n_anchors <- unpack_unsigned 4 b 20;
    do anchors <- load_anchors (Z.to_nat n_anchors) b 24;
    OK (anchor_every, n_rows, anchors,
        map (fun a => fst (fst a)) anchors,
        map (fun a => d_days (snd a)) anchors).

(* bisect.bisect_right(a, x):
     lo, hi = 0, len(a)
     while lo < hi:
         mid = (lo + hi) // 2
         if x < a[mid]: hi = mid
         else: lo = mid + 1
     return lo *)
Fixpoint bisect_loop (fuel : nat) (a : list Z) (x : Z) (lo hi : nat) : nat :=
  match fuel with
  | O => lo
  | S fuel' =>
      if (lo <? hi)%nat then
        let mid := ((lo + hi) / 2)%nat in
        if x <? nth mid a 0 then bisect_loop fuel' a x lo mid
        else bisect_loop fuel' a x (mid + 1) hi
      else lo
  end.

Definition bisect_right (a : list Z) (x : Z) : nat :=
  bisect_loop (S (length a)) a x 0 (length a).

(* the parsed command line *)
Record args : Type := mkArgs
  { a_seek_row : option Z; a_seek_time : option string; a_rows : Z }.

(* what main prints on standard output *)
Inductive line : Type :=
| LFromRow (seek_row : Z) (count : nat)      (* "Replay from row ..." *)
| LFromTime (seek_time : string) (count : nat)
| LBar (s : string).

Section Script.
(* date_to_days(s), fmt_bar(b, price_scale): [None] when they raise *)
Variable date_to_days : string -> option Z.
Variable fmt_bar : Bar -> Z -> option string.

(* for _, b in rows_out: print(" ", fmt_bar(b, price_scale)) *)
Fixpoint print_rows (rows_out : list (Z * Bar)) (price_scale : Z)
         (out : list line) : list line * result unit :=
  match rows_out with
  | [] => (out, OK tt)
  | (_, b) :: rows' =>
      match fmt_bar b price_scale with
      | None => (out, Err DateError)
      | Some s => print_rows rows' price_scale (out ++ [LBar s])
      end
  end.

(* main(); [star_buf] and [idx] are the contents of the files named
   by --star and --idx *)
Definition main (star_buf idx : list Z) (a : args) : list line * result unit :=
  match a_seek_row a, a_seek_time a with
  | None, None => ([], Err NoSeekKey)
  | _, _ =>
      match parse_star1_header star_buf with
      | Err e => ([], Err e)
      | OK (n_rows, price_scale, base, body_i) =>
          match load_index idx with
          | Err e => ([], Err e)
          | OK (anchor_every, n_rows_idx, anchors, row_keys, day_keys) =>
              if negb (n_rows_idx =? n_rows) then ([], Err IndexMismatch)
              else
                let seek_row := a_seek_row a in
                match
                  (match a_seek_time a with
                   | Some (String c s) =>
                       match date_to_days (String c s) with
                       | Some d => OK (Some d)
                       | None => Err DateError
                       end
                   | _ => OK None
                   end) with
                | Err e => ([], Err e)
                | OK seek_days =>
                    match
                      (match seek_row, seek_days with
                       | Some r, _ => OK (bisect_right row_keys r)
                       | None, Some d => OK (bisect_right day_keys d)
                       | None, None =>
                           match day_keys with
                           | [] => OK 0%nat
                           | _ :: _ => Err TypeError
                           end
                       end) with
                    | Err e => ([], Err e)
                    | OK j1 =>
(* j = j1 - 1; if j < 0: j = 0 *)
match nth_error anchors (j1 - 1) with
| None => ([], Err IndexError)
| Some (a_row, a_off, a_bar) =>
    match replay_from star_buf a_row (Z.to_nat a_off)
            a_bar n_rows seek_row seek_days (a_rows a) with
    | Err e => ([], Err e)
    | OK rows_out =>
        print_rows rows_out price_scale
          [match seek_row with
           | Some r => LFromRow r (length rows_out)
           | None =>
               LFromTime
                 (match a_seek_time a with
                  | Some s => s
                  | None => EmptyString
                  end)
                 (length rows_out)
           end]
    end
end
end
end
end
end
end.

End Script.

End Replay01.

(** ** Case-02: air-quality ticks ([star_case02_airquality_replay.py]) *)

Module Case02.
Import Prim.

Record AirTick : Type := mkAirTick
  { t_min : Z; co_x10 : Z; c6h6_x10 : Z; nox : Z;
    no2 : Z; t_x10 : Z; rh_x10 : Z; ah_x1000 : Z }.

Definition tick0 : AirTick := mkAirTick 0 0 0 0 0 0 0 0.

Definition STAR_MAGIC : list Z := bytes_of_string "STAR2A".

(* "varint too long" is raised when [shift > 70] *)
Definition varint_decode : list Z -> nat -> result (Z * nat) :=
  varint_decode_with 70.

(* base_vals = [base.t_min, base.co_x10, ...] *)
Definition fields (t : AirTick) : list Z :=
  [t_min t; co_x10 t; c6h6_x10 t; nox t; no2 t; t_x10 t; rh_x10 t; ah_x1000 t].

(* def deltas(prev, cur) *)
Definition deltas (prev cur : AirTick) : list Z :=
  [t_min cur - t_min prev; co_x10 cur - co_x10 prev;
   c6h6_x10 cur - c6h6_x10 prev; nox cur - nox prev; no2 cur - no2 prev;
   t_x10 cur - t_x10 prev; rh_x10 cur - rh_x10 prev;
   ah_x1000 cur - ah_x1000 prev].

(* while j < len(ticks):
       nxt = ticks[j]
       if deltas(cur, nxt) == dtup: run += 1; cur = nxt; j += 1
       else: break
   [rest] is [ticks[j:]]; the result is [run], the last [cur] and
   [ticks[j:]] at the exit. *)
Fixpoint scan_run (dtup : list Z) (cur : AirTick) (rest : list AirTick)
         (run : Z) : Z * AirTick * list AirTick :=
  match rest with
  | nxt :: rest' =>
      if tuple_eqb (deltas cur nxt) dtup
      then scan_run dtup nxt rest' (run + 1)
      else (run, cur, rest)
  | [] => (run, cur, rest)
  end.

(* while i < len(ticks): prev = ticks[i - 1]; cur = ticks[i]; ...
   [prev] is [ticks[i - 1]] and [rest] is [ticks[i:]].  After a run,
   [i += run] makes the last tick of the run the new [prev]; after a
   literal, [i += 1]. *)
Fixpoint encode_body (fuel : nat) (prev : AirTick) (rest : list AirTick)
  : option (list Z) :=
  match rest with
  | [] => Some []
  | cur :: after =>
      match fuel with
      | O => None
      | S fuel' =>
          let dtup := deltas prev cur in
          let '(run, cur_end, rest_end) := scan_run dtup cur after 1 in
          if run >=? 3 then
            let? br <- varint_encode run;
            let? bt <- write_tuple dtup;
            let? more <- encode_body fuel' cur_end rest_end;
            Some (0 :: br ++ bt ++ more)
          else
            let? bt <- write_tuple dtup;
            let? more <- encode_body fuel' cur after;
            Some (1 :: bt ++ more)
      end
  end.

(* encode_star(ticks) *)
Definition encode_star (ticks : list AirTick) : option (list Z) :=
  match ticks with
  | [] =>
      let? bn <- varint_encode 0;
      Some (STAR_MAGIC ++ bn)
  | base :: rest =>
      let? bn <- varint_encode (Z.of_nat (length ticks));
      let? bb <- write_tuple (fields base);
      let? body <- encode_body (length rest) base rest;
      Some (STAR_MAGIC ++ bn ++ bb ++ body)
  end.

(* t_min, co_x10, ... = base_vals; AirTick(t_min, co_x10, ...) *)
Definition tick_of_fields (t : list Z) : AirTick :=
  mkAirTick (nth 0 t 0) (nth 1 t 0) (nth 2 t 0) (nth 3 t 0)
            (nth 4 t 0) (nth 5 t 0) (nth 6 t 0) (nth 7 t 0).

(* dt, dco, ... = tup; AirTick(prev.t_min + dt, prev.co_x10 + dco, ...) *)
Definition add_delta (prev : AirTick) (tup : list Z) : AirTick :=
  mkAirTick (t_min prev + nth 0 tup 0) (co_x10 prev + nth 1 tup 0)
            (c6h6_x10 prev + nth 2 tup 0) (nox prev + nth 3 tup 0)
            (no2 prev + nth 4 tup 0) (t_x10 prev + nth 5 tup 0)
            (rh_x10 prev + nth 6 tup 0) (ah_x1000 prev + nth 7 tup 0).

(* The common start of the two tag branches, in every loop over a
   Case-02 body: the tag byte, then the run length of a tag-0 block,
   then eight zig-zag varints.  A literal counts as a run of one. *)
Definition read_block (buf : list Z) (pos : nat)
  : result (bool * Z * list Z * nat) :=
  match nth_error buf pos with
  | None => Err TruncatedBody
  | Some tag =>
      let pos := S pos in
      if tag =? 0 then
        do (run_u, pos) <- varint_decode buf pos;
        do (tup, pos) <- read_tuple_with 70 8 buf pos;
        OK (true, run_u, tup, pos)
      else if tag =? 1 then
        do (tup, pos) <- read_tuple_with 70 8 buf pos;
        OK (false, 1, tup, pos)
      else Err BadTag
  end.

(* for _ in range(run_len):
       ticks.append(ticks[-1] + tup)
       if len(ticks) >= n: break *)
Fixpoint append_run (k : nat) (tup : list Z) (n : Z) (ticks : list AirTick)
  : list AirTick :=
  match k with
  | O => ticks
  | S k' =>
      let ticks := ticks ++ [add_delta (last ticks tick0) tup] in
      if Z.of_nat (length ticks) >=? n then ticks
      else append_run k' tup n ticks
  end.

(* while len(ticks) < n: ... *)
Fixpoint decode_body (fuel : nat) (buf : list Z) (i : nat) (n : Z)
         (ticks : list AirTick) : result (list AirTick) :=
  if Z.of_nat (length ticks) <? n then
    match fuel with
    | O => Err OutOfFuel
    | S fuel' =>
        do (blk, i) <- read_block buf i;
        let '(rle, run_len, tup) := blk in
        if rle then
          decode_body fuel' buf i n (append_run (Z.to_nat run_len) tup n ticks)
        else
          decode_body fuel' buf i n
                      (ticks ++ [add_delta (last ticks tick0) tup])
    end
  else OK ticks.

(* decode_star(buf) *)
Definition decode_star (buf : list Z) : result (list AirTick) :=
  if negb (tuple_eqb (firstn 6 buf) STAR_MAGIC) then Err BadMagic
  else
    do (n, i) <- varint_decode buf 6;
    if n =? 0 then OK []
    else
      do (base_vals, i) <- read_tuple_with 70 8 buf i;
      decode_body (S (length buf)) buf i n [tick_of_fields base_vals].

End Case02.

(** ** Case-02 index builder ([star_index_case02.py]) *)

Module Index02.
Import Prim Struct.
Export Case02.

Definition INDEX_MAGIC : list Z := bytes_of_string "STARIDX2".
Definition INDEX_VERSION : Z := 1.

(* (row, byte_offset, snapshot) *)
Definition anchor : Type := (Z * nat * AirTick)%type.

(* for _ in range(run_len):
       if cur_row >= n - 1: break
       cur = cur + tup; cur_row += 1 *)
Fixpoint index_run (k : nat) (tup : list Z) (n : Z) (cur : AirTick)
         (cur_row : Z) : AirTick * Z :=
  match k with
  | O => (cur, cur_row)
  | S k' =>
      if cur_row >=? n - 1 then (cur, cur_row)
      else index_run k' tup n (add_delta cur tup) (cur_row + 1)
  end.

(* while cur_row < n - 1: ... ; the anchor is recorded after the block,
   when [cur_row % anchor_every == 0]. *)
Fixpoint index_loop (fuel : nat) (buf : list Z) (anchor_every n : Z)
         (cur_row : Z) (pos : nat) (cur : AirTick) (anchors : list anchor)
  : result (list anchor) :=
  if cur_row <? n - 1 then
    match fuel with
    | O => Err OutOfFuel
    | S fuel' =>
        do (blk, pos) <- read_block buf pos;
        let '(rle, run_len, tup) := blk in
        let '(cur, cur_row) :=
          if rle then index_run (Z.to_nat run_len) tup n cur cur_row
          else (add_delta cur tup, cur_row + 1) in
        let anchors :=
          if cur_row mod anchor_every =? 0
          then anchors ++ [(cur_row, pos, cur)] else anchors in
        index_loop fuel' buf anchor_every n cur_row pos cur anchors
    end
  else OK anchors.

(* The part of build_index that walks the STAR file: (n, anchors). *)
Definition build_anchors (buf : list Z) (anchor_every : Z)
  : result (Z * list anchor) :=
  if anchor_every <=? 0 then Err BadAnchorEvery
  else if negb (tuple_eqb (firstn 6 buf) STAR_MAGIC) then Err BadMagic
  else
    do (n, i) <- varint_decode buf 6;
    if n =? 0 then OK (n, [(0, i, tick0)])
    else
      do (base_vals, i) <- read_tuple_with 70 8 buf i;
      let cur := tick_of_fields base_vals in
      do anchors <- index_loop (S (length buf)) buf anchor_every n 0 i cur
                               [(0, i, cur)];
      OK (n, anchors).

Fixpoint pack_all (k : nat) (vs : list Z) : result (list Z) :=
  match vs with
  | [] => OK []
  | v :: vs' =>
      do b <- pack_signed k v;
      do bs <- pack_all k vs';
      OK (b ++ bs)
  end.

(* for row, off, tk in anchors: f.write(struct.pack("<Q", row)) ... *)
Fixpoint pack_anchors (anchors : list anchor) : result (list Z) :=
  match anchors with
  | [] => OK []
  | (row, off, tk) :: anchors' =>
      do br <- pack_unsigned 8 row;
      do bo <- pack_unsigned 8 (Z.of_nat off);
      do bt <- pack_all 8 (fields tk);
      do more <- pack_anchors anchors';
      OK (br ++ bo ++ bt ++ more)
  end.

(* The part of build_index that writes the index file. *)
Definition write_index (anchor_every n : Z) (anchors : list anchor)
  : result (list Z) :=
  do bv <- pack_unsigned 1 INDEX_VERSION;
  do be <- pack_unsigned 4 anchor_every;
  do bn <- pack_unsigned 8 n;
  do bc <- pack_unsigned 4 (Z.of_nat (length anchors));
  do ba <- pack_anchors anchors;
  OK (INDEX_MAGIC ++ bv ++ be ++ bn ++ bc ++ ba).

(* build_index(star_path, out_path, anchor_every): the bytes written to
   [out_path], for [buf] the content of [star_path]. *)
Definition build_index (buf : list Z) (anchor_every : Z) : result (list Z) :=
  do (n, anchors) <- build_anchors buf anchor_every;
  write_index anchor_every n anchors.

End Index02.

(** ** Case-02 seek and replay ([star_replay_case02.py]) *)

Module Replay02.
Import Prim Struct.
Export Index02.

Fixpoint unpack_all (k count : nat) (b : list Z) (p : nat) : result (list Z) :=
  match count with
  | O => OK []
  | S count' =>
      do v <- unpack_signed k b p;
      do vs <- unpack_all k count' b (p + k);
      OK (v :: vs)
  end.

(* for _ in range(nanchors): row, off, vals = unpack ...; p += ... *)
Fixpoint load_anchors (count : nat) (b : list Z) (p : nat)
  : result (list anchor) :=
  match count with
  | O => OK []
  | S count' =>
      do row <- unpack_unsigned 8 b p;
      do off <- unpack_unsigned 8 b (p + 8);
      do vals <- unpack_all 8 8 b (p + 16);
      do more <- load_anchors count' b (p + 80);
      OK ((row, Z.to_nat off, tick_of_fields vals) :: more)
  end.

(* load_index(idx_path) -> (anchor_every, nrows, anchors); [b] is the
   content of the index file. *)
Definition load_index (b : list Z) : result (Z * Z * list anchor) :=
  if negb (tuple_eqb (firstn 8 b) INDEX_MAGIC) then Err BadIndexMagic
  else
    do ver <- unpack_unsigned 1 b 8;
    if negb (ver =? INDEX_VERSION) then Err BadIndexVersion
    else
      do anchor_every <- unpack_unsigned 4 b 9;
      do nrows <- unpack_unsigned 8 b 13;
      do nanchors <- unpack_unsigned 4 b 21;
      do anchors <- load_anchors (Z.to_nat nanchors) b 25;
      OK (anchor_every, nrows, anchors).

(* best = 0
   for k in range(len(anchors)):
       if anchors[k][0] <= seek_row: best = k
       else: break *)
Fixpoint best_anchor (anchors : list anchor) (seek_row : Z) (k best : nat)
  : nat :=
  match anchors with
  | [] => best
  | (row, _, _) :: anchors' =>
      if row <=? seek_row then best_anchor anchors' seek_row (S k) k
      else best
  end.

(* for _ in range(run_len):
       if cur_row >= seek_row: break
       cur = cur + tup; cur_row += 1 *)
Fixpoint skip_run (k : nat) (tup : list Z) (seek_row : Z) (cur : AirTick)
         (cur_row : Z) : AirTick * Z :=
  match k with
  | O => (cur, cur_row)
  | S k' =>
      if cur_row >=? seek_row then (cur, cur_row)
      else skip_run k' tup seek_row (add_delta cur tup) (cur_row + 1)
  end.

(* while cur_row < seek_row: ... *)
Fixpoint skip_loop (fuel : nat) (buf : list Z) (seek_row : Z)
         (cur_row : Z) (pos : nat) (cur : AirTick)
  : result (Z * nat * AirTick) :=
  if cur_row <? seek_row then
    match fuel with
    | O => Err OutOfFuel
    | S fuel' =>
        do (blk, pos) <- read_block buf pos;
        let '(rle, run_len, tup) := blk in
        let '(cur, cur_row) :=
          if rle then skip_run (Z.to_nat run_len) tup seek_row cur cur_row
          else (add_delta cur tup, cur_row + 1) in
        skip_loop fuel' buf seek_row cur_row pos cur
    end
  else OK (cur_row, pos, cur).

(* for _ in range(run_len):
       if cur_row >= target_end - 1: break
       cur = cur + tup; cur_row += 1; out.append(cur) *)
Fixpoint emit_run (k : nat) (tup : list Z) (target_end : Z) (cur : AirTick)
         (cur_row : Z) (out : list AirTick) : AirTick * Z * list AirTick :=
  match k with
  | O => (cur, cur_row, out)
  | S k' =>
      if cur_row >=? target_end - 1 then (cur, cur_row, out)
      else
        let cur := add_delta cur tup in
        emit_run k' tup target_end cur (cur_row + 1) (out ++ [cur])
  end.

(* while cur_row < target_end - 1:
       if pos >= len(buf): break
       ... *)
Fixpoint emit_loop (fuel : nat) (buf : list Z) (target_end : Z)
         (cur_row : Z) (pos : nat) (cur : AirTick) (out : list AirTick)
  : result (list AirTick) :=
  if cur_row <? target_end - 1 then
    match fuel with
    | O => Err OutOfFuel
    | S fuel' =>
        if (length buf <=? pos)%nat then OK out
        else
          do (blk, pos) <- read_block buf pos;
          let '(rle, run_len, tup) := blk in
          let '(cr, out) :=
            if rle then emit_run (Z.to_nat run_len) tup target_end cur cur_row out
            else
              let cur := add_delta cur tup in
              (cur, cur_row + 1, out ++ [cur]) in
          let '(cur, cur_row) := cr in
          emit_loop fuel' buf target_end cur_row pos cur out
    end
  else OK out.

(* replay_seek after the two files are read and the index is loaded *)
Definition replay_loaded (buf : list Z) (nrows : Z) (anchors : list anchor)
           (seek_row : option Z) (rows : Z) : result (list AirTick) :=
  if nrows =? 0 then OK []
  else
    let seek_row := match seek_row with Some s => s | None => 0 end in
    let seek_row := if seek_row <? 0 then 0 else seek_row in
    if seek_row >=? nrows then OK []
    else
      let best := best_anchor anchors seek_row 0 0 in
      match nth_error anchors best with
      | None => Err IndexError
      | Some (a_row, a_off, a_tick) =>
          do (st, cur) <-
             skip_loop (S (length buf)) buf seek_row a_row a_off a_tick;
          let '(cur_row, pos) := st in
          let target_end := Z.min nrows (seek_row + rows) in
          emit_loop (S (length buf)) buf target_end cur_row pos cur [cur]
      end.

(* replay_seek(star_path, idx_path, seek_row, rows); [buf] and [idx]
   are the contents of the two files. *)
Definition replay_seek (buf idx : list Z) (seek_row : option Z) (rows : Z)
  : result (list AirTick) :=
  if negb (tuple_eqb (firstn 6 buf) STAR_MAGIC) then Err BadMagic
  else
    do (hdr, anchors) <- load_index idx;
    let '(anchor_every, nrows) := hdr in
    replay_loaded buf nrows anchors seek_row rows.

End Replay02.

(** ** Case-04: crypto transaction records ([star_case04_crypto_replay.py])

    A Python [str] is the list of its code points.  [s.encode("utf-8")]
    raises on a lone surrogate, and [b.decode("utf-8")] on bytes that
    are not well-formed UTF-8: both are modelled, with the byte patterns
    of the codec. *)

Module Case04.
Import Prim Struct.

(* MAGIC8 = b"STAR4\x04OF" *)
Definition MAGIC8 : list Z := [83; 84; 65; 82; 52; 4; 79; 70].

Inductive dict_col : Type :=
| Mining_Pool_col | Currency_col | Transaction_Type_col | Transaction_Status_col.

(* DICT_COLS = ("Mining_Pool", "Currency", "Transaction_Type", "Transaction_Status") *)
Definition DICT_COLS : list dict_col :=
  [Mining_Pool_col; Currency_col; Transaction_Type_col; Transaction_Status_col].

(* a str: its code points, each in 0 .. 0x10FFFF *)
Definition str : Type := list Z.

(* A row: the dictionary with the twelve keys of [need]. *)
Record Row : Type := mkRow
  { Transaction_ID : str; Sender_Address : str;
    Receiver_Address : str; Amount : str; Transaction_Fee : str;
    Timestamp : str; Block_ID : str; Mining_Pool : str;
    Currency : str; Transaction_Type : str;
    Transaction_Status : str; Gas_Price_Gwei : str }.

(* row[col] for a dictionary column *)
Definition get_col (col : dict_col) (row : Row) : str :=
  match col with
  | Mining_Pool_col => Mining_Pool row
  | Currency_col => Currency row
  | Transaction_Type_col => Transaction_Type row
  | Transaction_Status_col => Transaction_Status row
  end.

(* the UTF-8 bytes of a code point: one byte below U+0080, two below
   U+0800, three below U+10000, four up to U+10FFFF; [None] for a
   surrogate (U+D800 .. U+DFFF), which the codec refuses, and for an
   integer that is no code point *)
Definition encode_point (c : Z) : option (list Z) :=
  if c <? 0 then None
  else if c <? 128 then Some [c]
  else if c <? 2048 then Some [192 + c / 64; 128 + c mod 64]
  else if c <? 65536 then
    if (55296 <=? c) && (c <=? 57343) then None
    else Some [224 + c / 4096; 128 + (c / 64) mod 64; 128 + c mod 64]
  else if c <? 1114112 then
    Some [240 + c / 262144; 128 + (c / 4096) mod 64;
          128 + (c / 64) mod 64; 128 + c mod 64]
  else None.

(* s.encode("utf-8") *)
Fixpoint encode_utf8 (s : str) : result (list Z) :=
  match s with
  | [] => OK []
  | c :: s' =>
      match encode_point c with
      | None => Err UnicodeEncodeError
      | Some b => do more <- encode_utf8 s'; OK (b ++ more)
      end
  end.

(* lo <= b <= hi *)
Definition between (lo hi b : Z) : bool := (lo <=? b) && (b <=? hi).

(* b.decode("utf-8"), strict: the well-formed byte sequences only.
   A lead byte C2..DF takes one continuation byte 80..BF, E0..EF two,
   F0..F4 three; the first continuation byte is narrowed after E0
   (A0..BF: no overlong form), ED (80..9F: no surrogate), F0 (90..BF)
   and F4 (80..8F: nothing above U+10FFFF). *)
Fixpoint decode_utf8 (b : list Z) : result str :=
  match b with
  | [] => OK []
  | b0 :: r0 =>
      if between 0 127 b0 then
        do s <- decode_utf8 r0; OK (b0 :: s)
      else if between 194 223 b0 then
        match r0 with
        | b1 :: r1 =>
            if between 128 191 b1 then
              do s <- decode_utf8 r1;
              OK ((b0 - 192) * 64 + (b1 - 128) :: s)
            else Err UnicodeDecodeError
        | _ => Err UnicodeDecodeError
        end
      else if between 224 239 b0 then
        match r0 with
        | b1 :: b2 :: r2 =>
            if between (if b0 =? 224 then 160 else 128)
                       (if b0 =? 237 then 159 else 191) b1
               && between 128 191 b2 then
              do s <- decode_utf8 r2;
              OK ((b0 - 224) * 4096 + (b1 - 128) * 64 + (b2 - 128) :: s)
            else Err UnicodeDecodeError
        | _ => Err UnicodeDecodeError
        end
      else if between 240 244 b0 then
        match r0 with
        | b1 :: b2 :: b3 :: r3 =>
            if between (if b0 =? 240 then 144 else 128)
                       (if b0 =? 244 then 143 else 191) b1
               && between 128 191 b2 && between 128 191 b3 then
              do s <- decode_utf8 r3;
              OK ((b0 - 240) * 262144 + (b1 - 128) * 4096
                  + (b2 - 128) * 64 + (b3 - 128) :: s)
            else Err UnicodeDecodeError
        | _ => Err UnicodeDecodeError
        end
      else Err UnicodeDecodeError
  end.

(* def write_uvarint(out, n): the bytes appended to [out] *)
Definition write_uvarint (n : Z) : result (list Z) :=
  if n <? 0 then Err NegativeUvarint
  else match varint_encode n with
       | Some b => OK b
       | None => Err OutOfFuel
       end.

(* "uvarint too large" is raised when [shift > 63] *)
Definition read_uvarint : list Z -> nat -> result (Z * nat) :=
  varint_decode_with 63.

(* def write_str(out, s) *)
Definition write_str (s : str) : result (list Z) :=
  do b <- encode_utf8 s;
  do bl <- write_uvarint (Z.of_nat (length b));
  OK (bl ++ b).

(* def read_str(buf, pos) *)
Definition read_str (buf : list Z) (pos : nat) : result (str * nat) :=
  do (ln, pos) <- read_uvarint buf pos;
  let ln := Z.to_nat ln in
  if (length buf <? pos + ln)%nat then Err EOFString
  else
    do s <- decode_utf8 (firstn ln (skipn pos buf));
    OK (s, (pos + ln)%nat).

(* uniq.get(v) on the dict [uniq], kept as an association list; two
   strs are the same key when they have the same code points *)
Fixpoint dict_get (uniq : list (str * Z)) (v : str) : option Z :=
  match uniq with
  | [] => None
  | (k, i) :: uniq' => if tuple_eqb k v then Some i else dict_get uniq' v
  end.

(* for row in rows: v = row[col]
       if v not in uniq: uniq[v] = len(arr); arr.append(v) *)
Fixpoint build_dict_loop (rows : list Row) (col : dict_col)
         (uniq : list (str * Z)) (arr : list str)
  : list (str * Z) * list str :=
  match rows with
  | [] => (uniq, arr)
  | row :: rows' =>
      let v := get_col col row in
      match dict_get uniq v with
      | Some _ => build_dict_loop rows' col uniq arr
      | None =>
          build_dict_loop rows' col ((v, Z.of_nat (length arr)) :: uniq)
                          (arr ++ [v])
      end
  end.

(* def build_dict(rows, col) -> (uniq, arr) *)
Definition build_dict (rows : list Row) (col : dict_col)
  : list (str * Z) * list str :=
  build_dict_loop rows col [] [].

(* for s in arr: b = s.encode("utf-8"); pack("<I", len(b)); b *)
Fixpoint write_dict_entries (arr : list str) : result (list Z) :=
  match arr with
  | [] => OK []
  | s :: arr' =>
      do b <- encode_utf8 s;
      do bl <- pack_unsigned 4 (Z.of_nat (length b));
      do more <- write_dict_entries arr';
      OK (bl ++ b ++ more)
  end.

(* for col in DICT_COLS: arr = dvals[col]; pack("<I", len(arr)); entries *)
Fixpoint write_dicts (rows : list Row) (cols : list dict_col)
  : result (list Z) :=
  match cols with
  | [] => OK []
  | col :: cols' =>
      let arr := snd (build_dict rows col) in
      do bn <- pack_unsigned 4 (Z.of_nat (length arr));
      do be <- write_dict_entries arr;
      do more <- write_dicts rows cols';
      OK (bn ++ be ++ more)
  end.

(* for col in DICT_COLS: code = dmaps[col][row[col]]; write_uvarint(code) *)
Fixpoint write_codes (rows : list Row) (row : Row) (cols : list dict_col)
  : result (list Z) :=
  match cols with
  | [] => OK []
  | col :: cols' =>
      match dict_get (fst (build_dict rows col)) (get_col col row) with
      | None => Err KeyError
      | Some code =>
          do bc <- write_uvarint code;
          do more <- write_codes rows row cols';
          OK (bc ++ more)
      end
  end.

Definition write_row (rows : list Row) (row : Row) : result (list Z) :=
  do b1 <- write_str (Transaction_ID row);
  do b2 <- write_str (Sender_Address row);
  do b3 <- write_str (Receiver_Address row);
  do b4 <- write_str (Amount row);
  do b5 <- write_str (Transaction_Fee row);
  do b6 <- write_str (Timestamp row);
  do b7 <- write_str (Block_ID row);
  do bc <- write_codes rows row DICT_COLS;
  do b8 <- write_str (Gas_Price_Gwei row);
  OK (b1 ++ b2 ++ b3 ++ b4 ++ b5 ++ b6 ++ b7 ++ bc ++ b8).

(* for row in rows: ... ; [all] is the whole list, which the
   dictionaries were built from *)
Fixpoint write_rows (all rows : list Row) : result (list Z) :=
  match rows with
  | [] => OK []
  | row :: rows' =>
      do b <- write_row all row;
      do more <- write_rows all rows';
      OK (b ++ more)
  end.

(* def encode_case04(rows) *)
Definition encode_case04 (rows : list Row) : result (list Z) :=
  do bn <- pack_unsigned 4 (Z.of_nat (length rows));
  do bc <- pack_unsigned 4 12;
  do bd <- write_dicts rows DICT_COLS;
  do br <- write_rows rows rows;
  OK (MAGIC8 ++ bn ++ bc ++ bd ++ br).

(* for _ in range(int(n)): ln = unpack("<I"); s = blob[pos:pos+ln].decode() *)
Fixpoint read_dict_entries (count : nat) (blob : list Z) (pos : nat)
  : result (list str * nat) :=
  match count with
  | O => OK ([], pos)
  | S count' =>
      do ln <- unpack_unsigned 4 blob pos;
      let pos := (pos + 4)%nat in
      let ln := Z.to_nat ln in
      do s <- decode_utf8 (firstn ln (skipn pos blob));
      do (arr, pos) <- read_dict_entries count' blob (pos + ln);
      OK (s :: arr, pos)
  end.

(* for col in DICT_COLS: n = unpack("<I"); ...; dicts[col] = arr *)
Fixpoint read_dicts (cols : list dict_col) (blob : list Z) (pos : nat)
  : result (list (list str) * nat) :=
  match cols with
  | [] => OK ([], pos)
  | _ :: cols' =>
      do n <- unpack_unsigned 4 blob pos;
      do (arr, pos) <- read_dict_entries (Z.to_nat n) blob (pos + 4);
      do (more, pos) <- read_dicts cols' blob pos;
      OK (arr :: more, pos)
  end.

(* dicts[col][int(code)] *)
Definition dict_entry (dicts : list (list str)) (col : nat) (code : Z)
  : result str :=
  match nth_error (nth col dicts []) (Z.to_nat code) with
  | Some s => OK s
  | None => Err IndexError
  end.

Definition read_row (dicts : list (list str)) (blob : list Z) (pos : nat)
  : result (Row * nat) :=
  do (txid, pos) <- read_str blob pos;
  do (sender, pos) <- read_str blob pos;
  do (recv, pos) <- read_str blob pos;
  do (amt, pos) <- read_str blob pos;
  do (fee, pos) <- read_str blob pos;
  do (ts, pos) <- read_str blob pos;
  do (bid, pos) <- read_str blob pos;
  do (mp_code, pos) <- read_uvarint blob pos;
  do (cur_code, pos) <- read_uvarint blob pos;
  do (ty_code, pos) <- read_uvarint blob pos;
  do (st_code, pos) <- read_uvarint blob pos;
  do (gas, pos) <- read_str blob pos;
  do mp <- dict_entry dicts 0 mp_code;
  do cur <- dict_entry dicts 1 cur_code;
  do ty <- dict_entry dicts 2 ty_code;
  do st <- dict_entry dicts 3 st_code;
  OK (mkRow txid sender recv amt fee ts bid mp cur ty st gas, pos).

(* for _ in range(int(nrows)): ...; rows.append(row) *)
Fixpoint read_rows (count : nat) (dicts : list (list str))
         (blob : list Z) (pos : nat) : result (list Row) :=
  match count with
  | O => OK []
  | S count' =>
      do (row, pos) <- read_row dicts blob pos;
      do more <- read_rows count' dicts blob pos;
      OK (row :: more)
  end.

(* def decode_case04(blob) *)
Definition decode_case04 (blob : list Z) : result (list Row) :=
  if (length blob <? 16)%nat then Err BlobTooSmall
  else if negb (tuple_eqb (firstn 8 blob) MAGIC8) then Err BadMagic
  else
    do nrows <- unpack_unsigned 4 blob 8;
    do ncols <- unpack_unsigned 4 blob 12;
    if negb (ncols =? 12) then Err BadCols
    else
      do (dicts, pos) <- read_dicts DICT_COLS blob 16;
      read_rows (Z.to_nat nrows) dicts blob pos.

End Case04.

(** ** Case-03 / Case-04 replay ([star_replay_case03.py], [star_replay_case04.py])

    The two scripts have the same text up to the index magic and the
    timestamp formatter; [ReplayIdx] holds the common text, and
    [Replay03], [Replay04] instantiate it.  [hashlib.sha256] and the
    [datetime] formatting are library functions: they are parameters of
    the section. *)

Module ReplayIdx.
Import Prim Struct.

(* bytes.hex() / hexdigest(): two lowercase digits per byte *)
Definition hex_digit (d : Z) : ascii :=
  nth (Z.to_nat d) (list_ascii_of_string "0123456789abcdef") "0"%char.

Fixpoint hex (bs : list Z) : string :=
  match bs with
  | [] => EmptyString
  | b :: bs' => String (hex_digit (b / 16)) (String (hex_digit (b mod 16)) (hex bs'))
  end.

(* buf.startswith(m) *)
Definition startswith (buf m : list Z) : bool :=
  tuple_eqb (firstn (length m) buf) m.

(* the dict returned by load_index *)
Record index : Type := mkIndex
  { magic : list Z; version : Z; anchor_every : Z;
    anchors : list (Z * Z * Z); cadence_min : Z;
    offsets_present : bool; star_sha_hex : string }.

(* the parsed command line *)
Record args : Type := mkArgs
  { a_seek_row : option Z; a_seek_time : option Z; a_rows : Z;
    a_rows_hint : option Z; a_cadence_min : option Z;
    a_base_datetime : option string }.

(* what main prints, one constructor per print statement *)
Inductive line : Type :=
| LSha (h : string)                          (* "STAR sha256: ..." *)
| LIdxOk (m : list Z) (every : Z) (n : nat)  (* "IDX ok: ..." *)
| LSeekResolved                              (* "Seek resolved:" *)
| LTargetRow (r : Z)
| LNearestRow (r : Z)
| LNearestT (t : Z) (s : string)
| LNote                                      (* "note: anchor offset = 0 ..." *)
| LPreview                                   (* "Replay preview (row -> t_min):" *)
| LRow (r tmin : Z) (s : string).            (* "  row=... t_min=... ..." *)

(* for _ in range(int(n)): row, t_min, off = unpack ...; pos += 20 *)
Fixpoint load_anchors (count : nat) (buf : list Z) (pos : nat)
  : result (list (Z * Z * Z)) :=
  match count with
  | O => OK []
  | S count' =>
      do row <- unpack_unsigned 4 buf pos;
      do t_min <- unpack_signed 8 buf (pos + 4);
      do off <- unpack_unsigned 8 buf (pos + 12);
      do more <- load_anchors count' buf (pos + 20);
      OK ((row, t_min, off) :: more)
  end.

Section Scripts.
Variable sha256 : list Z -> list Z.        (* hashlib.sha256(data).digest() *)
Variable fmt : args -> Z -> option string. (* the timestamp formatter *)
Variables MAGIC_A MAGIC_B : list Z.

(* sha256_file(path): the file is hashed chunk by chunk, which is the
   digest of its content *)
Definition sha256_file (content : list Z) : string := hex (sha256 content).

(* load_index(path_idx); [buf] is the content of the index file *)
Definition load_index (buf : list Z) : result index :=
  do (pos, magic) <-
     (if startswith buf MAGIC_A then OK (length MAGIC_A, MAGIC_A)
      else if startswith buf MAGIC_B then OK (length MAGIC_B, MAGIC_B)
      else Err BadIndexMagic);
  do version <- unpack_unsigned 4 buf pos;
  do anchor_every <- unpack_unsigned 4 buf (pos + 4);
  do n <- unpack_unsigned 4 buf (pos + 8);
  do flags <- unpack_unsigned 4 buf (pos + 12);
  do cadence_min <- unpack_signed 8 buf (pos + 16);
  let star_sha_raw := firstn 32 (skipn (pos + 24) buf) in
  let star_sha_hex := hex star_sha_raw in
  let offsets_present := negb (Z.land flags 1 =? 0) in
  do anchors <- load_anchors (Z.to_nat n) buf (pos + 56);
  OK (mkIndex magic version anchor_every anchors cadence_min
              offsets_present star_sha_hex).

(* best = anchors[0]
   for a in anchors:
       if a[0] <= target_row: best = a
       else: break *)
Fixpoint nearest (anchors : list (Z * Z * Z)) (target_row : Z)
         (best : Z * Z * Z) : Z * Z * Z :=
  match anchors with
  | [] => best
  | a :: anchors' =>
      if fst (fst a) <=? target_row then nearest anchors' target_row a
      else best
  end.

(* resolve_seek(anchors, cadence_min, seek_row, seek_time_min, rows_hint) *)
Definition resolve_seek (anchors : list (Z * Z * Z)) (cadence_min seek_row : Z)
           (seek_time_min rows_hint : option Z) : result (Z * (Z * Z * Z)) :=
  do target_row <-
     match seek_time_min with
     | Some t => if cadence_min =? 0 then Err ZeroDivision
                 else OK (t / cadence_min)
     | None => OK seek_row
     end;
  let target_row :=
    match rows_hint with
    | Some h => Z.max 0 (Z.min target_row (h - 1))
    | None => target_row
    end in
  match anchors with
  | [] => Err IndexError
  | a0 :: _ => OK (target_row, nearest anchors target_row a0)
  end.

(* for i in range(int(args.rows)):
       r = target_row + i
       if args.rows_hint is not None and r >= int(args.rows_hint): break
       tmin = r * cadence_min
       print(row line) *)
Fixpoint preview (count : nat) (a : args) (r cadence_min : Z)
         (out : list line) : list line * result unit :=
  match count with
  | O => (out, OK tt)
  | S count' =>
      if match a_rows_hint a with Some h => r >=? h | None => false end
      then (out, OK tt)
      else
        let tmin := r * cadence_min in
        match fmt a tmin with
        | None => (out, Err DateError)
        | Some s => preview count' a (r + 1) cadence_min (out ++ [LRow r tmin s])
        end
  end.

(* main(): what is printed, and how the run ends.  [star] and [idx]
   are the contents of the files named by --star and --idx. *)
Definition main (star idx : list Z) (a : args) : list line * result unit :=
  match a_seek_row a, a_seek_time a with
  | None, None => ([], Err NoSeekKey)
  | _, _ =>
      let star_sha := sha256_file star in
      let out := [LSha star_sha] in
      match load_index idx with
      | Err e => (out, Err e)
      | OK ix =>
          let cadence :=
            match a_cadence_min a with
            | Some c => c
            | None => cadence_min ix
            end in
          if negb (String.eqb (star_sha_hex ix) star_sha)
          then (out, Err BindingMismatch)
          else
            let out := out ++ [LIdxOk (magic ix) (anchor_every ix)
                                      (length (anchors ix))] in
            match resolve_seek (anchors ix) cadence
                    (match a_seek_row a with Some r => r | None => 0 end)
                    (a_seek_time a) (a_rows_hint a) with
            | Err e => (out, Err e)
            | OK (target_row, (nearest_row, nearest_t, nearest_off)) =>
                let out := out ++ [LSeekResolved; LTargetRow target_row;
                                   LNearestRow nearest_row] in
                match fmt a nearest_t with
                | None => (out, Err DateError)
                | Some s =>
                    let out := out ++ [LNearestT nearest_t s]
                                   ++ (if nearest_off =? 0 then [LNote] else [])
                                   ++ [LPreview] in
                    preview (Z.to_nat (a_rows a)) a target_row cadence out
                end
            end
      end
  end.

End Scripts.

End ReplayIdx.

Module Replay03.
Import Prim.
Export ReplayIdx.

Definition MAGIC_A : list Z := bytes_of_string "STARIDX03" ++ [0].
Definition MAGIC_B : list Z := bytes_of_string "STARIDX03".

Section Scripts.
Variable sha256 : list Z -> list Z.
(* fmt_epoch_minutes(t_min), fmt_base_minutes(t_min, base_iso);
   [None] when datetime raises *)
Variable fmt_epoch_minutes : Z -> option string.
Variable fmt_base_minutes : Z -> string -> option string.

(* def fmt(tmin): if args.base_datetime: ... else ... *)
Definition fmt (a : args) (tmin : Z) : option string :=
  match a_base_datetime a with
  | Some (String c s) => fmt_base_minutes tmin (String c s)
  | _ => fmt_epoch_minutes tmin
  end.

Definition load_index : list Z -> result index :=
  ReplayIdx.load_index MAGIC_A MAGIC_B.

Definition resolve_seek := ReplayIdx.resolve_seek.

Definition main : list Z -> list Z -> args -> list line * result unit :=
  ReplayIdx.main sha256 fmt MAGIC_A MAGIC_B.

End Scripts.

End Replay03.

Module Replay04.
Import Prim.
Export ReplayIdx.

Definition MAGIC_A : list Z := bytes_of_string "STARIDX04" ++ [0].
Definition MAGIC_B : list Z := bytes_of_string "STARIDX04".

Section Scripts.
Variable sha256 : list Z -> list Z.
Variable fmt_epoch_minutes : Z -> option string.

Definition load_index : list Z -> result index :=
  ReplayIdx.load_index MAGIC_A MAGIC_B.

Definition resolve_seek := ReplayIdx.resolve_seek.

Definition main : list Z -> list Z -> args -> list line * result unit :=
  ReplayIdx.main sha256 (fun _ => fmt_epoch_minutes) MAGIC_A MAGIC_B.

End Scripts.

End Replay04.

(** ** Specification-level vocabulary

    Nothing below is part of the program: these definitions name what the
    theorems talk about (the block structure of a body, the rows a
    sequence of deltas stands for, slices of a decode). *)

Module Wire.
Import Prim.

(* The writer as a total function on the arguments for which it returns. *)
Definition venc (u : Z) : list Z :=
  match varint_encode u with
  | Some bs => bs
  | None => []
  end.

(* What a reader recovers from a signed field after the writer's
   [zigzag_encode]; the identity on [-2^63, 2^63). *)
Definition wrap (x : Z) : Z := zigzag_decode (zigzag_encode x).

(* One block of a body: a tag-0 run-length block with its run, or a
   tag-1 literal, with the delta tuple it carries. *)
Record block : Type := mkBlock
  { b_rle : bool; b_run : Z; b_tup : list Z }.

Definition rows_of (b : block) : Z := if b_rle b then b_run b else 1.

Definition ser_tuple (t : list Z) : list Z :=
  flat_map (fun x => venc (zigzag_encode x)) t.

Definition ser_block (b : block) : list Z :=
  if b_rle b then 0 :: venc (b_run b) ++ ser_tuple (b_tup b)
  else 1 :: ser_tuple (b_tup b).

Definition ser_blocks (bs : list block) : list Z := flat_map ser_block bs.

(* Every varint of the block is short enough for a reader that accepts
   [nbytes] bytes per value. *)
Definition fits (nbytes : Z) (u : Z) : bool := u <? 2 ^ (7 * nbytes).

Definition tuple_fits (nbytes : Z) (t : list Z) : bool :=
  forallb (fun x => fits nbytes (zigzag_encode x)) t.

Definition block_fits (nbytes : Z) (b : block) : bool :=
  (if b_rle b then fits nbytes (b_run b) else true)
  && tuple_fits nbytes (b_tup b).

(* The rows a block stands for are at least one, and its tuple has the
   width [w] of the case. *)
Definition well_formed (w : nat) (b : block) : Prop :=
  1 <= rows_of b /\ length (b_tup b) = w.

(* the domain of the ZigZag law *)
Definition in_i64 (x : Z) : Prop := - 2 ^ 63 <= x < 2 ^ 63.

(* The delta sequence a block list stands for. *)
Definition flatten (bs : list block) : list (list Z) :=
  flat_map (fun b => repeat (b_tup b) (Z.to_nat (rows_of b))) bs.

Definition dec_tuple (t : list Z) : list Z := map wrap t.

Section Rows.
Context {R : Type} (step : R -> list Z -> R).

(* The rows that follow [cur] under successive deltas. *)
Fixpoint scan (cur : R) (ds : list (list Z)) : list R :=
  match ds with
  | [] => []
  | d :: ds' => let c := step cur d in c :: scan c ds'
  end.
End Rows.

(* The state of a walk that started at [(row0, pos0, cur0)] after the
   first [j] blocks of [bs]: row number, byte position, last row. *)
Definition boundary {R : Type} (step : R -> list Z -> R)
           (row0 : Z) (pos0 : nat) (cur0 : R) (bs : list block) (j : nat)
  : Z * nat * R :=
  (row0 + Z.of_nat (length (flatten (firstn j bs))),
   (pos0 + length (ser_blocks (firstn j bs)))%nat,
   last (scan step cur0 (map dec_tuple (flatten (firstn j bs)))) cur0).

(* The continuation bit of a byte is set. *)
Definition cont (b : Z) : bool := negb (Z.land b 128 =? 0).

(* The unsigned value of a LEB128 byte string: seven bits per byte,
   least significant group first. *)
Fixpoint leb128_value (bs : list Z) : Z :=
  match bs with
  | [] => 0
  | b :: bs' => Z.lor (Z.land b 127) (Z.shiftl (leb128_value bs') 7)
  end.

(* The byte at [off] is a tag byte. *)
Definition tag_at (buf : list Z) (off : nat) : Prop :=
  nth_error buf off = Some 0 \/ nth_error buf off = Some 1.

(* rows [lo, lo + k) of a decode *)
Definition slice {A : Type} (lo k : nat) (rows : list A) : list A :=
  firstn k (skipn lo rows).

(* [(lo, r_lo); (lo + 1, r_(lo+1)); ...] *)
Fixpoint numbered {A : Type} (lo : Z) (rows : list A) : list (Z * A) :=
  match rows with
  | [] => []
  | r :: rows' => (lo, r) :: numbered (lo + 1) rows'
  end.

End Wire.

(** The block list written by the Case-01 encoder: the same loop as
    [Case01.encode_body], recording blocks instead of bytes. *)
Module Blocks01.
Import Prim Wire Case01.

Fixpoint blocks (fuel : nat) (deltas : list (list Z)) : list block :=
  match deltas with
  | [] => []
  | tup :: after =>
      match fuel with
      | O => []
      | S fuel' =>
          let '(run, rest) := scan_run tup after 1 in
          (if run >=? 3 then [mkBlock true run tup]
           else repeat (mkBlock false 1 tup) (Z.to_nat run))
          ++ blocks fuel' rest
      end
  end.

(* The block list of the file encoded from [b0 :: rest]. *)
Definition body_blocks (b0 : Bar) (rest : list Bar) : list block :=
  blocks (length rest) (deltas_from b0 rest).

(* The header of the file encoded from [b0 :: rest]. *)
Definition header (n price_scale : Z) (b0 : Bar) : list Z :=
  MAGIC ++ venc n ++ venc price_scale ++ ser_tuple (fields b0).

Definition header_fits (n price_scale : Z) (b0 : Bar) : bool :=
  fits 10 n && fits 10 price_scale && tuple_fits 10 (fields b0).

(* The file written for a non-empty list of bars. *)
Definition encoded (b0 : Bar) (rest : list Bar) (ps : Z) : list Z :=
  header (Z.of_nat (S (length rest))) ps b0 ++ ser_blocks (body_blocks b0 rest).

(* The base row as a reader recovers it. *)
Definition base_of (b0 : Bar) : Bar := bar_of_fields (dec_tuple (fields b0)).

(* The first row and every row-to-row delta lie in the ZigZag domain. *)
Definition bars_in_range (bars : list Bar) : Prop :=
  match bars with
  | [] => True
  | b0 :: rest =>
      Forall in_i64 (fields b0)
      /\ Forall (Forall in_i64) (deltas_from b0 rest)
  end.

End Blocks01.

(** Block boundaries of a Case-01 body: the positions reached from the
    start of the body by decoding whole blocks. *)
Module Boundary01.
Import Index01.

Inductive block_start (buf : list Z) (body : nat) : nat -> Prop :=
| start_body : block_start buf body body
| start_next (p p' : nat) (tr : list Z * Z) :
    block_start buf body p ->
    decode_block buf p = OK (tr, p') ->
    block_start buf body p'.

End Boundary01.

(** The block list written by the Case-02 encoder: the same loop as
    [Case02.encode_body], recording blocks instead of bytes. *)
Module Blocks02.
Import Prim Wire Case02.

(* The successive deltas of a tick list that follows [prev]. *)
Fixpoint deltas_from (prev : AirTick) (ticks : list AirTick)
  : list (list Z) :=
  match ticks with
  | [] => []
  | t :: ticks' => deltas prev t :: deltas_from t ticks'
  end.

Fixpoint blocks (fuel : nat) (prev : AirTick) (rest : list AirTick)
  : list block :=
  match rest with
  | [] => []
  | cur :: after =>
      match fuel with
      | O => []
      | S fuel' =>
          let dtup := deltas prev cur in
          let '(run, cur_end, rest_end) := scan_run dtup cur after 1 in
          if run >=? 3
          then mkBlock true run dtup :: blocks fuel' cur_end rest_end
          else mkBlock false 1 dtup :: blocks fuel' cur after
      end
  end.

Definition body_blocks (base : AirTick) (rest : list AirTick) : list block :=
  blocks (length rest) base rest.

Definition header (n : Z) (base : AirTick) : list Z :=
  STAR_MAGIC ++ venc n ++ ser_tuple (fields base).

Definition header_fits (n : Z) (base : AirTick) : bool :=
  fits 11 n && tuple_fits 11 (fields base).

(* The file written for a non-empty list of ticks. *)
Definition encoded (base : AirTick) (rest : list AirTick) : list Z :=
  header (Z.of_nat (S (length rest))) base ++ ser_blocks (body_blocks base rest).

(* The base row as a reader recovers it. *)
Definition base_of (base : AirTick) : AirTick :=
  tick_of_fields (dec_tuple (fields base)).

(* The first row and every row-to-row delta lie in the ZigZag domain. *)
Definition ticks_in_range (ticks : list AirTick) : Prop :=
  match ticks with
  | [] => True
  | base :: rest =>
      Forall in_i64 (fields base)
      /\ Forall (Forall in_i64) (deltas_from base rest)
  end.

End Blocks02.

(** The layout of a Case-04 file. *)
Module Wire04.
Import Prim Struct Wire Case04.

(* a code point that UTF-8 encodes: any but a surrogate *)
Definition scalar (c : Z) : Prop := 0 <= c < 55296 \/ 57343 < c < 1114112.

(* a str that s.encode("utf-8") accepts *)
Definition encodable (s : str) : Prop := Forall scalar s.

(* the UTF-8 bytes of an encodable str *)
Definition utf8 (s : str) : list Z :=
  match encode_utf8 s with
  | OK b => b
  | Err _ => []
  end.

(* str(x) = varint(len) | utf8_bytes *)
Definition ser_str (s : str) : list Z :=
  venc (Z.of_nat (length (utf8 s))) ++ utf8 s.

(* u32(len) | utf8_bytes *)
Definition ser_entry (s : str) : list Z :=
  le_bytes 4 (Z.of_nat (length (utf8 s))) ++ utf8 s.

(* u32(|dict|) | entries *)
Definition ser_dict (arr : list str) : list Z :=
  le_bytes 4 (Z.of_nat (length arr)) ++ flat_map ser_entry arr.

(* the dictionary of a column: values in first-occurrence order *)
Definition dict_of (rows : list Row) (col : dict_col) : list str :=
  snd (build_dict rows col).

(* [uniq] maps exactly the entries of [arr] to their positions. *)
Definition dict_inv (uniq : list (str * Z)) (arr : list str) : Prop :=
  forall v, match dict_get uniq v with
            | Some i => 0 <= i /\ nth_error arr (Z.to_nat i) = Some v
            | None => ~ In v arr
            end.

(* the code of a row's value in the dictionary of its column *)
Definition code_of (rows : list Row) (col : dict_col) (row : Row) : Z :=
  match dict_get (fst (build_dict rows col)) (get_col col row) with
  | Some c => c
  | None => 0
  end.

Definition ser_row (rows : list Row) (row : Row) : list Z :=
  ser_str (Transaction_ID row) ++ ser_str (Sender_Address row)
  ++ ser_str (Receiver_Address row) ++ ser_str (Amount row)
  ++ ser_str (Transaction_Fee row) ++ ser_str (Timestamp row)
  ++ ser_str (Block_ID row)
  ++ flat_map (fun col => venc (code_of rows col row)) DICT_COLS
  ++ ser_str (Gas_Price_Gwei row).

Definition encoded (rows : list Row) : list Z :=
  MAGIC8 ++ le_bytes 4 (Z.of_nat (length rows)) ++ le_bytes 4 12
  ++ flat_map (fun col => ser_dict (dict_of rows col)) DICT_COLS
  ++ flat_map (ser_row rows) rows.

(* the eight columns written verbatim *)
Definition literal_fields (r : Row) : list str :=
  [Transaction_ID r; Sender_Address r; Receiver_Address r; Amount r;
   Transaction_Fee r; Timestamp r; Block_ID r; Gas_Price_Gwei r].

(* Every field of the row can be encoded, and every length fits the
   prefix that carries it: a varint of at most ten bytes for a
   literal, a u32 for a dictionary entry. *)
Definition row_fits (r : Row) : Prop :=
  Forall (fun s => encodable s /\ Z.of_nat (length (utf8 s)) < 2 ^ 70)
         (literal_fields r)
  /\ Forall (fun col => encodable (get_col col r)
                        /\ Z.of_nat (length (utf8 (get_col col r))) < 2 ^ 32)
            DICT_COLS.

(* the same, as a test *)
Definition scalarb (c : Z) : bool :=
  ((0 <=? c) && (c <? 55296)) || ((57343 <? c) && (c <? 1114112)).

Definition str_fitsb (bound : Z) (s : str) : bool :=
  forallb scalarb s && (Z.of_nat (length (utf8 s)) <? bound).

Definition row_fitsb (r : Row) : bool :=
  forallb (str_fitsb (2 ^ 70)) (literal_fields r)
  && forallb (fun col => str_fitsb (2 ^ 32) (get_col col r)) DICT_COLS.

End Wire04.

(** Block boundaries of a Case-02 body. *)
Module Boundary02.
Import Prim Case02.

(* Where the body starts: after the magic, the row count and, when
   there are rows, the eight base values. *)
Definition body_start (buf : list Z) : result nat :=
  do (n, i) <- varint_decode buf 6;
  if n =? 0 then OK i
  else do (vals, i) <- read_tuple_with 70 8 buf i; OK i.

Inductive block_start (buf : list Z) (body : nat) : nat -> Prop :=
| start_body : block_start buf body body
| start_next (p p' : nat) (blk : bool * Z * list Z) :
    block_start buf body p ->
    read_block buf p = OK (blk, p') ->
    block_start buf body p'.

(* the row an anchor stands at *)
Definition anchor_row (a : Z * nat * AirTick) : Z := fst (fst a).

End Boundary02.

(** The greedy block scheme in the words of the format description:
    at each position take the maximal run of equal consecutive deltas,
    capped when a cap is given; one tag-0 block for a run of three or
    more, one literal per delta otherwise; advance by the run. *)
Module Greedy.
Import Prim Wire.

(* how many of the deltas that follow repeat [t] *)
Fixpoint prefix_run (t : list Z) (ds : list (list Z)) : nat :=
  match ds with
  | d :: ds' => if tuple_eqb d t then S (prefix_run t ds') else O
  | [] => O
  end.

(* the run that starts with [t], followed by [after] *)
Definition max_run (cap : option Z) (t : list Z) (after : list (list Z)) : Z :=
  let r := 1 + Z.of_nat (prefix_run t after) in
  match cap with
  | Some c => Z.min r c
  | None => r
  end.

Fixpoint greedy (fuel : nat) (cap : option Z) (deltas : list (list Z))
  : list block :=
  match deltas with
  | [] => []
  | t :: after =>
      match fuel with
      | O => []
      | S fuel' =>
          let r := max_run cap t after in
          (if r >=? 3 then [mkBlock true r t]
           else repeat (mkBlock false 1 t) (Z.to_nat r))
          ++ greedy fuel' cap (skipn (Z.to_nat (r - 1)) after)
      end
  end.

End Greedy.

(** The binding of an index file to its STAR file (Cases 03 and 04). *)
Module Binding.
Import ReplayIdx.

Definition is_byte (b : Z) : Prop := 0 <= b < 256.

(* where the fixed-width header starts: after the magic that matched *)
Definition header_pos (magic_a magic_b buf : list Z) : nat :=
  if startswith buf magic_a then length magic_a else length magic_b.

(* the 32 bytes of digest stored in the index header *)
Definition stored_digest (magic_a magic_b buf : list Z) : list Z :=
  firstn 32 (skipn (header_pos magic_a magic_b buf + 24) buf).

Definition has_seek_key (a : args) : Prop :=
  a_seek_row a <> None \/ a_seek_time a <> None.

(* the value of a lowercase hexadecimal digit *)
Definition digit_value (c : ascii) : Z :=
  let n := Z.of_N (N_of_ascii c) in if n <? 97 then n - 48 else n - 87.

Definition all_bytes (buf : list Z) : bool :=
  forallb (fun b => (0 <=? b) && (b <? 256)) buf.

End Binding.

(** The anchor records of a Case-02 index file. *)
Module IndexFile02.
Import Struct Case02 Index02.

(* The bytes of an anchor, when it can be packed. *)
Definition anchor_bytes (a : anchor) : list Z :=
  let '(row, off, tk) := a in
  le_bytes 8 row ++ le_bytes 8 (Z.of_nat off) ++ flat_map (le_bytes 8) (fields tk).

Definition anchor_packable (a : anchor) : Prop :=
  let '(row, off, tk) := a in
  0 <= row < 256 ^ Z.of_nat 8
  /\ 0 <= Z.of_nat off < 256 ^ Z.of_nat 8
  /\ Forall (fun v => - (256 ^ Z.of_nat 8 / 2) <= v < 256 ^ Z.of_nat 8 / 2)
            (fields tk).

End IndexFile02.

(** Concrete inputs of the evaluation lemmas. *)
Module Samples.
Import Prim Struct.

Definition bar1 : Case01.Bar := Case01.mkBar 10 100 110 90 105 1000.
Definition bar2 : Case01.Bar := Case01.mkBar 11 101 112 91 106 1500.
Definition bar_low : Case01.Bar := Case01.mkBar 0 0 0 0 0 (- 2 ^ 63).
Definition bar_high : Case01.Bar := Case01.mkBar 0 0 0 0 0 (2 ^ 63 - 1).

Definition tick1 : Case02.AirTick := Case02.mkAirTick 1 2 3 4 5 6 7 8.
Definition tick2 : Case02.AirTick := Case02.mkAirTick 2 2 3 4 5 6 7 9.

(* the str of an ASCII text: the code points are the bytes *)
Definition txt (s : string) : Case04.str := bytes_of_string s.

(* two rows; the second holds characters of two, three and four
   UTF-8 bytes (U+00E9, U+20AC, U+1F600) *)
Definition row1 : Case04.Row :=
  Case04.mkRow (txt "tx1") (txt "alice") (txt "bob") (txt "1.5") (txt "0.01")
               (txt "2024-01-01") (txt "7")
               (txt "poolA") (txt "BTC") (txt "transfer") (txt "ok") (txt "12").
Definition row2 : Case04.Row :=
  Case04.mkRow (txt "tx2") (txt "bob") (txt "ren" ++ [233]) (8364 :: txt "2.5")
               (txt "0.02") (txt "2024-01-02") (txt "8")
               (txt "pool" ++ [128512]) (txt "BTC") (txt "transfer")
               (txt "pending") (txt "13").

(* the files of four bars and of three ticks, and the index file
   built over the latter with an anchor at every row *)
Definition star1 : list Z :=
  match Case01.encode_star [bar1; bar2; bar2; bar1] 100 with
  | Some blob => blob
  | None => []
  end.
Definition star2 : list Z :=
  match Case02.encode_star [tick1; tick2; tick2] with
  | Some blob => blob
  | None => []
  end.
Definition index2 : list Z :=
  match Index02.build_index star2 1 with
  | OK idx => idx
  | Err _ => []
  end.

(* a header claiming two rows, followed by one run of five zero deltas *)
Definition overrun01 : list Z :=
  Case01.MAGIC ++ [2; 100; 0; 0; 0; 0; 0; 0] ++ [0; 5; 0; 0; 0; 0; 0; 0].

(* ten continuation bytes and a final byte: a varint of eleven bytes *)
Definition eleven_bytes : list Z := repeat 128 10 ++ [1].

(* a stand-in for a digest function, and for the date formatter *)
Definition digest0 (data : list Z) : list Z := repeat 171 32.


Definition seek_args : ReplayIdx.args :=
  ReplayIdx.mkArgs (Some 3) None 2 None None None.

End Samples.

(* membership of concrete rows in the ZigZag domain *)
Ltac in_range :=
  repeat (split || constructor); unfold Wire.in_i64; cbn; lia.

(** ** Further functions of the scripts *)

(** *** Case-01: the block offsets of a body
    ([star_case01_spx_replay.iter_record_offsets]) *)

Module Offsets01.
Import Prim Case01.

(* for _ in range(k): _, pos = varint_decode(buf, pos) *)
Fixpoint skip_varints (k : nat) (buf : list Z) (pos : nat) : result nat :=
  match k with
  | O => OK pos
  | S k' =>
      do (u, pos1) <- varint_decode buf pos;
      skip_varints k' buf pos1
  end.

(* while pos < n:
       offsets.append(pos); tag = buf[pos]; pos += 1
       if tag == 0: run, pos = varint_decode(buf, pos); six varints
       elif tag == 1: six varints
       else: raise ValueError("bad tag") *)
Fixpoint offsets_loop (fuel : nat) (buf : list Z) (pos : nat)
         (offsets : list nat) : result (list nat) :=
  if (pos <? length buf)%nat then
    match fuel with
    | O => Err OutOfFuel
    | S fuel' =>
        let offsets := offsets ++ [pos] in
        let tag := nth pos buf 0 in
        let pos := S pos in
        if tag =? 0 then
          do (run, pos) <- varint_decode buf pos;
          do pos <- skip_varints 6 buf pos;
          offsets_loop fuel' buf pos offsets
        else if tag =? 1 then
          do pos <- skip_varints 6 buf pos;
          offsets_loop fuel' buf pos offsets
        else Err BadTag
    end
  else OK offsets.

(* iter_record_offsets(buf) *)
Definition iter_record_offsets (buf : list Z) : result (list nat) :=
  do pos <-
     (if ReplayIdx.startswith buf (bytes_of_string "STAR1") then OK 5%nat
      else if ReplayIdx.startswith buf (bytes_of_string "STAR01") then OK 6%nat
      else Err BadMagic);
  if (length buf <=? pos)%nat then OK []
  else
    do (n, pos) <- varint_decode buf pos;
    if (length buf <=? pos)%nat then OK []
    else
      do (price_scale, pos) <- varint_decode buf pos;
      do pos <- skip_varints 6 buf pos;
      offsets_loop (S (length buf)) buf pos [].

End Offsets01.

(** *** Case-01: the index file ([star_index_case01.write_index]) *)

Module WriteIndex01.
Import Prim Struct.
Export Index01.

(* struct.pack("<IIiqqqqq", row_i, off, b.d_days, b.o, b.h, b.l, b.c, b.v) *)
Definition pack_anchor (a : anchor) : result (list Z) :=
  let '(row_i, off, b) := a in
  do b1 <- pack_unsigned 4 row_i;
  do b2 <- pack_unsigned 4 (Z.of_nat off);
  do b3 <- pack_signed 4 (d_days b);
  do b4 <- pack_signed 8 (o b);
  do b5 <- pack_signed 8 (h b);
  do b6 <- pack_signed 8 (l b);
  do b7 <- pack_signed 8 (c b);
  do b8 <- pack_signed 8 (v b);
  OK (b1 ++ b2 ++ b3 ++ b4 ++ b5 ++ b6 ++ b7 ++ b8).

(* for row_i, off, b in anchors: f.write(struct.pack(...)) *)
Fixpoint pack_anchors (anchors : list anchor) : result (list Z) :=
  match anchors with
  | [] => OK []
  | a :: rest =>
      do ba <- pack_anchor a;
      do more <- pack_anchors rest;
      OK (ba ++ more)
  end.

(* write_index(path_out, anchor_every, n_rows, anchors): the content of
   the file once the function has returned; [Err StructError] when a
   [struct.pack] raises *)
Definition write_index (anchor_every n_rows : Z) (anchors : list anchor)
  : result (list Z) :=
  do h1 <- pack_unsigned 4 anchor_every;
  do h2 <- pack_unsigned 4 n_rows;
  do h3 <- pack_unsigned 4 (Z.of_nat (length anchors));
  do body <- pack_anchors anchors;
  OK (bytes_of_string "SIDX1" ++ (bytes_of_string "CASE01" ++ [0])
      ++ (h1 ++ h2 ++ h3) ++ body).

(* main(): build_index, then write_index; any exception ends in die() *)
Definition main (star : list Z) (anchor_every : Z) : result (list Z) :=
  do (n_rows, anchors) <- build_index star anchor_every;
  write_index anchor_every n_rows anchors.

End WriteIndex01.

(** *** Case-03: front-coded text lines ([star_case03_power_encode.py]) *)

Module Case03.
Import Prim.

Definition MAGIC : list Z := bytes_of_string "STAR03" ++ [0; 1].

(* uvarint_encode(n): the loop of varint_encode *)
Definition uvarint_encode (n : Z) : option (list Z) :=
  varint_encode_loop (varint_fuel n) n [].

(* p = 0
   while p < m and prev[p] == cur[p]: p += 1
   The loop runs at most [m] times: [fuel] is [m] at the call, and the
   value at fuel 0 is that of the loop, whose test then fails. *)
Fixpoint prefix_loop (fuel : nat) (prev cur : list Z) (p m : nat) : nat :=
  match fuel with
  | O => p
  | S fuel' =>
      if (p <? m)%nat && (nth p prev 0 =? nth p cur 0)
      then prefix_loop fuel' prev cur (S p) m
      else p
  end.

(* for line in lines: ... packed += uvarint(p) + uvarint(len(suffix)) + suffix *)
Fixpoint encode_loop (lines : list (list Z)) (prev packed : list Z)
  : option (list Z) :=
  match lines with
  | [] => Some packed
  | cur :: lines' =>
      let m := Nat.min (length prev) (length cur) in
      let p := prefix_loop m prev cur 0 m in
      let suffix := skipn p cur in
      let? bp <- uvarint_encode (Z.of_nat p);
      let? bs <- uvarint_encode (Z.of_nat (length suffix));
      encode_loop lines' cur (packed ++ bp ++ bs ++ suffix)
  end.

Definition encode_lines_frontcoded (lines : list (list Z)) : option (list Z) :=
  encode_loop lines [] [].

(* how main ends: the two SystemExit(2), or the bytes written to the
   .star file with the number of rows reported *)
Inductive outcome : Type :=
| EmptyInput                              (* "[STAR] empty input" *)
| NegativeMaxRows                         (* "--max_rows must be >= 0" *)
| Written (packed : list Z) (n : nat).

Section Script.
(* bytes.splitlines() *)
Variable splitlines : list Z -> list (list Z).

(* main(); [raw] is the content of the file named by --csv.  [None]:
   a varint loop does not return. *)
Definition main (raw : list Z) (max_rows : option Z) : option outcome :=
  match splitlines raw with
  | [] => Some EmptyInput
  | header :: data_lines =>
      match
        (match max_rows with
         | Some k => if k <? 0 then None
                     else Some (firstn (Z.to_nat k) data_lines)
         | None => Some data_lines
         end) with
      | None => Some NegativeMaxRows
      | Some data_lines =>
          let? hl <- uvarint_encode (Z.of_nat (length header));
          let header_block := hl ++ header in
          let? packed_records <- encode_lines_frontcoded data_lines;
          Some (Written (MAGIC ++ header_block ++ packed_records)
                        (length data_lines))
      end
  end.

End Script.

End Case03.

(** *** Case-04: the index builder ([star_index_case04.py]) *)

Module Index04.
Import Prim Struct.

Definition MAGIC : list Z := bytes_of_string "STARIDX04" ++ [0].
Definition VERSION_U32 : Z := 4.

(* how a run can fail *)
Inductive failure : Type :=
| RowsNotPositive          (* "ERROR: --rows must be > 0" *)
| AnchorEveryNotPositive   (* "ERROR: --anchor_every must be > 0" *)
| CadNotPositive           (* "ERROR: --cad must be > 0" *)
| ValueError               (* range() step zero; fromhex on a non-hex string *)
| PackError.               (* struct.error *)

Definition outcome (A : Type) : Type := (failure + A)%type.

Definition sbind {A B : Type} (r : outcome A) (f : A -> outcome B) : outcome B :=
  match r with
  | inr a => f a
  | inl e => inl e
  end.

Notation "'attempt' x <- r ; k" := (sbind r (fun x => k))
  (at level 10, x name, r at level 100, k at level 200) : res_scope.

(* struct.pack on one field *)
Definition pack (r : result (list Z)) : outcome (list Z) :=
  match r with
  | OK b => inr b
  | Err _ => inl PackError
  end.

(* len(range(0, stop, step)) for a step other than zero *)
Definition range_len (stop step : Z) : Z :=
  if 0 <? step then (if 0 <? stop then (stop - 1) / step + 1 else 0)
  else (if stop <? 0 then (- stop - 1) / (- step) + 1 else 0).

(* list(range(0, stop, step)) *)
Definition range0 (stop step : Z) : outcome (list Z) :=
  if step =? 0 then inl ValueError
  else inr (map (fun i => Z.of_nat i * step)
                (seq 0 (Z.to_nat (range_len stop step)))).

(* build_anchors(rows, cadence_min, anchor_every) *)
Definition build_anchors (rows cadence_min anchor_every : Z)
  : outcome (list (Z * Z)) :=
  attempt rs <- range0 rows anchor_every;
  let anchors := map (fun r => (r, r * cadence_min)) rs in
  let last_row := rows - 1 in
  let anchors :=
    if negb (Nat.eqb (length anchors) 0)
       && negb (fst (last anchors (0, 0)) =? last_row)
    then anchors ++ [(last_row, last_row * cadence_min)]
    else anchors in
  let anchors :=
    if Nat.eqb (length anchors) 0 && (rows >? 0)
    then anchors ++ [(0, 0)]
    else anchors in
  inr anchors.

(* bytes.fromhex(s): two hexadecimal digits per byte, white space
   between bytes skipped *)
Definition is_space (c : ascii) : bool :=
  let n := Z.of_N (N_of_ascii c) in
  (n =? 32) || ((9 <=? n) && (n <=? 13)).

Definition hex_value (c : ascii) : option Z :=
  let n := Z.of_N (N_of_ascii c) in
  if (48 <=? n) && (n <=? 57) then Some (n - 48)
  else if (97 <=? n) && (n <=? 102) then Some (n - 87)
  else if (65 <=? n) && (n <=? 70) then Some (n - 55)
  else None.

Fixpoint fromhex (s : string) : option (list Z) :=
  match s with
  | EmptyString => Some []
  | String c s' =>
      if is_space c then fromhex s'
      else
        match s' with
        | EmptyString => None
        | String d s'' =>
            match hex_value c, hex_value d, fromhex s'' with
            | Some hi, Some lo, Some bs => Some (16 * hi + lo :: bs)
            | _, _, _ => None
            end
        end
  end.

(* for (row, t_min) in anchors:
       f.write(pack("<I", row)); f.write(pack("<q", t_min)); f.write(pack("<Q", 0)) *)
Fixpoint pack_anchors (anchors : list (Z * Z)) : outcome (list Z) :=
  match anchors with
  | [] => inr []
  | (row, t_min) :: rest =>
      attempt b1 <- pack (pack_unsigned 4 row);
      attempt b2 <- pack (pack_signed 8 t_min);
      attempt b3 <- pack (pack_unsigned 8 0);
      attempt more <- pack_anchors rest;
      inr (b1 ++ b2 ++ b3 ++ more)
  end.

(* write_index(path_out, anchor_every, anchors, star_sha256_hex,
   cadence_min): the content of the file once the function has
   returned *)
Definition write_index (anchor_every : Z) (anchors : list (Z * Z))
           (star_sha256_hex : string) (cadence_min : Z) : outcome (list Z) :=
  match fromhex star_sha256_hex with
  | None => inl ValueError
  | Some star_sha_raw =>
      let flags := 0 in
      attempt b1 <- pack (pack_unsigned 4 VERSION_U32);
      attempt b2 <- pack (pack_unsigned 4 anchor_every);
      attempt b3 <- pack (pack_unsigned 4 (Z.of_nat (length anchors)));
      attempt b4 <- pack (pack_unsigned 4 flags);
      attempt b5 <- pack (pack_signed 8 cadence_min);
      attempt body <- pack_anchors anchors;
      inr (MAGIC ++ b1 ++ b2 ++ b3 ++ b4 ++ b5 ++ star_sha_raw ++ body)
  end.

Section Script.
Variable sha256 : list Z -> list Z.   (* hashlib.sha256(data).digest() *)

(* sha256_file(path) *)
Definition sha256_file (content : list Z) : string :=
  ReplayIdx.hex (sha256 content).

(* main(): the content written to --out; [star] is the content of
   the file named by --star.  The report printed after the file is
   written cannot fail and is left out. *)
Definition main (star : list Z) (rows anchor_every cad : Z)
  : outcome (list Z) :=
  if rows <=? 0 then inl RowsNotPositive
  else if anchor_every <=? 0 then inl AnchorEveryNotPositive
  else if cad <=? 0 then inl CadNotPositive
  else
    let star_sha := sha256_file star in
    attempt anchors <- build_anchors rows cad anchor_every;
    write_index anchor_every anchors star_sha cad.

End Script.

End Index04.

(** *** The dispatcher ([star_run.detect_case_from_star]) *)

Module StarRun.
Import Prim.

Inductive case : Type := case01 | case02 | case03 | case04.

(* the three _die() of detect_case_from_star *)
Inductive die : Type :=
| TooSmall         (* "STAR file too small to contain a valid header" *)
| NoStarPrefix     (* "Unknown STAR magic (missing 'STAR' prefix)" *)
| UnknownMagic.    (* "Unknown STAR magic (expected one of: ...)" *)

(* detect_case_from_star(path); [content] is the content of the file *)
Definition detect_case_from_star (content : list Z) : die + case :=
  let m := firstn 8 content in
  if (length m <? 5)%nat then inl TooSmall
  else if negb (tuple_eqb (firstn 4 m) (bytes_of_string "STAR"))
  then inl NoStarPrefix
  else
    let v := firstn 1 (skipn 4 m) in
    if tuple_eqb v (bytes_of_string "1") || tuple_eqb v [1] then inr case01
    else if tuple_eqb v (bytes_of_string "2") || tuple_eqb v [2] then inr case02
    else if tuple_eqb v (bytes_of_string "3") || tuple_eqb v [3] then inr case03
    else if tuple_eqb v (bytes_of_string "4") || tuple_eqb v [4] then inr case04
    else if ReplayIdx.startswith m (bytes_of_string "STAR1") then inr case01
    else if ReplayIdx.startswith m (bytes_of_string "STAR2") then inr case02
    else if ReplayIdx.startswith m (bytes_of_string "STAR3")
            || ReplayIdx.startswith m (bytes_of_string "STAR03") then inr case03
    else if ReplayIdx.startswith m (bytes_of_string "STAR4")
            || ReplayIdx.startswith m (bytes_of_string "STAR04") then inr case04
    else inl UnknownMagic.

End StarRun.

(** ** Vocabulary of the further properties *)

Module IndexFile01.
Import Struct WriteIndex01.

(* The 52 bytes of an anchor record. *)
Definition anchor_bytes (a : anchor) : list Z :=
  let '(row, off, b) := a in
  le_bytes 4 row ++ le_bytes 4 (Z.of_nat off) ++ le_bytes 4 (d_days b)
    ++ le_bytes 8 (o b) ++ le_bytes 8 (h b) ++ le_bytes 8 (l b)
    ++ le_bytes 8 (c b) ++ le_bytes 8 (v b).

(* The fields of the anchor fit the widths of "<IIiqqqqq". *)
Definition anchor_packable (a : anchor) : Prop :=
  let '(row, off, b) := a in
  0 <= row < 256 ^ Z.of_nat 4
  /\ 0 <= Z.of_nat off < 256 ^ Z.of_nat 4
  /\ - (256 ^ Z.of_nat 4 / 2) <= d_days b < 256 ^ Z.of_nat 4 / 2
  /\ Forall (fun x => - (256 ^ Z.of_nat 8 / 2) <= x < 256 ^ Z.of_nat 8 / 2)
            [o b; h b; l b; c b; v b].

(* an anchor as the replay script holds it *)
Definition loaded (a : anchor) : Z * Z * Bar :=
  let '(row, off, b) := a in (row, Z.of_nat off, b).

End IndexFile01.

Module IndexFile04.
Import Struct.

(* The 20 bytes of an anchor record: row, t_min, and a zero offset. *)
Definition anchor_bytes (a : Z * Z) : list Z :=
  le_bytes 4 (fst a) ++ le_bytes 8 (snd a) ++ le_bytes 8 0.

(* The fields of the anchor fit the widths of "<I" and "<q". *)
Definition anchor_packable (a : Z * Z) : Prop :=
  0 <= fst a < 256 ^ Z.of_nat 4
  /\ - (256 ^ Z.of_nat 8 / 2) <= snd a < 256 ^ Z.of_nat 8 / 2.

(* an anchor as the replay script holds it *)
Definition loaded (a : Z * Z) : Z * Z * Z := (fst a, snd a, 0).

End IndexFile04.

Module ReplaySpec.
Import Replay01.

(* a replayed row passes the seek filter *)
Definition wanted (sr sd : option Z) (p : Z * Bar) : Prop :=
  want_now sr sd (fst p) (snd p) = true.

(* the text that a formatter returned *)
Definition shown (o : option string) : string :=
  match o with
  | Some s => s
  | None => EmptyString
  end.

(* the anchor row at or before row [r] in an index built with the
   interval [every] over [rows] rows: the last row, or the multiple
   of the interval below [r] *)
Definition anchor_row_before (rows every r : Z) : Z :=
  if r =? rows - 1 then r else every * (r / every).

End ReplaySpec.

Module PreviewSpec.
Import ReplayIdx ReplaySpec.

(* the number of rows the preview loop is asked for: --rows, and no
   row from rows_hint on *)
Definition preview_count (a : args) (count : nat) (r : Z) : nat :=
  match a_rows_hint a with
  | Some hint => Nat.min count (Z.to_nat (hint - r))
  | None => count
  end.

(* the line of the i-th row from [r] on *)
Definition row_line (fmt : args -> Z -> option string) (a : args)
           (c r : Z) (i : nat) : line :=
  LRow (r + Z.of_nat i) ((r + Z.of_nat i) * c)
       (shown (fmt a ((r + Z.of_nat i) * c))).

End PreviewSpec.

(** Concrete inputs of the further evaluation lemmas. *)
Module Samples2.
Import Prim Samples.

(* six ticks: a run of four equal deltas, then another delta *)
Definition tick_at (t : Z) : Case02.AirTick := Case02.mkAirTick t 0 0 0 0 0 0 0.
Definition run_ticks : list Case02.AirTick :=
  [tick_at 0; tick_at 1; tick_at 2; tick_at 3; tick_at 4; tick_at 10].
Definition run_star : list Z :=
  match Case02.encode_star run_ticks with
  | Some blob => blob
  | None => []
  end.
Definition run_index : list Z :=
  match Index02.build_index run_star 1 with
  | OK idx => idx
  | Err _ => []
  end.

(* the index file of [star1], with an anchor every two rows *)
Definition index1 : list Z :=
  match WriteIndex01.main star1 2 with
  | OK idx => idx
  | Err _ => []
  end.

(* three text lines, and a stand-in for bytes.splitlines *)
Definition lines3 : list (list Z) :=
  [bytes_of_string "Date;Time"; bytes_of_string "16/12/2006;17:24:00";
   bytes_of_string "16/12/2006;17:25:00"].
Definition split3 (raw : list Z) : list (list Z) := lines3.



(* a stand-in for a digest function that tells inputs of different
   lengths apart *)
Definition digest_len (data : list Z) : list Z :=
  repeat (Z.of_nat (length data) mod 256) 32.

(* stand-ins for the formatters, which raise where those of the
   scripts do: fmt_bar on the price scale 0 and on a day outside
   datetime.date (0001-01-01 .. 9999-12-31), fmt_epoch_minutes on a
   minute outside datetime (up to 9999-12-31T23:59) *)
Definition bar_text (b : Case01.Bar) : string := EmptyString.
Definition fmt_bar0 (b : Case01.Bar) (price_scale : Z) : option string :=
  if (price_scale =? 0) || (Case01.d_days b <? -719162)
     || (2932896 <? Case01.d_days b)
  then None else Some (bar_text b).
Definition no_date (s : string) : option Z := None.
Definition time_text (t : Z) : string := EmptyString.
Definition fmt_minutes0 (t : Z) : option string :=
  if (t <? -1035593280) || (4223371679 <? t) then None else Some (time_text t).

End Samples2.

(** * Primitives: ZigZag *)

Section ZigZag.
Import Prim.

Lemma zigzag_decode_odd_even (u : Z) :
  zigzag_decode u = if Z.odd u then - (u / 2) - 1 else u / 2.
Proof.
  unfold zigzag_decode.
  rewrite Z.shiftr_div_pow2 by lia. change (2 ^ 1) with 2.
  change 1 with (Z.ones 1) at 1. rewrite Z.land_ones by lia.
  change (2 ^ 1) with 2.
  rewrite Zmod_odd. destruct (Z.odd u).
  - change (- 1) with (-1). rewrite Z.lxor_m1_r.
    pose proof (Z.add_lnot_diag (u / 2)). lia.
  - apply Z.lxor_0_r.
Qed.

Lemma zigzag_encode_nonneg_in (x : Z) :
  0 <= x < 2 ^ 63 -> zigzag_encode x = 2 * x.
Proof.
  intros H. unfold zigzag_encode.
  rewrite Z.shiftr_div_pow2, Z.shiftl_mul_pow2 by lia.
  rewrite Z.div_small by lia. rewrite Z.lxor_0_r. lia.
Qed.

Lemma zigzag_encode_neg_in (x : Z) :
  - 2 ^ 63 <= x < 0 -> zigzag_encode x = - 2 * x - 1.
Proof.
  intros H. unfold zigzag_encode.
  rewrite Z.shiftr_div_pow2, Z.shiftl_mul_pow2 by lia.
  replace (x / 2 ^ 63) with (-1).
  2:{ apply Z.div_unique with (r := x + 2 ^ 63); lia. }
  rewrite Z.lxor_m1_r.
  pose proof (Z.add_lnot_diag (x * 2 ^ 1)). lia.
Qed.

(* On a Python int of any size the two operands of the XOR have the
   same sign, so the result is never negative. *)
Lemma zigzag_encode_nonneg (x : Z) : 0 <= zigzag_encode x.
Proof.
  unfold zigzag_encode.
  apply Z.bits_iff_nonneg_ex. 
  destruct (Z.neg_nonneg_cases x) as [Hn | Hp].
  - assert (H1 : Z.shiftl x 1 < 0) by (apply Z.shiftl_neg; lia).
    assert (H2 : Z.shiftr x 63 < 0) by (apply Z.shiftr_neg; lia).
    apply Z.bits_iff_neg_ex in H1. apply Z.bits_iff_neg_ex in H2.
    destruct H1 as [k1 H1]. destruct H2 as [k2 H2].
    exists (Z.max k1 k2). intros m Hm.
    rewrite Z.lxor_spec, H1, H2 by lia. reflexivity.
  - assert (H1 : 0 <= Z.shiftl x 1) by (apply Z.shiftl_nonneg; lia).
    assert (H2 : 0 <= Z.shiftr x 63) by (apply Z.shiftr_nonneg; lia).
    apply Z.bits_iff_nonneg_ex in H1. apply Z.bits_iff_nonneg_ex in H2.
    destruct H1 as [k1 H1]. destruct H2 as [k2 H2].
    exists (Z.max k1 k2). intros m Hm.
    rewrite Z.lxor_spec, H1, H2 by lia. reflexivity.
Qed.

Lemma zigzag_roundtrip (x : Z) :
  - 2 ^ 63 <= x < 2 ^ 63 -> zigzag_decode (zigzag_encode x) = x.
Proof.
  intros H. rewrite zigzag_decode_odd_even.
  destruct (Z.neg_nonneg_cases x) as [Hn | Hp].
  - rewrite zigzag_encode_neg_in by lia.
    replace (- 2 * x - 1) with (1 + 2 * (- x - 1)) by lia.
    rewrite Z.odd_add_mul_2. cbn [Z.odd].
    replace (1 + 2 * (- x - 1)) with (1 + (- x - 1) * 2) by lia.
    rewrite Z.div_add by lia. change (1 / 2) with 0. lia.
  - rewrite zigzag_encode_nonneg_in by lia.
    replace (2 * x) with (0 + 2 * x) by lia.
    rewrite Z.odd_add_mul_2. cbn [Z.odd].
    replace (0 + 2 * x) with (x * 2) by lia.
    apply Z.div_mul. lia.
Qed.

Lemma zigzag_encode_range (x : Z) :
  - 2 ^ 63 <= x < 2 ^ 63 -> 0 <= zigzag_encode x < 2 ^ 64.
Proof.
  intros H. destruct (Z.neg_nonneg_cases x) as [Hn | Hp].
  - rewrite zigzag_encode_neg_in by lia. lia.
  - rewrite zigzag_encode_nonneg_in by lia. lia.
Qed.

Lemma zigzag_decode_range (u : Z) :
  0 <= u < 2 ^ 64 -> - 2 ^ 63 <= zigzag_decode u < 2 ^ 63.
Proof.
  intros H. rewrite zigzag_decode_odd_even.
  assert (0 <= u / 2 < 2 ^ 63).
  { split; [apply Z.div_pos; lia |].
    apply Z.div_lt_upper_bound; lia. }
  destruct (Z.odd u); lia.
Qed.

Lemma zigzag_roundtrip_inv (u : Z) :
  0 <= u < 2 ^ 64 -> zigzag_encode (zigzag_decode u) = u.
Proof.
  intros H. pose proof (zigzag_decode_range u H) as Hr.
  rewrite zigzag_decode_odd_even in *.
  pose proof (Z.div_mod u 2 ltac:(lia)) as Hdm.
  rewrite Zmod_odd in Hdm.
  destruct (Z.odd u).
  - rewrite zigzag_encode_neg_in by lia. lia.
  - rewrite zigzag_encode_nonneg_in by lia. lia.
Qed.

End ZigZag.

(** * Primitives: varint writer *)

Section VarintEncode.
Import Prim Wire.

Lemma varint_encode_loop_out (fuel : nat) : forall u out,
  varint_encode_loop fuel u out
  = option_map (app out) (varint_encode_loop fuel u []).
Proof.
  induction fuel as [| fuel IH]; intros u out; simpl; [reflexivity |].
  destruct (negb (Z.shiftr u 7 =? 0)); simpl.
  - rewrite IH. rewrite (IH _ [_]).
    destruct (varint_encode_loop fuel (Z.shiftr u 7) []); simpl;
      [rewrite <- app_assoc |]; reflexivity.
  - reflexivity.
Qed.

Lemma varint_encode_loop_S (fuel : nat) : forall u out r,
  varint_encode_loop fuel u out = Some r ->
  varint_encode_loop (S fuel) u out = Some r.
Proof.
  induction fuel as [| fuel IH]; intros u out r H; [discriminate |].
  simpl in H. change (varint_encode_loop (S (S fuel)) u out) with
    (if negb (Z.shiftr u 7 =? 0)
     then varint_encode_loop (S fuel) (Z.shiftr u 7) (out ++ [Z.lor (Z.land u 127) 128])
     else Some (out ++ [Z.land u 127])).
  destruct (negb (Z.shiftr u 7 =? 0)); [apply IH |]; exact H.
Qed.

Lemma varint_encode_loop_le (f1 f2 : nat) u out r :
  (f1 <= f2)%nat ->
  varint_encode_loop f1 u out = Some r ->
  varint_encode_loop f2 u out = Some r.
Proof.
  induction 1 as [| f2 _ IH]; intros H; [exact H |].
  apply varint_encode_loop_S, IH, H.
Qed.

Lemma varint_encode_loop_det (f1 f2 : nat) u out r1 r2 :
  varint_encode_loop f1 u out = Some r1 ->
  varint_encode_loop f2 u out = Some r2 -> r1 = r2.
Proof.
  intros H1 H2. destruct (Nat.le_ge_cases f1 f2) as [Hle | Hle].
  - apply (varint_encode_loop_le _ _ _ _ _ Hle) in H1. congruence.
  - apply (varint_encode_loop_le _ _ _ _ _ Hle) in H2. congruence.
Qed.

(* A negative argument stays negative under [>>= 7]: [if u:] is always
   taken and the loop never reaches [break]. *)
Lemma varint_encode_loop_neg (fuel : nat) : forall u out,
  u < 0 -> varint_encode_loop fuel u out = None.
Proof.
  induction fuel as [| fuel IH]; intros u out Hu; simpl; [reflexivity |].
  assert (Hs : Z.shiftr u 7 < 0) by (apply Z.shiftr_neg; exact Hu).
  destruct (Z.eqb_spec (Z.shiftr u 7) 0) as [E | _]; [lia |].
  simpl. apply IH, Hs.
Qed.

Lemma varint_encode_loop_total (fuel : nat) : forall u,
  0 <= u < 2 ^ (7 * Z.of_nat (S fuel)) ->
  exists bs, varint_encode_loop (S fuel) u [] = Some bs
             /\ (1 <= length bs <= S fuel)%nat.
Proof.
  induction fuel as [| fuel IH]; intros u Hu.
  - simpl. rewrite Z.shiftr_div_pow2 by lia.
    rewrite Z.div_small by (change (2 ^ (7 * Z.of_nat 1)) with (2 ^ 7) in Hu; lia).
    simpl. eexists; split; [reflexivity | simpl; lia].
  - change (varint_encode_loop (S (S fuel)) u []) with
      (if negb (Z.shiftr u 7 =? 0)
       then varint_encode_loop (S fuel) (Z.shiftr u 7) ([] ++ [Z.lor (Z.land u 127) 128])
       else Some ([] ++ [Z.land u 127])).
    destruct (negb (Z.shiftr u 7 =? 0)).
    + rewrite varint_encode_loop_out.
      destruct (IH (Z.shiftr u 7)) as (bs & Hbs & Hlen).
      { rewrite Z.shiftr_div_pow2 by lia. split.
        - apply Z.div_pos; lia.
        - apply Z.div_lt_upper_bound; [lia |].
          rewrite <- Z.pow_add_r by lia.
          replace (7 + 7 * Z.of_nat (S fuel)) with (7 * Z.of_nat (S (S fuel))) by lia.
          lia. }
      rewrite Hbs. simpl. eexists; split; [reflexivity | simpl; lia].
    + eexists; split; [reflexivity | simpl; lia].
Qed.

Lemma varint_fuel_enough (u : Z) :
  0 <= u -> 0 <= u < 2 ^ (7 * Z.of_nat (varint_fuel u)).
Proof.
  intros Hu. split; [exact Hu |]. unfold varint_fuel.
  rewrite Nat2Z.inj_succ, Z2Nat.id by apply Z.log2_nonneg.
  destruct (Z.eq_dec u 0) as [-> | Hne]; [simpl; lia |].
  pose proof (Z.log2_spec u ltac:(lia)) as [_ Hhi].
  eapply Z.lt_le_trans; [exact Hhi |].
  apply Z.pow_le_mono_r; [lia |].
  pose proof (Z.log2_nonneg u). lia.
Qed.

Lemma varint_encode_venc (u : Z) :
  0 <= u -> varint_encode u = Some (venc u) /\ (1 <= length (venc u))%nat.
Proof.
  intros Hu. unfold venc, varint_encode.
  destruct (varint_encode_loop_total (Z.to_nat (Z.log2 u)) u) as (bs & Hbs & Hl).
  { apply (varint_fuel_enough u Hu). }
  unfold varint_fuel. rewrite Hbs. split; [reflexivity | lia].
Qed.

Lemma varint_encode_some (u : Z) : 0 <= u -> varint_encode u = Some (venc u).
Proof. intros Hu. apply (varint_encode_venc u Hu). Qed.

Lemma venc_length_pos (u : Z) : 0 <= u -> (1 <= length (venc u))%nat.
Proof. intros Hu. apply (varint_encode_venc u Hu). Qed.

Lemma varint_encode_diverges (u : Z) :
  u < 0 -> forall fuel out, varint_encode_loop fuel u out = None.
Proof. intros Hu fuel out. apply varint_encode_loop_neg, Hu. Qed.

Lemma varint_encode_none_iff (u : Z) :
  varint_encode u = None <-> u < 0.
Proof.
  split.
  - intros H. destruct (Z.neg_nonneg_cases u) as [Hn | Hp]; [exact Hn |].
    rewrite varint_encode_some in H by exact Hp. discriminate.
  - intros Hu. apply varint_encode_loop_neg, Hu.
Qed.

(* The answer of [varint_encode] does not depend on the fuel chosen. *)
Lemma varint_encode_adequate (u : Z) (bs : list Z) :
  varint_encode u = Some bs <-> exists fuel, varint_encode_loop fuel u [] = Some bs.
Proof.
  split.
  - intros H. eexists. exact H.
  - intros [fuel H].
    destruct (Z.neg_nonneg_cases u) as [Hn | Hp].
    + rewrite varint_encode_loop_neg in H by exact Hn. discriminate.
    + pose proof (varint_encode_some u Hp) as H'.
      rewrite H'. f_equal. eapply varint_encode_loop_det; eassumption.
Qed.

Lemma venc_unfold (u : Z) :
  0 <= u ->
  venc u = if Z.shiftr u 7 =? 0 then [Z.land u 127]
           else Z.lor (Z.land u 127) 128 :: venc (Z.shiftr u 7).
Proof.
  intros Hu.
  pose proof (varint_encode_some u Hu) as H.
  unfold varint_encode, varint_fuel in H. simpl in H.
  destruct (Z.eqb_spec (Z.shiftr u 7) 0) as [E | NE]; simpl in H.
  - congruence.
  - rewrite varint_encode_loop_out in H.
    assert (Hs : 0 <= Z.shiftr u 7) by (apply Z.shiftr_nonneg; exact Hu).
    pose proof (varint_encode_some _ Hs) as H2. unfold varint_encode in H2.
    destruct (varint_encode_loop (Z.to_nat (Z.log2 u)) (Z.shiftr u 7) []) as [r |] eqn:E;
      simpl in H; [| discriminate].
    pose proof (varint_encode_loop_det _ _ _ _ _ _ E H2). subst r.
    congruence.
Qed.

Lemma venc_small (u : Z) : 0 <= u < 128 -> venc u = [u].
Proof.
  intros Hu. rewrite venc_unfold by lia.
  rewrite Z.shiftr_div_pow2, Z.div_small by (change (2 ^ 7) with 128; lia).
  simpl. change 127 with (Z.ones 7). rewrite Z.land_ones by lia.
  rewrite Z.mod_small by (change (2 ^ 7) with 128; lia). reflexivity.
Qed.

Lemma shiftr7_lt (u : Z) : 0 <= u -> Z.shiftr u 7 <> 0 -> 0 <= Z.shiftr u 7 < u.
Proof.
  intros Hu Hne. rewrite Z.shiftr_div_pow2 in * by lia.
  change (2 ^ 7) with 128 in *.
  assert (0 <= u / 128) by (apply Z.div_pos; lia).
  split; [lia |].
  destruct (Z.eq_dec u 0) as [-> | Hu0]; [exfalso; apply Hne; reflexivity |].
  apply Z.div_lt; lia.
Qed.

(* Induction along the loop of the writer. *)
Lemma venc_ind (P : Z -> Prop) :
  (forall u, 0 <= u -> Z.shiftr u 7 = 0 -> P u) ->
  (forall u, 0 <= u -> Z.shiftr u 7 <> 0 -> P (Z.shiftr u 7) -> P u) ->
  forall u, 0 <= u -> P u.
Proof.
  intros Hstop Hcont u Hu.
  apply (Z_lt_induction (fun u => 0 <= u -> P u)); [| exact Hu | exact Hu].
  clear u Hu. intros u IH Hu.
  destruct (Z.eq_dec (Z.shiftr u 7) 0) as [E | NE].
  - apply Hstop; assumption.
  - pose proof (shiftr7_lt u Hu NE).
    apply Hcont; [assumption .. |]. apply IH; lia.
Qed.

Lemma land127_bounds (u : Z) : 0 <= Z.land u 127 < 128.
Proof.
  change 127 with (Z.ones 7). rewrite Z.land_ones by lia.
  apply Z.mod_pos_bound. reflexivity.
Qed.

Lemma lor128_low (b : Z) : 0 <= b < 128 -> Z.lor b 128 = b + 128.
Proof.
  intros Hb. rewrite <- Z.lxor_lor.
  - symmetry. apply Z.add_nocarry_lxor.
    change 128 with (2 ^ 7). apply Z.bits_inj'. intros n Hn.
    rewrite Z.land_spec, Z.bits_0, Z.pow2_bits_eqb by lia.
    destruct (Z.eqb_spec 7 n) as [<- | _]; [| apply andb_false_r].
    rewrite andb_true_r. apply Z.bits_above_log2; [lia |].
    destruct (Z.eq_dec b 0) as [-> | Hne]; [simpl; lia |].
    apply Z.log2_lt_pow2; lia.
  - change 128 with (2 ^ 7). apply Z.bits_inj'. intros n Hn.
    rewrite Z.land_spec, Z.bits_0, Z.pow2_bits_eqb by lia.
    destruct (Z.eqb_spec 7 n) as [<- | _]; [| apply andb_false_r].
    rewrite andb_true_r. apply Z.bits_above_log2; [lia |].
    destruct (Z.eq_dec b 0) as [-> | Hne]; [simpl; lia |].
    apply Z.log2_lt_pow2; lia.
Qed.

(* Wire bytes are bytes. *)
Lemma venc_bytes (u : Z) :
  0 <= u -> Forall (fun b => 0 <= b < 256) (venc u).
Proof.
  revert u. apply (venc_ind (fun u => Forall (fun b => 0 <= b < 256) (venc u))).
  - intros u Hu E. rewrite venc_unfold, E by exact Hu. simpl.
    pose proof (land127_bounds u). constructor; [lia | constructor].
  - intros u Hu NE IH. rewrite venc_unfold by exact Hu.
    destruct (Z.eqb_spec (Z.shiftr u 7) 0) as [E | _]; [contradiction |].
    pose proof (land127_bounds u).
    constructor; [rewrite lor128_low by lia; lia | exact IH].
Qed.

(* Number of bytes against magnitude. *)
Lemma venc_length_le (u : Z) :
  0 <= u ->
  forall k, 1 <= k -> (Z.of_nat (length (venc u)) <= k <-> u < 2 ^ (7 * k)).
Proof.
  revert u.
  apply (venc_ind (fun u => forall k, 1 <= k ->
           (Z.of_nat (length (venc u)) <= k <-> u < 2 ^ (7 * k)))).
  - intros u Hu E k Hk. rewrite venc_unfold, E by exact Hu.
    change (Z.of_nat (length (if 0 =? 0 then [Z.land u 127]
                              else Z.lor (Z.land u 127) 128 :: venc 0))) with 1.
    rewrite Z.shiftr_div_pow2 in E by lia.
    assert (u < 2 ^ 7).
    { destruct (Z.lt_ge_cases u (2 ^ 7)) as [L | G]; [exact L |].
      assert (1 <= u / 2 ^ 7) by (apply Z.div_le_lower_bound; lia). lia. }
    assert (2 ^ 7 <= 2 ^ (7 * k)) by (apply Z.pow_le_mono_r; lia).
    lia.
  - intros u Hu NE IH k Hk. rewrite venc_unfold by exact Hu.
    destruct (Z.eqb_spec (Z.shiftr u 7) 0) as [E | _]; [contradiction |].
    pose proof (shiftr7_lt u Hu NE) as Hs.
    pose proof (venc_length_pos (Z.shiftr u 7) ltac:(lia)) as Hl.
    cbn [length]. rewrite Nat2Z.inj_succ.
    rewrite Z.shiftr_div_pow2 in * by lia.
    destruct (Z.eq_dec k 1) as [-> | Hk1].
    + split; [lia |]. intros Hlt. exfalso. apply NE.
      apply Z.div_small. change (7 * 1) with 7 in Hlt. lia.
    + specialize (IH (k - 1) ltac:(lia)).
      replace (7 * k) with (7 + 7 * (k - 1)) by lia.
      rewrite Z.pow_add_r by lia.
      split; intros H.
      * assert (u / 2 ^ 7 < 2 ^ (7 * (k - 1))) by (apply IH; lia).
        pose proof (Z.div_mod u (2 ^ 7) ltac:(lia)).
        pose proof (Z.mod_pos_bound u (2 ^ 7) ltac:(lia)). nia.
      * assert (u / 2 ^ 7 < 2 ^ (7 * (k - 1))).
        { apply Z.div_lt_upper_bound; lia. }
        apply IH in H0. lia.
Qed.

End VarintEncode.

(** * Primitives: varint reader on the writer's output *)

Section VarintDecodeEncode.
Import Prim Wire.

Lemma split7 (u : Z) :
  Z.lor (Z.land u 127) (Z.shiftl (Z.shiftr u 7) 7) = u.
Proof.
  apply Z.bits_inj'. intros n Hn.
  rewrite Z.lor_spec, Z.land_spec. change 127 with (Z.ones 7).
  destruct (Z.lt_ge_cases n 7) as [L | G].
  - rewrite Z.ones_spec_low, Z.shiftl_spec_low by lia.
    rewrite andb_true_r, orb_false_r. reflexivity.
  - rewrite Z.ones_spec_high, Z.shiftl_spec, Z.shiftr_spec by lia.
    rewrite andb_false_r. simpl. f_equal. lia.
Qed.

Lemma land_lor128_127 (u : Z) :
  Z.land (Z.lor (Z.land u 127) 128) 127 = Z.land u 127.
Proof.
  rewrite Z.land_lor_distr_l. rewrite <- Z.land_assoc.
  change (Z.land 127 127) with 127. change (Z.land 128 127) with 0.
  apply Z.lor_0_r.
Qed.

Lemma land_lor128_128 (u : Z) :
  Z.land (Z.lor (Z.land u 127) 128) 128 = 128.
Proof.
  rewrite Z.land_lor_distr_l. rewrite <- Z.land_assoc.
  change (Z.land 127 128) with 0. change (Z.land 128 128) with 128.
  rewrite Z.land_0_r. reflexivity.
Qed.

Lemma land127_128 (u : Z) : Z.land (Z.land u 127) 128 = 0.
Proof.
  rewrite <- Z.land_assoc. change (Z.land 127 128) with 0. apply Z.land_0_r.
Qed.

Lemma land127_127 (u : Z) : Z.land (Z.land u 127) 127 = Z.land u 127.
Proof. rewrite <- Z.land_assoc. reflexivity. Qed.

Lemma accumulate7 (a u s : Z) :
  0 <= s ->
  Z.lor (Z.lor a (Z.shiftl (Z.land u 127) s)) (Z.shiftl (Z.shiftr u 7) (s + 7))
  = Z.lor a (Z.shiftl u s).
Proof.
  intros Hs. rewrite <- Z.lor_assoc. f_equal.
  replace (s + 7) with (7 + s) by lia.
  rewrite <- Z.shiftl_shiftl by lia.
  rewrite <- Z.shiftl_lor. rewrite split7. reflexivity.
Qed.

Lemma varint_decode_loop_venc (limit : Z) (u : Z) :
  0 <= u ->
  forall post i s a,
    0 <= s <= limit ->
    varint_decode_loop limit (venc u ++ post) i s a
    = if s + 7 * (Z.of_nat (length (venc u)) - 1) <=? limit
      then OK (Z.lor a (Z.shiftl u s), (i + length (venc u))%nat)
      else Err Overlong.
Proof.
  revert u.
  apply (venc_ind (fun u => forall post i s a, 0 <= s <= limit ->
    varint_decode_loop limit (venc u ++ post) i s a
    = if s + 7 * (Z.of_nat (length (venc u)) - 1) <=? limit
      then OK (Z.lor a (Z.shiftl u s), (i + length (venc u))%nat)
      else Err Overlong)).
  - intros u Hu E post i s a Hs.
    rewrite venc_unfold, E by exact Hu.
    change (0 =? 0) with true. cbv iota.
    cbn [app varint_decode_loop length].
    rewrite land127_128, land127_127. change (0 =? 0) with true. cbv iota.
    replace (s + 7 * (Z.of_nat 1 - 1)) with s by lia.
    destruct (Z.leb_spec s limit); [| lia].
    assert (Hlow : Z.land u 127 = u).
    { pose proof (split7 u) as S7.
      rewrite E, Z.shiftl_0_l, Z.lor_0_r in S7. exact S7. }
    rewrite Hlow. do 2 f_equal. lia.
  - intros u Hu NE IH post i s a Hs.
    rewrite venc_unfold by exact Hu.
    destruct (Z.eqb_spec (Z.shiftr u 7) 0) as [E | _]; [contradiction |].
    pose proof (shiftr7_lt u Hu NE) as Hlt.
    pose proof (venc_length_pos (Z.shiftr u 7) ltac:(lia)) as Hl.
    cbn [app varint_decode_loop length].
    rewrite land_lor128_128, land_lor128_127.
    change (128 =? 0) with false. cbv iota.
    rewrite Nat2Z.inj_succ.
    destruct (Z.gtb_spec (s + 7) limit) as [G | L].
    + destruct (Z.leb_spec (s + 7 * (Z.succ (Z.of_nat (length (venc (Z.shiftr u 7)))) - 1)) limit);
        [lia | reflexivity].
    + rewrite IH by lia. rewrite accumulate7 by lia.
      replace (s + 7 + 7 * (Z.of_nat (length (venc (Z.shiftr u 7))) - 1))
        with (s + 7 * (Z.succ (Z.of_nat (length (venc (Z.shiftr u 7)))) - 1)) by lia.
      destruct (_ <=? limit); [| reflexivity].
      do 2 f_equal. lia.
Qed.

(* Reading back what the writer wrote, from position [i] of any buffer
   that holds it there: the value returns when it fits the reader's
   largest shift, and the reader raises otherwise. *)
Lemma varint_decode_with_venc (limit : Z) (buf post : list Z) (i : nat) (u : Z) :
  0 <= limit -> 0 <= u ->
  skipn i buf = venc u ++ post ->
  varint_decode_with limit buf i
  = if u <? 2 ^ (7 * (limit / 7 + 1))
    then OK (u, (i + length (venc u))%nat)
    else Err Overlong.
Proof.
  intros Hlim Hu Hbuf. unfold varint_decode_with. rewrite Hbuf.
  rewrite varint_decode_loop_venc by lia.
  rewrite Z.shiftl_0_r, Z.lor_0_l.
  pose proof (venc_length_le u Hu (limit / 7 + 1)) as Hk.
  assert (0 <= limit / 7) by (apply Z.div_pos; lia).
  specialize (Hk ltac:(lia)).
  pose proof (Z.div_mod limit 7 ltac:(lia)) as Hdm.
  pose proof (Z.mod_pos_bound limit 7 ltac:(lia)) as Hmb.
  destruct (Z.ltb_spec u (2 ^ (7 * (limit / 7 + 1)))) as [L | G].
  - apply Hk in L.
    destruct (Z.leb_spec (0 + 7 * (Z.of_nat (length (venc u)) - 1)) limit); [reflexivity | lia].
  - destruct (Z.leb_spec (0 + 7 * (Z.of_nat (length (venc u)) - 1)) limit) as [L' | G'];
      [| reflexivity].
    exfalso. assert (Z.of_nat (length (venc u)) <= limit / 7 + 1) by lia.
    apply Hk in H0. lia.
Qed.

Lemma skipn_app_exact {A : Type} (i : nat) (buf x post : list A) :
  skipn i buf = x ++ post -> skipn (i + length x) buf = post.
Proof.
  intros H. rewrite Nat.add_comm, <- skipn_skipn, H.
  rewrite skipn_app, skipn_all, Nat.sub_diag. reflexivity.
Qed.

End VarintDecodeEncode.

(** * Buffers and positions *)

Section Buffers.
Context {A : Type}.

Lemma skipn_head (i : nat) (buf : list A) (x : A) (r : list A) :
  skipn i buf = x :: r -> nth_error buf i = Some x /\ skipn (S i) buf = r.
Proof.
  revert buf. induction i as [| i IH]; intros buf H.
  - destruct buf; simpl in H; [discriminate |]. injection H as -> ->. auto.
  - destruct buf; simpl in H; [discriminate |]. apply IH in H. exact H.
Qed.

Lemma skipn_nil_nth (i : nat) (buf : list A) :
  skipn i buf = [] -> nth_error buf i = None.
Proof.
  intros H. apply nth_error_None.
  destruct (Nat.le_gt_cases (length buf) i) as [L | G]; [exact L |].
  exfalso. assert (Hl : length (skipn i buf) = 0%nat) by (rewrite H; reflexivity).
  rewrite length_skipn in Hl. lia.
Qed.

Lemma skipn_length_eq (i : nat) (buf rest : list A) :
  skipn i buf = rest -> (i <= length buf)%nat ->
  length buf = (i + length rest)%nat.
Proof. intros <- H. rewrite length_skipn. lia. Qed.

Lemma skipn_cons_le (i : nat) (buf : list A) (x : A) (r : list A) :
  skipn i buf = x :: r -> (i < length buf)%nat.
Proof.
  intros H. apply skipn_head in H. destruct H as [H _].
  apply nth_error_Some. congruence.
Qed.

Lemma skipn_app_length (i : nat) (buf x post : list A) :
  skipn i buf = x ++ post -> x <> [] ->
  length buf = (i + length x + length post)%nat.
Proof.
  intros H Hx.
  assert (Hl : length (skipn i buf) = (length x + length post)%nat)
    by (rewrite H; apply length_app).
  rewrite length_skipn in Hl.
  destruct x; [contradiction |]. cbn [length] in *. lia.
Qed.

Lemma last_app_single (xs : list A) (x d : A) : last (xs ++ [x]) d = x.
Proof. apply last_last. Qed.

End Buffers.

Lemma OK_inj {A : Type} (a b : A) : OK a = OK b -> a = b.
Proof. intros H. injection H as H. exact H. Qed.

Lemma pair_inj {A B : Type} (a a' : A) (b b' : B) :
  (a, b) = (a', b') -> a = a' /\ b = b'.
Proof. intros H. injection H as H1 H2. auto. Qed.

(** * Tuples on the wire *)

Section Tuples.
Import Prim Wire.

Lemma write_tuple_ser (t : list Z) : write_tuple t = Some (ser_tuple t).
Proof.
  induction t as [| x t IH]; [reflexivity |].
  cbn [write_tuple]. rewrite varint_encode_some by apply zigzag_encode_nonneg.
  cbn [obind]. rewrite IH. reflexivity.
Qed.

Lemma read_tuple_ser (limit : Z) (t : list Z) :
  0 <= limit ->
  forall buf i post,
    skipn i buf = ser_tuple t ++ post ->
    read_tuple_with limit (length t) buf i
    = if tuple_fits (limit / 7 + 1) t
      then OK (dec_tuple t, (i + length (ser_tuple t))%nat)
      else Err Overlong.
Proof.
  intros Hlim. induction t as [| x t IH]; intros buf i post H.
  - cbn. rewrite Nat.add_0_r. reflexivity.
  - cbn [ser_tuple flat_map] in H. rewrite <- app_assoc in H.
    cbn [length read_tuple_with].
    rewrite (varint_decode_with_venc limit buf _ i (zigzag_encode x) Hlim
               (zigzag_encode_nonneg x) H).
    cbn [tuple_fits forallb]. unfold fits at 1.
    destruct (zigzag_encode x <? 2 ^ (7 * (limit / 7 + 1))); cbn [bind andb];
      [| reflexivity].
    apply skipn_app_exact in H. fold (ser_tuple t) in H.
    rewrite (IH _ _ _ H). fold (tuple_fits (limit / 7 + 1) t).
    destruct (tuple_fits (limit / 7 + 1) t); cbn [bind]; [| reflexivity].
    cbn [dec_tuple map ser_tuple flat_map]. unfold wrap at 1.
    rewrite length_app. do 2 f_equal. fold (ser_tuple t). lia.
Qed.

Lemma dec_tuple_length (t : list Z) : length (dec_tuple t) = length t.
Proof. apply length_map. Qed.

Lemma tuple_eqb_eq (a b : list Z) : tuple_eqb a b = true <-> a = b.
Proof.
  revert b. induction a as [| x a IH]; intros [| y b]; simpl;
    try (split; [discriminate | discriminate]); [tauto |].
  rewrite andb_true_iff, Z.eqb_eq, IH. split.
  - intros [-> ->]. reflexivity.
  - intros H. injection H as -> ->. auto.
Qed.

Lemma tuple_eqb_refl (a : list Z) : tuple_eqb a a = true.
Proof. apply tuple_eqb_eq. reflexivity. Qed.

Lemma wrap_id (x : Z) : - 2 ^ 63 <= x < 2 ^ 63 -> wrap x = x.
Proof. apply zigzag_roundtrip. Qed.

Lemma dec_tuple_id (t : list Z) : Forall in_i64 t -> dec_tuple t = t.
Proof.
  induction 1 as [| x t Hx _ IH]; [reflexivity |].
  cbn [dec_tuple map]. rewrite wrap_id by exact Hx. f_equal. exact IH.
Qed.

Lemma tuple_fits_i64 (nbytes : Z) (t : list Z) :
  10 <= nbytes -> Forall in_i64 t -> tuple_fits nbytes t = true.
Proof.
  intros Hn. induction 1 as [| x t Hx _ IH]; [reflexivity |].
  cbn [tuple_fits forallb]. fold (tuple_fits nbytes t). rewrite IH, andb_true_r.
  unfold fits. apply Z.ltb_lt.
  pose proof (zigzag_encode_range x Hx).
  assert (2 ^ 64 <= 2 ^ (7 * nbytes)) by (apply Z.pow_le_mono_r; lia). lia.
Qed.

End Tuples.

(** * Rows under a sequence of deltas *)

Section Scan.
Import Wire.
Context {R : Type} (step : R -> list Z -> R).

Lemma scan_length (cur : R) (ds : list (list Z)) :
  length (scan step cur ds) = length ds.
Proof. revert cur. induction ds; intros; simpl; [| rewrite IHds]; reflexivity. Qed.

Lemma last_cons_default (x d : R) (xs : list R) :
  last (x :: xs) d = last xs x.
Proof.
  revert x d. induction xs as [| y xs IH]; intros x d; [reflexivity |].
  change (last (x :: y :: xs) d) with (last (y :: xs) d).
  rewrite (IH y d), (IH y x). reflexivity.
Qed.

Lemma last_app_default (xs ys : list R) (d : R) :
  last (xs ++ ys) d = last ys (last xs d).
Proof.
  revert d. induction xs as [| x xs IH]; intros d; [reflexivity |].
  cbn [app]. rewrite !last_cons_default. apply IH.
Qed.

Lemma scan_app (cur : R) (a b : list (list Z)) :
  scan step cur (a ++ b)
  = scan step cur a ++ scan step (last (scan step cur a) cur) b.
Proof.
  revert cur. induction a as [| d a IH]; intros cur; [reflexivity |].
  cbn [app scan]. rewrite IH. cbn [app]. rewrite last_cons_default.
  reflexivity.
Qed.

Lemma scan_firstn (cur : R) (k : nat) (ds : list (list Z)) :
  firstn k (scan step cur ds) = scan step cur (firstn k ds).
Proof.
  revert cur ds. induction k as [| k IH]; intros cur [| d ds]; try reflexivity.
  cbn [firstn scan]. f_equal. apply IH.
Qed.

End Scan.

Section Flatten.
Import Wire.

Lemma flatten_app (a b : list block) : flatten (a ++ b) = flatten a ++ flatten b.
Proof. apply flat_map_app. Qed.

Lemma flatten_cons (b : block) (bs : list block) :
  flatten (b :: bs) = repeat (b_tup b) (Z.to_nat (rows_of b)) ++ flatten bs.
Proof. reflexivity. Qed.

Lemma ser_blocks_app (a b : list block) :
  ser_blocks (a ++ b) = ser_blocks a ++ ser_blocks b.
Proof. apply flat_map_app. Qed.

Lemma ser_blocks_cons (b : block) (bs : list block) :
  ser_blocks (b :: bs) = ser_block b ++ ser_blocks bs.
Proof. reflexivity. Qed.

Lemma ser_blocks_single (b : block) : ser_blocks [b] = ser_block b.
Proof. cbn. apply app_nil_r. Qed.

Lemma ser_block_length_pos (b : block) : (1 <= length (ser_block b))%nat.
Proof. unfold ser_block. destruct (b_rle b); simpl; lia. Qed.

Lemma ser_blocks_length (bs : list block) :
  (length bs <= length (ser_blocks bs))%nat.
Proof.
  induction bs as [| b bs IH]; [simpl; lia |].
  rewrite ser_blocks_cons, length_app. pose proof (ser_block_length_pos b).
  simpl. lia.
Qed.

Lemma flatten_repeat_lit (tup : list Z) (k : nat) :
  flatten (repeat (mkBlock false 1 tup) k) = repeat tup k.
Proof.
  induction k as [| k IH]; [reflexivity |].
  cbn [repeat]. rewrite flatten_cons, IH. reflexivity.
Qed.

End Flatten.

(** * Case-01: what the encoder writes *)

Section Encode01.
Import Prim Wire Case01 Blocks01.

(* The inner scan stops after [k] further copies of [tup]; it stops
   because the deltas end, the cap is reached, or the next delta
   differs. *)
Lemma scan_run_spec (tup : list Z) : forall rest run,
  exists k : nat,
    scan_run tup rest run = (run + Z.of_nat k, skipn k rest)
    /\ firstn k rest = repeat tup k
    /\ (k <= length rest)%nat
    /\ (skipn k rest = []
        \/ RUN_CAP <= run + Z.of_nat k
        \/ exists d r, skipn k rest = d :: r /\ d <> tup).
Proof.
  induction rest as [| d rest IH]; intros run.
  - exists 0%nat. cbn. rewrite Z.add_0_r. auto.
  - cbn [scan_run].
    destruct (tuple_eqb d tup) eqn:Ed; cbn [andb].
    + apply tuple_eqb_eq in Ed. subst d.
      destruct (Z.ltb_spec run RUN_CAP) as [L | G].
      * destruct (IH (run + 1)) as (k & Hk & Hf & Hl & Hstop).
        exists (S k). rewrite Hk. cbn [skipn firstn repeat length].
        rewrite Hf. repeat split; [f_equal; lia | lia |].
        replace (run + Z.of_nat (S k)) with (run + 1 + Z.of_nat k) by lia.
        exact Hstop.
      * exists 0%nat. cbn. rewrite Z.add_0_r.
        repeat split; [lia |]. right; left. lia.
    + exists 0%nat. cbn. rewrite Z.add_0_r.
      repeat split; [lia |]. right; right. exists d, rest. split; [reflexivity |].
      intros ->. rewrite tuple_eqb_refl in Ed. discriminate.
Qed.

Lemma literal_blocks_ser (k : nat) (tup : list Z) :
  literal_blocks k (ser_tuple tup) = ser_blocks (repeat (mkBlock false 1 tup) k).
Proof.
  induction k as [| k IH]; [reflexivity |].
  cbn [literal_blocks repeat]. rewrite ser_blocks_cons, IH. reflexivity.
Qed.

Lemma encode_body_blocks (fuel : nat) : forall deltas,
  (length deltas <= fuel)%nat ->
  encode_body fuel deltas = Some (ser_blocks (blocks fuel deltas)).
Proof.
  induction fuel as [| fuel IH]; intros [| tup after] Hlen;
    try reflexivity; cbn [length] in Hlen; [lia |].
  cbn [encode_body blocks].
  destruct (scan_run_spec tup after 1) as (k & Hk & _ & Hl & _).
  rewrite Hk. rewrite IH by (rewrite length_skipn; lia).
  rewrite write_tuple_ser.
  rewrite varint_encode_some by lia.
  destruct (1 + Z.of_nat k >=? 3); cbn [obind].
  - rewrite ser_blocks_app, ser_blocks_single. reflexivity.
  - rewrite literal_blocks_ser, ser_blocks_app. reflexivity.
Qed.

Lemma blocks_flatten (fuel : nat) : forall deltas,
  (length deltas <= fuel)%nat -> flatten (blocks fuel deltas) = deltas.
Proof.
  induction fuel as [| fuel IH]; intros [| tup after] Hlen;
    try reflexivity; cbn [length] in Hlen; [lia |].
  cbn [blocks].
  destruct (scan_run_spec tup after 1) as (k & Hk & Hf & Hl & _).
  rewrite Hk, flatten_app. rewrite IH by (rewrite length_skipn; lia).
  assert (Hrun : Z.to_nat (1 + Z.of_nat k) = S k) by lia.
  assert (Hhead : (if 1 + Z.of_nat k >=? 3
                   then flatten [mkBlock true (1 + Z.of_nat k) tup]
                   else flatten (repeat (mkBlock false 1 tup) (Z.to_nat (1 + Z.of_nat k))))
                  = tup :: repeat tup k).
  { destruct (1 + Z.of_nat k >=? 3).
    - cbn [flatten flat_map rows_of b_rle b_run b_tup]. rewrite Hrun, app_nil_r.
      reflexivity.
    - rewrite flatten_repeat_lit, Hrun. reflexivity. }
  destruct (1 + Z.of_nat k >=? 3); rewrite Hhead;
    cbn [app]; f_equal; rewrite <- Hf; apply firstn_skipn.
Qed.

Lemma blocks_well_formed (fuel : nat) : forall deltas,
  Forall (fun d => length d = 6%nat) deltas ->
  Forall (well_formed 6) (blocks fuel deltas).
Proof.
  induction fuel as [| fuel IH]; intros [| tup after] Hw;
    try (constructor; fail).
  cbn [blocks]. inversion Hw as [| ? ? Htup Hafter]; subst.
  destruct (scan_run_spec tup after 1) as (k & Hk & _ & _ & _).
  rewrite Hk. apply Forall_app. split.
  - destruct (Z.geb_spec (1 + Z.of_nat k) 3) as [G | L].
    + constructor; [| constructor].
      unfold well_formed, rows_of. cbn [b_rle b_run b_tup]. split; [lia | exact Htup].
    + apply Forall_forall. intros b Hb. apply repeat_spec in Hb. subst b.
      unfold well_formed, rows_of. cbn [b_rle b_run b_tup]. split; [lia | exact Htup].
  - apply IH. rewrite <- (firstn_skipn k after) in Hafter.
    apply Forall_app in Hafter. apply Hafter.
Qed.

Lemma deltas_from_length (prev : Bar) (bars : list Bar) :
  length (deltas_from prev bars) = length bars.
Proof.
  revert prev. induction bars as [| b bars IH]; intros prev; [reflexivity |].
  cbn [deltas_from length]. rewrite IH. reflexivity.
Qed.

Lemma deltas_from_width (prev : Bar) (bars : list Bar) :
  Forall (fun d => length d = 6%nat) (deltas_from prev bars).
Proof.
  revert prev. induction bars as [| b bars IH]; intros prev; constructor;
    [reflexivity | apply IH].
Qed.

Lemma encode_star_nonempty (b0 : Bar) (rest : list Bar) (price_scale : Z) :
  0 <= price_scale ->
  encode_star (b0 :: rest) price_scale
  = Some (MAGIC ++ venc (Z.of_nat (S (length rest))) ++ venc price_scale
            ++ ser_tuple (fields b0) ++ ser_blocks (body_blocks b0 rest)).
Proof.
  intros Hps. unfold encode_star.
  rewrite varint_encode_some by lia. cbn [obind].
  rewrite varint_encode_some by exact Hps. cbn [obind].
  rewrite write_tuple_ser. cbn [obind].
  rewrite encode_body_blocks by reflexivity. cbn [obind].
  rewrite deltas_from_length. reflexivity.
Qed.

Lemma encode_star_diverges (b0 : Bar) (rest : list Bar) (price_scale : Z) :
  price_scale < 0 -> encode_star (b0 :: rest) price_scale = None.
Proof.
  intros Hps. unfold encode_star.
  rewrite varint_encode_some by lia. cbn [obind].
  apply varint_encode_none_iff in Hps. rewrite Hps. reflexivity.
Qed.

Lemma encode_star_empty (price_scale : Z) :
  encode_star [] price_scale = Some (MAGIC ++ [0]).
Proof. reflexivity. Qed.

End Encode01.

(** * Case-01: reading blocks back *)

Section Decode01.
Import Prim Wire Case01 Blocks01 Index01.

Lemma decode_block_ser (b : block) (buf post : list Z) (i : nat) :
  well_formed 6 b ->
  skipn i buf = ser_block b ++ post ->
  decode_block buf i
  = if block_fits 10 b
    then OK (dec_tuple (b_tup b), rows_of b, (i + length (ser_block b))%nat)
    else Err Overlong.
Proof.
  intros [Hrows Hw] H. unfold decode_block, ser_block, block_fits, rows_of in *.
  destruct (b_rle b).
  - cbn [app] in H. apply skipn_head in H. destruct H as [-> H].
    change (0 =? 0) with true. cbv iota.
    rewrite <- app_assoc in H. unfold varint_decode.
    rewrite (varint_decode_with_venc 63 buf _ (S i) (b_run b) ltac:(lia) ltac:(lia) H).
    change (63 / 7 + 1) with 10. unfold fits at 1.
    destruct (b_run b <? 2 ^ (7 * 10)); cbn [bind andb]; [| reflexivity].
    apply skipn_app_exact in H. rewrite <- Hw.
    rewrite (read_tuple_ser 63 (b_tup b) ltac:(lia) _ _ _ H).
    change (63 / 7 + 1) with 10.
    destruct (tuple_fits 10 (b_tup b)); cbn [bind]; [| reflexivity].
    cbn [length]. rewrite length_app. do 2 f_equal. lia.
  - cbn [app] in H. apply skipn_head in H. destruct H as [-> H].
    change (1 =? 0) with false. change (1 =? 1) with true. cbv iota.
    rewrite <- Hw.
    rewrite (read_tuple_ser 63 (b_tup b) ltac:(lia) _ _ _ H).
    change (63 / 7 + 1) with 10. cbn [andb].
    destruct (tuple_fits 10 (b_tup b)); cbn [bind]; [| reflexivity].
    cbn [length]. do 2 f_equal. lia.
Qed.

Lemma append_run_scan (k : nat) (tup : list Z) : forall bars,
  bars <> [] ->
  append_run k tup bars
  = bars ++ scan add_delta (last bars bar0) (repeat tup k).
Proof.
  induction k as [| k IH]; intros bars Hne.
  - cbn. symmetry. apply app_nil_r.
  - cbn [append_run repeat scan]. rewrite IH by (destruct bars; discriminate).
    rewrite last_last, <- app_assoc. reflexivity.
Qed.

(* The loop of [decode_star] reads its blocks exactly as [decode_block]. *)
Lemma decode_body_step (fuel : nat) (buf : list Z) (i : nat) (n : Z)
      (bars : list Bar) :
  decode_body (S fuel) buf i n bars
  = if Z.of_nat (length bars) <? n then
      do (tr, i') <- decode_block buf i;
      let '(tup, run) := tr in
      decode_body fuel buf i' n (append_run (Z.to_nat run) tup bars)
    else OK bars.
Proof.
  cbn [decode_body]. unfold decode_block.
  destruct (Z.of_nat (length bars) <? n); [| reflexivity].
  destruct (nth_error buf i) as [tag |]; [| reflexivity].
  destruct (tag =? 0).
  - destruct (varint_decode buf (S i)) as [[run i1] | e]; [| reflexivity].
    cbn [bind]. destruct (read_tuple_with 63 6 buf i1) as [[tup i2] | e];
      reflexivity.
  - destruct (tag =? 1); [| reflexivity].
    destruct (read_tuple_with 63 6 buf (S i)) as [[tup i2] | e]; reflexivity.
Qed.

Lemma flatten_length_cons (b : block) (bs : list block) :
  length (flatten (b :: bs))
  = (Z.to_nat (rows_of b) + length (flatten bs))%nat.
Proof. rewrite flatten_cons, length_app, repeat_length. reflexivity. Qed.

Lemma decode_body_blocks (bs : list block) : forall fuel buf i n bars post,
  Forall (well_formed 6) bs ->
  skipn i buf = ser_blocks bs ++ post ->
  bars <> [] ->
  Z.of_nat (length bars) + Z.of_nat (length (flatten bs)) = n ->
  (length bs < fuel)%nat ->
  decode_body fuel buf i n bars
  = if forallb (block_fits 10) bs
    then OK (bars ++ scan add_delta (last bars bar0)
                          (map dec_tuple (flatten bs)))
    else Err Overlong.
Proof.
  induction bs as [| b bs IH]; intros fuel buf i n bars post Hwf Hbuf Hne Hn Hfuel.
  - destruct fuel as [| fuel]; [cbn in Hfuel; lia |].
    rewrite decode_body_step. cbn in Hn.
    destruct (Z.ltb_spec (Z.of_nat (length bars)) n); [lia |].
    cbn. rewrite app_nil_r. reflexivity.
  - destruct fuel as [| fuel]; [cbn in Hfuel; lia |].
    apply Forall_cons_iff in Hwf. destruct Hwf as [Hb Hbs].
    rewrite decode_body_step. rewrite flatten_length_cons in Hn.
    pose proof Hb as [Hrows _]. subst n.
    destruct (Z.ltb_spec (Z.of_nat (length bars)) (Z.of_nat (length bars)
               + Z.of_nat (Z.to_nat (rows_of b) + length (flatten bs)))); [| lia].
    rewrite ser_blocks_cons, <- app_assoc in Hbuf.
    rewrite (decode_block_ser b buf _ i Hb Hbuf).
    cbn [forallb]. destruct (block_fits 10 b); cbn [bind andb]; [| reflexivity].
    apply skipn_app_exact in Hbuf.
    rewrite append_run_scan by exact Hne.
    rewrite (IH fuel buf _ (Z.of_nat (length bars)
               + Z.of_nat (Z.to_nat (rows_of b) + length (flatten bs)))
               _ post Hbs Hbuf).
    + destruct (forallb (block_fits 10) bs); [| reflexivity].
      rewrite flatten_cons, map_app, map_repeat, scan_app, <- app_assoc.
      rewrite last_app_default. reflexivity.
    + destruct bars; [contradiction | discriminate].
    + rewrite length_app, scan_length, repeat_length. lia.
    + cbn [length] in Hfuel. lia.
Qed.

End Decode01.

(** * Case-01: decoding an encoded file *)

Section RoundTrip01.
Import Prim Wire Case01 Blocks01 Index01.

Lemma MAGIC_bytes : MAGIC = [83; 84; 65; 82; 49].
Proof. reflexivity. Qed.

Lemma firstn_MAGIC (x : list Z) : firstn 5 (MAGIC ++ x) = MAGIC.
Proof. rewrite MAGIC_bytes. reflexivity. Qed.

Lemma skipn_MAGIC (x : list Z) : skipn 5 (MAGIC ++ x) = x.
Proof. rewrite MAGIC_bytes. reflexivity. Qed.

Lemma header_length (n ps : Z) (b0 : Bar) :
  length (header n ps b0)
  = (5 + length (venc n) + length (venc ps) + length (ser_tuple (fields b0)))%nat.
Proof. unfold header. rewrite !length_app, MAGIC_bytes. cbn [length]. lia. Qed.

Lemma parse_header_encoded (n ps : Z) (b0 : Bar) (body : list Z) :
  0 < n -> 0 <= ps ->
  parse_star1_header (header n ps b0 ++ body)
  = if header_fits n ps b0
    then OK (n, ps, base_of b0, length (header n ps b0))
    else Err Overlong.
Proof.
  intros Hn Hps. unfold parse_star1_header, header_fits.
  pose proof (header_length n ps b0) as Hlen.
  unfold header in *. rewrite <- !app_assoc.
  rewrite firstn_MAGIC, tuple_eqb_refl. cbn [negb].
  set (buf := MAGIC ++ venc n ++ venc ps ++ ser_tuple (fields b0) ++ body).
  assert (H1 : skipn 5 buf = venc n ++ venc ps ++ ser_tuple (fields b0) ++ body)
    by apply skipn_MAGIC.
  unfold varint_decode.
  rewrite (varint_decode_with_venc 63 buf _ 5 n ltac:(lia) ltac:(lia) H1).
  change (63 / 7 + 1) with 10. unfold fits at 1.
  destruct (n <? 2 ^ (7 * 10)); cbn [bind andb]; [| reflexivity].
  destruct (Z.eqb_spec n 0) as [E | _]; [lia |].
  apply skipn_app_exact in H1.
  rewrite (varint_decode_with_venc 63 buf _ _ ps ltac:(lia) Hps H1).
  change (63 / 7 + 1) with 10. unfold fits at 1.
  destruct (ps <? 2 ^ (7 * 10)); cbn [bind andb]; [| reflexivity].
  apply skipn_app_exact in H1.
  change 6%nat with (length (fields b0)).
  rewrite (read_tuple_ser 63 (fields b0) ltac:(lia) _ _ _ H1).
  change (63 / 7 + 1) with 10.
  destruct (tuple_fits 10 (fields b0)); cbn [bind]; [| reflexivity].
  unfold base_of. rewrite Hlen. reflexivity.
Qed.

Lemma decode_star_via_header (buf : list Z) :
  decode_star buf
  = do (hdr, i) <- parse_star1_header buf;
    let '(n, ps, base) := hdr in
    if n =? 0 then OK ([], (0, None))
    else
      do bars <- decode_body (S (length buf)) buf i n [base];
      OK (bars, (n, Some ps)).
Proof.
  unfold decode_star, parse_star1_header.
  destruct (negb (tuple_eqb (firstn 5 buf) MAGIC)); [reflexivity |].
  destruct (varint_decode buf 5) as [[n i] | e]; [| reflexivity].
  cbn [bind]. destruct (Z.eqb_spec n 0) as [-> | Hn]; [reflexivity |].
  destruct (varint_decode buf i) as [[ps i2] | e]; [| reflexivity].
  cbn [bind]. destruct (read_tuple_with 63 6 buf i2) as [[base i3] | e];
    [| reflexivity].
  cbn [bind]. destruct (Z.eqb_spec n 0) as [E | _]; [contradiction |].
  reflexivity.
Qed.

Lemma encode_star_encoded (b0 : Bar) (rest : list Bar) (ps : Z) :
  0 <= ps -> encode_star (b0 :: rest) ps = Some (encoded b0 rest ps).
Proof.
  intros Hps. rewrite encode_star_nonempty by exact Hps.
  unfold encoded, header. rewrite <- !app_assoc. reflexivity.
Qed.

Lemma body_blocks_flatten (b0 : Bar) (rest : list Bar) :
  flatten (body_blocks b0 rest) = deltas_from b0 rest.
Proof.
  unfold body_blocks. apply blocks_flatten. rewrite deltas_from_length. lia.
Qed.

Lemma body_blocks_well_formed (b0 : Bar) (rest : list Bar) :
  Forall (well_formed 6) (body_blocks b0 rest).
Proof. apply blocks_well_formed, deltas_from_width. Qed.

Lemma encoded_length (b0 : Bar) (rest : list Bar) (ps : Z) :
  length (encoded b0 rest ps)
  = (length (header (Z.of_nat (S (length rest))) ps b0)
     + length (ser_blocks (body_blocks b0 rest)))%nat.
Proof. unfold encoded. apply length_app. Qed.

(* Full decode of an encoded file, whatever the size of its values. *)
Lemma decode_star_encoded (b0 : Bar) (rest : list Bar) (ps : Z) :
  0 <= ps ->
  decode_star (encoded b0 rest ps)
  = if header_fits (Z.of_nat (S (length rest))) ps b0
       && forallb (block_fits 10) (body_blocks b0 rest)
    then OK (base_of b0
               :: scan add_delta (base_of b0)
                    (map dec_tuple (deltas_from b0 rest)),
             (Z.of_nat (S (length rest)), Some ps))
    else Err Overlong.
Proof.
  intros Hps. rewrite decode_star_via_header. unfold encoded.
  rewrite parse_header_encoded by lia.
  destruct (header_fits (Z.of_nat (S (length rest))) ps b0); cbn [bind andb];
    [| reflexivity].
  destruct (Z.eqb_spec (Z.of_nat (S (length rest))) 0) as [E | _]; [lia |].
  rewrite (decode_body_blocks (body_blocks b0 rest) _ _ _ _ [base_of b0] []).
  - destruct (forallb (block_fits 10) (body_blocks b0 rest)); cbn [bind];
      [| reflexivity].
    rewrite body_blocks_flatten. reflexivity.
  - apply body_blocks_well_formed.
  - rewrite app_nil_r, skipn_app, skipn_all, Nat.sub_diag. reflexivity.
  - discriminate.
  - rewrite body_blocks_flatten, deltas_from_length. cbn [length]. lia.
  - rewrite length_app. pose proof (ser_blocks_length (body_blocks b0 rest)). lia.
Qed.

End RoundTrip01.

Section InRange01.
Import Prim Wire Case01 Blocks01 Index01.

Lemma blocks_bounds (fuel : nat) : forall deltas,
  Forall (fun b => 0 <= b_run b <= Z.of_nat (length deltas)
                   /\ In (b_tup b) deltas)
         (blocks fuel deltas).
Proof.
  induction fuel as [| fuel IH]; intros [| tup after]; try (constructor; fail).
  cbn [blocks].
  destruct (scan_run_spec tup after 1) as (k & Hk & _ & Hl & _).
  rewrite Hk. apply Forall_app. split.
  - destruct (1 + Z.of_nat k >=? 3).
    + constructor; [| constructor]. cbn [b_run b_tup length].
      split; [lia | left; reflexivity].
    + apply Forall_forall. intros b Hb. apply repeat_spec in Hb. subst b.
      cbn [b_run b_tup length]. split; [lia | left; reflexivity].
  - eapply Forall_impl; [| apply IH].
    intros b [Hrun Hin]. rewrite length_skipn in Hrun. cbn [length].
    split; [lia |]. right.
    rewrite <- (firstn_skipn k after). apply in_or_app. right. exact Hin.
Qed.

Lemma blocks_fit_in_range (b0 : Bar) (rest : list Bar) :
  Forall (Forall in_i64) (deltas_from b0 rest) ->
  Z.of_nat (S (length rest)) < 2 ^ 70 ->
  forallb (block_fits 10) (body_blocks b0 rest) = true.
Proof.
  intros Hr Hn. apply forallb_forall. intros b Hb.
  pose proof (blocks_bounds (length rest) (deltas_from b0 rest)) as Hbd.
  rewrite Forall_forall in Hbd. specialize (Hbd b Hb).
  destruct Hbd as [Hrun Hin]. rewrite deltas_from_length in Hrun.
  rewrite Forall_forall in Hr. specialize (Hr _ Hin).
  unfold block_fits. rewrite (tuple_fits_i64 10 _ ltac:(lia) Hr), andb_true_r.
  destruct (b_rle b); [| reflexivity].
  unfold fits. apply Z.ltb_lt. change (7 * 10) with 70. lia.
Qed.

Lemma bar_of_fields_fields (b : Bar) : bar_of_fields (fields b) = b.
Proof. destruct b; reflexivity. Qed.

Lemma add_delta_delta (prev b : Bar) : add_delta prev (delta prev b) = b.
Proof.
  destruct prev, b. unfold add_delta, delta. cbn [nth d_days o h l c v].
  f_equal; lia.
Qed.

Lemma scan_deltas_from (prev : Bar) (bars : list Bar) :
  scan add_delta prev (deltas_from prev bars) = bars.
Proof.
  revert prev. induction bars as [| b bars IH]; intros prev; [reflexivity |].
  cbn [deltas_from scan]. rewrite add_delta_delta, IH. reflexivity.
Qed.

Lemma map_dec_tuple_id (ds : list (list Z)) :
  Forall (Forall in_i64) ds -> map dec_tuple ds = ds.
Proof.
  induction 1 as [| d ds Hd _ IH]; [reflexivity |].
  cbn [map]. rewrite dec_tuple_id by exact Hd. f_equal. exact IH.
Qed.

Lemma decode_star_encoded_in_range (b0 : Bar) (rest : list Bar) (ps : Z) :
  bars_in_range (b0 :: rest) ->
  Z.of_nat (S (length rest)) < 2 ^ 70 ->
  0 <= ps < 2 ^ 70 ->
  decode_star (encoded b0 rest ps)
  = OK (b0 :: rest, (Z.of_nat (S (length rest)), Some ps)).
Proof.
  intros [Hb Hd] Hn Hps. rewrite decode_star_encoded by lia.
  rewrite blocks_fit_in_range by assumption.
  unfold header_fits, fits. change (7 * 10) with 70.
  destruct (Z.ltb_spec (Z.of_nat (S (length rest))) (2 ^ 70)); [| lia].
  destruct (Z.ltb_spec ps (2 ^ 70)); [| lia].
  rewrite (tuple_fits_i64 10 _ ltac:(lia) Hb). cbn [andb].
  unfold base_of. rewrite dec_tuple_id by exact Hb.
  rewrite bar_of_fields_fields, map_dec_tuple_id by exact Hd.
  rewrite scan_deltas_from. reflexivity.
Qed.

(* Round trip of the Case-01 codec on its domain. *)
Lemma roundtrip01 (bars : list Bar) (ps : Z) :
  bars_in_range bars ->
  Z.of_nat (length bars) < 2 ^ 70 ->
  0 <= ps < 2 ^ 70 ->
  exists blob meta,
    encode_star bars ps = Some blob /\ decode_star blob = OK (bars, meta).
Proof.
  intros Hr Hn Hps. destruct bars as [| b0 rest].
  - exists (MAGIC ++ [0]), (0, None). split; reflexivity.
  - exists (encoded b0 rest ps). eexists. split.
    + apply encode_star_encoded. lia.
    + apply decode_star_encoded_in_range; assumption.
Qed.

End InRange01.

(** * Case-02: what the encoder writes *)

Section Encode02.
Import Prim Wire Case02 Blocks02.

Lemma deltas_from_app (prev : AirTick) (a b : list AirTick) :
  deltas_from prev (a ++ b)
  = deltas_from prev a ++ deltas_from (last a prev) b.
Proof.
  revert prev. induction a as [| x a IH]; intros prev; [reflexivity |].
  cbn [app deltas_from]. rewrite IH, last_cons_default. reflexivity.
Qed.

Lemma deltas_from_length02 (prev : AirTick) (ticks : list AirTick) :
  length (deltas_from prev ticks) = length ticks.
Proof.
  revert prev. induction ticks as [| t ticks IH]; intros prev; [reflexivity |].
  cbn [deltas_from length]. rewrite IH. reflexivity.
Qed.

Lemma deltas_from_width02 (prev : AirTick) (ticks : list AirTick) :
  Forall (fun d => length d = 8%nat) (deltas_from prev ticks).
Proof.
  revert prev. induction ticks as [| t ticks IH]; intros prev; constructor;
    [reflexivity | apply IH].
Qed.

(* The inner scan stops after [k] further ticks whose deltas repeat
   [dtup]; it stops because the ticks end or the next delta differs. *)
Lemma scan_run_spec02 (dtup : list Z) : forall rest cur run,
  exists k : nat,
    scan_run dtup cur rest run
    = (run + Z.of_nat k, last (firstn k rest) cur, skipn k rest)
    /\ deltas_from cur (firstn k rest) = repeat dtup k
    /\ (k <= length rest)%nat
    /\ (skipn k rest = []
        \/ exists nxt r, skipn k rest = nxt :: r
                         /\ deltas (last (firstn k rest) cur) nxt <> dtup).
Proof.
  induction rest as [| nxt rest IH]; intros cur run.
  - exists 0%nat. cbn. rewrite Z.add_0_r. auto.
  - cbn [scan_run].
    destruct (tuple_eqb (deltas cur nxt) dtup) eqn:Ed.
    + apply tuple_eqb_eq in Ed.
      destruct (IH nxt (run + 1)) as (k & Hk & Hf & Hl & Hstop).
      exists (S k). rewrite Hk. cbn [skipn firstn repeat length deltas_from].
      rewrite Hf, Ed, last_cons_default.
      repeat split; [do 2 f_equal; lia | lia | exact Hstop].
    + exists 0%nat. cbn. rewrite Z.add_0_r.
      repeat split; [lia |]. right. exists nxt, rest. split; [reflexivity |].
      intros E. rewrite E, tuple_eqb_refl in Ed. discriminate.
Qed.

Lemma encode_body_blocks02 (fuel : nat) : forall prev rest,
  (length rest <= fuel)%nat ->
  encode_body fuel prev rest = Some (ser_blocks (blocks fuel prev rest)).
Proof.
  induction fuel as [| fuel IH]; intros prev [| cur after] Hlen;
    try reflexivity; cbn [length] in Hlen; [lia |].
  cbn [encode_body blocks].
  destruct (scan_run_spec02 (deltas prev cur) after cur 1) as (k & Hk & _ & Hl & _).
  rewrite Hk. rewrite write_tuple_ser.
  rewrite varint_encode_some by lia.
  destruct (1 + Z.of_nat k >=? 3); cbn [obind].
  - rewrite IH by (rewrite length_skipn; lia). cbn [obind].
    rewrite ser_blocks_cons. unfold ser_block. cbn [b_rle b_run b_tup app].
    rewrite <- app_assoc. reflexivity.
  - rewrite IH by lia. cbn [obind]. rewrite ser_blocks_cons. reflexivity.
Qed.

Lemma blocks_flatten02 (fuel : nat) : forall prev rest,
  (length rest <= fuel)%nat ->
  flatten (blocks fuel prev rest) = deltas_from prev rest.
Proof.
  induction fuel as [| fuel IH]; intros prev [| cur after] Hlen;
    try reflexivity; cbn [length] in Hlen; [lia |].
  cbn [blocks].
  destruct (scan_run_spec02 (deltas prev cur) after cur 1) as (k & Hk & Hf & Hl & _).
  rewrite Hk.
  destruct (1 + Z.of_nat k >=? 3).
  - rewrite flatten_cons. cbn [rows_of b_rle b_run b_tup].
    rewrite IH by (rewrite length_skipn; lia).
    replace (Z.to_nat (1 + Z.of_nat k)) with (S k) by lia.
    cbn [repeat app deltas_from]. f_equal.
    rewrite <- (firstn_skipn k after) at 3.
    rewrite deltas_from_app, Hf. reflexivity.
  - rewrite flatten_cons. cbn [rows_of b_rle b_run b_tup].
    rewrite IH by lia. reflexivity.
Qed.

Lemma blocks_well_formed02 (fuel : nat) : forall prev rest,
  Forall (well_formed 8) (blocks fuel prev rest).
Proof.
  induction fuel as [| fuel IH]; intros prev [| cur after];
    try (constructor; fail).
  cbn [blocks].
  destruct (scan_run_spec02 (deltas prev cur) after cur 1) as (k & Hk & _ & _ & _).
  rewrite Hk.
  destruct (Z.geb_spec (1 + Z.of_nat k) 3) as [G | L]; constructor;
    try apply IH; unfold well_formed, rows_of; cbn [b_rle b_run b_tup];
    (split; [lia | reflexivity]).
Qed.

Lemma blocks_bounds02 (fuel : nat) : forall prev rest,
  Forall (fun b => 0 <= b_run b <= Z.of_nat (length rest)
                   /\ In (b_tup b) (deltas_from prev rest))
         (blocks fuel prev rest).
Proof.
  induction fuel as [| fuel IH]; intros prev [| cur after];
    try (constructor; fail).
  cbn [blocks].
  destruct (scan_run_spec02 (deltas prev cur) after cur 1) as (k & Hk & _ & Hl & _).
  rewrite Hk.
  destruct (1 + Z.of_nat k >=? 3); constructor.
  - cbn [b_run b_tup length deltas_from]. split; [lia | left; reflexivity].
  - eapply Forall_impl; [| apply IH].
    intros b [Hrun Hin]. rewrite length_skipn in Hrun. cbn [length deltas_from].
    split; [lia |]. right.
    rewrite <- (firstn_skipn k after). rewrite deltas_from_app.
    apply in_or_app. right. exact Hin.
  - cbn [b_run b_tup length deltas_from]. split; [lia | left; reflexivity].
  - eapply Forall_impl; [| apply IH].
    intros b [Hrun Hin]. cbn [length deltas_from].
    split; [lia | right; exact Hin].
Qed.

Lemma encode_star_encoded02 (base : AirTick) (rest : list AirTick) :
  encode_star (base :: rest) = Some (encoded base rest).
Proof.
  unfold encode_star.
  rewrite varint_encode_some by lia. cbn [obind].
  rewrite write_tuple_ser. cbn [obind].
  rewrite encode_body_blocks02 by reflexivity. cbn [obind].
  unfold encoded, header, body_blocks. rewrite <- !app_assoc. reflexivity.
Qed.

Lemma encode_star_empty02 : encode_star [] = Some (STAR_MAGIC ++ [0]).
Proof. reflexivity. Qed.

Lemma body_blocks_flatten02 (base : AirTick) (rest : list AirTick) :
  flatten (body_blocks base rest) = deltas_from base rest.
Proof. apply blocks_flatten02. lia. Qed.

End Encode02.

(** * Case-02: reading blocks back *)

Section Decode02.
Import Prim Wire Case02 Blocks02.

Lemma read_block_ser (b : block) (buf post : list Z) (i : nat) :
  well_formed 8 b ->
  skipn i buf = ser_block b ++ post ->
  read_block buf i
  = if block_fits 11 b
    then OK (b_rle b, rows_of b, dec_tuple (b_tup b),
             (i + length (ser_block b))%nat)
    else Err Overlong.
Proof.
  intros [Hrows Hw] H. unfold read_block, ser_block, block_fits, rows_of in *.
  destruct (b_rle b).
  - cbn [app] in H. apply skipn_head in H. destruct H as [-> H].
    change (0 =? 0) with true. cbv iota.
    rewrite <- app_assoc in H. unfold varint_decode.
    rewrite (varint_decode_with_venc 70 buf _ (S i) (b_run b) ltac:(lia) ltac:(lia) H).
    change (70 / 7 + 1) with 11. unfold fits at 1.
    destruct (b_run b <? 2 ^ (7 * 11)); cbn [bind andb]; [| reflexivity].
    apply skipn_app_exact in H. rewrite <- Hw.
    rewrite (read_tuple_ser 70 (b_tup b) ltac:(lia) _ _ _ H).
    change (70 / 7 + 1) with 11.
    destruct (tuple_fits 11 (b_tup b)); cbn [bind]; [| reflexivity].
    cbn [length]. rewrite length_app. do 2 f_equal. lia.
  - cbn [app] in H. apply skipn_head in H. destruct H as [-> H].
    change (1 =? 0) with false. change (1 =? 1) with true. cbv iota.
    rewrite <- Hw.
    rewrite (read_tuple_ser 70 (b_tup b) ltac:(lia) _ _ _ H).
    change (70 / 7 + 1) with 11. cbn [andb].
    destruct (tuple_fits 11 (b_tup b)); cbn [bind]; [| reflexivity].
    cbn [length]. do 2 f_equal. lia.
Qed.

(* Within the row count the [break] of the run loop only fires after
   the last iteration. *)
Lemma append_run_scan02 (k : nat) (tup : list Z) (n : Z) : forall ticks,
  ticks <> [] ->
  Z.of_nat (length ticks) + Z.of_nat k <= n ->
  append_run k tup n ticks
  = ticks ++ scan add_delta (last ticks tick0) (repeat tup k).
Proof.
  induction k as [| k IH]; intros ticks Hne Hn.
  - cbn. symmetry. apply app_nil_r.
  - cbn [append_run repeat scan].
    destruct (Z.geb_spec (Z.of_nat (length (ticks ++ [add_delta (last ticks tick0) tup]))) n)
      as [G | L].
    + rewrite length_app in G. cbn [length] in G.
      assert (k = 0%nat) by lia. subst k. reflexivity.
    + rewrite IH.
      * rewrite last_last, <- app_assoc. reflexivity.
      * destruct ticks; discriminate.
      * rewrite length_app. cbn [length]. lia.
Qed.

Lemma decode_body_blocks02 (bs : list block) : forall fuel buf i n ticks post,
  Forall (well_formed 8) bs ->
  skipn i buf = ser_blocks bs ++ post ->
  ticks <> [] ->
  Z.of_nat (length ticks) + Z.of_nat (length (flatten bs)) = n ->
  (length bs < fuel)%nat ->
  decode_body fuel buf i n ticks
  = if forallb (block_fits 11) bs
    then OK (ticks ++ scan add_delta (last ticks tick0)
                           (map dec_tuple (flatten bs)))
    else Err Overlong.
Proof.
  induction bs as [| b bs IH]; intros fuel buf i n ticks post Hwf Hbuf Hne Hn Hfuel.
  - destruct fuel as [| fuel]; [cbn in Hfuel; lia |].
    cbn [decode_body]. cbn in Hn.
    destruct (Z.ltb_spec (Z.of_nat (length ticks)) n); [lia |].
    cbn. rewrite app_nil_r. reflexivity.
  - destruct fuel as [| fuel]; [cbn in Hfuel; lia |].
    apply Forall_cons_iff in Hwf. destruct Hwf as [Hb Hbs].
    cbn [decode_body]. rewrite flatten_length_cons in Hn.
    pose proof Hb as [Hrows _]. subst n.
    destruct (Z.ltb_spec (Z.of_nat (length ticks)) (Z.of_nat (length ticks)
               + Z.of_nat (Z.to_nat (rows_of b) + length (flatten bs)))); [| lia].
    rewrite ser_blocks_cons, <- app_assoc in Hbuf.
    rewrite (read_block_ser b buf _ i Hb Hbuf).
    cbn [forallb]. destruct (block_fits 11 b); cbn [bind andb]; [| reflexivity].
    apply skipn_app_exact in Hbuf.
    assert (Hstep :
      (if b_rle b
       then append_run (Z.to_nat (rows_of b)) (dec_tuple (b_tup b))
              (Z.of_nat (length ticks)
               + Z.of_nat (Z.to_nat (rows_of b) + length (flatten bs))) ticks
       else ticks ++ [add_delta (last ticks tick0) (dec_tuple (b_tup b))])
      = ticks ++ scan add_delta (last ticks tick0)
                   (repeat (dec_tuple (b_tup b)) (Z.to_nat (rows_of b)))).
    { unfold rows_of in *. destruct (b_rle b).
      - apply append_run_scan02; [exact Hne | lia].
      - reflexivity. }
    set (n := Z.of_nat (length ticks)
              + Z.of_nat (Z.to_nat (rows_of b) + length (flatten bs))) in *.
    assert (Hgoal : decode_body fuel buf (i + length (ser_block b)) n
              (ticks ++ scan add_delta (last ticks tick0)
                   (repeat (dec_tuple (b_tup b)) (Z.to_nat (rows_of b))))
            = if forallb (block_fits 11) bs
              then OK (ticks ++ scan add_delta (last ticks tick0)
                                 (map dec_tuple (flatten (b :: bs))))
              else Err Overlong).
    { rewrite (IH fuel buf _ n _ post Hbs Hbuf).
      - destruct (forallb (block_fits 11) bs); [| reflexivity].
        rewrite flatten_cons, map_app, map_repeat, scan_app, <- app_assoc.
        rewrite last_app_default. reflexivity.
      - destruct ticks; [contradiction | discriminate].
      - rewrite length_app, scan_length, repeat_length. subst n. lia.
      - cbn [length] in Hfuel. lia. }
    rewrite <- Hgoal, <- Hstep. destruct (b_rle b); reflexivity.
Qed.

Lemma STAR_MAGIC_bytes : STAR_MAGIC = [83; 84; 65; 82; 50; 65].
Proof. reflexivity. Qed.

Lemma firstn_STAR_MAGIC (x : list Z) : firstn 6 (STAR_MAGIC ++ x) = STAR_MAGIC.
Proof. rewrite STAR_MAGIC_bytes. reflexivity. Qed.

Lemma skipn_STAR_MAGIC (x : list Z) : skipn 6 (STAR_MAGIC ++ x) = x.
Proof. rewrite STAR_MAGIC_bytes. reflexivity. Qed.

Lemma header_length02 (n : Z) (base : AirTick) :
  length (header n base)
  = (6 + length (venc n) + length (ser_tuple (fields base)))%nat.
Proof. unfold header. rewrite !length_app, STAR_MAGIC_bytes. cbn [length]. lia. Qed.

(* The header of an encoded file, as the three readers parse it. *)
Lemma header_parse02 (n : Z) (base : AirTick) (body : list Z) :
  0 < n ->
  let buf := header n base ++ body in
  tuple_eqb (firstn 6 buf) STAR_MAGIC = true
  /\ (do (n', i) <- varint_decode buf 6;
      if n' =? 0 then Err BadMagic
      else do (vals, i) <- read_tuple_with 70 8 buf i;
           OK (n', tick_of_fields vals, i))
     = (if header_fits n base
        then OK (n, base_of base, length (header n base))
        else Err Overlong)
  /\ skipn (length (header n base)) buf = body.
Proof.
  intros Hn buf. pose proof (header_length02 n base) as Hlen.
  subst buf. unfold header in *. rewrite <- !app_assoc.
  rewrite firstn_STAR_MAGIC, tuple_eqb_refl.
  split; [reflexivity |]. split.
  - set (buf := STAR_MAGIC ++ venc n ++ ser_tuple (fields base) ++ body).
    assert (H1 : skipn 6 buf = venc n ++ ser_tuple (fields base) ++ body)
      by apply skipn_STAR_MAGIC.
    unfold varint_decode, header_fits.
    rewrite (varint_decode_with_venc 70 buf _ 6 n ltac:(lia) ltac:(lia) H1).
    change (70 / 7 + 1) with 11. unfold fits at 1.
    destruct (n <? 2 ^ (7 * 11)); cbn [bind andb]; [| reflexivity].
    destruct (Z.eqb_spec n 0) as [E | _]; [lia |].
    apply skipn_app_exact in H1.
    change 8%nat with (length (fields base)).
    rewrite (read_tuple_ser 70 (fields base) ltac:(lia) _ _ _ H1).
    change (70 / 7 + 1) with 11.
    destruct (tuple_fits 11 (fields base)); cbn [bind]; [| reflexivity].
    unfold base_of. rewrite Hlen. reflexivity.
  - rewrite !app_assoc, skipn_app, skipn_all, Nat.sub_diag.
    reflexivity.
Qed.

Lemma body_blocks_well_formed02 (base : AirTick) (rest : list AirTick) :
  Forall (well_formed 8) (body_blocks base rest).
Proof. apply blocks_well_formed02. Qed.

(* Full decode of an encoded file, whatever the size of its values. *)
Lemma decode_star_encoded02 (base : AirTick) (rest : list AirTick) :
  decode_star (encoded base rest)
  = if header_fits (Z.of_nat (S (length rest))) base
       && forallb (block_fits 11) (body_blocks base rest)
    then OK (base_of base
               :: scan add_delta (base_of base)
                    (map dec_tuple (deltas_from base rest)))
    else Err Overlong.
Proof.
  unfold decode_star, encoded.
  destruct (header_parse02 (Z.of_nat (S (length rest))) base
              (ser_blocks (body_blocks base rest)) ltac:(lia)) as (Hm & Hh & Hb).
  cbv zeta in Hm, Hh, Hb. rewrite Hm. cbn [negb].
  set (buf := header (Z.of_nat (S (length rest))) base
              ++ ser_blocks (body_blocks base rest)) in *.
  destruct (varint_decode buf 6) as [[n' i] | e]; cbn [bind] in *.
  2:{ destruct (header_fits _ base); [discriminate |]. injection Hh as ->.
      reflexivity. }
  destruct (n' =? 0).
  { destruct (header_fits _ base); discriminate. }
  destruct (read_tuple_with 70 8 buf i) as [[vals i2] | e]; cbn [bind] in *.
  2:{ destruct (header_fits _ base); [discriminate |]. injection Hh as ->.
      reflexivity. }
  destruct (header_fits _ base); [| discriminate]. cbn [andb].
  assert (E : (n', tick_of_fields vals, i2)
              = (Z.of_nat (S (length rest)), base_of base,
                 length (header (Z.of_nat (S (length rest))) base)))
    by congruence.
  pose proof (f_equal (fun x => fst (fst x)) E) as E1.
  pose proof (f_equal (fun x => snd (fst x)) E) as E2.
  pose proof (f_equal snd E) as E3.
  cbn [fst snd] in E1, E2, E3. rewrite E1, E2, E3. clear E E1 E2 E3 Hh.
  rewrite (decode_body_blocks02 (body_blocks base rest) _ _ _ _ [base_of base] []).
  - destruct (forallb (block_fits 11) (body_blocks base rest)); [| reflexivity].
    rewrite body_blocks_flatten02. reflexivity.
  - apply body_blocks_well_formed02.
  - rewrite app_nil_r. exact Hb.
  - discriminate.
  - rewrite body_blocks_flatten02, deltas_from_length02. cbn [length]. lia.
  - subst buf. rewrite length_app.
    pose proof (ser_blocks_length (body_blocks base rest)). lia.
Qed.

End Decode02.

Section InRange02.
Import Prim Wire Case02 Blocks02.

Lemma blocks_fit_in_range02 (base : AirTick) (rest : list AirTick) :
  Forall (Forall in_i64) (deltas_from base rest) ->
  Z.of_nat (S (length rest)) < 2 ^ 77 ->
  forallb (block_fits 11) (body_blocks base rest) = true.
Proof.
  intros Hr Hn. apply forallb_forall. intros b Hb.
  pose proof (blocks_bounds02 (length rest) base rest) as Hbd.
  rewrite Forall_forall in Hbd. specialize (Hbd b Hb).
  destruct Hbd as [Hrun Hin].
  rewrite Forall_forall in Hr. specialize (Hr _ Hin).
  unfold block_fits. rewrite (tuple_fits_i64 11 _ ltac:(lia) Hr), andb_true_r.
  destruct (b_rle b); [| reflexivity].
  unfold fits. apply Z.ltb_lt. change (7 * 11) with 77. lia.
Qed.

Lemma tick_of_fields_fields (t : AirTick) : tick_of_fields (fields t) = t.
Proof. destruct t; reflexivity. Qed.

Lemma add_delta_deltas (prev t : AirTick) : add_delta prev (deltas prev t) = t.
Proof.
  destruct prev, t. unfold add_delta, deltas.
  cbn [nth t_min co_x10 c6h6_x10 nox no2 t_x10 rh_x10 ah_x1000].
  f_equal; lia.
Qed.

Lemma scan_deltas_from02 (prev : AirTick) (ticks : list AirTick) :
  scan add_delta prev (deltas_from prev ticks) = ticks.
Proof.
  revert prev. induction ticks as [| t ticks IH]; intros prev; [reflexivity |].
  cbn [deltas_from scan]. rewrite add_delta_deltas, IH. reflexivity.
Qed.

Lemma decode_star_encoded_in_range02 (base : AirTick) (rest : list AirTick) :
  ticks_in_range (base :: rest) ->
  Z.of_nat (S (length rest)) < 2 ^ 77 ->
  decode_star (encoded base rest) = OK (base :: rest).
Proof.
  intros [Hb Hd] Hn. rewrite decode_star_encoded02.
  rewrite blocks_fit_in_range02 by assumption.
  unfold header_fits, fits. change (7 * 11) with 77.
  destruct (Z.ltb_spec (Z.of_nat (S (length rest))) (2 ^ 77)); [| lia].
  rewrite (tuple_fits_i64 11 _ ltac:(lia) Hb). cbn [andb].
  unfold base_of. rewrite dec_tuple_id by exact Hb.
  rewrite tick_of_fields_fields, map_dec_tuple_id by exact Hd.
  rewrite scan_deltas_from02. reflexivity.
Qed.

(* Round trip of the Case-02 codec on its domain. *)
Lemma roundtrip02 (ticks : list AirTick) :
  ticks_in_range ticks ->
  Z.of_nat (length ticks) < 2 ^ 77 ->
  exists blob, encode_star ticks = Some blob /\ decode_star blob = OK ticks.
Proof.
  intros Hr Hn. destruct ticks as [| base rest].
  - exists (STAR_MAGIC ++ [0]). split; reflexivity.
  - exists (encoded base rest). split.
    + apply encode_star_encoded02.
    + apply decode_star_encoded_in_range02; assumption.
Qed.

End InRange02.

(** * Fixed-width fields *)

Section StructLemmas.
Import Struct.

Lemma le_bytes_length (k : nat) : forall v, length (le_bytes k v) = k.
Proof. induction k as [| k IH]; intros v; cbn; [| rewrite IH]; reflexivity. Qed.

Lemma le_value_le_bytes (k : nat) : forall v,
  0 <= v < 256 ^ Z.of_nat k -> le_value (le_bytes k v) = v.
Proof.
  induction k as [| k IH]; intros v Hv.
  - cbn in *. lia.
  - cbn [le_bytes le_value]. rewrite Nat2Z.inj_succ, Z.pow_succ_r in Hv by lia.
    rewrite IH.
    + pose proof (Z.div_mod v 256 ltac:(lia)). lia.
    + split; [apply Z.div_pos; lia | apply Z.div_lt_upper_bound; lia].
Qed.

Lemma pack_unsigned_ok (k : nat) (v : Z) :
  0 <= v < 256 ^ Z.of_nat k -> pack_unsigned k v = OK (le_bytes k v).
Proof.
  intros Hv. unfold pack_unsigned.
  destruct (Z.leb_spec 0 v); [| lia].
  destruct (Z.ltb_spec v (256 ^ Z.of_nat k)); [| lia]. reflexivity.
Qed.

Lemma unpack_unsigned_le_bytes (k : nat) (buf post : list Z) (pos : nat) (v : Z) :
  (1 <= k)%nat -> 0 <= v < 256 ^ Z.of_nat k ->
  skipn pos buf = le_bytes k v ++ post ->
  unpack_unsigned k buf pos = OK v.
Proof.
  intros Hk Hv H. unfold unpack_unsigned.
  pose proof (skipn_app_length pos buf _ _ H) as Hl.
  rewrite le_bytes_length in Hl.
  assert (Hne : le_bytes k v <> []).
  { intros E. apply (f_equal (@length Z)) in E.
    rewrite le_bytes_length in E. cbn in E. lia. }
  specialize (Hl Hne).
  destruct (Nat.leb_spec (pos + k) (length buf)); [| lia].
  rewrite H. rewrite firstn_app, le_bytes_length, Nat.sub_diag.
  rewrite firstn_all2 by (rewrite le_bytes_length; lia).
  cbn [firstn]. rewrite app_nil_r, le_value_le_bytes by exact Hv. reflexivity.
Qed.

End StructLemmas.

(** * Case-04: the UTF-8 codec *)

Section Utf8.
Import Prim Case04 Wire04.

Lemma encode_point_scalar (c : Z) : encode_point c <> None <-> scalar c.
Proof.
  unfold encode_point, scalar.
  destruct (Z.ltb_spec c 0); [split; [congruence | lia] |].
  destruct (Z.ltb_spec c 128); [split; [lia | discriminate] |].
  destruct (Z.ltb_spec c 2048); [split; [lia | discriminate] |].
  destruct (Z.ltb_spec c 65536).
  - destruct (Z.leb_spec 55296 c); destruct (Z.leb_spec c 57343); cbn [andb];
      split; try congruence; try lia; discriminate.
  - destruct (Z.ltb_spec c 1114112); split; try congruence; try lia; discriminate.
Qed.

Lemma between_spec (lo hi b : Z) : between lo hi b = true <-> lo <= b <= hi.
Proof. unfold between. rewrite andb_true_iff, !Z.leb_le. reflexivity. Qed.

Lemma between_not (lo hi b : Z) : b < lo \/ hi < b -> between lo hi b = false.
Proof.
  intros H. unfold between. apply andb_false_iff.
  destruct H; [left | right]; apply Z.leb_gt; assumption.
Qed.

(* the four shapes of a well-formed sequence *)
Lemma decode_1 (b0 : Z) (rest : list Z) :
  0 <= b0 <= 127 ->
  decode_utf8 (b0 :: rest) = (do s <- decode_utf8 rest; OK (b0 :: s)).
Proof.
  intros H. cbn [decode_utf8]. rewrite (proj2 (between_spec 0 127 b0) H).
  reflexivity.
Qed.

Lemma decode_2 (b0 b1 : Z) (rest : list Z) :
  194 <= b0 <= 223 -> 128 <= b1 <= 191 ->
  decode_utf8 (b0 :: b1 :: rest)
  = (do s <- decode_utf8 rest; OK ((b0 - 192) * 64 + (b1 - 128) :: s)).
Proof.
  intros H0 H1. cbn [decode_utf8].
  rewrite (between_not 0 127 b0) by lia.
  rewrite (proj2 (between_spec 194 223 b0) H0).
  rewrite (proj2 (between_spec 128 191 b1) H1). reflexivity.
Qed.

Lemma decode_3 (b0 b1 b2 : Z) (rest : list Z) :
  224 <= b0 <= 239 ->
  (if b0 =? 224 then 160 else 128) <= b1 <= (if b0 =? 237 then 159 else 191) ->
  128 <= b2 <= 191 ->
  decode_utf8 (b0 :: b1 :: b2 :: rest)
  = (do s <- decode_utf8 rest;
     OK ((b0 - 224) * 4096 + (b1 - 128) * 64 + (b2 - 128) :: s)).
Proof.
  intros H0 H1 H2. cbn [decode_utf8].
  rewrite (between_not 0 127 b0) by lia.
  rewrite (between_not 194 223 b0) by lia.
  rewrite (proj2 (between_spec 224 239 b0) H0).
  rewrite (proj2 (between_spec _ _ b1) H1).
  rewrite (proj2 (between_spec 128 191 b2) H2). reflexivity.
Qed.

Lemma decode_4 (b0 b1 b2 b3 : Z) (rest : list Z) :
  240 <= b0 <= 244 ->
  (if b0 =? 240 then 144 else 128) <= b1 <= (if b0 =? 244 then 143 else 191) ->
  128 <= b2 <= 191 -> 128 <= b3 <= 191 ->
  decode_utf8 (b0 :: b1 :: b2 :: b3 :: rest)
  = (do s <- decode_utf8 rest;
     OK ((b0 - 240) * 262144 + (b1 - 128) * 4096 + (b2 - 128) * 64
         + (b3 - 128) :: s)).
Proof.
  intros H0 H1 H2 H3. cbn [decode_utf8].
  rewrite (between_not 0 127 b0) by lia.
  rewrite (between_not 194 223 b0) by lia.
  rewrite (between_not 224 239 b0) by lia.
  rewrite (proj2 (between_spec 240 244 b0) H0).
  rewrite (proj2 (between_spec _ _ b1) H1).
  rewrite (proj2 (between_spec 128 191 b2) H2).
  rewrite (proj2 (between_spec 128 191 b3) H3). reflexivity.
Qed.

(* What is written for a code point is read back as that code point. *)
Lemma decode_point (c : Z) (bs rest : list Z) :
  encode_point c = Some bs ->
  decode_utf8 (bs ++ rest) = (do s <- decode_utf8 rest; OK (c :: s)).
Proof.
  unfold encode_point. intros H.
  destruct (Z.ltb_spec c 0); [discriminate |].
  destruct (Z.ltb_spec c 128).
  { assert (Eb : bs = [c]) by congruence. subst bs. apply decode_1. lia. }
  pose proof (Z.div_mod c 64 ltac:(lia)) as D0.
  pose proof (Z.mod_pos_bound c 64 ltac:(lia)) as M0.
  destruct (Z.ltb_spec c 2048).
  { assert (Eb : bs = [192 + c / 64; 128 + c mod 64]) by congruence.
    subst bs. clear H.
    set (q := c / 64) in *. set (m := c mod 64) in *. clearbody q m.
    change ([192 + q; 128 + m] ++ rest) with ((192 + q) :: (128 + m) :: rest).
    rewrite decode_2 by lia.
    replace ((192 + q - 192) * 64 + (128 + m - 128)) with c by lia.
    reflexivity. }
  pose proof (Z.div_mod (c / 64) 64 ltac:(lia)) as D1.
  pose proof (Z.mod_pos_bound (c / 64) 64 ltac:(lia)) as M1.
  assert (E2 : c / 4096 = c / 64 / 64)
    by (rewrite Z.div_div by lia; reflexivity).
  destruct (Z.ltb_spec c 65536).
  { assert (Hs : c < 55296 \/ 57343 < c).
    { destruct (Z.leb_spec 55296 c); destruct (Z.leb_spec c 57343);
        cbn [andb] in H; try discriminate; lia. }
    assert (Hb : Some [224 + c / 4096; 128 + (c / 64) mod 64; 128 + c mod 64]
                 = Some bs).
    { destruct (Z.leb_spec 55296 c); destruct (Z.leb_spec c 57343);
        cbn [andb] in H; try discriminate; exact H. }
    clear H.
    assert (Eb : bs = [224 + c / 4096; 128 + (c / 64) mod 64; 128 + c mod 64])
      by congruence.
    subst bs. clear Hb. rewrite E2.
    set (q1 := c / 64) in *. set (m0 := c mod 64) in *.
    set (q2 := q1 / 64) in *. set (m1 := q1 mod 64) in *.
    clearbody q1 m0 q2 m1.
    change ([224 + q2; 128 + m1; 128 + m0] ++ rest)
      with ((224 + q2) :: (128 + m1) :: (128 + m0) :: rest).
    rewrite decode_3;
      [| lia
       | destruct (Z.eqb_spec (224 + q2) 224);
         destruct (Z.eqb_spec (224 + q2) 237); lia
       | lia].
    replace ((224 + q2 - 224) * 4096 + (128 + m1 - 128) * 64 + (128 + m0 - 128))
      with c by lia.
    reflexivity. }
  pose proof (Z.div_mod (c / 64 / 64) 64 ltac:(lia)) as D2.
  pose proof (Z.mod_pos_bound (c / 64 / 64) 64 ltac:(lia)) as M2.
  assert (E3 : c / 262144 = c / 64 / 64 / 64)
    by (rewrite !Z.div_div by lia; reflexivity).
  destruct (Z.ltb_spec c 1114112); [| discriminate].
  assert (Eb : bs = [240 + c / 262144; 128 + (c / 4096) mod 64;
                     128 + (c / 64) mod 64; 128 + c mod 64]) by congruence.
  subst bs. clear H. rewrite E2, E3.
  set (q1 := c / 64) in *. set (m0 := c mod 64) in *.
  set (q2 := q1 / 64) in *. set (m1 := q1 mod 64) in *.
  set (q3 := q2 / 64) in *. set (m2 := q2 mod 64) in *.
  clearbody q1 m0 q2 m1 q3 m2.
  change ([240 + q3; 128 + m2; 128 + m1; 128 + m0] ++ rest)
    with ((240 + q3) :: (128 + m2) :: (128 + m1) :: (128 + m0) :: rest).
  rewrite decode_4;
    [| lia
     | destruct (Z.eqb_spec (240 + q3) 240);
       destruct (Z.eqb_spec (240 + q3) 244); lia
     | lia | lia].
  replace ((240 + q3 - 240) * 262144 + (128 + m2 - 128) * 4096
           + (128 + m1 - 128) * 64 + (128 + m0 - 128)) with c by lia.
  reflexivity.
Qed.

(* The encoder returns exactly on the strs without a surrogate. *)
Lemma encode_utf8_encodable (s : str) :
  (exists b, encode_utf8 s = OK b) <-> encodable s.
Proof.
  unfold encodable. induction s as [| c s IH]; cbn [encode_utf8].
  - split; [constructor | eexists; reflexivity].
  - pose proof (encode_point_scalar c) as Hc.
    destruct (encode_point c) as [bc |].
    + destruct (encode_utf8 s) as [bs | e]; cbn [bind].
      * split; [| eexists; reflexivity].
        intros _. constructor; [apply Hc; discriminate |].
        apply IH. eexists. reflexivity.
      * split; [intros [b H]; discriminate |].
        intros H. apply Forall_cons_iff in H. destruct H as [_ H].
        apply IH in H. destruct H as [b H]. discriminate.
    + split; [intros [b H]; discriminate |].
      intros H. apply Forall_cons_iff in H. destruct H as [H _].
      apply Hc in H. contradiction.
Qed.

Lemma encode_utf8_errors (s : str) (e : error) :
  encode_utf8 s = Err e -> e = UnicodeEncodeError.
Proof.
  induction s as [| c s IH]; cbn [encode_utf8]; [discriminate |].
  destruct (encode_point c); [| congruence].
  destruct (encode_utf8 s); cbn [bind]; [discriminate |].
  intros H. apply IH. congruence.
Qed.

Lemma encode_utf8_ok (s : str) : encodable s -> encode_utf8 s = OK (utf8 s).
Proof.
  intros H. apply encode_utf8_encodable in H. destruct H as [b H].
  unfold utf8. rewrite H. reflexivity.
Qed.

Lemma decode_encode (s : str) : forall b,
  encode_utf8 s = OK b -> decode_utf8 b = OK s.
Proof.
  induction s as [| c s IH]; intros b H; cbn [encode_utf8] in H.
  - apply OK_inj in H. subst b. reflexivity.
  - destruct (encode_point c) as [bc |] eqn:Ec; [| discriminate].
    destruct (encode_utf8 s) as [bs |]; cbn [bind] in H; [| discriminate].
    apply OK_inj in H. subst b.
    rewrite (decode_point c bc bs Ec), (IH bs eq_refl). reflexivity.
Qed.

Lemma decode_encode_utf8 (s : str) :
  encodable s -> decode_utf8 (utf8 s) = OK s.
Proof. intros H. apply decode_encode, encode_utf8_ok, H. Qed.

End Utf8.

(** * Case-04: strings *)

Section Strings04.
Import Prim Struct Wire Case04 Wire04.

Lemma write_uvarint_ok (n : Z) : 0 <= n -> write_uvarint n = OK (venc n).
Proof.
  intros Hn. unfold write_uvarint.
  destruct (Z.ltb_spec n 0); [lia |].
  rewrite varint_encode_some by exact Hn. reflexivity.
Qed.

Lemma write_str_ok (s : str) : encodable s -> write_str s = OK (ser_str s).
Proof.
  intros Hs. unfold write_str, ser_str. rewrite (encode_utf8_ok s Hs).
  cbn [bind]. rewrite write_uvarint_ok by lia. reflexivity.
Qed.

Lemma read_uvarint_venc (buf post : list Z) (pos : nat) (u : Z) :
  0 <= u < 2 ^ 70 ->
  skipn pos buf = venc u ++ post ->
  read_uvarint buf pos = OK (u, (pos + length (venc u))%nat).
Proof.
  intros Hu H. unfold read_uvarint.
  rewrite (varint_decode_with_venc 63 buf post pos u ltac:(lia) ltac:(lia) H).
  change (63 / 7 + 1) with 10. change (7 * 10) with 70.
  destruct (Z.ltb_spec u (2 ^ 70)); [reflexivity | lia].
Qed.

Lemma read_str_ser (buf post : list Z) (pos : nat) (s : str) :
  encodable s /\ Z.of_nat (length (utf8 s)) < 2 ^ 70 ->
  skipn pos buf = ser_str s ++ post ->
  read_str buf pos = OK (s, (pos + length (ser_str s))%nat).
Proof.
  intros [He Hs] H. unfold read_str, ser_str in *.
  rewrite <- app_assoc in H.
  rewrite (read_uvarint_venc buf _ pos (Z.of_nat (length (utf8 s)))
             (conj (Nat2Z.is_nonneg _) Hs) H).
  cbn [bind].
  rewrite Nat2Z.id.
  pose proof (venc_length_pos (Z.of_nat (length (utf8 s))) ltac:(lia)) as Hv.
  pose proof (skipn_app_length pos buf _ _ H) as Hl.
  assert (Hne : venc (Z.of_nat (length (utf8 s))) <> [])
    by (intros E; rewrite E in Hv; cbn in Hv; lia).
  specialize (Hl Hne). rewrite length_app in Hl.
  apply skipn_app_exact in H.
  destruct (Nat.ltb_spec (length buf)
              (pos + length (venc (Z.of_nat (length (utf8 s))))
               + length (utf8 s))); [lia |].
  rewrite H, firstn_app, Nat.sub_diag, firstn_all. cbn [firstn].
  rewrite app_nil_r, (decode_encode_utf8 s He). cbn [bind].
  rewrite length_app. do 2 f_equal. lia.
Qed.

Lemma str_fitsb_spec (bound : Z) (s : str) :
  str_fitsb bound s = true ->
  encodable s /\ Z.of_nat (length (utf8 s)) < bound.
Proof.
  unfold str_fitsb, encodable. rewrite andb_true_iff, forallb_forall, Z.ltb_lt.
  intros [Hs Hl]. split; [| exact Hl].
  apply Forall_forall. intros c Hc. specialize (Hs c Hc).
  unfold scalarb in Hs. unfold scalar.
  rewrite orb_true_iff, !andb_true_iff, !Z.leb_le, !Z.ltb_lt in Hs. lia.
Qed.

Lemma row_fitsb_spec (r : Row) : row_fitsb r = true -> row_fits r.
Proof.
  unfold row_fitsb, row_fits. rewrite andb_true_iff, !forallb_forall.
  intros [Hl Hd]. split; apply Forall_forall.
  - intros s Hs. apply str_fitsb_spec, Hl, Hs.
  - intros col Hc. apply str_fitsb_spec, Hd, Hc.
Qed.

Lemma str_eqb_spec (a b : str) : reflect (a = b) (tuple_eqb a b).
Proof.
  destruct (tuple_eqb a b) eqn:E; constructor.
  - apply tuple_eqb_eq, E.
  - intros ->. rewrite tuple_eqb_refl in E. discriminate.
Qed.

End Strings04.

(** * Case-04: dictionaries *)

Section Dict04.
Import Prim Struct Wire Case04 Wire04.

Lemma dict_inv_nil : dict_inv [] [].
Proof. intros v. cbn. tauto. Qed.

Lemma dict_inv_extend (uniq : list (str * Z)) (arr : list str) (v0 : str) :
  dict_inv uniq arr -> dict_get uniq v0 = None ->
  dict_inv ((v0, Z.of_nat (length arr)) :: uniq) (arr ++ [v0]).
Proof.
  intros Hinv Hnone v. cbn [dict_get].
  destruct (str_eqb_spec v0 v) as [-> | Hne].
  - split; [lia |]. rewrite Nat2Z.id, nth_error_app2, Nat.sub_diag by lia.
    reflexivity.
  - specialize (Hinv v). destruct (dict_get uniq v) as [i |].
    + destruct Hinv as [Hi Hnth]. split; [exact Hi |].
      rewrite nth_error_app1; [exact Hnth |].
      apply nth_error_Some. congruence.
    + intros Hin. apply in_app_or in Hin. destruct Hin as [Hin | [E | []]];
        [exact (Hinv Hin) | exact (Hne E)].
Qed.

Lemma build_dict_loop_spec (col : dict_col) : forall rows uniq arr,
  dict_inv uniq arr ->
  let '(uniq', arr') := build_dict_loop rows col uniq arr in
  dict_inv uniq' arr'
  /\ (forall v i, dict_get uniq v = Some i -> dict_get uniq' v = Some i)
  /\ (forall row, In row rows -> dict_get uniq' (get_col col row) <> None)
  /\ (length arr' <= length arr + length rows)%nat
  /\ (forall s, In s arr' ->
                In s arr \/ exists row, In row rows /\ get_col col row = s).
Proof.
  induction rows as [| row rows IH]; intros uniq arr Hinv.
  - cbn [build_dict_loop]. split; [exact Hinv |]. split; [auto |].
    split; [intros row [] |]. split; [cbn [length]; lia | auto].
  - cbn [build_dict_loop].
    destruct (dict_get uniq (get_col col row)) as [i |] eqn:E.
    + specialize (IH uniq arr Hinv).
      destruct (build_dict_loop rows col uniq arr) as [uniq' arr'].
      destruct IH as (H1 & H2 & H3 & H4 & H5).
      repeat split; auto.
      * intros r [<- | Hin]; [rewrite (H2 _ _ E); discriminate | auto].
      * cbn [length]. lia.
      * intros s Hs. destruct (H5 s Hs) as [Hl | (r & Hr & Hc)]; [auto |].
        right. exists r. split; [right |]; assumption.
    + pose proof (dict_inv_extend uniq arr _ Hinv E) as Hinv'.
      specialize (IH _ _ Hinv').
      destruct (build_dict_loop rows col _ _) as [uniq' arr'].
      destruct IH as (H1 & H2 & H3 & H4 & H5).
      repeat split; auto.
      * intros v i Hv. apply H2. cbn [dict_get].
        destruct (str_eqb_spec (get_col col row) v) as [Ev | _];
          [congruence | exact Hv].
      * intros r [<- | Hin]; [| auto].
        erewrite H2; [discriminate |]. cbn [dict_get].
        rewrite tuple_eqb_refl. reflexivity.
      * rewrite length_app in H4. cbn [length] in *. lia.
      * intros s Hs. destruct (H5 s Hs) as [Hl | (r & Hr & Hc)].
        -- apply in_app_or in Hl. destruct Hl as [Hl | [<- | []]]; [auto |].
           right. exists row. split; [left |]; reflexivity.
        -- right. exists r. split; [right |]; assumption.
Qed.

Lemma build_dict_spec (rows : list Row) (col : dict_col) :
  dict_inv (fst (build_dict rows col)) (dict_of rows col)
  /\ (forall row, In row rows ->
        dict_get (fst (build_dict rows col)) (get_col col row) <> None)
  /\ (length (dict_of rows col) <= length rows)%nat
  /\ (forall s, In s (dict_of rows col) ->
                exists row, In row rows /\ get_col col row = s).
Proof.
  unfold dict_of, build_dict.
  pose proof (build_dict_loop_spec col rows [] [] dict_inv_nil) as H.
  destruct (build_dict_loop rows col [] []) as [uniq arr].
  destruct H as (H1 & _ & H3 & H4 & H5). cbn [fst snd length] in *.
  repeat split; auto.
  intros s Hs. destruct (H5 s Hs) as [[] | H]; exact H.
Qed.

(* The code written for a row's value indexes that value. *)
Lemma code_of_spec (rows : list Row) (col : dict_col) (row : Row) :
  In row rows ->
  dict_get (fst (build_dict rows col)) (get_col col row)
  = Some (code_of rows col row)
  /\ 0 <= code_of rows col row < Z.of_nat (length rows)
  /\ nth_error (dict_of rows col) (Z.to_nat (code_of rows col row))
     = Some (get_col col row).
Proof.
  intros Hin. destruct (build_dict_spec rows col) as (Hinv & Hpres & Hlen & _).
  specialize (Hpres row Hin). specialize (Hinv (get_col col row)).
  unfold code_of.
  destruct (dict_get (fst (build_dict rows col)) (get_col col row)) as [i |];
    [| contradiction].
  destruct Hinv as [Hi Hnth]. split; [reflexivity |]. split; [| exact Hnth].
  assert (Z.to_nat i < length (dict_of rows col))%nat
    by (apply nth_error_Some; congruence).
  lia.
Qed.

End Dict04.

(** * Case-04: what the encoder writes *)

Section Encode04.
Import Prim Struct Wire Case04 Wire04.

Lemma write_dict_entries_ok (arr : list str) :
  Forall (fun s => encodable s /\ Z.of_nat (length (utf8 s)) < 2 ^ 32) arr ->
  write_dict_entries arr = OK (flat_map ser_entry arr).
Proof.
  induction 1 as [| s arr [He Hs] _ IH]; [reflexivity |].
  cbn [write_dict_entries flat_map]. rewrite (encode_utf8_ok s He). cbn [bind].
  rewrite pack_unsigned_ok by (change (256 ^ Z.of_nat 4) with (2 ^ 32); lia).
  cbn [bind]. rewrite IH. cbn [bind]. unfold ser_entry.
  rewrite <- app_assoc. reflexivity.
Qed.

Lemma dict_entries_fit (rows : list Row) (col : dict_col) :
  Forall row_fits rows ->
  Forall (fun s => encodable s /\ Z.of_nat (length (utf8 s)) < 2 ^ 32)
         (dict_of rows col).
Proof.
  intros Hfit. apply Forall_forall. intros s Hs.
  destruct (build_dict_spec rows col) as (_ & _ & _ & Hsrc).
  destruct (Hsrc s Hs) as (row & Hin & <-).
  rewrite Forall_forall in Hfit. destruct (Hfit row Hin) as [_ Hd].
  rewrite Forall_forall in Hd. apply Hd.
  destruct col; cbn; auto.
Qed.

Lemma write_dicts_ok (rows : list Row) (cols : list dict_col) :
  Z.of_nat (length rows) < 2 ^ 32 -> Forall row_fits rows ->
  write_dicts rows cols
  = OK (flat_map (fun col => ser_dict (dict_of rows col)) cols).
Proof.
  intros Hn Hfit. induction cols as [| col cols IH]; [reflexivity |].
  cbn [write_dicts flat_map]. fold (dict_of rows col).
  destruct (build_dict_spec rows col) as (_ & _ & Hlen & _).
  rewrite pack_unsigned_ok by (change (256 ^ Z.of_nat 4) with (2 ^ 32); lia).
  cbn [bind]. rewrite write_dict_entries_ok by (apply dict_entries_fit, Hfit).
  cbn [bind]. rewrite IH. cbn [bind]. unfold ser_dict.
  rewrite <- app_assoc. reflexivity.
Qed.

Lemma write_codes_ok (rows : list Row) (row : Row) (cols : list dict_col) :
  In row rows ->
  write_codes rows row cols
  = OK (flat_map (fun col => venc (code_of rows col row)) cols).
Proof.
  intros Hin. induction cols as [| col cols IH]; [reflexivity |].
  cbn [write_codes flat_map].
  destruct (code_of_spec rows col row Hin) as (Hget & Hrange & _).
  rewrite Hget. rewrite write_uvarint_ok by lia. cbn [bind].
  rewrite IH. reflexivity.
Qed.

Lemma write_row_ok (rows : list Row) (row : Row) :
  In row rows -> row_fits row -> write_row rows row = OK (ser_row rows row).
Proof.
  intros Hin [Hl _]. unfold write_row, ser_row.
  unfold literal_fields in Hl. rewrite !Forall_cons_iff in Hl.
  destruct Hl as ([F1 _] & [F2 _] & [F3 _] & [F4 _] & [F5 _] & [F6 _]
                  & [F7 _] & [F8 _] & _).
  rewrite !write_str_ok by assumption. cbn [bind].
  rewrite write_codes_ok by exact Hin. reflexivity.
Qed.

Lemma write_rows_ok (all rows : list Row) :
  incl rows all -> Forall row_fits rows ->
  write_rows all rows = OK (flat_map (ser_row all) rows).
Proof.
  induction rows as [| row rows IH]; intros Hincl Hfit; [reflexivity |].
  apply Forall_cons_iff in Hfit. destruct Hfit as [Hrow Hfit].
  cbn [write_rows flat_map].
  rewrite write_row_ok by (try (apply Hincl; left; reflexivity); exact Hrow).
  cbn [bind].
  rewrite IH by (try (intros r Hr; apply Hincl; right; exact Hr); exact Hfit).
  reflexivity.
Qed.

Lemma encode_case04_encoded (rows : list Row) :
  Z.of_nat (length rows) < 2 ^ 32 -> Forall row_fits rows ->
  encode_case04 rows = OK (encoded rows).
Proof.
  intros Hn Hfit. unfold encode_case04, encoded.
  rewrite pack_unsigned_ok by (change (256 ^ Z.of_nat 4) with (2 ^ 32); lia).
  cbn [bind]. rewrite pack_unsigned_ok by (cbn; lia). cbn [bind].
  rewrite write_dicts_ok by assumption. cbn [bind].
  rewrite write_rows_ok by (try apply incl_refl; exact Hfit). reflexivity.
Qed.

End Encode04.

(** * Case-04: reading the file back *)

Section Decode04.
Import Prim Struct Wire Case04 Wire04.

Lemma read_dict_entries_ser (arr : list str) : forall blob pos post,
  Forall (fun s => encodable s /\ Z.of_nat (length (utf8 s)) < 2 ^ 32) arr ->
  skipn pos blob = flat_map ser_entry arr ++ post ->
  read_dict_entries (length arr) blob pos
  = OK (arr, (pos + length (flat_map ser_entry arr))%nat).
Proof.
  induction arr as [| s arr IH]; intros blob pos post Hfit H.
  - cbn. rewrite Nat.add_0_r. reflexivity.
  - apply Forall_cons_iff in Hfit. destruct Hfit as [[He Hs] Hfit].
    cbn [length read_dict_entries flat_map] in *.
    unfold ser_entry at 1 in H. rewrite <- !app_assoc in H.
    rewrite (unpack_unsigned_le_bytes 4 blob _ pos
               (Z.of_nat (length (utf8 s))) ltac:(lia)
               ltac:(change (256 ^ Z.of_nat 4) with (2 ^ 32); lia) H).
    cbn [bind]. rewrite Nat2Z.id.
    apply skipn_app_exact in H. rewrite le_bytes_length in H.
    rewrite H, firstn_app, Nat.sub_diag, firstn_all. cbn [firstn].
    rewrite app_nil_r, (decode_encode_utf8 s He). cbn [bind].
    apply skipn_app_exact in H.
    rewrite (IH blob _ post Hfit H). cbn [bind].
    unfold ser_entry at 2. rewrite !length_app, le_bytes_length.
    do 2 f_equal. lia.
Qed.

Lemma read_dicts_ser (rows : list Row) (cols : list dict_col) :
  Z.of_nat (length rows) < 2 ^ 32 -> Forall row_fits rows ->
  forall blob pos post,
    skipn pos blob
    = flat_map (fun col => ser_dict (dict_of rows col)) cols ++ post ->
    read_dicts cols blob pos
    = OK (map (dict_of rows) cols,
          (pos + length (flat_map (fun col => ser_dict (dict_of rows col)) cols))%nat).
Proof.
  intros Hn Hfit. induction cols as [| col cols IH]; intros blob pos post H.
  - cbn. rewrite Nat.add_0_r. reflexivity.
  - cbn [read_dicts flat_map map] in *.
    unfold ser_dict at 1 in H. rewrite <- !app_assoc in H.
    destruct (build_dict_spec rows col) as (_ & _ & Hlen & _).
    rewrite (unpack_unsigned_le_bytes 4 blob _ pos
               (Z.of_nat (length (dict_of rows col))) ltac:(lia)
               ltac:(change (256 ^ Z.of_nat 4) with (2 ^ 32); lia) H).
    cbn [bind]. rewrite Nat2Z.id.
    apply skipn_app_exact in H. rewrite le_bytes_length in H.
    rewrite (read_dict_entries_ser _ blob _ _ (dict_entries_fit rows col Hfit) H).
    cbn [bind]. apply skipn_app_exact in H.
    rewrite (IH blob _ post H). cbn [bind].
    unfold ser_dict at 2. rewrite !length_app, le_bytes_length.
    do 2 f_equal. lia.
Qed.

End Decode04.

Section RoundTrip04.
Import Prim Struct Wire Case04 Wire04.

Lemma dict_entry_code (rows : list Row) (row : Row) (k : nat) (col : dict_col) :
  In row rows ->
  nth_error DICT_COLS k = Some col ->
  dict_entry (map (dict_of rows) DICT_COLS) k (code_of rows col row)
  = OK (get_col col row).
Proof.
  intros Hin Hk. unfold dict_entry.
  destruct (code_of_spec rows col row Hin) as (_ & _ & Hnth).
  assert (E : nth k (map (dict_of rows) DICT_COLS) [] = dict_of rows col).
  { do 4 (destruct k as [| k]; [cbn in Hk; injection Hk as <-; reflexivity |]).
    destruct k; discriminate. }
  rewrite E, Hnth. reflexivity.
Qed.

Lemma read_row_ser (rows : list Row) (row : Row) (blob post : list Z) (pos : nat) :
  Z.of_nat (length rows) < 2 ^ 32 ->
  In row rows -> row_fits row ->
  skipn pos blob = ser_row rows row ++ post ->
  read_row (map (dict_of rows) DICT_COLS) blob pos
  = OK (row, (pos + length (ser_row rows row))%nat).
Proof.
  intros Hn Hin [Hl _] H.
  assert (Hlen : length (ser_row rows row)
    = (length (ser_str (Transaction_ID row)) + length (ser_str (Sender_Address row))
       + length (ser_str (Receiver_Address row)) + length (ser_str (Amount row))
       + length (ser_str (Transaction_Fee row)) + length (ser_str (Timestamp row))
       + length (ser_str (Block_ID row))
       + length (venc (code_of rows Mining_Pool_col row))
       + length (venc (code_of rows Currency_col row))
       + length (venc (code_of rows Transaction_Type_col row))
       + length (venc (code_of rows Transaction_Status_col row))
       + length (ser_str (Gas_Price_Gwei row)))%nat).
  { unfold ser_row, DICT_COLS. cbn [flat_map]. rewrite !length_app.
    cbn [length]. lia. }
  unfold ser_row, DICT_COLS in H. cbn [flat_map] in H.
  rewrite app_nil_r in H. rewrite <- !app_assoc in H.
  unfold literal_fields in Hl.
  apply Forall_cons_iff in Hl; destruct Hl as [F1 Hl].
  apply Forall_cons_iff in Hl; destruct Hl as [F2 Hl].
  apply Forall_cons_iff in Hl; destruct Hl as [F3 Hl].
  apply Forall_cons_iff in Hl; destruct Hl as [F4 Hl].
  apply Forall_cons_iff in Hl; destruct Hl as [F5 Hl].
  apply Forall_cons_iff in Hl; destruct Hl as [F6 Hl].
  apply Forall_cons_iff in Hl; destruct Hl as [F7 Hl].
  apply Forall_cons_iff in Hl; destruct Hl as [F8 _].
  pose proof (code_of_spec rows Mining_Pool_col row Hin) as (_ & Hc1 & _).
  pose proof (code_of_spec rows Currency_col row Hin) as (_ & Hc2 & _).
  pose proof (code_of_spec rows Transaction_Type_col row Hin) as (_ & Hc3 & _).
  pose proof (code_of_spec rows Transaction_Status_col row Hin) as (_ & Hc4 & _).
  unfold read_row.
  rewrite (read_str_ser blob _ _ _ F1 H); cbn [bind]; apply skipn_app_exact in H.
  rewrite (read_str_ser blob _ _ _ F2 H); cbn [bind]; apply skipn_app_exact in H.
  rewrite (read_str_ser blob _ _ _ F3 H); cbn [bind]; apply skipn_app_exact in H.
  rewrite (read_str_ser blob _ _ _ F4 H); cbn [bind]; apply skipn_app_exact in H.
  rewrite (read_str_ser blob _ _ _ F5 H); cbn [bind]; apply skipn_app_exact in H.
  rewrite (read_str_ser blob _ _ _ F6 H); cbn [bind]; apply skipn_app_exact in H.
  rewrite (read_str_ser blob _ _ _ F7 H); cbn [bind]; apply skipn_app_exact in H.
  assert (Hbig : Z.of_nat (length rows) < 2 ^ 70) by lia.
  rewrite (read_uvarint_venc blob _ _ _ (conj (proj1 Hc1) (Z.lt_trans _ _ _ (proj2 Hc1) Hbig)) H);
    cbn [bind]; apply skipn_app_exact in H.
  rewrite (read_uvarint_venc blob _ _ _ (conj (proj1 Hc2) (Z.lt_trans _ _ _ (proj2 Hc2) Hbig)) H);
    cbn [bind]; apply skipn_app_exact in H.
  rewrite (read_uvarint_venc blob _ _ _ (conj (proj1 Hc3) (Z.lt_trans _ _ _ (proj2 Hc3) Hbig)) H);
    cbn [bind]; apply skipn_app_exact in H.
  rewrite (read_uvarint_venc blob _ _ _ (conj (proj1 Hc4) (Z.lt_trans _ _ _ (proj2 Hc4) Hbig)) H);
    cbn [bind]; apply skipn_app_exact in H.
  rewrite (read_str_ser blob _ _ _ F8 H); cbn [bind].
  rewrite (dict_entry_code rows row 0 Mining_Pool_col Hin eq_refl).
  rewrite (dict_entry_code rows row 1 Currency_col Hin eq_refl).
  rewrite (dict_entry_code rows row 2 Transaction_Type_col Hin eq_refl).
  rewrite (dict_entry_code rows row 3 Transaction_Status_col Hin eq_refl).
  cbn [bind get_col]. f_equal. f_equal; [destruct row; reflexivity |].
  rewrite Hlen. lia.
Qed.

Lemma read_rows_ser (all : list Row) : forall rows blob pos post,
  Z.of_nat (length all) < 2 ^ 32 ->
  incl rows all -> Forall row_fits rows ->
  skipn pos blob = flat_map (ser_row all) rows ++ post ->
  read_rows (length rows) (map (dict_of all) DICT_COLS) blob pos = OK rows.
Proof.
  induction rows as [| row rows IH]; intros blob pos post Hn Hincl Hfit H;
    [reflexivity |].
  apply Forall_cons_iff in Hfit. destruct Hfit as [Hrow Hfit].
  cbn [length read_rows flat_map] in *. rewrite <- app_assoc in H.
  rewrite (read_row_ser all row blob _ pos Hn
             (Hincl row (or_introl eq_refl)) Hrow H).
  cbn [bind]. apply skipn_app_exact in H.
  rewrite (IH blob _ post Hn (fun r Hr => Hincl r (or_intror Hr)) Hfit H).
  reflexivity.
Qed.

Lemma decode_case04_encoded (rows : list Row) :
  Z.of_nat (length rows) < 2 ^ 32 -> Forall row_fits rows ->
  decode_case04 (encoded rows) = OK rows.
Proof.
  intros Hn Hfit. unfold decode_case04.
  set (dicts := flat_map (fun col => ser_dict (dict_of rows col)) DICT_COLS).
  set (body := flat_map (ser_row rows) rows).
  assert (Henc : encoded rows
                 = MAGIC8 ++ le_bytes 4 (Z.of_nat (length rows))
                     ++ le_bytes 4 12 ++ dicts ++ body) by reflexivity.
  assert (H8 : skipn 8 (encoded rows)
               = le_bytes 4 (Z.of_nat (length rows))
                   ++ le_bytes 4 12 ++ dicts ++ body) by (rewrite Henc; reflexivity).
  assert (Hlen : (16 <= length (encoded rows))%nat).
  { rewrite Henc, !length_app, !le_bytes_length. cbn [length MAGIC8]. lia. }
  destruct (Nat.ltb_spec (length (encoded rows)) 16); [lia |].
  assert (Hm : firstn 8 (encoded rows) = MAGIC8) by (rewrite Henc; reflexivity).
  rewrite Hm, tuple_eqb_refl. cbn [negb].
  rewrite (unpack_unsigned_le_bytes 4 _ _ 8 (Z.of_nat (length rows)) ltac:(lia)
             ltac:(change (256 ^ Z.of_nat 4) with (2 ^ 32); lia) H8).
  cbn [bind]. apply (skipn_app_exact 8) in H8. rewrite le_bytes_length in H8.
  change (8 + 4)%nat with 12%nat in H8.
  rewrite (unpack_unsigned_le_bytes 4 _ _ 12 12 ltac:(lia) ltac:(cbn; lia) H8).
  cbn [bind]. change (12 =? 12) with true. cbn [negb].
  apply (skipn_app_exact 12) in H8. rewrite le_bytes_length in H8.
  change (12 + 4)%nat with 16%nat in H8.
  rewrite (read_dicts_ser rows DICT_COLS Hn Hfit _ 16 body H8). cbn [bind].
  apply skipn_app_exact in H8. fold dicts in H8.
  rewrite Nat2Z.id.
  apply (read_rows_ser rows rows _ _ []); auto using incl_refl.
  rewrite app_nil_r. exact H8.
Qed.

(* Round trip of the Case-04 codec on its domain. *)
Lemma roundtrip04 (rows : list Row) :
  Z.of_nat (length rows) < 2 ^ 32 -> Forall row_fits rows ->
  exists blob, encode_case04 rows = OK blob /\ decode_case04 blob = OK rows.
Proof.
  intros Hn Hfit. exists (encoded rows). split.
  - apply encode_case04_encoded; assumption.
  - apply decode_case04_encoded; assumption.
Qed.

End RoundTrip04.

(** * Case-01: the index builder on an encoded file *)

Section Boundaries.
Import Wire.
Context {R : Type} (step : R -> list Z -> R).

Lemma boundary_0 (row0 : Z) (pos0 : nat) (cur0 : R) (bs : list block) :
  boundary step row0 pos0 cur0 bs 0 = (row0, pos0, cur0).
Proof.
  unfold boundary. cbn. rewrite Z.add_0_r, Nat.add_0_r. reflexivity.
Qed.

(* A boundary of the tail of a block list is one of the whole list. *)
Lemma boundary_S (row0 : Z) (pos0 : nat) (cur0 : R) (b : block)
      (bs : list block) (j : nat) :
  boundary step
           (row0 + Z.of_nat (Z.to_nat (rows_of b)))
           (pos0 + length (ser_block b))
           (last (scan step cur0 (repeat (dec_tuple (b_tup b))
                                         (Z.to_nat (rows_of b)))) cur0)
           bs j
  = boundary step row0 pos0 cur0 (b :: bs) (S j).
Proof.
  unfold boundary. cbn [firstn].
  rewrite flatten_cons, ser_blocks_cons, !length_app, repeat_length.
  rewrite map_app, map_repeat, scan_app, last_app_default.
  f_equal. f_equal; lia.
Qed.

Lemma boundary_all (row0 : Z) (pos0 : nat) (cur0 : R) (bs : list block) :
  boundary step row0 pos0 cur0 bs (length bs)
  = (row0 + Z.of_nat (length (flatten bs)),
     (pos0 + length (ser_blocks bs))%nat,
     last (scan step cur0 (map dec_tuple (flatten bs))) cur0).
Proof. unfold boundary. rewrite firstn_all. reflexivity. Qed.

End Boundaries.

Section Index01Proofs.
Import Prim Wire Case01 Blocks01 Index01.

(* Within the row count the [break] of the run loop only fires after
   the last iteration. *)
Lemma apply_run_scan (k : nat) (tup : list Z) (n_rows : Z) : forall cur row,
  row + Z.of_nat k <= n_rows ->
  apply_run k tup n_rows cur row
  = (last (scan add_delta cur (repeat tup k)) cur, row + Z.of_nat k).
Proof.
  induction k as [| k IH]; intros cur row Hn.
  - cbn. rewrite Z.add_0_r. reflexivity.
  - cbn [apply_run repeat scan]. rewrite last_cons_default.
    destruct (Z.geb_spec (row + 1) n_rows) as [G | L].
    + assert (k = 0%nat) by lia. subst k. cbn. reflexivity.
    + rewrite IH by lia. f_equal. lia.
Qed.

Lemma index_loop_spec (bs : list block) :
  forall fuel buf ae n row pos cur anchors r,
    Forall (well_formed 6) bs ->
    skipn pos buf = ser_blocks bs ->
    row + Z.of_nat (length (flatten bs)) = n - 1 ->
    index_loop fuel buf ae n row pos cur anchors = OK r ->
    forallb (block_fits 10) bs = true
    /\ exists extra,
        r = (n - 1, (pos + length (ser_blocks bs))%nat,
             last (scan add_delta cur (map dec_tuple (flatten bs))) cur,
             anchors ++ extra)
        /\ Forall (fun a => exists j, (j < length bs)%nat
                                      /\ a = boundary add_delta row pos cur bs j)
                  extra.
Proof.
  induction bs as [| b bs IH]; intros fuel buf ae n row pos cur anchors r
                                      Hwf Hbuf Hn Hrun.
  - cbn in Hn. destruct fuel; cbn [index_loop] in Hrun;
      (destruct (Z.ltb_spec row (n - 1)); [lia |]);
      injection Hrun as <-; (split; [reflexivity |]); exists [];
      cbn; rewrite app_nil_r, Nat.add_0_r; (split; [repeat f_equal; lia | constructor]).
  - apply Forall_cons_iff in Hwf. destruct Hwf as [Hb Hbs].
    pose proof Hb as [Hrows _].
    rewrite flatten_length_cons in Hn.
    destruct fuel as [| fuel]; cbn [index_loop] in Hrun;
      (destruct (Z.ltb_spec row (n - 1)); [| lia]); [discriminate |].
    destruct (ae =? 0); [discriminate |].
    rewrite ser_blocks_cons in Hbuf.
    pose proof (skipn_app_length pos buf _ _ Hbuf) as Hlen.
    assert (Hne : ser_block b <> []).
    { pose proof (ser_block_length_pos b). destruct (ser_block b); [cbn in *; lia | discriminate]. }
    specialize (Hlen Hne).
    rewrite (decode_block_ser b buf _ pos Hb Hbuf) in Hrun.
    destruct (block_fits 10 b) eqn:Efit; cbn [bind] in Hrun; [| discriminate].
    rewrite apply_run_scan in Hrun by lia.
    destruct (Nat.ltb_spec (length buf) (pos + length (ser_block b))); [lia |].
    apply skipn_app_exact in Hbuf.
    match type of Hrun with
    | index_loop _ _ _ _ _ _ _ ?anch = _ => set (anchors1 := anch) in Hrun
    end.
    assert (Hanch : exists e0, anchors1 = anchors ++ e0
              /\ Forall (fun a => exists j, (j < length (b :: bs))%nat
                   /\ a = boundary add_delta row pos cur (b :: bs) j) e0).
    { subst anchors1.
      destruct (row mod ae =? 0); [| exists []; rewrite app_nil_r; split; [reflexivity | constructor]].
      destruct (negb _); [| exists []; rewrite app_nil_r; split; [reflexivity | constructor]].
      exists [(row, pos, cur)]. split; [reflexivity |].
      constructor; [| constructor]. exists 0%nat. cbn [length].
      split; [lia |]. rewrite boundary_0. reflexivity. }
    destruct Hanch as (e0 & -> & He0).
    apply IH in Hrun; [| exact Hbs | exact Hbuf | lia].
    destruct Hrun as (Hfits & extra & -> & Hextra).
    split; [cbn [forallb]; rewrite Efit, Hfits; reflexivity |].
    exists (e0 ++ extra). split.
    + rewrite ser_blocks_cons, length_app, flatten_cons, map_app, map_repeat,
        scan_app, last_app_default, <- app_assoc, Nat.add_assoc.
      reflexivity.
    + apply Forall_app. split; [exact He0 |].
      eapply Forall_impl; [| exact Hextra].
      intros a (j & Hj & ->). exists (S j). cbn [length]. split; [lia |].
      apply boundary_S.
Qed.

End Index01Proofs.

Section BuildIndex01.
Import Prim Wire Case01 Blocks01 Index01 Boundary01.

Lemma skipn_encoded_body (b0 : Bar) (rest : list Bar) (ps : Z) :
  skipn (length (header (Z.of_nat (S (length rest))) ps b0)) (encoded b0 rest ps)
  = ser_blocks (body_blocks b0 rest).
Proof.
  unfold encoded. rewrite skipn_app, skipn_all, Nat.sub_diag. reflexivity.
Qed.

(* What a successful index build knows about an encoded file. *)
Lemma build_index_encoded (b0 : Bar) (rest : list Bar) (ps ae n : Z)
      (anchors : list anchor) :
  0 <= ps ->
  build_index (encoded b0 rest ps) ae = OK (n, anchors) ->
  let bs := body_blocks b0 rest in
  let body := length (header (Z.of_nat (S (length rest))) ps b0) in
  n = Z.of_nat (S (length rest))
  /\ header_fits n ps b0 = true
  /\ forallb (block_fits 10) bs = true
  /\ Forall (fun a => exists j, (j <= length bs)%nat
               /\ a = boundary add_delta 0 body (base_of b0) bs j) anchors.
Proof.
  intros Hps Hrun bs body. unfold build_index in Hrun.
  unfold encoded in Hrun at 1. rewrite parse_header_encoded in Hrun by lia.
  fold (encoded b0 rest ps) in Hrun.
  destruct (header_fits (Z.of_nat (S (length rest))) ps b0) eqn:Ehdr;
    cbn [bind] in Hrun; [| discriminate].
  destruct (Z.eqb_spec (Z.of_nat (S (length rest))) 0) as [E | _]; [lia |].
  fold body in Hrun.
  destruct (index_loop _ _ ae _ 0 body (base_of b0) _) as [[[[row pos] cur] anchors'] | e]
    eqn:Eloop; cbn [bind] in Hrun; [| discriminate].
  apply (index_loop_spec bs) in Eloop.
  - destruct Eloop as (Hfits & extra & Er & Hextra).
    apply pair_inj in Er. destruct Er as [Er ->].
    apply pair_inj in Er. destruct Er as [Er ->].
    apply pair_inj in Er. destruct Er as [-> ->].
    assert (Hall : (Z.of_nat (S (length rest)) - 1,
                    (body + length (ser_blocks bs))%nat,
                    last (scan add_delta (base_of b0) (map dec_tuple (flatten bs)))
                         (base_of b0))
                   = boundary add_delta 0 body (base_of b0) bs (length bs)).
    { rewrite boundary_all. f_equal. f_equal. subst bs.
      rewrite body_blocks_flatten, deltas_from_length. lia. }
    assert (Hin : Forall (fun a => exists j, (j <= length bs)%nat
               /\ a = boundary add_delta 0 body (base_of b0) bs j)
              ([(0, body, base_of b0)] ++ extra)).
    { apply Forall_app. split.
      - constructor; [| constructor]. exists 0%nat. split; [lia |].
        rewrite boundary_0. reflexivity.
      - eapply Forall_impl; [| exact Hextra].
        intros a (j & Hj & ->). exists j. split; [lia | reflexivity]. }
    destruct (negb _) in Hrun; apply OK_inj, pair_inj in Hrun;
      destruct Hrun as [<- <-];
      (split; [reflexivity |]); (split; [exact Ehdr |]);
      (split; [exact Hfits |]); [| exact Hin].
    apply Forall_app. split; [exact Hin |].
    constructor; [| constructor]. exists (length bs). split; [lia | exact Hall].
  - apply body_blocks_well_formed.
  - apply skipn_encoded_body.
  - subst bs. rewrite body_blocks_flatten, deltas_from_length. lia.
Qed.

(* The tail of the body at a boundary. *)
Lemma skipn_boundary (buf post : list Z) (p0 : nat) (bs : list block) (j : nat) :
  skipn p0 buf = ser_blocks bs ++ post ->
  skipn (p0 + length (ser_blocks (firstn j bs))) buf
  = ser_blocks (skipn j bs) ++ post.
Proof.
  intros H. rewrite <- (firstn_skipn j bs) in H at 1.
  rewrite ser_blocks_app, <- app_assoc in H.
  apply skipn_app_exact in H. exact H.
Qed.

Lemma ser_block_tag (b : block) :
  exists t r, ser_block b = t :: r /\ (t = 0 \/ t = 1).
Proof.
  unfold ser_block. destruct (b_rle b); eexists; eexists; split;
    try reflexivity; auto.
Qed.

Lemma tag_at_boundary (buf post : list Z) (p0 : nat) (bs : list block) (j : nat) :
  skipn p0 buf = ser_blocks bs ++ post ->
  (j < length bs)%nat ->
  tag_at buf (p0 + length (ser_blocks (firstn j bs))).
Proof.
  intros H Hj. apply (skipn_boundary _ _ _ _ j) in H.
  destruct (skipn j bs) as [| b tl] eqn:E.
  - apply (f_equal (@length block)) in E. rewrite length_skipn in E.
    cbn in E. lia.
  - rewrite ser_blocks_cons in H.
    destruct (ser_block_tag b) as (t & r & Et & Ht). rewrite Et in H.
    cbn [app] in H. apply skipn_head in H. destruct H as [H _].
    unfold tag_at. destruct Ht as [-> | ->]; auto.
Qed.

Lemma block_start_boundary (buf post : list Z) (body : nat) :
  forall bs p0 j,
    Forall (well_formed 6) bs ->
    forallb (block_fits 10) bs = true ->
    block_start buf body p0 ->
    skipn p0 buf = ser_blocks bs ++ post ->
    (j <= length bs)%nat ->
    block_start buf body (p0 + length (ser_blocks (firstn j bs))).
Proof.
  induction bs as [| b bs IH]; intros p0 j Hwf Hfit Hp0 H Hj.
  - rewrite firstn_nil. cbn. rewrite Nat.add_0_r. exact Hp0.
  - destruct j as [| j]; [cbn; rewrite Nat.add_0_r; exact Hp0 |].
    apply Forall_cons_iff in Hwf. destruct Hwf as [Hb Hbs].
    cbn [forallb] in Hfit. apply andb_true_iff in Hfit. destruct Hfit as [Hfb Hfbs].
    rewrite ser_blocks_cons, <- app_assoc in H.
    pose proof (decode_block_ser b buf _ p0 Hb H) as Hdec. rewrite Hfb in Hdec.
    apply skipn_app_exact in H.
    cbn [firstn]. rewrite ser_blocks_cons, length_app, Nat.add_assoc.
    apply IH; try assumption.
    + eapply start_next; [exact Hp0 | exact Hdec].
    + cbn [length] in Hj. lia.
Qed.

End BuildIndex01.

(** * Numbered rows and slices *)

Section Numbered.
Import Wire.
Context {A : Type}.

Lemma numbered_app (lo : Z) (a b : list A) :
  numbered lo (a ++ b) = numbered lo a ++ numbered (lo + Z.of_nat (length a)) b.
Proof.
  revert lo. induction a as [| x a IH]; intros lo.
  - cbn. rewrite Z.add_0_r. reflexivity.
  - cbn [app numbered length]. rewrite IH. do 3 f_equal. lia.
Qed.

Lemma numbered_length (lo : Z) (a : list A) : length (numbered lo a) = length a.
Proof. revert lo. induction a; intros; cbn; [| rewrite IHa]; reflexivity. Qed.

Lemma numbered_single (lo : Z) (x : A) : numbered lo [x] = [(lo, x)].
Proof. reflexivity. Qed.

Lemma skipn_last_cons (xs ys : list A) (d : A) :
  skipn (length xs) (d :: xs ++ ys) = last xs d :: ys.
Proof.
  revert d. induction xs as [| x xs IH]; intros d; [reflexivity |].
  cbn [length skipn app]. rewrite IH, last_cons_default. reflexivity.
Qed.

Lemma firstn_repeat_min (x : A) (k m : nat) :
  firstn k (repeat x m) = repeat x (Nat.min k m).
Proof.
  revert m. induction k as [| k IH]; intros [| m]; try reflexivity.
  cbn [firstn repeat Nat.min]. rewrite IH. reflexivity.
Qed.

End Numbered.

Section ScanBoundary.
Import Wire.
Context {R : Type} (step : R -> list Z -> R).

(* The decode from a boundary on is the decode of the remaining blocks. *)
Lemma skipn_scan_boundary (base : R) (bs : list block) (j : nat) :
  skipn (length (flatten (firstn j bs)))
        (base :: scan step base (map dec_tuple (flatten bs)))
  = last (scan step base (map dec_tuple (flatten (firstn j bs)))) base
      :: scan step
           (last (scan step base (map dec_tuple (flatten (firstn j bs)))) base)
           (map dec_tuple (flatten (skipn j bs))).
Proof.
  replace (flatten bs) with (flatten (firstn j bs) ++ flatten (skipn j bs))
    by (rewrite <- flatten_app, firstn_skipn; reflexivity).
  rewrite map_app, scan_app.
  replace (length (flatten (firstn j bs)))
    with (length (scan step base (map dec_tuple (flatten (firstn j bs)))))
    by (rewrite scan_length; apply length_map).
  apply skipn_last_cons.
Qed.

End ScanBoundary.

(** * Case-01: replay from a block boundary *)

Section Replay01Proofs.
Import Prim Wire Case01 Blocks01 Index01 Replay01.

Lemma replay_loop_done (fuel : nat) (buf : list Z) (n : Z)
      (sr sd : option Z) (k row : Z) (pos : nat) (cur : Bar)
      (results : list (Z * Bar)) :
  k <= Z.of_nat (length results) ->
  replay_loop fuel buf n sr sd k row pos cur results = OK results.
Proof.
  intros Hk.
  assert (E : (Z.of_nat (length results) <? k) = false) by (apply Z.ltb_ge; lia).
  destruct fuel; cbn [replay_loop]; rewrite E, andb_false_r; reflexivity.
Qed.




End Replay01Proofs.

(** * Case-02: the index builder on an encoded file *)

Section Index02Proofs.
Import Prim Wire Case02 Blocks02 Index02 Boundary02.

(* Within the row count the [break] of the run loop never fires early. *)
Lemma index_run_scan (k : nat) (tup : list Z) (n : Z) : forall cur row,
  row + Z.of_nat k <= n - 1 ->
  index_run k tup n cur row
  = (last (scan add_delta cur (repeat tup k)) cur, row + Z.of_nat k).
Proof.
  induction k as [| k IH]; intros cur row Hn.
  - cbn. rewrite Z.add_0_r. reflexivity.
  - cbn [index_run repeat scan]. rewrite last_cons_default.
    destruct (Z.geb_spec row (n - 1)) as [G | L]; [lia |].
    rewrite IH by lia. f_equal. lia.
Qed.

Lemma index_loop_spec02 (bs : list block) :
  forall fuel buf ae n row pos cur anchors r,
    Forall (well_formed 8) bs ->
    skipn pos buf = ser_blocks bs ->
    row + Z.of_nat (length (flatten bs)) = n - 1 ->
    index_loop fuel buf ae n row pos cur anchors = OK r ->
    forallb (block_fits 11) bs = true
    /\ exists js,
        r = anchors ++ map (boundary add_delta row pos cur bs) js
        /\ StronglySorted lt js
        /\ Forall (fun j => 1 <= j <= length bs)%nat js.
Proof.
  induction bs as [| b bs IH]; intros fuel buf ae n row pos cur anchors r
                                      Hwf Hbuf Hn Hrun.
  - cbn in Hn. destruct fuel; cbn [index_loop] in Hrun;
      (destruct (Z.ltb_spec row (n - 1)); [lia |]);
      apply OK_inj in Hrun; subst r; (split; [reflexivity |]); exists [];
      cbn; rewrite app_nil_r; repeat split; constructor.
  - apply Forall_cons_iff in Hwf. destruct Hwf as [Hb Hbs].
    pose proof Hb as [Hrows _].
    rewrite flatten_length_cons in Hn.
    destruct fuel as [| fuel]; cbn [index_loop] in Hrun;
      (destruct (Z.ltb_spec row (n - 1)); [| lia]); [discriminate |].
    rewrite ser_blocks_cons in Hbuf.
    rewrite (read_block_ser b buf _ pos Hb Hbuf) in Hrun.
    destruct (block_fits 11 b) eqn:Efit; cbn [bind] in Hrun; [| discriminate].
    assert (Hstep :
      (if b_rle b
       then index_run (Z.to_nat (rows_of b)) (dec_tuple (b_tup b)) n cur row
       else (add_delta cur (dec_tuple (b_tup b)), row + 1))
      = (last (scan add_delta cur (repeat (dec_tuple (b_tup b))
                                          (Z.to_nat (rows_of b)))) cur,
         row + Z.of_nat (Z.to_nat (rows_of b)))).
    { unfold rows_of in *. destruct (b_rle b).
      - apply index_run_scan. lia.
      - reflexivity. }
    rewrite Hstep in Hrun. clear Hstep.
    apply skipn_app_exact in Hbuf.
    match type of Hrun with
    | index_loop _ _ _ _ _ _ _ ?anch = _ => set (anchors1 := anch) in Hrun
    end.
    apply IH in Hrun; [| exact Hbs | exact Hbuf | lia].
    destruct Hrun as (Hfits & js & -> & Hsorted & Hrange).
    split; [cbn [forallb]; rewrite Efit, Hfits; reflexivity |].
    assert (Hmap : map (boundary add_delta
                          (row + Z.of_nat (Z.to_nat (rows_of b)))
                          (pos + length (ser_block b))
                          (last (scan add_delta cur
                                   (repeat (dec_tuple (b_tup b))
                                           (Z.to_nat (rows_of b)))) cur) bs) js
                   = map (boundary add_delta row pos cur (b :: bs)) (map S js)).
    { rewrite map_map. apply map_ext. intros j. apply boundary_S. }
    assert (Hfirst : (row + Z.of_nat (Z.to_nat (rows_of b)),
                      (pos + length (ser_block b))%nat,
                      last (scan add_delta cur
                              (repeat (dec_tuple (b_tup b))
                                      (Z.to_nat (rows_of b)))) cur)
                     = boundary add_delta row pos cur (b :: bs) 1).
    { rewrite <- boundary_S, boundary_0. reflexivity. }
    assert (HsortedS : StronglySorted lt (map S js)).
    { clear - Hsorted. induction Hsorted as [| j js _ IHs Hj]; cbn; constructor;
        [exact IHs |].
      apply Forall_map. eapply Forall_impl; [| exact Hj]. cbn. intros; lia. }
    assert (HrangeS : Forall (fun j => 1 <= j <= length (b :: bs))%nat (map S js)).
    { apply Forall_map. eapply Forall_impl; [| exact Hrange].
      cbn [length]. intros; lia. }
    subst anchors1. rewrite Hmap.
    destruct (_ mod ae =? 0).
    + exists (1%nat :: map S js). rewrite <- app_assoc. cbn [app map].
      rewrite Hfirst. split; [reflexivity |]. split.
      * constructor; [exact HsortedS |].
        apply Forall_map. eapply Forall_impl; [| exact Hrange]. cbn. intros; lia.
      * constructor; [cbn [length]; lia | exact HrangeS].
    + exists (map S js). auto.
Qed.

Lemma skipn_encoded_body02 (base : AirTick) (rest : list AirTick) :
  skipn (length (header (Z.of_nat (S (length rest))) base)) (encoded base rest)
  = ser_blocks (body_blocks base rest).
Proof.
  unfold encoded. rewrite skipn_app, skipn_all, Nat.sub_diag. reflexivity.
Qed.

(* What a successful index build knows about an encoded file. *)
Lemma build_anchors_encoded (base : AirTick) (rest : list AirTick) (ae n : Z)
      (anchors : list anchor) :
  build_anchors (encoded base rest) ae = OK (n, anchors) ->
  let bs := body_blocks base rest in
  let body := length (header (Z.of_nat (S (length rest))) base) in
  n = Z.of_nat (S (length rest))
  /\ header_fits n base = true
  /\ forallb (block_fits 11) bs = true
  /\ exists js,
      anchors = map (boundary add_delta 0 body (base_of base) bs) (0%nat :: js)
      /\ StronglySorted lt (0%nat :: js)
      /\ Forall (fun j => j <= length bs)%nat (0%nat :: js).
Proof.
  intros Hrun bs body. unfold build_anchors in Hrun.
  destruct (ae <=? 0); [discriminate |].
  destruct (header_parse02 (Z.of_nat (S (length rest))) base
              (ser_blocks (body_blocks base rest)) ltac:(lia)) as (Hm & Hh & Hb).
  cbv zeta in Hm, Hh, Hb. fold (encoded base rest) in Hm, Hh, Hb.
  rewrite Hm in Hrun. cbn [negb] in Hrun.
  destruct (varint_decode (encoded base rest) 6) as [[n' i] | e];
    cbn [bind] in *; [| discriminate].
  destruct (n' =? 0); [destruct (header_fits _ base); discriminate |].
  destruct (read_tuple_with 70 8 (encoded base rest) i) as [[vals i2] | e];
    cbn [bind] in *; [| discriminate].
  destruct (header_fits _ base) eqn:Ehdr; [| discriminate].
  apply OK_inj in Hh. apply pair_inj in Hh. destruct Hh as [Hh ->].
  apply pair_inj in Hh. destruct Hh as [-> Hh]. rewrite Hh in Hrun.
  fold body in Hrun.
  destruct (index_loop _ _ ae _ 0 body (base_of base) _) as [anchors' | e]
    eqn:Eloop; cbn [bind] in Hrun; [| discriminate].
  apply OK_inj, pair_inj in Hrun. destruct Hrun as [<- <-].
  apply (index_loop_spec02 bs) in Eloop.
  - destruct Eloop as (Hfits & js & -> & Hsorted & Hrange).
    split; [reflexivity |]. split; [exact Ehdr |]. split; [exact Hfits |].
    exists js. cbn [map app]. rewrite boundary_0. split; [reflexivity |]. split.
    + constructor; [exact Hsorted |].
      eapply Forall_impl; [| exact Hrange]. cbn. intros; lia.
    + constructor; [lia |].
      eapply Forall_impl; [| exact Hrange]. cbn. intros; lia.
  - apply body_blocks_well_formed02.
  - exact Hb.
  - subst bs. rewrite body_blocks_flatten02, deltas_from_length02. lia.
Qed.

End Index02Proofs.

(** * Case-02: replay from an anchor *)

Section Replay02Proofs.
Import Prim Wire Case02 Blocks02 Index02 Replay02 Boundary02.

Lemma emit_loop_done (fuel : nat) (buf : list Z) (te row : Z) (pos : nat)
      (cur : AirTick) (out : list AirTick) :
  te - 1 <= row -> emit_loop fuel buf te row pos cur out = OK out.
Proof.
  intros H. destruct fuel; cbn [emit_loop];
    (destruct (Z.ltb_spec row (te - 1)); [lia | reflexivity]).
Qed.

Lemma skip_loop_done (fuel : nat) (buf : list Z) (seek row : Z) (pos : nat)
      (cur : AirTick) :
  seek <= row -> skip_loop fuel buf seek row pos cur = OK (row, pos, cur).
Proof.
  intros H. destruct fuel; cbn [skip_loop];
    (destruct (Z.ltb_spec row seek); [lia | reflexivity]).
Qed.

(* The run loop emits rows until the run or the window ends. *)
Lemma emit_run_spec (kr : nat) (tup : list Z) (te : Z) :
  forall cur row out m,
    m = Nat.min kr (Z.to_nat (te - 1 - row)) ->
    emit_run kr tup te cur row out
    = (last (scan add_delta cur (repeat tup m)) cur, row + Z.of_nat m,
       out ++ scan add_delta cur (repeat tup m)).
Proof.
  induction kr as [| kr IH]; intros cur row out m Hm.
  - subst m. cbn. rewrite Z.add_0_r, app_nil_r. reflexivity.
  - cbn [emit_run].
    destruct (Z.geb_spec row (te - 1)) as [G | L].
    + assert (m = 0%nat) by lia. subst m. rewrite H. cbn.
      rewrite Z.add_0_r, app_nil_r. reflexivity.
    + rewrite (IH _ _ _ (Nat.min kr (Z.to_nat (te - 1 - (row + 1))))) by reflexivity.
      assert (Em : m = S (Nat.min kr (Z.to_nat (te - 1 - (row + 1))))) by lia.
      rewrite Em. cbn [repeat scan].
      rewrite last_cons_default, <- app_assoc. cbn [app].
      do 2 f_equal. lia.
Qed.

Lemma emit_loop_spec (bs : list block) (post : list Z) :
  forall fuel buf n te row pos cur out,
    Forall (well_formed 8) bs ->
    forallb (block_fits 11) bs = true ->
    skipn pos buf = ser_blocks bs ++ post ->
    row + Z.of_nat (length (flatten bs)) = n - 1 ->
    te <= n ->
    (length bs < fuel)%nat ->
    emit_loop fuel buf te row pos cur out
    = OK (out ++ firstn (Z.to_nat (te - 1 - row))
                   (scan add_delta cur (map dec_tuple (flatten bs)))).
Proof.
  induction bs as [| b bs IH]; intros fuel buf n te row pos cur out
                                      Hwf Hfit Hbuf Hn Hte Hfuel.
  - cbn in Hn. rewrite emit_loop_done by lia.
    cbn. rewrite firstn_nil, app_nil_r. reflexivity.
  - destruct (Z.le_gt_cases (te - 1) row) as [Hdone | Hmore].
    { rewrite emit_loop_done by exact Hdone.
      replace (Z.to_nat (te - 1 - row)) with 0%nat by lia.
      cbn. rewrite app_nil_r. reflexivity. }
    apply Forall_cons_iff in Hwf. destruct Hwf as [Hb Hbs].
    pose proof Hb as [Hrows _].
    cbn [forallb] in Hfit. apply andb_true_iff in Hfit. destruct Hfit as [Hfb Hfbs].
    rewrite flatten_length_cons in Hn.
    destruct fuel as [| fuel]; [cbn in Hfuel; lia |].
    cbn [emit_loop].
    destruct (Z.ltb_spec row (te - 1)); [| lia].
    rewrite ser_blocks_cons, <- app_assoc in Hbuf.
    pose proof (skipn_app_length pos buf _ _ Hbuf) as Hlen.
    assert (Hne : ser_block b <> []).
    { pose proof (ser_block_length_pos b).
      destruct (ser_block b); [cbn in *; lia | discriminate]. }
    specialize (Hlen Hne). pose proof (ser_block_length_pos b).
    destruct (Nat.leb_spec (length buf) pos); [lia |].
    rewrite (read_block_ser b buf _ pos Hb Hbuf), Hfb. cbn [bind].
    set (kr := Z.to_nat (rows_of b)) in *.
    set (K := Z.to_nat (te - 1 - row)) in *.
    assert (Hstep :
      (if b_rle b
       then emit_run (Z.to_nat (rows_of b)) (dec_tuple (b_tup b)) te cur row out
       else (add_delta cur (dec_tuple (b_tup b)), row + 1,
             out ++ [add_delta cur (dec_tuple (b_tup b))]))
      = (last (scan add_delta cur (repeat (dec_tuple (b_tup b)) (Nat.min kr K))) cur,
         row + Z.of_nat (Nat.min kr K),
         out ++ scan add_delta cur (repeat (dec_tuple (b_tup b)) (Nat.min kr K)))).
    { subst kr K. unfold rows_of in *. destruct (b_rle b).
      - apply emit_run_spec. reflexivity.
      - replace (Nat.min (Z.to_nat 1) (Z.to_nat (te - 1 - row))) with 1%nat by lia.
        reflexivity. }
    match goal with
    | |- (let '(cr, out0) := ?X in _) = _ =>
        replace X with
          (last (scan add_delta cur (repeat (dec_tuple (b_tup b)) (Nat.min kr K))) cur,
           row + Z.of_nat (Nat.min kr K),
           out ++ scan add_delta cur (repeat (dec_tuple (b_tup b)) (Nat.min kr K)))
    end.
    clear Hstep.
    apply skipn_app_exact in Hbuf.
    rewrite flatten_cons, map_app, map_repeat, scan_app. fold kr.
    set (A := scan add_delta cur (repeat (dec_tuple (b_tup b)) kr)).
    assert (HA : length A = kr) by (subst A; rewrite scan_length; apply repeat_length).
    destruct (Nat.le_gt_cases kr K) as [Hle | Hgt].
    + rewrite Nat.min_l by exact Hle. fold A.
      rewrite (IH fuel buf n te _ _ _ _ Hbs Hfbs Hbuf);
        [| lia | lia | cbn [length] in Hfuel; lia].
      rewrite firstn_app, HA.
      rewrite (@firstn_all2 _ K A) by lia.
      rewrite <- app_assoc. do 4 f_equal. lia.
    + rewrite Nat.min_r by lia.
      rewrite emit_loop_done by lia.
      rewrite firstn_app, HA.
      replace (K - kr)%nat with 0%nat by lia. cbn [firstn].
      rewrite app_nil_r. subst A.
      rewrite scan_firstn, firstn_repeat_min, Nat.min_l by lia.
      reflexivity.
Qed.

End Replay02Proofs.

Section Anchors02.
Import Prim Wire Case02 Blocks02 Index02 Replay02 Boundary02.



Lemma flatten_firstn_mono (w : nat) (bs : list block) :
  Forall (well_formed w) bs ->
  forall j j', (j < j')%nat -> (j' <= length bs)%nat ->
    (length (flatten (firstn j bs)) < length (flatten (firstn j' bs)))%nat.
Proof.
  induction 1 as [| b bs [Hrows _] _ IH]; intros j j' Hlt Hle.
  - cbn in Hle. lia.
  - destruct j' as [| j']; [lia |]. cbn [firstn length] in *.
    rewrite flatten_length_cons.
    destruct j as [| j].
    + cbn. lia.
    + cbn [firstn]. rewrite flatten_length_cons.
      specialize (IH j j' ltac:(lia) ltac:(lia)). lia.
Qed.



End Anchors02.

(** * Case-02: the index file *)

Section IndexFile02.
Import Prim Struct Wire Case02 Blocks02 Index02 Replay02 IndexFile02.

Lemma le_value_le_bytes_mod (k : nat) : forall v,
  le_value (le_bytes k v) = v mod 256 ^ Z.of_nat k.
Proof.
  induction k as [| k IH]; intros v.
  - cbn. rewrite Z.mod_1_r. reflexivity.
  - cbn [le_bytes le_value]. rewrite IH, Nat2Z.inj_succ, Z.pow_succ_r by lia.
    rewrite Z.rem_mul_r by (try apply Z.pow_pos_nonneg; lia). reflexivity.
Qed.

Lemma pack_signed_ok (k : nat) (v : Z) (b : list Z) :
  pack_signed k v = OK b ->
  b = le_bytes k v
  /\ - (256 ^ Z.of_nat k / 2) <= v < 256 ^ Z.of_nat k / 2.
Proof.
  unfold pack_signed. intros H.
  destruct (Z.leb_spec (- (256 ^ Z.of_nat k / 2)) v); cbn [andb] in H;
    [| discriminate].
  destruct (Z.ltb_spec v (256 ^ Z.of_nat k / 2)); [| discriminate].
  apply OK_inj in H. split; [congruence | lia].
Qed.

Lemma pack_unsigned_inv (k : nat) (v : Z) (b : list Z) :
  pack_unsigned k v = OK b ->
  b = le_bytes k v /\ 0 <= v < 256 ^ Z.of_nat k.
Proof.
  unfold pack_unsigned. intros H.
  destruct (Z.leb_spec 0 v); cbn [andb] in H; [| discriminate].
  destruct (Z.ltb_spec v (256 ^ Z.of_nat k)); [| discriminate].
  apply OK_inj in H. split; [congruence | lia].
Qed.

Lemma unpack_signed8_le_bytes (buf post : list Z) (pos : nat) (v : Z) :
  - (256 ^ Z.of_nat 8 / 2) <= v < 256 ^ Z.of_nat 8 / 2 ->
  skipn pos buf = le_bytes 8 v ++ post ->
  unpack_signed 8 buf pos = OK v.
Proof.
  intros Hv H. unfold unpack_signed, unpack_unsigned.
  pose proof (skipn_app_length pos buf _ _ H) as Hl.
  rewrite le_bytes_length in Hl.
  assert (Hne : le_bytes 8 v <> []) by discriminate.
  specialize (Hl Hne).
  destruct (Nat.leb_spec (pos + 8) (length buf)); [| lia].
  cbn [bind]. rewrite H, firstn_app, le_bytes_length, Nat.sub_diag.
  rewrite firstn_all2 by (rewrite le_bytes_length; lia).
  cbn [firstn]. rewrite app_nil_r, le_value_le_bytes_mod.
  change (256 ^ Z.of_nat 8) with 18446744073709551616 in *.
  change (18446744073709551616 / 2) with 9223372036854775808 in *.
  destruct (Z.neg_nonneg_cases v) as [Hneg | Hpos].
  - replace (v mod 18446744073709551616) with (v + 18446744073709551616).
    2:{ apply Z.mod_unique with (q := -1); lia. }
    destruct (Z.ltb_spec (v + 18446744073709551616) 9223372036854775808); [lia |].
    f_equal. lia.
  - rewrite Z.mod_small by lia.
    destruct (Z.ltb_spec v 9223372036854775808); [reflexivity | lia].
Qed.

Lemma pack_all_spec (vs : list Z) : forall b,
  pack_all 8 vs = OK b ->
  b = flat_map (le_bytes 8) vs
  /\ Forall (fun v => - (256 ^ Z.of_nat 8 / 2) <= v < 256 ^ Z.of_nat 8 / 2) vs.
Proof.
  induction vs as [| v vs IH]; intros b H.
  - cbn in H. apply OK_inj in H. subst b. split; [reflexivity | constructor].
  - cbn [pack_all] in H.
    destruct (pack_signed 8 v) as [bv |] eqn:Ev; cbn [bind] in H; [| discriminate].
    destruct (pack_all 8 vs) as [bs |] eqn:Evs; cbn [bind] in H; [| discriminate].
    apply OK_inj in H. subst b.
    apply pack_signed_ok in Ev. destruct Ev as [-> Hv].
    destruct (IH bs eq_refl) as [-> Hvs].
    split; [reflexivity | constructor; assumption].
Qed.

Lemma unpack_all_flat (vs : list Z) : forall buf pos post,
  Forall (fun v => - (256 ^ Z.of_nat 8 / 2) <= v < 256 ^ Z.of_nat 8 / 2) vs ->
  skipn pos buf = flat_map (le_bytes 8) vs ++ post ->
  unpack_all 8 (length vs) buf pos = OK vs.
Proof.
  induction vs as [| v vs IH]; intros buf pos post Hvs H; [reflexivity |].
  apply Forall_cons_iff in Hvs. destruct Hvs as [Hv Hvs].
  cbn [flat_map length unpack_all] in *. rewrite <- app_assoc in H.
  rewrite (unpack_signed8_le_bytes buf _ pos v Hv H). cbn [bind].
  apply skipn_app_exact in H. rewrite le_bytes_length in H.
  rewrite (IH buf _ post Hvs H). reflexivity.
Qed.

Lemma pack_anchors_spec (anchors : list anchor) : forall b,
  pack_anchors anchors = OK b ->
  b = flat_map anchor_bytes anchors /\ Forall anchor_packable anchors.
Proof.
  induction anchors as [| [[row off] tk] anchors IH]; intros b H.
  - cbn in H. apply OK_inj in H. subst b. split; [reflexivity | constructor].
  - cbn [pack_anchors] in H.
    destruct (pack_unsigned 8 row) as [br |] eqn:Er; cbn [bind] in H; [| discriminate].
    destruct (pack_unsigned 8 (Z.of_nat off)) as [bo |] eqn:Eo; cbn [bind] in H;
      [| discriminate].
    destruct (pack_all 8 (fields tk)) as [bt |] eqn:Et; cbn [bind] in H;
      [| discriminate].
    destruct (pack_anchors anchors) as [more |] eqn:Em; cbn [bind] in H;
      [| discriminate].
    apply OK_inj in H. subst b.
    apply pack_unsigned_inv in Er, Eo. destruct Er as [-> Hr]. destruct Eo as [-> Ho].
    apply pack_all_spec in Et. destruct Et as [-> Ht].
    destruct (IH more eq_refl) as [-> Hm].
    split.
    + cbn [flat_map anchor_bytes]. rewrite <- !app_assoc. reflexivity.
    + constructor; [| exact Hm]. cbn. auto.
Qed.

Lemma load_anchors_flat (anchors : list anchor) : forall buf pos post,
  Forall anchor_packable anchors ->
  skipn pos buf = flat_map anchor_bytes anchors ++ post ->
  load_anchors (length anchors) buf pos = OK anchors.
Proof.
  induction anchors as [| [[row off] tk] anchors IH]; intros buf pos post Hp H;
    [reflexivity |].
  apply Forall_cons_iff in Hp. destruct Hp as [(Hr & Ho & Ht) Hp].
  cbn [flat_map length load_anchors anchor_bytes] in *.
  rewrite <- !app_assoc in H.
  rewrite (unpack_unsigned_le_bytes 8 buf _ pos row ltac:(lia) Hr H). cbn [bind].
  apply skipn_app_exact in H. rewrite le_bytes_length in H.
  rewrite (unpack_unsigned_le_bytes 8 buf _ _ (Z.of_nat off) ltac:(lia) Ho H).
  cbn [bind].
  apply skipn_app_exact in H. rewrite le_bytes_length in H.
  replace (pos + 8 + 8)%nat with (pos + 16)%nat in H by lia.
  change 8%nat with (length (fields tk)) at 2.
  rewrite (unpack_all_flat (fields tk) buf _ _ Ht H). cbn [bind].
  apply skipn_app_exact in H.
  assert (Hlen : length (flat_map (le_bytes 8) (fields tk)) = 64%nat) by reflexivity.
  rewrite Hlen in H. replace (pos + 16 + 64)%nat with (pos + 80)%nat in H by lia.
  rewrite (IH buf _ post Hp H). cbn [bind].
  rewrite Nat2Z.id, tick_of_fields_fields. reflexivity.
Qed.

(* The index file written by the builder loads back to what was built. *)
Lemma load_write_index (ae n : Z) (anchors : list anchor) (idx : list Z) :
  write_index ae n anchors = OK idx ->
  load_index idx = OK (ae, n, anchors).
Proof.
  unfold write_index. intros H.
  destruct (pack_unsigned 1 INDEX_VERSION) as [bv |] eqn:Ev; cbn [bind] in H;
    [| discriminate].
  destruct (pack_unsigned 4 ae) as [be |] eqn:Ee; cbn [bind] in H; [| discriminate].
  destruct (pack_unsigned 8 n) as [bn |] eqn:En; cbn [bind] in H; [| discriminate].
  destruct (pack_unsigned 4 (Z.of_nat (length anchors))) as [bc |] eqn:Ec;
    cbn [bind] in H; [| discriminate].
  destruct (pack_anchors anchors) as [ba |] eqn:Ea; cbn [bind] in H; [| discriminate].
  apply OK_inj in H.
  apply pack_unsigned_inv in Ev, Ee, En, Ec.
  destruct Ev as [-> Hv]. destruct Ee as [-> He]. destruct En as [-> Hn].
  destruct Ec as [-> Hc].
  apply pack_anchors_spec in Ea. destruct Ea as [-> Hp].
  unfold load_index.
  assert (Hm : firstn 8 idx = INDEX_MAGIC) by (subst idx; reflexivity).
  rewrite Hm, tuple_eqb_refl. cbn [negb].
  assert (H8 : skipn 8 idx
               = le_bytes 1 INDEX_VERSION ++ le_bytes 4 ae ++ le_bytes 8 n
                   ++ le_bytes 4 (Z.of_nat (length anchors))
                   ++ flat_map anchor_bytes anchors) by (subst idx; reflexivity).
  rewrite (unpack_unsigned_le_bytes 1 idx _ 8 INDEX_VERSION ltac:(lia) Hv H8).
  cbn [bind]. change (INDEX_VERSION =? INDEX_VERSION) with true. cbn [negb].
  apply (skipn_app_exact 8) in H8. rewrite le_bytes_length in H8.
  change (8 + 1)%nat with 9%nat in H8.
  rewrite (unpack_unsigned_le_bytes 4 idx _ 9 ae ltac:(lia) He H8). cbn [bind].
  apply (skipn_app_exact 9) in H8. rewrite le_bytes_length in H8.
  change (9 + 4)%nat with 13%nat in H8.
  rewrite (unpack_unsigned_le_bytes 8 idx _ 13 n ltac:(lia) Hn H8). cbn [bind].
  apply (skipn_app_exact 13) in H8. rewrite le_bytes_length in H8.
  change (13 + 8)%nat with 21%nat in H8.
  rewrite (unpack_unsigned_le_bytes 4 idx _ 21 _ ltac:(lia) Hc H8). cbn [bind].
  apply (skipn_app_exact 21) in H8. rewrite le_bytes_length in H8.
  change (21 + 4)%nat with 25%nat in H8. rewrite Nat2Z.id.
  rewrite (load_anchors_flat anchors idx 25 [] Hp); [reflexivity |].
  rewrite app_nil_r. exact H8.
Qed.

End IndexFile02.

(** * Replay equivalence and anchor boundaries, Case-01 *)

Section Anchors01.
Import Prim Wire Case01 Blocks01 Index01 Replay01 Boundary01.

Lemma encode_star_cases (bars : list Bar) (ps : Z) (blob : list Z) :
  encode_star bars ps = Some blob ->
  (bars = [] /\ blob = MAGIC ++ [0])
  \/ exists b0 rest, bars = b0 :: rest /\ 0 <= ps /\ blob = encoded b0 rest ps.
Proof.
  intros H. destruct bars as [| b0 rest].
  - left. rewrite encode_star_empty in H. injection H as <-. auto.
  - right. exists b0, rest.
    destruct (Z.neg_nonneg_cases ps) as [Hn | Hp].
    + rewrite encode_star_diverges in H by exact Hn. discriminate.
    + rewrite encode_star_encoded in H by exact Hp. injection H as <-. auto.
Qed.

Lemma build_index_empty (ae : Z) :
  build_index (MAGIC ++ [0]) ae = OK (0, [(0, 6%nat, bar0)]).
Proof. reflexivity. Qed.


Lemma parse_header_empty :
  parse_star1_header (MAGIC ++ [0]) = OK (0, 0, bar0, 6%nat).
Proof. reflexivity. Qed.

Lemma ser_blocks_firstn_length (bs : list block) (j : nat) :
  (j < length bs)%nat ->
  (length (ser_blocks (firstn j bs)) < length (ser_blocks bs))%nat.
Proof.
  intros Hj. rewrite <- (firstn_skipn j bs) at 2.
  rewrite ser_blocks_app, length_app.
  destruct (skipn j bs) as [| b tl] eqn:E.
  - apply (f_equal (@length block)) in E. rewrite length_skipn in E.
    cbn in E. lia.
  - rewrite ser_blocks_cons, length_app.
    pose proof (ser_block_length_pos b). lia.
Qed.

(* Every anchor stands at a block boundary: at the tag byte of a block,
   or at the end of the file, where the anchor of the last row is. *)
Lemma anchor_boundary01 (bars : list Bar) (ps ae n : Z) (blob : list Z)
      (anchors : list anchor) (row : Z) (off : nat) (cur : Bar) :
  encode_star bars ps = Some blob ->
  build_index blob ae = OK (n, anchors) ->
  In (row, off, cur) anchors ->
  exists hdr body,
    parse_star1_header blob = OK (hdr, body)
    /\ block_start blob body off
    /\ (tag_at blob off
        \/ (off = length blob /\ (row = n - 1 \/ n = 0))).
Proof.
  intros Henc Hidx Hin.
  destruct (encode_star_cases _ _ _ Henc)
    as [[-> ->] | (b0 & rest & -> & Hps & ->)].
  - rewrite build_index_empty in Hidx.
    apply OK_inj, pair_inj in Hidx. destruct Hidx as [<- <-].
    destruct Hin as [E | []]. apply pair_inj in E. destruct E as [E _].
    apply pair_inj in E. destruct E as [<- <-].
    exists (0, 0, bar0), 6%nat. split; [reflexivity |].
    split; [constructor |]. right. split; [reflexivity | right; reflexivity].
  - destruct (build_index_encoded b0 rest ps ae n anchors Hps Hidx)
      as (Hn & Hhdr & Hfits & Hb).
    rewrite Forall_forall in Hb. destruct (Hb _ Hin) as (j & Hj & Eb).
    unfold boundary in Eb.
    apply pair_inj in Eb. destruct Eb as [Eb _].
    apply pair_inj in Eb. destruct Eb as [Erow Eoff].
    set (bs := body_blocks b0 rest) in *.
    set (body := length (header (Z.of_nat (S (length rest))) ps b0)) in *.
    pose proof (skipn_encoded_body b0 rest ps) as Hbody.
    fold body bs in Hbody.
    exists (Z.of_nat (S (length rest)), ps, base_of b0), body. split.
    { unfold encoded. rewrite parse_header_encoded by lia.
      rewrite Hn in Hhdr. rewrite Hhdr. reflexivity. }
    split.
    { rewrite Eoff. apply (block_start_boundary _ []); try assumption.
      - apply body_blocks_well_formed.
      - constructor.
      - rewrite app_nil_r. exact Hbody. }
    destruct (Nat.eq_dec j (length bs)) as [-> | Hne].
    + right. rewrite firstn_all in Eoff, Erow. split.
      * rewrite Eoff, encoded_length. reflexivity.
      * left. rewrite Erow. subst bs.
        rewrite body_blocks_flatten, deltas_from_length. lia.
    + left. rewrite Eoff. apply (tag_at_boundary _ []); [| lia].
      rewrite app_nil_r. exact Hbody.
Qed.

End Anchors01.

(** * Replay equivalence and anchor boundaries, Case-02 *)

Section Anchors02Claims.
Import Prim Wire Case02 Blocks02 Index02 Replay02 Boundary02.

Lemma block_start_boundary02 (buf post : list Z) (body : nat) :
  forall bs p0 j,
    Forall (well_formed 8) bs ->
    forallb (block_fits 11) bs = true ->
    block_start buf body p0 ->
    skipn p0 buf = ser_blocks bs ++ post ->
    (j <= length bs)%nat ->
    block_start buf body (p0 + length (ser_blocks (firstn j bs))).
Proof.
  induction bs as [| b bs IH]; intros p0 j Hwf Hfit Hp0 H Hj.
  - rewrite firstn_nil. cbn. rewrite Nat.add_0_r. exact Hp0.
  - destruct j as [| j]; [cbn; rewrite Nat.add_0_r; exact Hp0 |].
    apply Forall_cons_iff in Hwf. destruct Hwf as [Hb Hbs].
    cbn [forallb] in Hfit. apply andb_true_iff in Hfit. destruct Hfit as [Hfb Hfbs].
    rewrite ser_blocks_cons, <- app_assoc in H.
    pose proof (read_block_ser b buf _ p0 Hb H) as Hdec. rewrite Hfb in Hdec.
    apply skipn_app_exact in H.
    cbn [firstn]. rewrite ser_blocks_cons, length_app, Nat.add_assoc.
    apply IH; try assumption.
    + eapply start_next; [exact Hp0 | exact Hdec].
    + cbn [length] in Hj. lia.
Qed.

Lemma encode_star_cases02 (ticks : list AirTick) (blob : list Z) :
  encode_star ticks = Some blob ->
  (ticks = [] /\ blob = STAR_MAGIC ++ [0])
  \/ exists base rest, ticks = base :: rest /\ blob = encoded base rest.
Proof.
  intros H. destruct ticks as [| base rest].
  - left. rewrite encode_star_empty02 in H. injection H as <-. auto.
  - right. exists base, rest.
    rewrite encode_star_encoded02 in H. injection H as <-. auto.
Qed.

Lemma build_anchors_empty (ae n : Z) (anchors : list anchor) :
  build_anchors (STAR_MAGIC ++ [0]) ae = OK (n, anchors) ->
  n = 0 /\ anchors = [(0, 7%nat, tick0)].
Proof.
  unfold build_anchors. destruct (ae <=? 0); [discriminate |].
  intros H. change (OK (0, [(0, 7%nat, tick0)]) = OK (n, anchors)) in H.
  apply OK_inj, pair_inj in H. destruct H as [<- <-]. auto.
Qed.

(* The anchors an index file holds are those the builder collected. *)
Lemma build_index_load (blob idx : list Z) (ae ae' n : Z) (anchors : list anchor) :
  build_index blob ae = OK idx ->
  load_index idx = OK (ae', n, anchors) ->
  build_anchors blob ae = OK (n, anchors).
Proof.
  unfold build_index. intros Hb Hl.
  destruct (build_anchors blob ae) as [[n0 anchors0] |]; cbn [bind] in Hb;
    [| discriminate].
  apply load_write_index in Hb. rewrite Hb in Hl.
  apply OK_inj, pair_inj in Hl. destruct Hl as [Hl <-].
  apply pair_inj in Hl. destruct Hl as [_ <-]. reflexivity.
Qed.


Lemma body_start_encoded (base : AirTick) (rest : list AirTick) :
  header_fits (Z.of_nat (S (length rest))) base = true ->
  body_start (encoded base rest)
  = OK (length (header (Z.of_nat (S (length rest))) base)).
Proof.
  intros Hfit. unfold body_start.
  destruct (header_parse02 (Z.of_nat (S (length rest))) base
              (ser_blocks (body_blocks base rest)) ltac:(lia)) as (_ & Hh & _).
  cbv zeta in Hh. fold (encoded base rest) in Hh. rewrite Hfit in Hh.
  destruct (varint_decode (encoded base rest) 6) as [[n' i] | e];
    cbn [bind] in *; [| discriminate].
  destruct (n' =? 0); [discriminate |].
  destruct (read_tuple_with 70 8 (encoded base rest) i) as [[vals i2] | e];
    cbn [bind] in *; [| discriminate].
  apply OK_inj, pair_inj in Hh. destruct Hh as [_ ->]. reflexivity.
Qed.

Lemma encoded_length02 (base : AirTick) (rest : list AirTick) :
  length (encoded base rest)
  = (length (header (Z.of_nat (S (length rest))) base)
     + length (ser_blocks (body_blocks base rest)))%nat.
Proof. unfold encoded. apply length_app. Qed.

Lemma anchor_boundary02 (ticks : list AirTick) (ae ae' n : Z)
      (blob idx : list Z) (anchors : list anchor) (row : Z) (off : nat)
      (cur : AirTick) :
  encode_star ticks = Some blob ->
  build_index blob ae = OK idx ->
  load_index idx = OK (ae', n, anchors) ->
  In (row, off, cur) anchors ->
  exists body,
    body_start blob = OK body
    /\ block_start blob body off
    /\ (tag_at blob off
        \/ (off = length blob /\ (row = n - 1 \/ n = 0))).
Proof.
  intros Henc Hidx Hload Hin.
  pose proof (build_index_load _ _ _ _ _ _ Hidx Hload) as Hanch.
  destruct (encode_star_cases02 _ _ Henc) as [[-> ->] | (base & rest & -> & ->)].
  - apply build_anchors_empty in Hanch. destruct Hanch as [-> ->].
    destruct Hin as [E | []]. apply pair_inj in E. destruct E as [E _].
    apply pair_inj in E. destruct E as [<- <-].
    exists 7%nat. split; [reflexivity |].
    split; [constructor |]. right. split; [reflexivity | right; reflexivity].
  - destruct (build_anchors_encoded base rest ae n anchors Hanch)
      as (Hn & Hhdr & Hfits & js & -> & Hsorted & Hrange).
    apply in_map_iff in Hin. destruct Hin as (j & Eb & Hj).
    rewrite Forall_forall in Hrange. specialize (Hrange j Hj).
    unfold boundary in Eb. symmetry in Eb.
    apply pair_inj in Eb. destruct Eb as [Eb _].
    apply pair_inj in Eb. destruct Eb as [Erow Eoff].
    set (bs := body_blocks base rest) in *.
    set (body := length (header (Z.of_nat (S (length rest))) base)) in *.
    pose proof (skipn_encoded_body02 base rest) as Hbody.
    fold body bs in Hbody.
    exists body. split.
    { rewrite Hn in Hhdr. apply body_start_encoded. exact Hhdr. }
    split.
    { rewrite Eoff. apply (block_start_boundary02 _ []); try assumption.
      - apply body_blocks_well_formed02.
      - constructor.
      - rewrite app_nil_r. exact Hbody. }
    destruct (Nat.eq_dec j (length bs)) as [-> | Hne].
    + right. rewrite firstn_all in Eoff, Erow. split.
      * rewrite Eoff, encoded_length02. reflexivity.
      * left. rewrite Erow. subst bs.
        rewrite body_blocks_flatten02, deltas_from_length02. lia.
    + left. rewrite Eoff. apply (tag_at_boundary _ []); [| lia].
      rewrite app_nil_r. exact Hbody.
Qed.

End Anchors02Claims.

(** * The varint reader on an arbitrary buffer *)

Section VarintAnyBuffer.
Import Prim Wire.

Lemma leb128_value_nonneg (bs : list Z) : 0 <= leb128_value bs.
Proof.
  induction bs as [| b bs IH]; [cbn; lia |].
  cbn [leb128_value]. apply Z.lor_nonneg. split.
  - apply Z.land_nonneg. right. lia.
  - apply Z.shiftl_nonneg. exact IH.
Qed.

Lemma varint_loop_cons (limit : Z) (b : Z) (rest : list Z) (i : nat) (s a : Z) :
  varint_decode_loop limit (b :: rest) i s a
  = if cont b
    then if s + 7 >? limit then Err Overlong
         else varint_decode_loop limit rest (S i) (s + 7)
                (Z.lor a (Z.shiftl (Z.land b 127) s))
    else OK (Z.lor a (Z.shiftl (Z.land b 127) s), S i).
Proof.
  cbn [varint_decode_loop]. unfold cont.
  destruct (Z.land b 128 =? 0); reflexivity.
Qed.

(* Truncated: every byte left carries the continuation bit and the
   shift never passes the limit. *)
Lemma varint_loop_truncated (limit : Z) (rest : list Z) :
  forall i s a,
    s <= limit ->
    (varint_decode_loop limit rest i s a = Err TruncatedVarint
     <-> forallb cont rest = true
         /\ s + 7 * Z.of_nat (length rest) <= limit).
Proof.
  induction rest as [| b rest IH]; intros i s a Hs.
  - cbn. split; [intros _; split; [reflexivity | lia] | reflexivity].
  - rewrite varint_loop_cons. cbn [forallb length].
    destruct (cont b); cbn [andb].
    + destruct (Z.gtb_spec (s + 7) limit) as [G | L].
      * split; [discriminate | intros [_ H]; lia].
      * rewrite IH by lia. rewrite Nat2Z.inj_succ.
        split; intros [H1 H2]; (split; [exact H1 | lia]).
    + split; [discriminate | intros [H _]; discriminate].
Qed.

(* Overlong: the bytes present all carry the continuation bit up to
   the one that pushes the shift past the limit. *)
Lemma varint_loop_overlong (limit : Z) (rest : list Z) :
  forall i s a,
    s <= limit ->
    (varint_decode_loop limit rest i s a = Err Overlong
     <-> exists k : nat,
           (k <= length rest)%nat
           /\ forallb cont (firstn k rest) = true
           /\ limit < s + 7 * Z.of_nat k).
Proof.
  induction rest as [| b rest IH]; intros i s a Hs.
  - cbn. split; [discriminate |].
    intros (k & Hk & _ & Hlim). assert (k = 0%nat) by lia. subst k. cbn in Hlim. lia.
  - rewrite varint_loop_cons. cbn [length].
    destruct (cont b) eqn:Eb.
    + destruct (Z.gtb_spec (s + 7) limit) as [G | L].
      * split; [intros _ | reflexivity].
        exists 1%nat. cbn [firstn forallb]. rewrite Eb.
        repeat split; [lia | lia].
      * rewrite IH by lia. split.
        -- intros (k & Hk & Hall & Hlim). exists (S k).
           cbn [firstn forallb]. rewrite Eb, Hall.
           repeat split; lia.
        -- intros (k & Hk & Hall & Hlim). destruct k as [| k]; [cbn in Hlim; lia |].
           exists k. cbn [firstn forallb] in Hall.
           apply andb_true_iff in Hall. destruct Hall as [_ Hall].
           repeat split; [lia | exact Hall | lia].
    + split; [discriminate |].
      intros (k & Hk & Hall & Hlim). destruct k as [| k]; [cbn in Hlim; lia |].
      cbn [firstn forallb] in Hall. rewrite Eb in Hall. discriminate.
Qed.

Lemma shiftl_lor_acc (a x y s : Z) :
  0 <= s ->
  Z.lor (Z.lor a (Z.shiftl x s)) (Z.shiftl y (s + 7))
  = Z.lor a (Z.shiftl (Z.lor x (Z.shiftl y 7)) s).
Proof.
  intros Hs. rewrite <- Z.lor_assoc. f_equal.
  rewrite Z.shiftl_lor, Z.shiftl_shiftl by lia.
  do 2 f_equal. lia.
Qed.

(* Success: the value is that of the bytes consumed, the last of which
   is the first without a continuation bit. *)
Lemma varint_loop_ok (limit : Z) (rest : list Z) :
  forall i s a u j,
    0 <= s ->
    varint_decode_loop limit rest i s a = OK (u, j) ->
    exists k : nat,
      j = (i + S k)%nat
      /\ (S k <= length rest)%nat
      /\ forallb cont (firstn k rest) = true
      /\ cont (nth k rest 0) = false
      /\ s + 7 * Z.of_nat k <= Z.max s limit
      /\ u = Z.lor a (Z.shiftl (leb128_value (firstn (S k) rest)) s).
Proof.
  induction rest as [| b rest IH]; intros i s a u j Hs H; [discriminate |].
  rewrite varint_loop_cons in H.
  destruct (cont b) eqn:Eb.
  - destruct (Z.gtb_spec (s + 7) limit) as [G | L]; [discriminate |].
    apply IH in H; [| lia].
    destruct H as (k & -> & Hk & Hall & Hlast & Hlim & ->).
    exists (S k). cbn [firstn forallb nth length].
    rewrite Eb, Hall. repeat split; try lia; [exact Hlast |].
    cbn [leb128_value]. apply shiftl_lor_acc. exact Hs.
  - apply OK_inj, pair_inj in H. destruct H as [<- <-].
    exists 0%nat. cbn [firstn forallb nth length leb128_value].
    rewrite Eb. repeat split; try lia.
    rewrite Z.shiftl_0_l, Z.lor_0_r. reflexivity.
Qed.

Lemma varint_loop_errors (limit : Z) (rest : list Z) :
  forall i s a e,
    varint_decode_loop limit rest i s a = Err e ->
    e = TruncatedVarint \/ e = Overlong.
Proof.
  induction rest as [| b rest IH]; intros i s a e H.
  - cbn in H. injection H as <-. auto.
  - cbn [varint_decode_loop] in H.
    destruct (Z.land b 128 =? 0); [discriminate |].
    destruct (s + 7 >? limit); [injection H as <-; auto | eapply IH; exact H].
Qed.

(* A decoded varint is never negative. *)
Lemma varint_decode_with_nonneg (limit : Z) (buf : list Z) (i : nat) (u : Z) (j : nat) :
  varint_decode_with limit buf i = OK (u, j) -> 0 <= u.
Proof.
  unfold varint_decode_with. intros H.
  apply varint_loop_ok in H; [| lia].
  destruct H as (k & _ & _ & _ & _ & _ & ->).
  rewrite Z.lor_0_l, Z.shiftl_0_r. apply leb128_value_nonneg.
Qed.

(** The three outcomes of the readers with limit 63 (Case-01, both
    Case-01 tools, Case-04). *)

Lemma varint63_truncated_iff (buf : list Z) (i : nat) :
  varint_decode_with 63 buf i = Err TruncatedVarint
  <-> forallb cont (skipn i buf) = true /\ (length (skipn i buf) <= 9)%nat.
Proof.
  unfold varint_decode_with. rewrite varint_loop_truncated by lia.
  split; intros [H1 H2]; (split; [exact H1 | lia]).
Qed.

Lemma firstn_forallb_le {A : Type} (f : A -> bool) (l : list A) (k m : nat) :
  (m <= k)%nat -> forallb f (firstn k l) = true -> forallb f (firstn m l) = true.
Proof.
  revert l k. induction m as [| m IH]; intros l k Hle H; [reflexivity |].
  destruct k as [| k]; [lia |]. destruct l as [| x l]; [reflexivity |].
  cbn [firstn forallb] in *. apply andb_true_iff in H. destruct H as [-> H].
  cbn [andb]. apply (IH l k); [lia | exact H].
Qed.

Lemma varint63_overlong_iff (buf : list Z) (i : nat) :
  varint_decode_with 63 buf i = Err Overlong
  <-> (10 <= length (skipn i buf))%nat
      /\ forallb cont (firstn 10 (skipn i buf)) = true.
Proof.
  unfold varint_decode_with. rewrite varint_loop_overlong by lia. split.
  - intros (k & Hk & Hall & Hlim). split; [lia |].
    apply (firstn_forallb_le _ _ k); [lia | exact Hall].
  - intros [Hlen Hall]. exists 10%nat.
    split; [exact Hlen | split; [exact Hall | lia]].
Qed.

Lemma varint63_ok (buf : list Z) (i : nat) (u : Z) (j : nat) :
  varint_decode_with 63 buf i = OK (u, j) ->
  (i < j <= i + 10)%nat /\ (j <= length buf)%nat
  /\ u = leb128_value (firstn (j - i) (skipn i buf))
  /\ cont (nth (j - 1) buf 0) = false
  /\ forallb cont (firstn (j - i - 1) (skipn i buf)) = true.
Proof.
  unfold varint_decode_with. intros H.
  apply varint_loop_ok in H; [| lia].
  destruct H as (k & -> & Hk & Hall & Hlast & Hlim & ->).
  rewrite Z.lor_0_l, Z.shiftl_0_r. rewrite length_skipn in Hk.
  replace (i + S k - i)%nat with (S k) by lia.
  replace (i + S k - 1)%nat with (i + k)%nat by lia.
  replace (S k - 1)%nat with k by lia.
  repeat split; try lia; try assumption.
  rewrite <- Hlast. rewrite nth_skipn. reflexivity.
Qed.

End VarintAnyBuffer.

(** * Row counts of the decoders *)

Section RowCount.
Import Prim Wire.

Lemma append_run_length02 (k : nat) (tup : list Z) (n : Z) :
  forall ticks,
    Z.of_nat (length ticks) < n ->
    Z.of_nat (length (Case02.append_run k tup n ticks)) <= n.
Proof.
  induction k as [| k IH]; intros ticks H; cbn [Case02.append_run]; [lia |].
  destruct (Z.geb_spec (Z.of_nat (length (ticks ++ [Case02.add_delta (last ticks Case02.tick0) tup]))) n)
    as [G | L].
  - rewrite length_app in *. cbn [length] in *. lia.
  - apply IH. exact L.
Qed.

(* The Case-02 loop leaves with exactly [n] rows. *)
Lemma decode_body_length02 (fuel : nat) :
  forall buf i n ticks r,
    Z.of_nat (length ticks) <= n ->
    Case02.decode_body fuel buf i n ticks = OK r ->
    Z.of_nat (length r) = n.
Proof.
  induction fuel as [| fuel IH]; intros buf i n ticks r Hle H;
    cbn [Case02.decode_body] in H;
    destruct (Z.ltb_spec (Z.of_nat (length ticks)) n) as [L | G];
    try discriminate; try (apply OK_inj in H; subst r; lia).
  destruct (Case02.read_block buf i) as [[[[rle run] tup] i'] | e];
    cbn [bind] in H; [| discriminate].
  destruct rle.
  - eapply IH; [| exact H]. apply append_run_length02. exact L.
  - eapply IH; [| exact H]. rewrite length_app. cbn [length]. lia.
Qed.

Lemma decode_star_length02 (buf : list Z) (ticks : list Case02.AirTick) :
  Case02.decode_star buf = OK ticks ->
  exists n i, Case02.varint_decode buf 6 = OK (n, i)
              /\ Z.of_nat (length ticks) = n.
Proof.
  unfold Case02.decode_star. intros H.
  destruct (negb _); [discriminate |].
  destruct (Case02.varint_decode buf 6) as [[n i] |] eqn:En; cbn [bind] in H;
    [| discriminate].
  exists n, i. split; [reflexivity |].
  destruct (Z.eqb_spec n 0) as [-> | Hn].
  - apply OK_inj in H. subst ticks. reflexivity.
  - destruct (read_tuple_with 70 8 buf i) as [[vals i2] |]; cbn [bind] in H;
      [| discriminate].
    apply varint_decode_with_nonneg in En.
    eapply decode_body_length02; [| exact H]. cbn [length]. lia.
Qed.

(* Neither loop is cut short by the fuel of the embedding: every
   iteration consumes at least the tag byte. *)
Lemma decode_block_advances (buf : list Z) (i : nat) (tr : list Z * Z) (i' : nat) :
  Index01.decode_block buf i = OK (tr, i') -> (i < i' <= length buf)%nat.
Proof.
  unfold Index01.decode_block. intros H.
  destruct (nth_error buf i) as [tag |] eqn:Et; [| discriminate].
  assert (Hi : (i < length buf)%nat) by (apply nth_error_Some; congruence).
  assert (Hread : forall k p vals p', read_tuple_with 63 k buf p = OK (vals, p') ->
                    (p <= length buf -> p <= p' <= length buf)%nat).
  { induction k as [| k IHk]; intros p vals p' Hr Hp.
    - cbn in Hr. apply OK_inj, pair_inj in Hr. destruct Hr as [_ <-]. lia.
    - cbn [read_tuple_with] in Hr.
      destruct (varint_decode_with 63 buf p) as [[u p1] |] eqn:Ev; cbn [bind] in Hr;
        [| discriminate].
      destruct (read_tuple_with 63 k buf p1) as [[vs p2] |] eqn:Er; cbn [bind] in Hr;
        [| discriminate].
      apply OK_inj, pair_inj in Hr. destruct Hr as [_ <-].
      apply varint63_ok in Ev. apply IHk in Er; lia. }
  destruct (tag =? 0).
  - destruct (Case01.varint_decode buf (S i)) as [[run i1] |] eqn:Ev; cbn [bind] in H;
      [| discriminate].
    destruct (read_tuple_with 63 6 buf i1) as [[vals i2] |] eqn:Er; cbn [bind] in H;
      [| discriminate].
    apply OK_inj, pair_inj in H. destruct H as [_ <-].
    apply varint63_ok in Ev. apply Hread in Er; lia.
  - destruct (tag =? 1); [| discriminate].
    destruct (read_tuple_with 63 6 buf (S i)) as [[vals i2] |] eqn:Er; cbn [bind] in H;
      [| discriminate].
    apply OK_inj, pair_inj in H. destruct H as [_ <-].
    apply Hread in Er; lia.
Qed.

Lemma decode_body_fuel01 (fuel : nat) :
  forall buf i n bars,
    (i <= length buf)%nat -> (length buf - i < fuel)%nat ->
    Case01.decode_body fuel buf i n bars <> Err OutOfFuel.
Proof.
  induction fuel as [| fuel IH]; intros buf i n bars Hi Hf; [lia |].
  rewrite decode_body_step.
  destruct (Z.of_nat (length bars) <? n); [| discriminate].
  destruct (Index01.decode_block buf i) as [[[tup run] i'] | e] eqn:Eb; cbn [bind].
  - apply decode_block_advances in Eb. apply IH; lia.
  - unfold Index01.decode_block in Eb.
    destruct (nth_error buf i); [| injection Eb as <-; discriminate].
    assert (Hread : forall k p e', read_tuple_with 63 k buf p = Err e' ->
                       e' = TruncatedVarint \/ e' = Overlong).
    { induction k as [| k IHk]; intros p e' Hr; [discriminate |].
      cbn [read_tuple_with] in Hr.
      destruct (varint_decode_with 63 buf p) as [[u p1] |] eqn:Ev; cbn [bind] in Hr.
      - destruct (read_tuple_with 63 k buf p1) as [[vs p2] |] eqn:Er; cbn [bind] in Hr;
          [discriminate |].
        injection Hr as <-. eapply IHk. exact Er.
      - injection Hr as <-. eapply varint_loop_errors. exact Ev. }
    destruct (z =? 0).
    + destruct (Case01.varint_decode buf (S i)) as [[run i1] |] eqn:Ev; cbn [bind] in Eb.
      * destruct (read_tuple_with 63 6 buf i1) as [[vals i2] |] eqn:Er; cbn [bind] in Eb;
          [discriminate |].
        injection Eb as <-. destruct (Hread _ _ _ Er) as [-> | ->]; discriminate.
      * injection Eb as <-.
        destruct (varint_loop_errors _ _ _ _ _ _ Ev) as [-> | ->]; discriminate.
    + destruct (z =? 1); [| injection Eb as <-; discriminate].
      destruct (read_tuple_with 63 6 buf (S i)) as [[vals i2] |] eqn:Er; cbn [bind] in Eb;
        [discriminate |].
      injection Eb as <-. destruct (Hread _ _ _ Er) as [-> | ->]; discriminate.
Qed.

End RowCount.

(** * The greedy block scheme of the two encoders *)

Section GreedyScheme.
Import Prim Wire Greedy.

Lemma RUN_CAP_pos : 1 <= Case01.RUN_CAP.
Proof. unfold Case01.RUN_CAP. lia. Qed.

(* The inner loop of the Case-01 encoder computes the capped run. *)
Lemma scan_run_max01 (t : list Z) : forall rest run,
  1 <= run <= Case01.RUN_CAP ->
  Case01.scan_run t rest run
  = (Z.min (run + Z.of_nat (prefix_run t rest)) Case01.RUN_CAP,
     skipn (Z.to_nat (Z.min (run + Z.of_nat (prefix_run t rest)) Case01.RUN_CAP
                      - run)) rest).
Proof.
  induction rest as [| d rest IH]; intros run Hrun.
  - cbn [Case01.scan_run prefix_run]. rewrite Z.add_0_r, Z.min_l by lia.
    rewrite Z.sub_diag. reflexivity.
  - cbn [Case01.scan_run prefix_run].
    destruct (tuple_eqb d t); cbn [andb].
    + destruct (Z.ltb_spec run Case01.RUN_CAP) as [L | G].
      * rewrite IH by lia.
        replace (run + 1 + Z.of_nat (prefix_run t rest))
          with (run + Z.of_nat (S (prefix_run t rest))) by lia.
        f_equal.
        set (m := Z.min (run + Z.of_nat (S (prefix_run t rest))) Case01.RUN_CAP).
        assert (Hm : run + 1 <= m) by (subst m; lia).
        replace (Z.to_nat (m - run)) with (S (Z.to_nat (m - (run + 1)))) by lia.
        reflexivity.
      * rewrite Z.min_r by lia.
        replace (Z.to_nat (Case01.RUN_CAP - run)) with 0%nat by lia. f_equal. lia.
    + rewrite Z.add_0_r, Z.min_l by lia. rewrite Z.sub_diag. reflexivity.
Qed.

Lemma blocks01_greedy (fuel : nat) : forall deltas,
  Blocks01.blocks fuel deltas = greedy fuel (Some Case01.RUN_CAP) deltas.
Proof.
  induction fuel as [| fuel IH]; intros [| t after]; try reflexivity.
  cbn [Blocks01.blocks greedy].
  pose proof RUN_CAP_pos.
  rewrite scan_run_max01 by lia. unfold max_run. rewrite IH. reflexivity.
Qed.

Lemma prefix_run_deltas02 (dtup : list Z) : forall rest cur run,
  Case02.scan_run dtup cur rest run
  = (run + Z.of_nat (prefix_run dtup (Blocks02.deltas_from cur rest)),
     last (firstn (prefix_run dtup (Blocks02.deltas_from cur rest)) rest) cur,
     skipn (prefix_run dtup (Blocks02.deltas_from cur rest)) rest).
Proof.
  induction rest as [| nxt rest IH]; intros cur run.
  - cbn. rewrite Z.add_0_r. reflexivity.
  - cbn [Case02.scan_run Blocks02.deltas_from prefix_run].
    destruct (tuple_eqb (Case02.deltas cur nxt) dtup).
    + rewrite IH. cbn [firstn skipn]. rewrite last_cons_default.
      f_equal. f_equal. lia.
    + cbn. rewrite Z.add_0_r. reflexivity.
Qed.

Lemma deltas_from_skipn02 (prev : Case02.AirTick) (ticks : list Case02.AirTick) (k : nat) :
  Blocks02.deltas_from (last (firstn k ticks) prev) (skipn k ticks)
  = skipn k (Blocks02.deltas_from prev ticks).
Proof.
  revert prev ticks. induction k as [| k IH]; intros prev [| t ticks];
    try reflexivity.
  cbn [firstn skipn Blocks02.deltas_from]. rewrite last_cons_default. apply IH.
Qed.

Lemma prefix_run_le (t : list Z) (ds : list (list Z)) :
  (prefix_run t ds <= length ds)%nat.
Proof.
  induction ds as [| d ds IH]; cbn; [lia |].
  destruct (tuple_eqb d t); cbn; lia.
Qed.

Lemma greedy_fuel (cap : option Z) : forall fuel fuel' deltas,
  (length deltas <= fuel)%nat -> (length deltas <= fuel')%nat ->
  greedy fuel cap deltas = greedy fuel' cap deltas.
Proof.
  induction fuel as [| fuel IH]; intros fuel' [| t after] H1 H2;
    try (destruct fuel'; reflexivity); cbn [length] in *; try lia.
  destruct fuel' as [| fuel']; [lia |].
  cbn [greedy]. f_equal. apply IH; rewrite length_skipn; lia.
Qed.

(* The Case-02 encoder follows the scheme without a cap; a run of two
   is written as two literals in two turns of its loop. *)
Lemma blocks02_greedy (fuel : nat) : forall prev rest,
  (length rest <= fuel)%nat ->
  Blocks02.blocks fuel prev rest
  = greedy fuel None (Blocks02.deltas_from prev rest).
Proof.
  induction fuel as [| fuel IH]; intros prev [| cur after] Hlen;
    try reflexivity; cbn [length] in Hlen; try lia.
  cbn [Blocks02.blocks Blocks02.deltas_from greedy].
  rewrite prefix_run_deltas02. unfold max_run.
  set (dtup := Case02.deltas prev cur).
  set (p := prefix_run dtup (Blocks02.deltas_from cur after)).
  pose proof (prefix_run_le dtup (Blocks02.deltas_from cur after)) as Hp.
  fold p in Hp. rewrite deltas_from_length02 in Hp.
  replace (Z.to_nat (1 + Z.of_nat p - 1)) with p by lia.
  destruct (Z.geb_spec (1 + Z.of_nat p) 3) as [G | L].
  - cbn [app]. f_equal.
    rewrite IH by (rewrite length_skipn; lia).
    rewrite deltas_from_skipn02. reflexivity.
  - rewrite IH by lia.
    assert (Hp2 : p = 0%nat \/ p = 1%nat) by lia.
    destruct Hp2 as [E | E]; rewrite E.
    + reflexivity.
    + change (Z.to_nat (1 + Z.of_nat 1)) with 2%nat. cbn [repeat app].
      f_equal.
      destruct after as [| nxt after']; [subst p; cbn in E; discriminate |].
      subst p. cbn [Blocks02.deltas_from prefix_run] in E |- *.
      destruct (tuple_eqb (Case02.deltas cur nxt) dtup) eqn:Et; [| discriminate].
      apply tuple_eqb_eq in Et. rewrite Et.
      destruct fuel as [| fuel]; [cbn [length] in Hlen; lia |].
      cbn [skipn].
      rewrite (greedy_fuel None (S fuel) fuel (Blocks02.deltas_from nxt after'))
        by (rewrite deltas_from_length02; cbn [length] in Hlen; lia).
      cbn [greedy]. unfold max_run.
      replace (prefix_run dtup (Blocks02.deltas_from nxt after')) with 0%nat by lia.
      reflexivity.
Qed.

(* Where no run can reach the cap, the cap plays no part. *)
Lemma greedy_cap_unused (c : Z) : forall fuel deltas,
  Z.of_nat (length deltas) <= c ->
  greedy fuel (Some c) deltas = greedy fuel None deltas.
Proof.
  induction fuel as [| fuel IH]; intros [| t after] Hlen; try reflexivity.
  cbn [greedy]. unfold max_run.
  pose proof (prefix_run_le t after) as Hp. cbn [length] in Hlen.
  rewrite Z.min_l by lia. f_equal. apply IH.
  rewrite length_skipn. lia.
Qed.

Lemma prefix_run_repeat (t : list Z) (m : nat) :
  prefix_run t (repeat t m) = m.
Proof.
  induction m as [| m IH]; [reflexivity |].
  cbn [repeat prefix_run]. rewrite tuple_eqb_refl, IH. reflexivity.
Qed.

Lemma deltas_from_repeat02 (t : Case02.AirTick) (m : nat) :
  Blocks02.deltas_from t (repeat t m) = repeat (Case02.deltas t t) m.
Proof.
  induction m as [| m IH]; [reflexivity |].
  cbn [repeat Blocks02.deltas_from]. rewrite IH. reflexivity.
Qed.

(* One run of [m] equal deltas, uncapped: a single block. *)
Lemma greedy_uncapped_repeat (t : list Z) (m fuel : nat) :
  (3 <= m)%nat ->
  greedy (S fuel) None (repeat t m) = [mkBlock true (Z.of_nat m) t].
Proof.
  intros Hm. destruct m as [| m]; [lia |].
  cbn [repeat greedy]. unfold max_run. rewrite prefix_run_repeat.
  replace (1 + Z.of_nat m) with (Z.of_nat (S m)) by lia.
  destruct (Z.geb_spec (Z.of_nat (S m)) 3) as [_ | L]; [| lia].
  replace (Z.to_nat (Z.of_nat (S m) - 1)) with m by lia.
  rewrite skipn_all2 by (rewrite repeat_length; lia).
  destruct fuel; reflexivity.
Qed.

(* The same run one longer than the cap: a capped block and a literal. *)
Lemma greedy_capped_repeat (t : list Z) (c : Z) (m fuel : nat) :
  3 <= c -> Z.of_nat m = c + 1 ->
  greedy (S (S fuel)) (Some c) (repeat t m)
  = [mkBlock true c t; mkBlock false 1 t].
Proof.
  intros Hc Hm. destruct m as [| m]; [lia |].
  cbn [repeat greedy]. unfold max_run. rewrite prefix_run_repeat.
  rewrite Z.min_r by lia.
  destruct (Z.geb_spec c 3) as [_ | L]; [| lia].
  assert (Em : m = (Z.to_nat (c - 1) + 1)%nat) by lia.
  rewrite Em at 1. rewrite repeat_app, skipn_app, repeat_length, Nat.sub_diag.
  rewrite (skipn_all2 (repeat t (Z.to_nat (c - 1)))) by (rewrite repeat_length; lia).
  cbn [repeat skipn app prefix_run]. rewrite Z.min_l by lia.
  change (1 + Z.of_nat 0 >=? 3) with false. cbv iota.
  change (Z.to_nat (1 + Z.of_nat 0)) with 1%nat.
  destruct fuel; reflexivity.
Qed.

End GreedyScheme.

(** * Case-03 / Case-04: the binding check of replay *)

Section HexDigits.
Import ReplayIdx Binding.

Lemma hex_digit_value (d : Z) : 0 <= d < 16 -> digit_value (hex_digit d) = d.
Proof.
  intros Hd.
  assert (E : exists k, (k < 16)%nat /\ d = Z.of_nat k)
    by (exists (Z.to_nat d); lia).
  destruct E as (k & Hk & ->).
  do 16 (destruct k as [| k]; [reflexivity |]). lia.
Qed.

Lemma hex_digit_inj (d e : Z) :
  0 <= d < 16 -> 0 <= e < 16 -> hex_digit d = hex_digit e -> d = e.
Proof.
  intros Hd He E.
  rewrite <- (hex_digit_value d Hd), <- (hex_digit_value e He), E.
  reflexivity.
Qed.

Lemma hex_inj (a : list Z) : forall b,
  Forall is_byte a -> Forall is_byte b -> hex a = hex b -> a = b.
Proof.
  induction a as [| x a IH]; intros [| y b] Ha Hb E;
    try reflexivity; try discriminate.
  apply Forall_cons_iff in Ha. destruct Ha as [Hx Ha].
  apply Forall_cons_iff in Hb. destruct Hb as [Hy Hb].
  unfold is_byte in Hx, Hy.
  cbn [hex] in E. injection E as E1 E2 E3.
  apply hex_digit_inj in E1;
    [| split; [apply Z.div_pos; lia | apply Z.div_lt_upper_bound; lia] ..].
  apply hex_digit_inj in E2; [| apply Z.mod_pos_bound; lia ..].
  f_equal; [| apply IH; assumption].
  rewrite (Z.div_mod x 16), (Z.div_mod y 16) by lia. congruence.
Qed.

Lemma firstn_bytes (k : nat) (buf : list Z) :
  Forall is_byte buf -> Forall is_byte (firstn k buf).
Proof.
  intros H. rewrite <- (firstn_skipn k buf) in H.
  apply Forall_app in H. apply H.
Qed.

Lemma skipn_bytes (k : nat) (buf : list Z) :
  Forall is_byte buf -> Forall is_byte (skipn k buf).
Proof.
  intros H. rewrite <- (firstn_skipn k buf) in H.
  apply Forall_app in H. apply H.
Qed.

Lemma all_bytes_spec (buf : list Z) :
  all_bytes buf = true -> Forall is_byte buf.
Proof.
  unfold all_bytes. rewrite forallb_forall, Forall_forall.
  intros H b Hb. specialize (H b Hb). unfold is_byte. lia.
Qed.

End HexDigits.

Section BindingCheck.
Import ReplayIdx Binding.
Variable sha256 : list Z -> list Z.
Variable fmt : args -> Z -> option string.
Variables MAGIC_A MAGIC_B : list Z.
Hypothesis sha256_bytes : forall data, Forall is_byte (sha256 data).

(* The binding that load_index returns is the hex form of the stored digest. *)
Lemma load_index_binding (buf : list Z) (ix : index) :
  load_index MAGIC_A MAGIC_B buf = OK ix ->
  star_sha_hex ix = hex (stored_digest MAGIC_A MAGIC_B buf).
Proof.
  unfold load_index, stored_digest, header_pos. intros H.
  destruct (startswith buf MAGIC_A);
    [| destruct (startswith buf MAGIC_B); [| discriminate]];
    cbn [bind] in H;
    repeat match type of H with
           | bind ?r _ = OK _ => destruct r; cbn [bind] in H; [| discriminate]
           end;
    apply OK_inj in H; subst ix; reflexivity.
Qed.

(* The comparison of main, in terms of the raw digests. *)
Lemma binding_eqb (star idx : list Z) (ix : index) :
  Forall is_byte idx ->
  load_index MAGIC_A MAGIC_B idx = OK ix ->
  String.eqb (star_sha_hex ix) (sha256_file sha256 star) = true
  <-> stored_digest MAGIC_A MAGIC_B idx = sha256 star.
Proof.
  intros Hb Hl. rewrite (load_index_binding _ _ Hl), String.eqb_eq.
  unfold sha256_file. split; [| intros ->; reflexivity].
  apply hex_inj; [| apply sha256_bytes].
  apply firstn_bytes, skipn_bytes, Hb.
Qed.



(* When the digests differ, main stops at the check: only the digest
   line was printed. *)
Lemma main_mismatch (star idx : list Z) (a : args) (ix : index) :
  has_seek_key a ->
  Forall is_byte idx ->
  load_index MAGIC_A MAGIC_B idx = OK ix ->
  stored_digest MAGIC_A MAGIC_B idx <> sha256 star ->
  main sha256 fmt MAGIC_A MAGIC_B star idx a
  = ([LSha (hex (sha256 star))], Err BindingMismatch).
Proof.
  intros Hk Hb Hl Hne. unfold main. rewrite Hl.
  destruct (String.eqb (star_sha_hex ix) (sha256_file sha256 star)) eqn:E.
  - apply (binding_eqb star idx ix Hb Hl) in E. contradiction.
  - cbn [negb]. destruct Hk as [Hk | Hk];
      destruct (a_seek_row a), (a_seek_time a); try reflexivity;
      exfalso; apply Hk; reflexivity.
Qed.



End BindingCheck.

(** * Case-01: what the replay script checks before it decodes *)

Section Script01.
Import Prim Replay01.
Variable date_to_days : string -> option Z.
Variable fmt_bar : Bar -> Z -> option string.

(* The binary search returns whatever fuel it is given beyond the
   width of its window. *)
Lemma bisect_loop_fuel (a : list Z) (x : Z) : forall f1 f2 lo hi,
  (hi - lo < f1)%nat -> (hi - lo < f2)%nat ->
  bisect_loop f1 a x lo hi = bisect_loop f2 a x lo hi.
Proof.
  induction f1 as [| f1 IH]; intros f2 lo hi H1 H2; [lia |].
  destruct f2 as [| f2]; [lia |]. cbn [bisect_loop].
  destruct (Nat.ltb_spec lo hi) as [L | G]; [| reflexivity].
  assert (Hmid : (lo <= (lo + hi) / 2 < hi)%nat).
  { split.
    - apply Nat.div_le_lower_bound; lia.
    - apply Nat.Div0.div_lt_upper_bound; lia. }
  destruct (x <? nth ((lo + hi) / 2) a 0); apply IH; lia.
Qed.

Lemma load_index_magic (idx : list Z) :
  firstn 5 idx <> bytes_of_string "SIDX1" ->
  load_index idx = Err BadIndexMagic.
Proof.
  intros H. unfold load_index.
  destruct (tuple_eqb (firstn 5 idx) (bytes_of_string "SIDX1")) eqn:E;
    [| reflexivity].
  apply tuple_eqb_eq in E. contradiction.
Qed.

(* A failure of load_index is the failure of main; nothing is printed. *)
Lemma main_index_error (star idx : list Z) (a : args) (hdr : Z * Z * Bar * nat)
      (e : error) :
  a_seek_row a <> None \/ a_seek_time a <> None ->
  parse_star1_header star = OK hdr ->
  load_index idx = Err e ->
  main date_to_days fmt_bar star idx a = ([], Err e).
Proof.
  intros Hk Hh Hl. unfold main. rewrite Hh, Hl.
  destruct hdr as [[[n ps] base] body].
  destruct Hk as [Hk | Hk]; destruct (a_seek_row a), (a_seek_time a);
    try reflexivity; exfalso; apply Hk; reflexivity.
Qed.

(* An index whose row count is not that of the STAR header stops main
   before any row is decoded or printed. *)
Lemma main_index_mismatch (star idx : list Z) (a : args)
      (n ps : Z) (base : Bar) (body : nat)
      (ae n_idx : Z) (anchors : list (Z * Z * Bar)) (rk dk : list Z) :
  a_seek_row a <> None \/ a_seek_time a <> None ->
  parse_star1_header star = OK (n, ps, base, body) ->
  load_index idx = OK (ae, n_idx, anchors, rk, dk) ->
  n_idx <> n ->
  main date_to_days fmt_bar star idx a = ([], Err IndexMismatch).
Proof.
  intros Hk Hh Hl Hn. unfold main. rewrite Hh, Hl.
  destruct (Z.eqb_spec n_idx n) as [E | _]; [contradiction |]. cbn [negb].
  destruct Hk as [Hk | Hk]; destruct (a_seek_row a), (a_seek_time a);
    try reflexivity; exfalso; apply Hk; reflexivity.
Qed.

End Script01.

(** * The fuel of the block loops is never what ends them

    Every turn of a loop over a body consumes at least the tag byte, so
    a fuel above the number of bytes left is never exhausted. *)

Section LoopFuel.
Import Prim.

Lemma varint_with_advances (limit : Z) (buf : list Z) (i : nat) (u : Z) (j : nat) :
  varint_decode_with limit buf i = OK (u, j) -> (i < j <= length buf)%nat.
Proof.
  unfold varint_decode_with. intros H.
  apply varint_loop_ok in H; [| lia].
  destruct H as (k & -> & Hk & _).
  rewrite length_skipn in Hk. lia.
Qed.

Lemma read_tuple_advances (limit : Z) (buf : list Z) : forall k p vals p',
  read_tuple_with limit k buf p = OK (vals, p') ->
  (p <= p')%nat /\ (p <= length buf -> p' <= length buf)%nat.
Proof.
  induction k as [| k IH]; intros p vals p' H.
  - cbn in H. apply OK_inj, pair_inj in H. destruct H as [_ <-]. lia.
  - cbn [read_tuple_with] in H.
    destruct (varint_decode_with limit buf p) as [[u p1] |] eqn:Ev;
      cbn [bind] in H; [| discriminate].
    destruct (read_tuple_with limit k buf p1) as [[vs p2] |] eqn:Er;
      cbn [bind] in H; [| discriminate].
    apply OK_inj, pair_inj in H. destruct H as [_ <-].
    apply varint_with_advances in Ev. apply IH in Er. lia.
Qed.

Lemma read_tuple_errors (limit : Z) (buf : list Z) : forall k p e,
  read_tuple_with limit k buf p = Err e ->
  e = TruncatedVarint \/ e = Overlong.
Proof.
  induction k as [| k IH]; intros p e H; [discriminate |].
  cbn [read_tuple_with] in H.
  destruct (varint_decode_with limit buf p) as [[u p1] |] eqn:Ev; cbn [bind] in H.
  - destruct (read_tuple_with limit k buf p1) as [[vs p2] |] eqn:Er;
      cbn [bind] in H; [discriminate |].
    injection H as <-. eapply IH. exact Er.
  - injection H as <-. eapply varint_loop_errors. exact Ev.
Qed.

(* Case-01 *)

Lemma decode_block_errors (buf : list Z) (i : nat) (e : error) :
  Index01.decode_block buf i = Err e -> e <> OutOfFuel.
Proof.
  unfold Index01.decode_block. intros H.
  destruct (nth_error buf i) as [tag |]; [| injection H as <-; discriminate].
  destruct (tag =? 0).
  - destruct (Case01.varint_decode buf (S i)) as [[run i1] |] eqn:Ev; cbn [bind] in H.
    + destruct (read_tuple_with 63 6 buf i1) as [[vals i2] |] eqn:Er;
        cbn [bind] in H; [discriminate |].
      injection H as <-.
      destruct (read_tuple_errors _ _ _ _ _ Er) as [-> | ->]; discriminate.
    + injection H as <-.
      destruct (varint_loop_errors _ _ _ _ _ _ Ev) as [-> | ->]; discriminate.
  - destruct (tag =? 1); [| injection H as <-; discriminate].
    destruct (read_tuple_with 63 6 buf (S i)) as [[vals i2] |] eqn:Er;
      cbn [bind] in H; [discriminate |].
    injection H as <-.
    destruct (read_tuple_errors _ _ _ _ _ Er) as [-> | ->]; discriminate.
Qed.

Lemma index_loop_fuel01 (fuel : nat) : forall buf ae n row pos cur anchors,
  (length buf - pos < fuel)%nat ->
  Index01.index_loop fuel buf ae n row pos cur anchors <> Err OutOfFuel.
Proof.
  induction fuel as [| fuel IH]; intros buf ae n row pos cur anchors Hf; [lia |].
  cbn [Index01.index_loop].
  destruct (row <? n - 1); [| discriminate].
  destruct (ae =? 0); [discriminate |].
  destruct (Index01.decode_block buf pos) as [[[tup run] pos2] | e] eqn:Eb;
    cbn [bind].
  - apply decode_block_advances in Eb.
    destruct (Index01.apply_run (Z.to_nat run) tup n cur row) as [cur' row'].
    destruct (length buf <? pos2)%nat; [discriminate |].
    apply IH. lia.
  - apply decode_block_errors in Eb. congruence.
Qed.

Lemma build_index_fuel01 (buf : list Z) (ae : Z) :
  Index01.build_index buf ae <> Err OutOfFuel.
Proof.
  unfold Index01.build_index.
  destruct (Index01.parse_star1_header buf) as [[[[n ps] base] body] | e] eqn:Eh;
    cbn [bind].
  - destruct (n =? 0); [discriminate |].
    pose proof (index_loop_fuel01 (S (length buf)) buf ae n 0 body base
                  [(0, body, base)] ltac:(lia)) as Hl.
    destruct (Index01.index_loop _ buf ae n 0 body base _)
      as [[[[row pos] cur] anchors] | e]; cbn [bind];
      [discriminate | intros E; injection E as ->; apply Hl; reflexivity].
  - unfold Index01.parse_star1_header in Eh.
    destruct (negb _); [injection Eh as <-; discriminate |].
    destruct (Case01.varint_decode buf 5) as [[n i] |] eqn:E1; cbn [bind] in Eh.
    + destruct (n =? 0); [discriminate |].
      destruct (Case01.varint_decode buf i) as [[ps i1] |] eqn:E2; cbn [bind] in Eh.
      * destruct (read_tuple_with 63 6 buf i1) as [[vals i2] |] eqn:E3;
          cbn [bind] in Eh; [discriminate |].
        injection Eh as <-.
        destruct (read_tuple_errors _ _ _ _ _ E3) as [-> | ->]; discriminate.
      * injection Eh as <-.
        destruct (varint_loop_errors _ _ _ _ _ _ E2) as [-> | ->]; discriminate.
    + injection Eh as <-.
      destruct (varint_loop_errors _ _ _ _ _ _ E1) as [-> | ->]; discriminate.
Qed.

Lemma replay_loop_fuel01 (fuel : nat) :
  forall buf n sr sd k row pos cur results,
    (length buf - pos < fuel)%nat ->
    Replay01.replay_loop fuel buf n sr sd k row pos cur results <> Err OutOfFuel.
Proof.
  induction fuel as [| fuel IH]; intros buf n sr sd k row pos cur results Hf; [lia |].
  cbn [Replay01.replay_loop].
  destruct ((row <? n - 1) && (Z.of_nat (length results) <? k)); [| discriminate].
  destruct (Index01.decode_block buf pos) as [[[tup run] pos2] | e] eqn:Eb;
    cbn [bind].
  - apply decode_block_advances in Eb.
    destruct (Replay01.replay_run (Z.to_nat run) tup n sr sd k cur row results)
      as [[cur' row'] results'].
    apply IH. lia.
  - apply decode_block_errors in Eb. congruence.
Qed.

Lemma replay_from_fuel01 (buf : list Z) (row : Z) (pos : nat) (cur : Case01.Bar)
      (n : Z) (sr sd : option Z) (k : Z) :
  Replay01.replay_from buf row pos cur n sr sd k <> Err OutOfFuel.
Proof. unfold Replay01.replay_from. apply replay_loop_fuel01. lia. Qed.

Lemma decode_star_fuel01 (buf : list Z) :
  Case01.decode_star buf <> Err OutOfFuel.
Proof.
  unfold Case01.decode_star.
  destruct (negb _); [discriminate |].
  destruct (Case01.varint_decode buf 5) as [[n i] |] eqn:E1; cbn [bind].
  - destruct (n =? 0); [discriminate |].
    destruct (Case01.varint_decode buf i) as [[ps i1] |] eqn:E2; cbn [bind].
    + destruct (read_tuple_with 63 6 buf i1) as [[vals i2] |] eqn:E3; cbn [bind].
      * apply varint_with_advances in E1. apply varint_with_advances in E2.
        apply read_tuple_advances in E3.
        pose proof (decode_body_fuel01 (S (length buf)) buf i2 n
                      [Case01.bar_of_fields vals] ltac:(lia) ltac:(lia)) as Hd.
        destruct (Case01.decode_body _ buf i2 n _); cbn [bind];
          [discriminate | intros E; injection E as ->; apply Hd; reflexivity].
      * destruct (read_tuple_errors _ _ _ _ _ E3) as [-> | ->]; discriminate.
    + destruct (varint_loop_errors _ _ _ _ _ _ E2) as [-> | ->]; discriminate.
  - destruct (varint_loop_errors _ _ _ _ _ _ E1) as [-> | ->]; discriminate.
Qed.

(* Case-02 *)

Lemma read_block_advances (buf : list Z) (pos : nat) (blk : bool * Z * list Z)
      (pos' : nat) :
  Case02.read_block buf pos = OK (blk, pos') -> (pos < pos' <= length buf)%nat.
Proof.
  unfold Case02.read_block. intros H.
  destruct (nth_error buf pos) as [tag |] eqn:Et; [| discriminate].
  assert (Hi : (pos < length buf)%nat) by (apply nth_error_Some; congruence).
  destruct (tag =? 0).
  - destruct (Case02.varint_decode buf (S pos)) as [[run i1] |] eqn:Ev;
      cbn [bind] in H; [| discriminate].
    destruct (read_tuple_with 70 8 buf i1) as [[vals i2] |] eqn:Er;
      cbn [bind] in H; [| discriminate].
    apply OK_inj, pair_inj in H. destruct H as [_ <-].
    apply varint_with_advances in Ev. apply read_tuple_advances in Er. lia.
  - destruct (tag =? 1); [| discriminate].
    destruct (read_tuple_with 70 8 buf (S pos)) as [[vals i2] |] eqn:Er;
      cbn [bind] in H; [| discriminate].
    apply OK_inj, pair_inj in H. destruct H as [_ <-].
    apply read_tuple_advances in Er. lia.
Qed.

Lemma read_block_errors (buf : list Z) (pos : nat) (e : error) :
  Case02.read_block buf pos = Err e -> e <> OutOfFuel.
Proof.
  unfold Case02.read_block. intros H.
  destruct (nth_error buf pos) as [tag |]; [| injection H as <-; discriminate].
  destruct (tag =? 0).
  - destruct (Case02.varint_decode buf (S pos)) as [[run i1] |] eqn:Ev;
      cbn [bind] in H.
    + destruct (read_tuple_with 70 8 buf i1) as [[vals i2] |] eqn:Er;
        cbn [bind] in H; [discriminate |].
      injection H as <-.
      destruct (read_tuple_errors _ _ _ _ _ Er) as [-> | ->]; discriminate.
    + injection H as <-.
      destruct (varint_loop_errors _ _ _ _ _ _ Ev) as [-> | ->]; discriminate.
  - destruct (tag =? 1); [| injection H as <-; discriminate].
    destruct (read_tuple_with 70 8 buf (S pos)) as [[vals i2] |] eqn:Er;
      cbn [bind] in H; [discriminate |].
    injection H as <-.
    destruct (read_tuple_errors _ _ _ _ _ Er) as [-> | ->]; discriminate.
Qed.

Lemma decode_body_fuel02 (fuel : nat) : forall buf i n ticks,
  (length buf - i < fuel)%nat ->
  Case02.decode_body fuel buf i n ticks <> Err OutOfFuel.
Proof.
  induction fuel as [| fuel IH]; intros buf i n ticks Hf; [lia |].
  cbn [Case02.decode_body].
  destruct (Z.of_nat (length ticks) <? n); [| discriminate].
  destruct (Case02.read_block buf i) as [[[[rle run] tup] i'] | e] eqn:Eb;
    cbn [bind].
  - apply read_block_advances in Eb. destruct rle; apply IH; lia.
  - apply read_block_errors in Eb. congruence.
Qed.

Lemma decode_star_fuel02 (buf : list Z) :
  Case02.decode_star buf <> Err OutOfFuel.
Proof.
  unfold Case02.decode_star.
  destruct (negb _); [discriminate |].
  destruct (Case02.varint_decode buf 6) as [[n i] |] eqn:E1; cbn [bind].
  - destruct (n =? 0); [discriminate |].
    destruct (read_tuple_with 70 8 buf i) as [[vals i2] |] eqn:E3; cbn [bind].
    + apply decode_body_fuel02. lia.
    + destruct (read_tuple_errors _ _ _ _ _ E3) as [-> | ->]; discriminate.
  - destruct (varint_loop_errors _ _ _ _ _ _ E1) as [-> | ->]; discriminate.
Qed.

Lemma index_loop_fuel02 (fuel : nat) : forall buf ae n row pos cur anchors,
  (length buf - pos < fuel)%nat ->
  Index02.index_loop fuel buf ae n row pos cur anchors <> Err OutOfFuel.
Proof.
  induction fuel as [| fuel IH]; intros buf ae n row pos cur anchors Hf; [lia |].
  cbn [Index02.index_loop].
  destruct (row <? n - 1); [| discriminate].
  destruct (Case02.read_block buf pos) as [[[[rle run] tup] pos'] | e] eqn:Eb;
    cbn [bind].
  - apply read_block_advances in Eb.
    destruct (if rle then Index02.index_run (Z.to_nat run) tup n cur row
              else (Case02.add_delta cur tup, row + 1)) as [cur' row'].
    apply IH. lia.
  - apply read_block_errors in Eb. congruence.
Qed.

Lemma skip_loop_fuel02 (fuel : nat) : forall buf seek row pos cur,
  (length buf - pos < fuel)%nat ->
  Replay02.skip_loop fuel buf seek row pos cur <> Err OutOfFuel.
Proof.
  induction fuel as [| fuel IH]; intros buf seek row pos cur Hf; [lia |].
  cbn [Replay02.skip_loop].
  destruct (row <? seek); [| discriminate].
  destruct (Case02.read_block buf pos) as [[[[rle run] tup] pos'] | e] eqn:Eb;
    cbn [bind].
  - apply read_block_advances in Eb.
    destruct (if rle then Replay02.skip_run (Z.to_nat run) tup seek cur row
              else (Case02.add_delta cur tup, row + 1)) as [cur' row'].
    apply IH. lia.
  - apply read_block_errors in Eb. congruence.
Qed.

Lemma emit_loop_fuel02 (fuel : nat) : forall buf target row pos cur out,
  (length buf - pos < fuel)%nat ->
  Replay02.emit_loop fuel buf target row pos cur out <> Err OutOfFuel.
Proof.
  induction fuel as [| fuel IH]; intros buf target row pos cur out Hf; [lia |].
  cbn [Replay02.emit_loop].
  destruct (row <? target - 1); [| discriminate].
  destruct (length buf <=? pos)%nat; [discriminate |].
  destruct (Case02.read_block buf pos) as [[[[rle run] tup] pos'] | e] eqn:Eb;
    cbn [bind].
  - apply read_block_advances in Eb.
    destruct (if rle then Replay02.emit_run (Z.to_nat run) tup target cur row out
              else (Case02.add_delta cur tup, row + 1,
                    out ++ [Case02.add_delta cur tup])) as [[cur' row'] out'].
    apply IH. lia.
  - apply read_block_errors in Eb. congruence.
Qed.

Lemma build_anchors_fuel02 (buf : list Z) (ae : Z) :
  Index02.build_anchors buf ae <> Err OutOfFuel.
Proof.
  unfold Index02.build_anchors.
  destruct (ae <=? 0); [discriminate |].
  destruct (negb _); [discriminate |].
  destruct (Case02.varint_decode buf 6) as [[n i] |] eqn:E1; cbn [bind].
  - destruct (n =? 0); [discriminate |].
    destruct (read_tuple_with 70 8 buf i) as [[vals i2] |] eqn:E3; cbn [bind].
    + pose proof (index_loop_fuel02 (S (length buf)) buf ae n 0 i2
                    (Case02.tick_of_fields vals)
                    [(0, i2, Case02.tick_of_fields vals)] ltac:(lia)) as Hl.
      destruct (Index02.index_loop _ buf ae n 0 i2 _ _); cbn [bind];
        [discriminate | intros E; injection E as ->; apply Hl; reflexivity].
    + destruct (read_tuple_errors _ _ _ _ _ E3) as [-> | ->]; discriminate.
  - destruct (varint_loop_errors _ _ _ _ _ _ E1) as [-> | ->]; discriminate.
Qed.

Lemma replay_loaded_fuel02 (buf : list Z) (nrows : Z)
      (anchors : list Index02.anchor) (seek_row : option Z) (rows : Z) :
  Replay02.replay_loaded buf nrows anchors seek_row rows <> Err OutOfFuel.
Proof.
  unfold Replay02.replay_loaded.
  destruct (nrows =? 0); [discriminate |].
  destruct (_ >=? nrows); [discriminate |].
  destruct (nth_error anchors _) as [[[a_row a_off] a_tick] |]; [| discriminate].
  match goal with
  | |- context [Replay02.skip_loop ?f buf ?s a_row a_off a_tick] =>
      pose proof (skip_loop_fuel02 f buf s a_row a_off a_tick ltac:(lia)) as Hs;
      destruct (Replay02.skip_loop f buf s a_row a_off a_tick)
        as [[[cur_row pos] cur] | e]; cbn [bind]
  end.
  - apply emit_loop_fuel02. lia.
  - intros E. injection E as ->. apply Hs. reflexivity.
Qed.

End LoopFuel.

(** * The claims of the format description *)

Section ZigZagLaw.
Import Prim.

(** Claim C4.  On the signed 64-bit domain [-2^63, 2^63) the ZigZag
    decoder inverts the encoder and the code lies in [0, 2^64); two
    values of the domain with the same code are equal; and every
    [u] in [0, 2^64) is the code of a value of the domain, namely of
    its decoding.  Together: a bijection onto [0, 2^64). *)
Theorem zigzag_law (x y u : Z) :
  - 2 ^ 63 <= x < 2 ^ 63 ->
  - 2 ^ 63 <= y < 2 ^ 63 ->
  0 <= u < 2 ^ 64 ->
  zigzag_decode (zigzag_encode x) = x
  /\ 0 <= zigzag_encode x < 2 ^ 64
  /\ (zigzag_encode x = zigzag_encode y -> x = y)
  /\ - 2 ^ 63 <= zigzag_decode u < 2 ^ 63
  /\ zigzag_encode (zigzag_decode u) = u.
Proof.
  intros Hx Hy Hu.
  split; [apply zigzag_roundtrip, Hx |].
  split; [apply zigzag_encode_range, Hx |].
  split.
  - intros E. rewrite <- (zigzag_roundtrip x Hx), <- (zigzag_roundtrip y Hy), E.
    reflexivity.
  - split; [apply zigzag_decode_range, Hu | apply zigzag_roundtrip_inv, Hu].
Qed.

Lemma zigzag_law_witness :
  zigzag_decode (zigzag_encode (-3)) = -3
  /\ 0 <= zigzag_encode (-3) < 2 ^ 64
  /\ (zigzag_encode (-3) = zigzag_encode 5 -> -3 = 5)
  /\ - 2 ^ 63 <= zigzag_decode 7 < 2 ^ 63
  /\ zigzag_encode (zigzag_decode 7) = 7.
Proof. apply (zigzag_law (-3) 5 7); lia. Defined.

End ZigZagLaw.

Section VarintWriter.
Import Prim Samples.

(** Claim C10.  The Case-01 encoder hands [price_scale] to
    [varint_encode] as it is.  For the price scale -1 the loop of the
    writer returns for no number of iterations, so the encoder, run on
    a single bar with that price scale, does not return. *)
Theorem encode_star_negative_price_scale :
  (forall fuel out, varint_encode_loop fuel (-1) out = None)
  /\ Case01.encode_star [bar1] (-1) = None.
Proof.
  split.
  - intros fuel out. apply varint_encode_loop_neg. lia.
  - apply encode_star_diverges. lia.
Qed.

End VarintWriter.

Section VarintReader.
Import Prim Samples.

(** Claim C5.  On a varint of eleven bytes (ten continuation bytes and
    a final byte) the Case-02 reader, whose bound is [shift > 70],
    succeeds: it returns 2^70 and the position 11.  The readers of
    Case-01 and Case-04, whose bound is [shift > 63], reject the same
    bytes as too long. *)
Theorem varint_decode_eleven_bytes :
  Case02.varint_decode eleven_bytes 0 = OK (2 ^ 70, 11%nat)
  /\ Case01.varint_decode eleven_bytes 0 = Err Overlong
  /\ Case04.read_uvarint eleven_bytes 0 = Err Overlong.
Proof. repeat split; vm_compute; reflexivity. Qed.

End VarintReader.

Section RowCount.
Import Prim Samples.

(** Claim C3.  The Case-01 decoder stops only between blocks: on a
    body whose header announces two rows and whose single tag-0 block
    has a run of five, it succeeds and returns six rows. *)
Theorem decode_star_run_past_n :
  exists bars price_scale,
    Case01.decode_star overrun01 = OK (bars, (2, price_scale))
    /\ length bars = 6%nat.
Proof. eexists. eexists. split; vm_compute; reflexivity. Qed.

End RowCount.

Section IndexPairing.
Import Prim Samples.

(** Claim C7.  The Case-02 replay never reads the row count of the
    STAR header.  Given the file of the single tick [tick1] and the
    index built over the file of [tick1; tick2] (two rows, anchors at
    rows 0 and 1), a seek to row 1 fails nowhere and returns [tick2],
    a row the STAR file does not hold. *)
Theorem replay_seek_ignores_row_count :
  exists blob other idx anchors,
    Case02.encode_star [tick1] = Some blob
    /\ Case02.varint_decode blob 6 = OK (1, 7%nat)
    /\ Case02.encode_star [tick1; tick2] = Some other
    /\ Index02.build_index other 1 = OK idx
    /\ Replay02.load_index idx = OK (1, 2, anchors)
    /\ Replay02.replay_seek blob idx (Some 1) 1 = OK [tick2].
Proof.
  eexists. eexists. eexists. eexists.
  repeat split; vm_compute; reflexivity.
Qed.

End IndexPairing.

Section RoundTrip.
Import Prim Wire Samples.

(** Claim C1.  The round trip of Case-01 fails on two bars whose
    volumes are the least and the greatest signed 64-bit integer: the
    delta leaves the ZigZag domain, the encoder and the decoder both
    succeed, and the decoder returns another second bar than the one
    encoded. *)
Lemma roundtrip_counterexample :
  exists blob bars meta,
    Case01.encode_star [bar_low; bar_high] 100 = Some blob
    /\ Case01.decode_star blob = OK (bars, meta)
    /\ bars <> [bar_low; bar_high].
Proof.
  eexists. eexists. eexists.
  split; [vm_compute; reflexivity |].
  split; [vm_compute; reflexivity |].
  intros H.
  apply (f_equal (fun l => Z.sgn (Case01.v (last l bar_low)))) in H.
  vm_compute in H. discriminate H.
Qed.

(** Property X25.  The decoder returns the rows the encoder was
    given: for Case-01 when the fields of the first bar and every
    field-wise delta between consecutive bars lie in [-2^63, 2^63),
    the price scale is not negative, and price scale and row count
    are below 2^70; for Case-02 under the same conditions on the
    ticks, with a row count below 2^77; for Case-04 when there are
    fewer than 2^32 rows, every field is a str that UTF-8 encodes (it
    holds no lone surrogate), every literal field has fewer than 2^70
    bytes and every dictionary value fewer than 2^32 bytes.  The
    empty list is included in each case. *)
Theorem roundtrip_in_range (bars : list Case01.Bar) (price_scale : Z)
        (ticks : list Case02.AirTick) (rows : list Case04.Row) :
  Blocks01.bars_in_range bars ->
  Z.of_nat (length bars) < 2 ^ 70 ->
  0 <= price_scale < 2 ^ 70 ->
  Blocks02.ticks_in_range ticks ->
  Z.of_nat (length ticks) < 2 ^ 77 ->
  Z.of_nat (length rows) < 2 ^ 32 ->
  Forall Wire04.row_fits rows ->
  (exists blob meta,
      Case01.encode_star bars price_scale = Some blob
      /\ Case01.decode_star blob = OK (bars, meta))
  /\ (exists blob,
         Case02.encode_star ticks = Some blob
         /\ Case02.decode_star blob = OK ticks)
  /\ (exists blob,
         Case04.encode_case04 rows = OK blob
         /\ Case04.decode_case04 blob = OK rows).
Proof.
  intros Hb Hnb Hps Ht Hnt Hnr Hr.
  split; [apply roundtrip01; assumption |].
  split; [apply roundtrip02; assumption | apply roundtrip04; assumption].
Qed.

Lemma roundtrip_in_range_witness :
  (exists blob meta,
      Case01.encode_star [bar1; bar2] 100 = Some blob
      /\ Case01.decode_star blob = OK ([bar1; bar2], meta))
  /\ (exists blob,
         Case02.encode_star [tick1; tick2] = Some blob
         /\ Case02.decode_star blob = OK [tick1; tick2])
  /\ (exists blob,
         Case04.encode_case04 [row1; row2] = OK blob
         /\ Case04.decode_case04 blob = OK [row1; row2]).
Proof.
  apply (roundtrip_in_range [bar1; bar2] 100 [tick1; tick2] [row1; row2]).
  - in_range.
  - cbn. lia.
  - lia.
  - in_range.
  - cbn. lia.
  - cbn. lia.
  - apply Forall_cons; [apply row_fitsb_spec; vm_compute; reflexivity |].
    apply Forall_cons; [apply row_fitsb_spec; vm_compute; reflexivity |].
    apply Forall_nil.
Defined.

End RoundTrip.

Section ReplayEquivalence.
Import Prim Wire Samples.




End ReplayEquivalence.

Section AnchorBoundary.
Import Prim Wire Samples.

(** Claim C8, as stated, fails for the anchor that the Case-01 index
    builder appends for the last row: its byte offset is the length of
    the blob, where there is no byte at all.  (The Case-02 builder
    records such an anchor whenever the last row is a multiple of
    anchor_every.) *)
Lemma anchor_at_end_counterexample :
  exists blob n anchors row off cur,
    Case01.encode_star [bar1; bar1; bar1; bar1] 100 = Some blob
    /\ Index01.build_index blob 2 = OK (n, anchors)
    /\ In (row, off, cur) anchors
    /\ ~ tag_at blob off.
Proof.
  exists (Blocks01.encoded bar1 [bar1; bar1; bar1] 100), 4,
    [(0, 18%nat, bar1); (3, 26%nat, bar1)], 3, 26%nat, bar1.
  split; [vm_compute; reflexivity |].
  split; [vm_compute; reflexivity |].
  split; [right; left; reflexivity |].
  unfold tag_at. vm_compute. intros [H | H]; discriminate H.
Qed.

(** Claim C8, amended.  Every anchor of an index built over an
    encoder-produced blob stands at a block boundary of the body: its
    byte offset is reached from the start of the body by decoding
    whole blocks.  That offset holds a tag byte (0x00 or 0x01), unless
    it is the end of the blob, which happens only for an anchor at
    the last row (or in an empty file). *)
Theorem anchor_boundary
        (bars : list Case01.Bar) (price_scale every1 n1 : Z) (blob1 : list Z)
        (anchors1 : list Index01.anchor) (row1 : Z) (off1 : nat)
        (cur1 : Case01.Bar)
        (ticks : list Case02.AirTick) (every2 every2' n2 : Z)
        (blob2 idx : list Z) (anchors2 : list Index02.anchor) (row2 : Z)
        (off2 : nat) (cur2 : Case02.AirTick) :
  Case01.encode_star bars price_scale = Some blob1 ->
  Index01.build_index blob1 every1 = OK (n1, anchors1) ->
  In (row1, off1, cur1) anchors1 ->
  Case02.encode_star ticks = Some blob2 ->
  Index02.build_index blob2 every2 = OK idx ->
  Replay02.load_index idx = OK (every2', n2, anchors2) ->
  In (row2, off2, cur2) anchors2 ->
  (exists hdr body,
      Index01.parse_star1_header blob1 = OK (hdr, body)
      /\ Boundary01.block_start blob1 body off1
      /\ (tag_at blob1 off1
          \/ (off1 = length blob1 /\ (row1 = n1 - 1 \/ n1 = 0))))
  /\ (exists body,
         Boundary02.body_start blob2 = OK body
         /\ Boundary02.block_start blob2 body off2
         /\ (tag_at blob2 off2
             \/ (off2 = length blob2 /\ (row2 = n2 - 1 \/ n2 = 0)))).
Proof.
  intros E1 I1 A1 E2 I2 L2 A2. split.
  - exact (anchor_boundary01 bars price_scale every1 n1 blob1 anchors1
             row1 off1 cur1 E1 I1 A1).
  - exact (anchor_boundary02 ticks every2 every2' n2 blob2 idx anchors2
             row2 off2 cur2 E2 I2 L2 A2).
Qed.

Lemma anchor_boundary_witness :
  (exists hdr body,
      Index01.parse_star1_header star1 = OK (hdr, body)
      /\ Boundary01.block_start star1 body 33
      /\ (tag_at star1 33
          \/ (33%nat = length star1 /\ (2 = 4 - 1 \/ 4 = 0))))
  /\ (exists body,
         Boundary02.body_start star2 = OK body
         /\ Boundary02.block_start star2 body 24
         /\ (tag_at star2 24
             \/ (24%nat = length star2 /\ (1 = 3 - 1 \/ 3 = 0)))).
Proof.
  apply (anchor_boundary
           [bar1; bar2; bar2; bar1] 100 2 4 star1
           [(0, 18%nat, bar1); (2, 33%nat, bar2); (3, 41%nat, bar1)]
           2 33%nat bar2
           [tick1; tick2; tick2] 1 1 3 star2 index2
           [(0, 15%nat, tick1); (1, 24%nat, tick2); (2, 33%nat, tick2)]
           1 24%nat tick2).
  - vm_compute. reflexivity.
  - vm_compute. reflexivity.
  - right. left. reflexivity.
  - vm_compute. reflexivity.
  - vm_compute. reflexivity.
  - vm_compute. reflexivity.
  - right. left. reflexivity.
Defined.

End AnchorBoundary.

Section GreedyBlocks.
Import Prim Wire Greedy Samples.

(* On 10,000,002 equal ticks, that is on 10,000,001 equal deltas, the
   Case-02 encoder writes one tag-0 block whose run is 10,000,001; the
   loop of Case-01, on the same deltas, stops the run at 10,000,000
   and writes the last delta as a literal. *)
Lemma encode_body_run_above_cap :
  Case02.encode_body (length (repeat Case02.tick0 (Z.to_nat 10000001)))
                     Case02.tick0 (repeat Case02.tick0 (Z.to_nat 10000001))
  = Some ([0] ++ venc 10000001 ++ repeat 0 8)
  /\ Case01.encode_body
       (length (repeat Case02.tick0 (Z.to_nat 10000001)))
       (Blocks02.deltas_from Case02.tick0
          (repeat Case02.tick0 (Z.to_nat 10000001)))
     = Some ([0] ++ venc 10000000 ++ repeat 0 8 ++ [1] ++ repeat 0 8).
Proof.
  assert (HN : Z.of_nat (Z.to_nat 10000001) = 10000001) by (apply Z2Nat.id; lia).
  remember (Z.to_nat 10000001) as N eqn:EN. clear EN.
  rewrite repeat_length.
  rewrite encode_body_blocks02 by (rewrite repeat_length; lia).
  rewrite blocks02_greedy by (rewrite repeat_length; lia).
  rewrite encode_body_blocks
    by (rewrite deltas_from_length02, repeat_length; lia).
  rewrite blocks01_greedy, deltas_from_repeat02.
  destruct N as [| [| N]]; [lia | lia |].
  rewrite greedy_uncapped_repeat by lia.
  rewrite (greedy_capped_repeat _ Case01.RUN_CAP)
    by (unfold Case01.RUN_CAP; lia).
  rewrite HN. split; vm_compute; reflexivity.
Qed.

(** Claim C6.  On 10,000,002 equal ticks the body that the Case-02
    encoder writes is not the one of the greedy scheme with the run
    capped at 10,000,000, which the Case-01 encoder follows: its
    inner loop has no bound on the run, and it writes a single block
    of run 10,000,001. *)
Lemma run_cap_counterexample :
  Case02.encode_body (length (repeat Case02.tick0 (Z.to_nat 10000001)))
                     Case02.tick0 (repeat Case02.tick0 (Z.to_nat 10000001))
  <> Some (ser_blocks
             (greedy (length (repeat Case02.tick0 (Z.to_nat 10000001)))
                     (Some 10000000)
                     (Blocks02.deltas_from Case02.tick0
                        (repeat Case02.tick0 (Z.to_nat 10000001))))).
Proof.
  assert (HN : Z.of_nat (Z.to_nat 10000001) = 10000001) by (apply Z2Nat.id; lia).
  remember (Z.to_nat 10000001) as N eqn:EN. clear EN.
  rewrite repeat_length.
  rewrite encode_body_blocks02 by (rewrite repeat_length; lia).
  rewrite blocks02_greedy by (rewrite repeat_length; lia).
  rewrite deltas_from_repeat02.
  destruct N as [| [| N]]; [lia | lia |].
  rewrite greedy_uncapped_repeat by lia.
  rewrite (greedy_capped_repeat _ 10000000) by lia.
  rewrite HN. vm_compute. discriminate.
Qed.

(** Property X26.  The body written by the Case-02 encoder is the
    greedy block scheme over the 8-tuple deltas, with the run
    threshold r >= 3 of Case-01 and no cap on the run: at each
    position the maximal run of equal consecutive deltas, one tag-0
    block when r >= 3 and tag-1 literals otherwise.  The body written
    by the Case-01 loop is the same scheme with the run capped at
    10,000,000, and on a tick list with at most 10,000,000 deltas the
    two bodies are the same bytes. *)
Theorem case02_greedy_without_cap (base : Case02.AirTick)
        (rest : list Case02.AirTick) :
  Case02.encode_body (length rest) base rest
  = Some (ser_blocks (greedy (length rest) None
                             (Blocks02.deltas_from base rest)))
  /\ Case01.encode_body (length rest) (Blocks02.deltas_from base rest)
     = Some (ser_blocks (greedy (length rest) (Some 10000000)
                                (Blocks02.deltas_from base rest)))
  /\ (Z.of_nat (length rest) <= 10000000 ->
      Case02.encode_body (length rest) base rest
      = Case01.encode_body (length rest) (Blocks02.deltas_from base rest)).
Proof.
  assert (H2 : Case02.encode_body (length rest) base rest
               = Some (ser_blocks (greedy (length rest) None
                                          (Blocks02.deltas_from base rest)))).
  { rewrite encode_body_blocks02, blocks02_greedy by lia. reflexivity. }
  assert (H1 : Case01.encode_body (length rest) (Blocks02.deltas_from base rest)
               = Some (ser_blocks (greedy (length rest) (Some 10000000)
                                          (Blocks02.deltas_from base rest)))).
  { rewrite encode_body_blocks by (rewrite deltas_from_length02; lia).
    rewrite blocks01_greedy. reflexivity. }
  split; [exact H2 |]. split; [exact H1 |].
  intros Hlen. rewrite H1, H2, greedy_cap_unused; [reflexivity |].
  rewrite deltas_from_length02. exact Hlen.
Qed.

Lemma case02_greedy_without_cap_witness :
  Z.of_nat (length [tick2; tick2; tick2; tick2; tick1]) <= 10000000
  /\ Case02.encode_body 5 tick1 [tick2; tick2; tick2; tick2; tick1]
     = Case01.encode_body 5 (Blocks02.deltas_from
                               tick1 [tick2; tick2; tick2; tick2; tick1]).
Proof.
  split; [cbn; lia |].
  apply (case02_greedy_without_cap tick1 [tick2; tick2; tick2; tick2; tick1]).
  cbn. lia.
Defined.

End GreedyBlocks.

Section Binding0304.
Import Prim ReplayIdx Binding Samples Samples2.




End Binding0304.

(** * Row counts of the decoders *)

Section RowCounts.
Import Prim Struct.

Lemma append_run_prefix01 (k : nat) (tup : list Z) : forall bars,
  exists more, Case01.append_run k tup bars = bars ++ more.
Proof.
  induction k as [| k IH]; intros bars; cbn [Case01.append_run].
  - exists []. symmetry. apply app_nil_r.
  - destruct (IH (bars ++ [Case01.add_delta (last bars Case01.bar0) tup]))
      as [more E].
    rewrite E, <- app_assoc. eexists. reflexivity.
Qed.

(* The Case-01 loop stops only once it holds n rows or more, and it
   never drops or changes a row it holds. *)
Lemma decode_body_atleast01 (fuel : nat) : forall buf i n bars r,
  Case01.decode_body fuel buf i n bars = OK r ->
  n <= Z.of_nat (length r) /\ exists more, r = bars ++ more.
Proof.
  induction fuel as [| fuel IH]; intros buf i n bars r H.
  - cbn [Case01.decode_body] in H.
    destruct (Z.ltb_spec (Z.of_nat (length bars)) n) as [L | G]; [discriminate |].
    apply OK_inj in H. subst r. split; [lia |].
    exists []. symmetry. apply app_nil_r.
  - rewrite decode_body_step in H.
    destruct (Z.ltb_spec (Z.of_nat (length bars)) n) as [L | G].
    + destruct (Index01.decode_block buf i) as [[[tup run] i'] | e];
        cbn [bind] in H; [| discriminate].
      apply IH in H. destruct H as (H1 & more & H2).
      split; [exact H1 |].
      destruct (append_run_prefix01 (Z.to_nat run) tup bars) as [m1 E1].
      rewrite E1, <- app_assoc in H2. eexists. exact H2.
    + apply OK_inj in H. subst r. split; [lia |].
      exists []. symmetry. apply app_nil_r.
Qed.

Lemma decode_star_atleast01 (buf : list Z) (bars : list Case01.Bar)
      (meta : Z * option Z) :
  Case01.decode_star buf = OK (bars, meta) ->
  exists n i,
    Case01.varint_decode buf 5 = OK (n, i)
    /\ fst meta = n
    /\ n <= Z.of_nat (length bars)
    /\ (n = 0 -> bars = [])
    /\ (n <> 0 ->
        exists price_scale i1 base i2 more,
          Case01.varint_decode buf i = OK (price_scale, i1)
          /\ snd meta = Some price_scale
          /\ read_tuple_with 63 6 buf i1 = OK (base, i2)
          /\ bars = Case01.bar_of_fields base :: more).
Proof.
  unfold Case01.decode_star. intros H.
  destruct (negb _); [discriminate |].
  destruct (Case01.varint_decode buf 5) as [[n i] |]; cbn [bind] in H;
    [| discriminate].
  exists n, i. split; [reflexivity |].
  destruct (Z.eqb_spec n 0) as [E | NE].
  - apply OK_inj, pair_inj in H. destruct H as [<- <-].
    subst n. cbn. repeat split; try lia.
  - destruct (Case01.varint_decode buf i) as [[ps i1] |] eqn:E1; cbn [bind] in H;
      [| discriminate].
    destruct (read_tuple_with 63 6 buf i1) as [[base i2] |] eqn:E2;
      cbn [bind] in H; [| discriminate].
    destruct (Case01.decode_body _ buf i2 n _) as [r |] eqn:Er; cbn [bind] in H;
      [| discriminate].
    apply OK_inj, pair_inj in H. destruct H as [<- <-].
    apply decode_body_atleast01 in Er. destruct Er as (Hn & more & ->).
    cbn [fst snd]. split; [reflexivity |]. split; [exact Hn |].
    split; [intros C; contradiction |].
    intros _. exists ps, i1, base, i2, more.
    split; [reflexivity |]. split; [reflexivity |].
    split; [exact E2 | reflexivity].
Qed.

Lemma read_rows_length04 (count : nat) (dicts : list (list Case04.str)) :
  forall blob pos rows,
    Case04.read_rows count dicts blob pos = OK rows -> length rows = count.
Proof.
  induction count as [| count IH]; intros blob pos rows H.
  - cbn in H. apply OK_inj in H. subst rows. reflexivity.
  - cbn [Case04.read_rows] in H.
    destruct (Case04.read_row dicts blob pos) as [[row pos'] |]; cbn [bind] in H;
      [| discriminate].
    destruct (Case04.read_rows count dicts blob pos') as [more |] eqn:Em;
      cbn [bind] in H; [| discriminate].
    apply OK_inj in H. subst rows. cbn [length]. f_equal. eapply IH. exact Em.
Qed.

Lemma decode_case04_count (blob : list Z) (rows : list Case04.Row) :
  Case04.decode_case04 blob = OK rows ->
  (16 <= length blob)%nat
  /\ firstn 8 blob = Case04.MAGIC8
  /\ le_value (firstn 4 (skipn 12 blob)) = 12
  /\ length rows = Z.to_nat (le_value (firstn 4 (skipn 8 blob))).
Proof.
  unfold Case04.decode_case04. intros H.
  destruct (Nat.ltb_spec (length blob) 16) as [L | G]; [discriminate |].
  destruct (tuple_eqb (firstn 8 blob) Case04.MAGIC8) eqn:Em; [| discriminate].
  cbn [negb] in H. apply tuple_eqb_eq in Em.
  unfold unpack_unsigned in H.
  destruct (Nat.leb_spec (8 + 4) (length blob)); [| lia]. cbn [bind] in H.
  destruct (Nat.leb_spec (12 + 4) (length blob)); [| lia]. cbn [bind] in H.
  destruct (Z.eqb_spec (le_value (firstn 4 (skipn 12 blob))) 12) as [E12 | N];
    [| discriminate].
  cbn [negb] in H.
  destruct (Case04.read_dicts Case04.DICT_COLS blob 16) as [[dicts pos] |];
    cbn [bind] in H; [| discriminate].
  apply read_rows_length04 in H.
  repeat split; [exact G | exact Em | exact E12 | exact H].
Qed.

End RowCounts.

(** * The dictionaries of Case-04 *)

Section Dictionaries.
Import Prim Case04 Wire04.

Lemma build_dict_loop_nodup (col : dict_col) : forall rows uniq arr,
  dict_inv uniq arr -> NoDup arr ->
  NoDup (snd (build_dict_loop rows col uniq arr)).
Proof.
  induction rows as [| row rows IH]; intros uniq arr Hinv Hnd; [exact Hnd |].
  cbn [build_dict_loop].
  destruct (dict_get uniq (get_col col row)) as [i |] eqn:Eg.
  - apply IH; assumption.
  - apply IH.
    + apply dict_inv_extend; assumption.
    + pose proof (Hinv (get_col col row)) as Hv. rewrite Eg in Hv.
      apply NoDup_app; [exact Hnd | repeat constructor; intros [] |].
      intros x Hx [E | []]. subst x. exact (Hv Hx).
Qed.

Lemma build_dict_loop_prefix (col : dict_col) : forall rows uniq arr,
  exists more, snd (build_dict_loop rows col uniq arr) = arr ++ more.
Proof.
  induction rows as [| row rows IH]; intros uniq arr.
  - exists []. symmetry. apply app_nil_r.
  - cbn [build_dict_loop].
    destruct (dict_get uniq (get_col col row)); [apply IH |].
    destruct (IH ((get_col col row, Z.of_nat (length arr)) :: uniq)
                 (arr ++ [get_col col row])) as [more E].
    rewrite E, <- app_assoc. eexists. reflexivity.
Qed.

Lemma build_dict_loop_app (col : dict_col) : forall r1 r2 uniq arr,
  build_dict_loop (r1 ++ r2) col uniq arr
  = build_dict_loop r2 col (fst (build_dict_loop r1 col uniq arr))
                    (snd (build_dict_loop r1 col uniq arr)).
Proof.
  induction r1 as [| row r1 IH]; intros r2 uniq arr; [reflexivity |].
  cbn [app build_dict_loop].
  destruct (dict_get uniq (get_col col row)); apply IH.
Qed.

(* The dictionary of a column: no value twice, exactly the values of the
   column, each mapped to its position. *)
Lemma build_dict_dictionary (rows : list Row) (col : dict_col) :
  NoDup (snd (build_dict rows col))
  /\ (forall s, In s (snd (build_dict rows col))
                <-> exists row, In row rows /\ get_col col row = s)
  /\ (forall v i, dict_get (fst (build_dict rows col)) v = Some i
                  <-> 0 <= i
                      /\ nth_error (snd (build_dict rows col)) (Z.to_nat i)
                         = Some v).
Proof.
  destruct (build_dict_spec rows col) as (Hinv & Hpres & _ & Hfrom).
  unfold dict_of in *.
  assert (Hnd : NoDup (snd (build_dict rows col))).
  { apply build_dict_loop_nodup; [apply dict_inv_nil | constructor]. }
  split; [exact Hnd |]. split.
  - intros s. split; [apply Hfrom |].
    intros (row & Hin & <-). specialize (Hpres row Hin).
    specialize (Hinv (get_col col row)).
    destruct (dict_get _ (get_col col row)) as [i |]; [| contradiction].
    destruct Hinv as [_ Hn]. eapply nth_error_In. exact Hn.
  - intros v i. split.
    + intros E. specialize (Hinv v). rewrite E in Hinv. exact Hinv.
    + intros [Hi Hn]. pose proof (Hinv v) as Hv.
      destruct (dict_get _ v) as [j |].
      * destruct Hv as [Hj Hnj]. f_equal.
        assert (Z.to_nat j = Z.to_nat i); [| lia].
        apply (proj1 (NoDup_nth_error _) Hnd).
        -- apply nth_error_Some. congruence.
        -- congruence.
      * exfalso. apply Hv. eapply nth_error_In. exact Hn.
Qed.

(* Rows that follow never move an entry: the dictionary of a longer
   list extends that of its prefix. *)
Lemma build_dict_extends (r1 r2 : list Row) (col : dict_col) :
  exists more,
    snd (build_dict (r1 ++ r2) col) = snd (build_dict r1 col) ++ more.
Proof.
  unfold build_dict. rewrite build_dict_loop_app. apply build_dict_loop_prefix.
Qed.

End Dictionaries.

(** * The anchor list of an index, as a whole *)

Section BoundaryLists.
Import Wire.
Context {R : Type} (step : R -> list Z -> R).

Lemma sorted_map_S (js : list nat) :
  StronglySorted lt js -> StronglySorted lt (map S js).
Proof.
  induction 1 as [| j js _ IH Hj]; cbn; constructor; [exact IH |].
  apply Forall_map. eapply Forall_impl; [| exact Hj]. cbn. intros; lia.
Qed.

Lemma sorted_snoc (js : list nat) (m : nat) :
  StronglySorted lt js -> Forall (fun j => j < m)%nat js ->
  StronglySorted lt (js ++ [m]).
Proof.
  induction 1 as [| j js _ IH Hj]; intros Hm; cbn.
  - repeat constructor.
  - apply Forall_cons_iff in Hm. destruct Hm as [Hjm Hm].
    constructor; [apply IH, Hm |].
    apply Forall_app. split; [exact Hj | repeat constructor; exact Hjm].
Qed.

Lemma last_map_ne {A B : Type} (f : A -> B) (l : list A) (d : A) (e : B) :
  l <> [] -> last (map f l) e = f (last l d).
Proof.
  induction l as [| x l IH]; intros Hne; [contradiction |].
  destruct l as [| y l]; [reflexivity |].
  cbn [map last] in *. apply IH. discriminate.
Qed.

Lemma last_In {A : Type} (l : list A) (d : A) : l <> [] -> In (last l d) l.
Proof.
  induction l as [| x l IH]; intros Hne; [contradiction |].
  destruct l as [| y l]; [left; reflexivity |].
  right. apply IH. discriminate.
Qed.

(* Rows of boundaries grow with the number of blocks passed. *)
Lemma boundary_rows_sorted (w : nat) (row0 : Z) (pos0 : nat) (cur0 : R)
      (bs : list block) (js : list nat) :
  Forall (well_formed w) bs ->
  StronglySorted lt js ->
  Forall (fun j => j <= length bs)%nat js ->
  StronglySorted (fun a b : Z * nat * R => fst (fst a) < fst (fst b))
                 (map (boundary step row0 pos0 cur0 bs) js).
Proof.
  intros Hwf Hs. induction Hs as [| j js _ IH Hj]; intros Hr; [constructor |].
  apply Forall_cons_iff in Hr. destruct Hr as [Hjr Hr].
  cbn [map]. constructor; [apply IH, Hr |].
  apply Forall_map. apply Forall_forall. intros j' Hin.
  rewrite Forall_forall in Hj, Hr.
  unfold boundary. cbn [fst].
  pose proof (flatten_firstn_mono w bs Hwf j j' (Hj _ Hin) (Hr _ Hin)). lia.
Qed.

(* The snapshot of a boundary is the row of the decode at its row number. *)
Lemma boundary_snapshot (base : R) (pos0 : nat) (bs : list block) (j : nat)
      (row : Z) (off : nat) (cur : R) :
  (row, off, cur) = boundary step 0 pos0 base bs j ->
  nth_error (base :: scan step base (map dec_tuple (flatten bs))) (Z.to_nat row)
  = Some cur
  /\ 0 <= row <= Z.of_nat (length (flatten bs)).
Proof.
  unfold boundary. intros E.
  apply pair_inj in E. destruct E as [E ->].
  apply pair_inj in E. destruct E as [-> _].
  rewrite Z.add_0_l, Nat2Z.id. split.
  - pose proof (skipn_scan_boundary step base bs j) as Hs.
    apply (f_equal (fun l => nth_error l 0)) in Hs.
    rewrite nth_error_skipn, Nat.add_0_r in Hs. exact Hs.
  - split; [lia |]. apply inj_le.
    rewrite <- (firstn_skipn j bs) at 2. rewrite flatten_app, length_app. lia.
Qed.

End BoundaryLists.

Section Anchors01Whole.
Import Prim Wire Case01 Blocks01 Index01.

(* The loop of the builder, with the order of what it appends. *)
Lemma index_loop_sorted01 (bs : list block) :
  forall fuel buf ae n row pos cur anchors r,
    Forall (well_formed 6) bs ->
    skipn pos buf = ser_blocks bs ->
    row + Z.of_nat (length (flatten bs)) = n - 1 ->
    index_loop fuel buf ae n row pos cur anchors = OK r ->
    exists js,
      r = (n - 1, (pos + length (ser_blocks bs))%nat,
           last (scan add_delta cur (map dec_tuple (flatten bs))) cur,
           anchors ++ map (boundary add_delta row pos cur bs) js)
      /\ StronglySorted lt js
      /\ Forall (fun j => j < length bs)%nat js
      /\ (row = 0 -> anchors <> [] -> last_row anchors = 0 ->
          Forall (fun j => 1 <= j)%nat js).
Proof.
  induction bs as [| b bs IH]; intros fuel buf ae n row pos cur anchors r
                                      Hwf Hbuf Hn Hrun.
  - cbn in Hn. destruct fuel; cbn [index_loop] in Hrun;
      (destruct (Z.ltb_spec row (n - 1)); [lia |]);
      injection Hrun as <-; exists [];
      cbn; rewrite app_nil_r, Nat.add_0_r;
      (split; [repeat f_equal; lia |]); repeat split; constructor.
  - apply Forall_cons_iff in Hwf. destruct Hwf as [Hb Hbs].
    pose proof Hb as [Hrows _].
    rewrite flatten_length_cons in Hn.
    destruct fuel as [| fuel]; cbn [index_loop] in Hrun;
      (destruct (Z.ltb_spec row (n - 1)); [| lia]); [discriminate |].
    destruct (ae =? 0); [discriminate |].
    rewrite ser_blocks_cons in Hbuf.
    pose proof (skipn_app_length pos buf _ _ Hbuf) as Hlen.
    assert (Hne : ser_block b <> []).
    { pose proof (ser_block_length_pos b).
      destruct (ser_block b); [cbn in *; lia | discriminate]. }
    specialize (Hlen Hne).
    rewrite (decode_block_ser b buf _ pos Hb Hbuf) in Hrun.
    destruct (block_fits 10 b) eqn:Efit; cbn [bind] in Hrun; [| discriminate].
    rewrite apply_run_scan in Hrun by lia.
    destruct (Nat.ltb_spec (length buf) (pos + length (ser_block b))); [lia |].
    apply skipn_app_exact in Hbuf.
    match type of Hrun with
    | index_loop _ _ _ _ _ _ _ ?anch = _ => set (anchors1 := anch) in Hrun
    end.
    assert (Hanch : exists e0 : list nat,
              anchors1 = anchors ++ map (boundary add_delta row pos cur (b :: bs)) e0
              /\ (e0 = [] \/ e0 = [0%nat])
              /\ (row = 0 -> anchors <> [] -> last_row anchors = 0 -> e0 = [])).
    { subst anchors1.
      destruct (row mod ae =? 0);
        [| exists []; cbn; rewrite app_nil_r; auto].
      destruct (Z.eqb_spec row 0) as [E0 | N0].
      - destruct anchors as [| a0 anchors'].
        + cbn. exists [0%nat]. cbn [map]. rewrite boundary_0.
          split; [reflexivity |]. split; [auto |]. intros _ C. contradiction.
        + cbn [length Nat.eqb negb andb].
          destruct (Z.eqb_spec (last_row (a0 :: anchors')) 0) as [E1 | N1].
          * cbn [negb]. exists []. cbn. rewrite app_nil_r. auto.
          * cbn [negb]. exists [0%nat]. cbn [map]. rewrite boundary_0.
            split; [reflexivity |]. split; [auto |]. intros _ _ C. contradiction.
      - cbn [andb negb]. exists [0%nat]. cbn [map]. rewrite boundary_0.
        split; [reflexivity |]. split; [auto |]. intros C. contradiction. }
    destruct Hanch as (e0 & -> & He0 & Hdup).
    apply IH in Hrun; [| exact Hbs | exact Hbuf | lia].
    destruct Hrun as (js & -> & Hsorted & Hrange & _).
    exists (e0 ++ map S js).
    assert (Hmap : map (boundary add_delta
                          (row + Z.of_nat (Z.to_nat (rows_of b)))
                          (pos + length (ser_block b))
                          (last (scan add_delta cur
                                   (repeat (dec_tuple (b_tup b))
                                           (Z.to_nat (rows_of b)))) cur) bs) js
                   = map (boundary add_delta row pos cur (b :: bs)) (map S js)).
    { rewrite map_map. apply map_ext. intros j. apply boundary_S. }
    split.
    + rewrite Hmap, map_app, <- !app_assoc.
      rewrite ser_blocks_cons, length_app, flatten_cons, map_app, map_repeat,
        scan_app, last_app_default, Nat.add_assoc.
      reflexivity.
    + split; [| split].
      * destruct He0 as [-> | ->]; cbn [app]; [apply sorted_map_S, Hsorted |].
        constructor; [apply sorted_map_S, Hsorted |].
        apply Forall_map. apply Forall_forall. intros; lia.
      * apply Forall_app. split.
        -- destruct He0 as [-> | ->]; [constructor |].
           constructor; [cbn [length]; lia | constructor].
        -- apply Forall_map. eapply Forall_impl; [| exact Hrange].
           cbn [length]. intros; lia.
      * intros Hr0 Hne0 Hl0. rewrite (Hdup Hr0 Hne0 Hl0). cbn [app].
        apply Forall_map. apply Forall_forall. intros; lia.
Qed.

(* The anchors of an encoded file: boundaries in increasing order, from
   the start of the body to its end. *)
Lemma build_index_sorted01 (b0 : Bar) (rest : list Bar) (ps ae n : Z)
      (anchors : list anchor) :
  0 <= ps ->
  build_index (encoded b0 rest ps) ae = OK (n, anchors) ->
  let bs := body_blocks b0 rest in
  let body := length (header (Z.of_nat (S (length rest))) ps b0) in
  exists js,
    anchors = map (boundary add_delta 0 body (base_of b0) bs)
                  (0%nat :: js ++ if Nat.eqb (length bs) 0 then []
                                  else [length bs])
    /\ StronglySorted lt (0%nat :: js ++ if Nat.eqb (length bs) 0 then []
                                         else [length bs])
    /\ Forall (fun j => j <= length bs)%nat
              (0%nat :: js ++ if Nat.eqb (length bs) 0 then []
                              else [length bs]).
Proof.
  intros Hps Hrun bs body. unfold build_index in Hrun.
  unfold encoded in Hrun at 1. rewrite parse_header_encoded in Hrun by lia.
  fold (encoded b0 rest ps) in Hrun.
  destruct (header_fits (Z.of_nat (S (length rest))) ps b0) eqn:Ehdr;
    cbn [bind] in Hrun; [| discriminate].
  destruct (Z.eqb_spec (Z.of_nat (S (length rest))) 0) as [E | _]; [lia |].
  fold body in Hrun.
  destruct (index_loop _ _ ae _ 0 body (base_of b0) _)
    as [[[[row pos] cur] anchors'] | e] eqn:Eloop; cbn [bind] in Hrun;
    [| discriminate].
  assert (Hwf : Forall (well_formed 6) bs) by apply body_blocks_well_formed.
  assert (Hflat : Z.of_nat (length (flatten bs)) = Z.of_nat (S (length rest)) - 1).
  { subst bs. rewrite body_blocks_flatten, deltas_from_length. lia. }
  apply (index_loop_sorted01 bs) in Eloop;
    [| exact Hwf | apply skipn_encoded_body | lia].
  destruct Eloop as (js & Er & Hs & Hr & H1).
  specialize (H1 eq_refl ltac:(discriminate) eq_refl).
  apply pair_inj in Er. destruct Er as [Er ->].
  apply pair_inj in Er. destruct Er as [Er ->].
  apply pair_inj in Er. destruct Er as [-> ->].
  exists js.
  assert (Hb0 : [(0, body, base_of b0)]
                = map (boundary add_delta 0 body (base_of b0) bs) [0%nat]).
  { cbn [map]. rewrite boundary_0. reflexivity. }
  rewrite Hb0, <- map_app in Hrun. cbn [app] in Hrun.
  assert (Hsorted0 : StronglySorted lt (0%nat :: js)).
  { constructor; [exact Hs |]. eapply Forall_impl; [| exact H1]. cbn. intros; lia. }
  assert (Hlast : last_row (map (boundary add_delta 0 body (base_of b0) bs)
                                (0%nat :: js))
                  = Z.of_nat (length (flatten (firstn (last (0%nat :: js) 0%nat) bs)))).
  { unfold last_row.
    rewrite (last_map_ne (boundary add_delta 0 body (base_of b0) bs) _ 0%nat)
      by discriminate.
    unfold boundary. cbn [fst]. lia. }
  assert (Hlj : (last (0%nat :: js) 0%nat <= length bs)%nat
                /\ (bs <> [] -> last (0%nat :: js) 0%nat < length bs)%nat).
  { destruct js as [| j js'] eqn:Ejs.
    - cbn. split; [lia |]. intros Hne. destruct bs; [contradiction | cbn; lia].
    - assert (Hin : In (last (0%nat :: js) 0%nat) js).
      { subst js. change (last (0%nat :: j :: js') 0%nat) with (last (j :: js') 0%nat).
        apply last_In. discriminate. }
      rewrite Forall_forall in Hr. subst js. specialize (Hr _ Hin).
      split; [lia | intros _; exact Hr]. }
  destruct (Nat.eqb_spec (length bs) 0) as [E0 | N0].
  - (* a single row: no block, no trailing anchor *)
    destruct js as [| j js'];
      [| apply Forall_cons_iff in Hr; destruct Hr as [Hr _]; lia].
    assert (Ebs : bs = []) by (apply length_zero_iff_nil; exact E0).
    rewrite Ebs in Hflat.
    change (Z.of_nat (length (flatten []))) with 0 in Hflat.
    assert (Hl0 : last_row (map (boundary add_delta 0 body (base_of b0) bs)
                                [0%nat]) = 0)
      by (rewrite Hlast; reflexivity).
    rewrite Hl0 in Hrun.
    destruct (Z.eqb_spec 0 (Z.of_nat (S (length rest)) - 1)) as [_ | N]; [| lia].
    cbn [negb] in Hrun.
    apply OK_inj, pair_inj in Hrun. destruct Hrun as [_ <-].
    cbn [app]. split; [reflexivity |]. split; [repeat constructor |].
    constructor; [lia | constructor].
  - assert (Hne : bs <> []).
    { intros C. apply N0. rewrite C. reflexivity. }
    destruct Hlj as [_ Hlj]. specialize (Hlj Hne).
    pose proof (flatten_firstn_mono 6 bs Hwf _ (length bs) Hlj (le_n _)) as Hmono.
    rewrite firstn_all in Hmono.
    destruct (Z.eqb_spec (last_row (map (boundary add_delta 0 body (base_of b0) bs)
                                        (0%nat :: js)))
                         (Z.of_nat (S (length rest)) - 1)) as [E | _];
      [exfalso; rewrite Hlast in E; apply inj_lt in Hmono;
       rewrite Hflat, E in Hmono; apply (Z.lt_irrefl _ Hmono) |].
    cbn [negb] in Hrun.
    apply OK_inj, pair_inj in Hrun. destruct Hrun as [_ <-].
    split.
    + change (0%nat :: js ++ [length bs]) with ((0%nat :: js) ++ [length bs]).
      rewrite map_app. f_equal. cbn [map]. rewrite boundary_all.
      rewrite Z.add_0_l, Hflat. reflexivity.
    + split.
      * change (0%nat :: js ++ [length bs]) with ((0%nat :: js) ++ [length bs]).
        apply sorted_snoc; [exact Hsorted0 |].
        constructor; [lia | exact Hr].
      * constructor; [lia |]. apply Forall_app. split.
        -- eapply Forall_impl; [| exact Hr]. cbn. intros; lia.
        -- constructor; [lia | constructor].
Qed.

End Anchors01Whole.

(** * What a replay returns on any buffer: how many rows, and which *)

Section ReplayBounds01.
Import Prim Replay01 ReplaySpec.

Lemma replay_run_bound (k : nat) (tup : list Z) (n : Z) (sr sd : option Z)
      (out_rows : Z) : forall cur row results,
  Z.of_nat (length results) < out_rows ->
  Forall (wanted sr sd) results ->
  let '(_, _, results') := replay_run k tup n sr sd out_rows cur row results in
  Z.of_nat (length results') <= out_rows
  /\ Forall (wanted sr sd) results'.
Proof.
  induction k as [| k IH]; intros cur row results Hlen Hw; cbn [replay_run].
  - split; [lia | exact Hw].
  - destruct (want_now sr sd (row + 1) (add_delta cur tup)) eqn:Ew.
    + assert (Hw' : Forall (wanted sr sd)
                      (results ++ [(row + 1, add_delta cur tup)])).
      { apply Forall_app. split; [exact Hw |]. repeat constructor. exact Ew. }
      assert (Hl' : Z.of_nat (length (results ++ [(row + 1, add_delta cur tup)]))
                    = Z.of_nat (length results) + 1).
      { rewrite length_app. cbn [length]. lia. }
      destruct (Z.geb_spec (Z.of_nat (length (results
                              ++ [(row + 1, add_delta cur tup)]))) out_rows).
      * split; [lia | exact Hw'].
      * destruct (row + 1 >=? n - 1); [split; [lia | exact Hw'] |].
        apply IH; [lia | exact Hw'].
    + destruct (row + 1 >=? n - 1); [split; [lia | exact Hw] |].
      apply IH; assumption.
Qed.

Lemma replay_loop_bound (fuel : nat) :
  forall buf n sr sd out_rows row pos cur results res,
    Z.of_nat (length results) <= Z.max 1 out_rows ->
    Forall (wanted sr sd) results ->
    replay_loop fuel buf n sr sd out_rows row pos cur results = OK res ->
    Z.of_nat (length res) <= Z.max 1 out_rows
    /\ Forall (wanted sr sd) res.
Proof.
  induction fuel as [| fuel IH];
    intros buf n sr sd out_rows row pos cur results res Hlen Hw H;
    cbn [replay_loop] in H.
  - destruct ((row <? n - 1) && (Z.of_nat (length results) <? out_rows));
      [discriminate |].
    apply OK_inj in H. subst res. auto.
  - destruct (row <? n - 1); cbn [andb] in H;
      [| apply OK_inj in H; subst res; auto].
    destruct (Z.ltb_spec (Z.of_nat (length results)) out_rows) as [L | G];
      [| apply OK_inj in H; subst res; auto].
    destruct (Index01.decode_block buf pos) as [[[tup run] pos2] |];
      cbn [bind] in H; [| discriminate].
    pose proof (replay_run_bound (Z.to_nat run) tup n sr sd out_rows cur row
                  results L Hw) as Hr.
    destruct (replay_run (Z.to_nat run) tup n sr sd out_rows cur row results)
      as [[cur' row'] results'].
    destruct Hr as [Hr1 Hr2].
    apply IH in H; [exact H | lia | exact Hr2].
Qed.

Lemma replay_from_bound (buf : list Z) (row : Z) (pos : nat) (cur : Bar)
      (n : Z) (sr sd : option Z) (out_rows : Z) (res : list (Z * Bar)) :
  replay_from buf row pos cur n sr sd out_rows = OK res ->
  Z.of_nat (length res) <= Z.max 1 out_rows
  /\ Forall (wanted sr sd) res.
Proof.
  unfold replay_from. intros H.
  apply replay_loop_bound in H; [exact H | |].
  - destruct (want_now sr sd row cur); cbn [length]; lia.
  - destruct (want_now sr sd row cur) eqn:Ew; repeat constructor. exact Ew.
Qed.

End ReplayBounds01.

Section ReplayBounds02.
Import Prim Case02 Index02 Replay02.

Lemma emit_run_bound (k : nat) (tup : list Z) (target : Z) :
  forall cur row out,
    let '(_, row', out') := emit_run k tup target cur row out in
    Z.of_nat (length out') - Z.of_nat (length out) = row' - row
    /\ row <= row' <= Z.max row (target - 1).
Proof.
  induction k as [| k IH]; intros cur row out; cbn [emit_run].
  - lia.
  - destruct (Z.geb_spec row (target - 1)); [lia |].
    specialize (IH (add_delta cur tup) (row + 1) (out ++ [add_delta cur tup])).
    destruct (emit_run k tup target (add_delta cur tup) (row + 1)
                       (out ++ [add_delta cur tup])) as [[c r] o].
    rewrite length_app in IH. cbn [length] in IH. lia.
Qed.

Lemma emit_loop_bound (fuel : nat) : forall buf target row pos cur out res,
  emit_loop fuel buf target row pos cur out = OK res ->
  Z.of_nat (length res)
  <= Z.of_nat (length out) + Z.max 0 (target - 1 - row)
  /\ exists more, res = out ++ more.
Proof.
  induction fuel as [| fuel IH]; intros buf target row pos cur out res H;
    cbn [emit_loop] in H.
  - destruct (row <? target - 1); [discriminate |].
    apply OK_inj in H. subst res. split; [lia |].
    exists []. symmetry. apply app_nil_r.
  - assert (Hstay : Z.of_nat (length out)
                    <= Z.of_nat (length out) + Z.max 0 (target - 1 - row)
                    /\ exists more, out = out ++ more).
    { split; [lia |]. exists []. symmetry. apply app_nil_r. }
    destruct (Z.ltb_spec row (target - 1)) as [L | G];
      [| apply OK_inj in H; subst res; exact Hstay].
    destruct (length buf <=? pos)%nat;
      [apply OK_inj in H; subst res; exact Hstay |].
    destruct (read_block buf pos) as [[[[rle run] tup] pos'] |];
      cbn [bind] in H; [| discriminate].
    destruct rle.
    + pose proof (emit_run_bound (Z.to_nat run) tup target cur row out) as Hr.
      assert (Hp : exists more, snd (emit_run (Z.to_nat run) tup target cur row out)
                                = out ++ more).
      { clear. generalize (Z.to_nat run). intros k. revert cur row out.
        induction k as [| k IHk]; intros cur row out; cbn [emit_run].
        - exists []. symmetry. apply app_nil_r.
        - destruct (row >=? target - 1);
            [exists []; symmetry; apply app_nil_r |].
          destruct (IHk (add_delta cur tup) (row + 1)
                        (out ++ [add_delta cur tup])) as [m E].
          rewrite E, <- app_assoc. eexists. reflexivity. }
      destruct (emit_run (Z.to_nat run) tup target cur row out)
        as [[cur' row'] out'].
      cbn [snd] in Hp. cbv beta iota in Hr. destruct Hr as [Hr1 Hr2].
      destruct Hp as [m1 ->].
      apply IH in H. destruct H as (Hb & m2 & ->).
      split; [lia |]. rewrite <- app_assoc. eexists. reflexivity.
    + apply IH in H. destruct H as (Hb & m2 & ->).
      assert (Hl : Z.of_nat (length (out ++ [add_delta cur tup]))
                   = Z.of_nat (length out) + 1)
        by (rewrite length_app; cbn [length]; lia).
      split; [lia |]. rewrite <- app_assoc. eexists. reflexivity.
Qed.

Lemma skip_loop_reaches (fuel : nat) : forall buf seek row pos cur row' pos' cur',
  skip_loop fuel buf seek row pos cur = OK (row', pos', cur') ->
  seek <= row'.
Proof.
  induction fuel as [| fuel IH]; intros buf seek row pos cur row' pos' cur' H;
    cbn [skip_loop] in H.
  - destruct (Z.ltb_spec row seek); [discriminate |].
    apply OK_inj, pair_inj in H. destruct H as [H _].
    apply pair_inj in H. destruct H as [<- _]. lia.
  - destruct (Z.ltb_spec row seek).
    + destruct (read_block buf pos) as [[[[rle run] tup] p2] |];
        cbn [bind] in H; [| discriminate].
      destruct (if rle then skip_run (Z.to_nat run) tup seek cur row
                else (add_delta cur tup, row + 1)) as [c r].
      eapply IH. exact H.
    + apply OK_inj, pair_inj in H. destruct H as [H _].
      apply pair_inj in H. destruct H as [<- _]. lia.
Qed.

(* Whatever the two files hold, a replay returns at most [rows] rows,
   one when [rows] is below one, and none beyond the row count of the
   index. *)
Lemma replay_loaded_bound (buf : list Z) (nrows : Z) (anchors : list anchor)
      (seek_row : option Z) (rows : Z) (out : list AirTick) :
  replay_loaded buf nrows anchors seek_row rows = OK out ->
  Z.of_nat (length out) <= Z.max 1 rows
  /\ Z.of_nat (length out) <= Z.max 0 nrows.
Proof.
  unfold replay_loaded. intros H.
  destruct (Z.eqb_spec nrows 0); [apply OK_inj in H; subst out; cbn; lia |].
  set (s := if (match seek_row with Some s => s | None => 0 end) <? 0 then 0
            else match seek_row with Some s => s | None => 0 end) in *.
  assert (Hs : 0 <= s).
  { subst s. destruct (Z.ltb_spec (match seek_row with Some s => s | None => 0 end) 0);
      lia. }
  destruct (Z.geb_spec s nrows); [apply OK_inj in H; subst out; cbn; lia |].
  destruct (nth_error anchors _) as [[[a_row a_off] a_tick] |]; [| discriminate].
  destruct (skip_loop _ buf s a_row a_off a_tick) as [[[cur_row pos] cur] |] eqn:Es;
    cbn [bind] in H; [| discriminate].
  apply skip_loop_reaches in Es.
  apply emit_loop_bound in H. destruct H as [H _]. cbn [length] in H.
  lia.
Qed.

End ReplayBounds02.

(** * Case-04: the index builder and the index file *)

Section SignedFields.
Import Struct.

Lemma half_256 (k : nat) :
  (1 <= k)%nat -> 256 ^ Z.of_nat k = 2 * (256 ^ Z.of_nat k / 2) /\ 0 < 256 ^ Z.of_nat k / 2.
Proof.
  intros Hk. destruct k as [| k]; [lia |].
  rewrite Nat2Z.inj_succ, Z.pow_succ_r by lia.
  assert (0 < 256 ^ Z.of_nat k) by (apply Z.pow_pos_nonneg; lia).
  replace (256 * 256 ^ Z.of_nat k) with ((128 * 256 ^ Z.of_nat k) * 2) by lia.
  rewrite Z.div_mul by lia. lia.
Qed.

Lemma unpack_signed_le_bytes (k : nat) (buf post : list Z) (pos : nat) (v : Z) :
  (1 <= k)%nat ->
  - (256 ^ Z.of_nat k / 2) <= v < 256 ^ Z.of_nat k / 2 ->
  skipn pos buf = le_bytes k v ++ post ->
  unpack_signed k buf pos = OK v.
Proof.
  intros Hk Hv H. unfold unpack_signed, unpack_unsigned.
  pose proof (skipn_app_length pos buf _ _ H) as Hl.
  rewrite le_bytes_length in Hl.
  assert (Hne : le_bytes k v <> []).
  { intros E. apply (f_equal (@length Z)) in E.
    rewrite le_bytes_length in E. cbn in E. lia. }
  specialize (Hl Hne).
  destruct (Nat.leb_spec (pos + k) (length buf)); [| lia].
  cbn [bind]. rewrite H, firstn_app, le_bytes_length, Nat.sub_diag.
  rewrite firstn_all2 by (rewrite le_bytes_length; lia).
  cbn [firstn]. rewrite app_nil_r, le_value_le_bytes_mod.
  destruct (half_256 k Hk) as [HM Hpos].
  set (M := 256 ^ Z.of_nat k) in *. set (Hf := M / 2) in *.
  destruct (Z.neg_nonneg_cases v) as [Hneg | Hnn].
  - replace (v mod M) with (v + M).
    2:{ apply Z.mod_unique with (q := -1); lia. }
    destruct (Z.ltb_spec (v + M) Hf); [lia |].
    f_equal. lia.
  - rewrite Z.mod_small by lia.
    destruct (Z.ltb_spec v Hf); [reflexivity | lia].
Qed.

Lemma pack_signed_fits (k : nat) (v : Z) :
  - (256 ^ Z.of_nat k / 2) <= v < 256 ^ Z.of_nat k / 2 ->
  pack_signed k v = OK (le_bytes k v).
Proof.
  intros Hv. unfold pack_signed.
  destruct (Z.leb_spec (- (256 ^ Z.of_nat k / 2)) v); [| lia].
  destruct (Z.ltb_spec v (256 ^ Z.of_nat k / 2)); [| lia]. reflexivity.
Qed.

End SignedFields.

Section FromHex.
Import ReplayIdx Binding Index04.

Lemma hex_value_hex_digit (d : Z) :
  0 <= d < 16 ->
  hex_value (hex_digit d) = Some d /\ is_space (hex_digit d) = false.
Proof.
  intros Hd.
  assert (E : exists k, (k < 16)%nat /\ d = Z.of_nat k)
    by (exists (Z.to_nat d); lia).
  destruct E as (k & Hk & ->).
  do 16 (destruct k as [| k]; [split; reflexivity |]). lia.
Qed.

(* bytes.fromhex undoes bytes.hex *)
Lemma fromhex_hex (bs : list Z) :
  Forall is_byte bs -> fromhex (hex bs) = Some bs.
Proof.
  induction 1 as [| b bs Hb _ IH]; [reflexivity |].
  unfold is_byte in Hb. cbn [hex fromhex].
  assert (H1 : 0 <= b / 16 < 16)
    by (split; [apply Z.div_pos; lia | apply Z.div_lt_upper_bound; lia]).
  assert (H2 : 0 <= b mod 16 < 16) by (apply Z.mod_pos_bound; lia).
  destruct (hex_value_hex_digit _ H1) as [V1 S1].
  destruct (hex_value_hex_digit _ H2) as [V2 _].
  rewrite S1, V1, V2, IH. do 2 f_equal.
  pose proof (Z.div_mod b 16 ltac:(lia)). lia.
Qed.

End FromHex.

Section Anchors04.
Import Index04.

Lemma sorted_snoc_rel {A : Type} (R : A -> A -> Prop) (l : list A) (m : A) :
  StronglySorted R l -> Forall (fun x => R x m) l ->
  StronglySorted R (l ++ [m]).
Proof.
  induction 1 as [| x l _ IH Hx]; intros Hm; cbn.
  - repeat constructor.
  - apply Forall_cons_iff in Hm. destruct Hm as [Hxm Hm].
    constructor; [apply IH, Hm |].
    apply Forall_app. split; [exact Hx | repeat constructor; exact Hxm].
Qed.

(* the anchors of the loop: one per multiple of the step *)
Lemma multiples_sorted (step cad : Z) (n : nat) : forall a,
  0 < step ->
  StronglySorted (fun x y : Z * Z => fst x < fst y)
    (map (fun r => (r, r * cad)) (map (fun i => Z.of_nat i * step) (seq a n))).
Proof.
  induction n as [| n IH]; intros a Hs; cbn [seq map]; constructor.
  - apply IH, Hs.
  - apply Forall_forall. intros [r t] Hin.
    apply in_map_iff in Hin. destruct Hin as (r' & E & Hin).
    apply in_map_iff in Hin. destruct Hin as (i & <- & Hin).
    apply in_seq in Hin. injection E as <- _. cbn [fst]. nia.
Qed.

Lemma multiples_In (step cad : Z) (k : nat) (r t : Z) :
  0 < step ->
  In (r, t) (map (fun r => (r, r * cad))
                 (map (fun i => Z.of_nat i * step) (seq 0 (S k))))
  <-> 0 <= r <= Z.of_nat k * step /\ r mod step = 0 /\ t = r * cad.
Proof.
  intros Hs. split.
  - intros Hin.
    apply in_map_iff in Hin. destruct Hin as (r' & E & Hin).
    apply in_map_iff in Hin. destruct Hin as (i & <- & Hin).
    apply in_seq in Hin. injection E as <- <-.
    split; [nia |]. split; [apply Z.mod_mul; try lia | reflexivity].
  - intros (Hr & Hm & ->).
    apply in_map_iff. exists r. split; [reflexivity |].
    apply in_map_iff. exists (Z.to_nat (r / step)).
    assert (Hq : r = step * (r / step))
      by (pose proof (Z.div_mod r step ltac:(lia)); lia).
    assert (0 <= r / step) by (apply Z.div_pos; lia).
    split; [rewrite Z2Nat.id by lia; lia |].
    apply in_seq. split; [lia |].
    assert (r / step <= Z.of_nat k); [| lia].
    apply Z.div_le_upper_bound; lia.
Qed.

Lemma range0_positive (stop step : Z) :
  0 < step -> 0 < stop ->
  range0 stop step
  = inr (map (fun i => Z.of_nat i * step)
             (seq 0 (S (Z.to_nat ((stop - 1) / step))))).
Proof.
  intros Hs Hp. unfold range0, range_len.
  destruct (Z.eqb_spec step 0); [lia |].
  destruct (Z.ltb_spec 0 step); [| lia].
  destruct (Z.ltb_spec 0 stop); [| lia].
  assert (0 <= (stop - 1) / step) by (apply Z.div_pos; lia).
  rewrite Z2Nat.inj_add by lia. rewrite Nat.add_1_r. reflexivity.
Qed.

(* range(0, stop, step) is empty when stop is not positive *)
Lemma range0_empty (stop step : Z) :
  0 < step -> stop <= 0 -> range0 stop step = inr [].
Proof.
  intros Hs Hp. unfold range0, range_len.
  destruct (Z.eqb_spec step 0); [lia |].
  destruct (Z.ltb_spec 0 step); [| lia].
  destruct (Z.ltb_spec 0 stop); [lia |]. reflexivity.
Qed.

Lemma build_anchors_spec (rows cad ae : Z) :
  0 < rows -> 0 < ae ->
  exists anchors,
    build_anchors rows cad ae = inr anchors
    /\ StronglySorted (fun x y : Z * Z => fst x < fst y) anchors
    /\ (forall r t,
           In (r, t) anchors
           <-> 0 <= r < rows /\ (r mod ae = 0 \/ r = rows - 1) /\ t = r * cad)
    /\ Z.of_nat (length anchors) <= Z.min rows ((rows - 1) / ae + 2).
Proof.
  intros Hr Ha. unfold build_anchors.
  rewrite (range0_positive rows ae Ha Hr). cbn [sbind].
  set (k := Z.to_nat ((rows - 1) / ae)).
  set (base := map (fun r => (r, r * cad))
                   (map (fun i => Z.of_nat i * ae) (seq 0 (S k)))).
  assert (Hq : 0 <= (rows - 1) / ae) by (apply Z.div_pos; lia).
  assert (Hk : Z.of_nat k = (rows - 1) / ae) by (unfold k; lia).
  assert (Hlo : Z.of_nat k * ae <= rows - 1)
    by (rewrite Hk; pose proof (Z.mul_div_le (rows - 1) ae Ha); lia).
  assert (Hhi : rows - 1 < (Z.of_nat k + 1) * ae).
  { rewrite Hk. pose proof (Z.mul_succ_div_gt (rows - 1) ae Ha). lia. }
  assert (Hlen : length base = S k)
    by (unfold base; rewrite !length_map, length_seq; reflexivity).
  assert (Hlast : last base (0, 0) = (Z.of_nat k * ae, Z.of_nat k * ae * cad)).
  { unfold base. rewrite seq_S, !map_app. cbn [map]. apply last_app_single. }
  assert (Hsorted : StronglySorted (fun x y : Z * Z => fst x < fst y) base)
    by (apply multiples_sorted; exact Ha).
  rewrite Hlen, Hlast. cbn [Nat.eqb negb andb fst].
  destruct (Z.eqb_spec (Z.of_nat k * ae) (rows - 1)) as [E | NE]; cbn [negb].
  - rewrite Hlen. cbn [Nat.eqb andb]. exists base.
    split; [reflexivity |]. split; [exact Hsorted |]. split.
    + intros r t. unfold base. rewrite multiples_In by exact Ha.
      split.
      * intros (H1 & H2 & H3). repeat split; try lia; try (left; exact H2).
      * intros (H1 & [H2 | H2] & H3).
        -- assert (r <= Z.of_nat k * ae).
           { assert (r / ae <= Z.of_nat k)
               by (rewrite Hk; apply Z.div_le_mono; lia).
             pose proof (Z.div_mod r ae ltac:(lia)). nia. }
           repeat split; try lia; try assumption.
        -- subst r. split; [lia |].
           split; [rewrite <- E; apply Z.mod_mul; try lia | exact H3].
    + rewrite Hlen. nia.
  - rewrite length_app, Hlen. cbn [length Nat.add Nat.eqb andb]. eexists. split; [reflexivity |]. split; [| split].
    + apply sorted_snoc_rel; [exact Hsorted |].
      apply Forall_forall. intros [r t] Hin. unfold base in Hin.
      apply multiples_In in Hin; [| exact Ha]. cbn [fst]. lia.
    + intros r t. rewrite in_app_iff. unfold base.
      rewrite multiples_In by exact Ha. cbn [In]. split.
      * intros [(H1 & H2 & H3) | [H | []]].
        -- repeat split; try lia; try (left; exact H2).
        -- injection H as <- <-. repeat split; try lia; try (right; reflexivity).
      * intros (H1 & [H2 | H2] & H3).
        -- left.
           assert (r <= Z.of_nat k * ae).
           { assert (r / ae <= Z.of_nat k)
               by (rewrite Hk; apply Z.div_le_mono; lia).
             pose proof (Z.div_mod r ae ltac:(lia)). nia. }
           repeat split; try lia; try assumption.
        -- right. left. subst r t. reflexivity.
    + rewrite length_app, Hlen. cbn [length]. nia.
Qed.

End Anchors04.

Section IndexFile04Proofs.
Import Prim Struct ReplayIdx Binding Index04 IndexFile04.

Lemma pack_inv (r : result (list Z)) (b : list Z) :
  pack r = inr b -> r = OK b.
Proof. destruct r; cbn; intros H; [injection H as -> | discriminate]; reflexivity. Qed.

Lemma pack_anchors_inv (anchors : list (Z * Z)) : forall b,
  pack_anchors anchors = inr b ->
  b = flat_map anchor_bytes anchors /\ Forall anchor_packable anchors.
Proof.
  induction anchors as [| [row t] anchors IH]; intros b H.
  - cbn in H. injection H as <-. split; [reflexivity | constructor].
  - cbn [pack_anchors] in H.
    destruct (pack (pack_unsigned 4 row)) as [| b1] eqn:E1; cbn [sbind] in H;
      [discriminate |].
    destruct (pack (pack_signed 8 t)) as [| b2] eqn:E2; cbn [sbind] in H;
      [discriminate |].
    destruct (pack (pack_unsigned 8 0)) as [| b3] eqn:E3; cbn [sbind] in H;
      [discriminate |].
    destruct (pack_anchors anchors) as [| more] eqn:Em; cbn [sbind] in H;
      [discriminate |].
    injection H as <-.
    apply pack_inv in E1, E2, E3.
    apply pack_unsigned_inv in E1, E3. apply pack_signed_ok in E2.
    destruct E1 as [-> H1]. destruct E2 as [-> H2]. destruct E3 as [-> _].
    destruct (IH more eq_refl) as [-> Hm].
    split.
    + cbn [flat_map]. unfold anchor_bytes. cbn [fst snd].
      rewrite <- !app_assoc. reflexivity.
    + constructor; [split; assumption | exact Hm].
Qed.

Lemma pack_anchors_fits (anchors : list (Z * Z)) :
  Forall anchor_packable anchors ->
  pack_anchors anchors = inr (flat_map anchor_bytes anchors).
Proof.
  induction 1 as [| [row t] anchors [H1 H2] _ IH]; [reflexivity |].
  cbn [fst snd] in H1, H2. cbn [pack_anchors].
  rewrite (pack_unsigned_ok 4 row H1), (pack_signed_fits 8 t H2). cbn [pack sbind].
  rewrite (pack_unsigned_ok 8 0) by (cbn; lia). cbn [pack sbind].
  rewrite IH. cbn [sbind flat_map]. unfold anchor_bytes. cbn [fst snd].
  rewrite <- !app_assoc. reflexivity.
Qed.

Lemma load_anchors_flat04 (anchors : list (Z * Z)) : forall buf pos post,
  Forall anchor_packable anchors ->
  skipn pos buf = flat_map anchor_bytes anchors ++ post ->
  load_anchors (length anchors) buf pos = OK (map loaded anchors).
Proof.
  induction anchors as [| [row t] anchors IH]; intros buf pos post Hp H;
    [reflexivity |].
  apply Forall_cons_iff in Hp. destruct Hp as [[Hr Ht] Hp].
  cbn [fst snd] in Hr, Ht.
  cbn [flat_map length load_anchors] in *. unfold anchor_bytes at 1 in H.
  cbn [fst snd] in H. rewrite <- !app_assoc in H.
  rewrite (unpack_unsigned_le_bytes 4 buf _ pos row ltac:(lia) Hr H). cbn [bind].
  apply skipn_app_exact in H. rewrite le_bytes_length in H.
  rewrite (unpack_signed_le_bytes 8 buf _ _ t ltac:(lia) Ht H). cbn [bind].
  apply skipn_app_exact in H. rewrite le_bytes_length in H.
  replace (pos + 4 + 8)%nat with (pos + 12)%nat in H by lia.
  rewrite (unpack_unsigned_le_bytes 8 buf _ _ 0 ltac:(lia) ltac:(cbn; lia) H).
  cbn [bind].
  apply skipn_app_exact in H. rewrite le_bytes_length in H.
  replace (pos + 12 + 8)%nat with (pos + 20)%nat in H by lia.
  rewrite (IH buf _ post Hp H). cbn [bind]. reflexivity.
Qed.

Lemma MAGIC04_same : Index04.MAGIC = Replay04.MAGIC_A.
Proof. reflexivity. Qed.

(* The index file written by the builder loads back, in the replay
   script, to what the builder was given. *)
Lemma load_write_index04 (ae cad : Z) (anchors : list (Z * Z))
      (digest idx : list Z) :
  Forall is_byte digest -> length digest = 32%nat ->
  write_index ae anchors (hex digest) cad = inr idx ->
  Replay04.load_index idx
  = OK (mkIndex Replay04.MAGIC_A VERSION_U32 ae (map loaded anchors) cad
                false (hex digest)).
Proof.
  intros Hd Hl H. unfold write_index in H.
  rewrite (fromhex_hex digest Hd) in H.
  destruct (pack (pack_unsigned 4 VERSION_U32)) as [| b1] eqn:E1; cbn [sbind] in H;
    [discriminate |].
  destruct (pack (pack_unsigned 4 ae)) as [| b2] eqn:E2; cbn [sbind] in H;
    [discriminate |].
  destruct (pack (pack_unsigned 4 (Z.of_nat (length anchors)))) as [| b3] eqn:E3;
    cbn [sbind] in H; [discriminate |].
  destruct (pack (pack_unsigned 4 0)) as [| b4] eqn:E4; cbn [sbind] in H;
    [discriminate |].
  destruct (pack (pack_signed 8 cad)) as [| b5] eqn:E5; cbn [sbind] in H;
    [discriminate |].
  destruct (pack_anchors anchors) as [| body] eqn:Eb; cbn [sbind] in H;
    [discriminate |].
  injection H as H.
  apply pack_inv in E1, E2, E3, E4, E5.
  apply pack_unsigned_inv in E1, E2, E3, E4. apply pack_signed_ok in E5.
  destruct E1 as [-> H1]. destruct E2 as [-> H2]. destruct E3 as [-> H3].
  destruct E4 as [-> H4]. destruct E5 as [-> H5].
  apply pack_anchors_inv in Eb. destruct Eb as [-> Hp].
  unfold Replay04.load_index, load_index.
  assert (Hm : startswith idx Replay04.MAGIC_A = true)
    by (subst idx; reflexivity).
  rewrite Hm. cbn [bind].
  assert (H10 : skipn (length Replay04.MAGIC_A) idx
                = le_bytes 4 VERSION_U32 ++ le_bytes 4 ae
                    ++ le_bytes 4 (Z.of_nat (length anchors))
                    ++ le_bytes 4 0 ++ le_bytes 8 cad ++ digest
                    ++ flat_map anchor_bytes anchors ++ [])
    by (subst idx; rewrite app_nil_r; reflexivity).
  set (p := length Replay04.MAGIC_A) in *.
  rewrite (unpack_unsigned_le_bytes 4 idx _ p VERSION_U32 ltac:(lia) H1 H10).
  cbn [bind].
  apply skipn_app_exact in H10. rewrite le_bytes_length in H10.
  rewrite (unpack_unsigned_le_bytes 4 idx _ _ ae ltac:(lia) H2 H10). cbn [bind].
  apply skipn_app_exact in H10. rewrite le_bytes_length in H10.
  replace (p + 4 + 4)%nat with (p + 8)%nat in H10 by lia.
  rewrite (unpack_unsigned_le_bytes 4 idx _ _ _ ltac:(lia) H3 H10). cbn [bind].
  apply skipn_app_exact in H10. rewrite le_bytes_length in H10.
  replace (p + 8 + 4)%nat with (p + 12)%nat in H10 by lia.
  rewrite (unpack_unsigned_le_bytes 4 idx _ _ 0 ltac:(lia) H4 H10). cbn [bind].
  apply skipn_app_exact in H10. rewrite le_bytes_length in H10.
  replace (p + 12 + 4)%nat with (p + 16)%nat in H10 by lia.
  rewrite (unpack_signed_le_bytes 8 idx _ _ cad ltac:(lia) H5 H10). cbn [bind].
  apply skipn_app_exact in H10. rewrite le_bytes_length in H10.
  replace (p + 16 + 8)%nat with (p + 24)%nat in H10 by lia.
  rewrite H10. rewrite firstn_app, Hl, Nat.sub_diag, firstn_O.
  rewrite app_nil_r, firstn_all2 by lia.
  apply skipn_app_exact in H10. rewrite Hl in H10.
  replace (p + 24 + 32)%nat with (p + 56)%nat in H10 by lia.
  rewrite Nat2Z.id.
  rewrite (load_anchors_flat04 anchors idx _ [] Hp H10). cbn [bind].
  reflexivity.
Qed.

(* When every field fits its width, the file is written. *)
Lemma write_index_fits04 (ae cad : Z) (anchors : list (Z * Z)) (digest : list Z) :
  Forall is_byte digest ->
  0 <= ae < 256 ^ Z.of_nat 4 ->
  0 <= Z.of_nat (length anchors) < 256 ^ Z.of_nat 4 ->
  - (256 ^ Z.of_nat 8 / 2) <= cad < 256 ^ Z.of_nat 8 / 2 ->
  Forall anchor_packable anchors ->
  exists idx, write_index ae anchors (hex digest) cad = inr idx.
Proof.
  intros Hd Ha Hn Hc Hp. unfold write_index.
  rewrite (fromhex_hex digest Hd).
  rewrite (pack_unsigned_ok 4 VERSION_U32) by (unfold VERSION_U32; cbn; lia). cbn [pack sbind].
  rewrite (pack_unsigned_ok 4 ae Ha). cbn [pack sbind].
  rewrite (pack_unsigned_ok 4 _ Hn). cbn [pack sbind].
  rewrite (pack_unsigned_ok 4 0) by (cbn; lia). cbn [pack sbind].
  rewrite (pack_signed_fits 8 cad Hc). cbn [pack sbind].
  rewrite (pack_anchors_fits anchors Hp). cbn [sbind].
  eexists. reflexivity.
Qed.

End IndexFile04Proofs.

(** * Case-03 / Case-04: seek resolution and the preview *)

Section Nearest.
Import ReplayIdx.

Lemma nearest_In (anchors : list (Z * Z * Z)) (t : Z) : forall best,
  nearest anchors t best = best \/ In (nearest anchors t best) anchors.
Proof.
  induction anchors as [| a anchors IH]; intros best; cbn [nearest];
    [left; reflexivity |].
  destruct (fst (fst a) <=? t); [| left; reflexivity].
  right. destruct (IH a) as [-> | H]; [left; reflexivity | right; exact H].
Qed.

(* On anchors sorted by row the scan returns the last anchor at or
   below the target, or [best] when the first anchor is above it. *)
Lemma nearest_sorted (anchors : list (Z * Z * Z)) (t : Z) : forall best,
  StronglySorted (fun x y : Z * Z * Z => fst (fst x) < fst (fst y)) anchors ->
  (match anchors with
   | [] => True
   | a0 :: _ => t < fst (fst a0)
   end -> nearest anchors t best = best)
  /\ (match anchors with
      | [] => False
      | a0 :: _ => fst (fst a0) <= t
      end ->
      In (nearest anchors t best) anchors
      /\ fst (fst (nearest anchors t best)) <= t
      /\ forall b, In b anchors -> fst (fst b) <= t ->
                   fst (fst b) <= fst (fst (nearest anchors t best))).
Proof.
  induction anchors as [| a anchors IH]; intros best Hs.
  - split; [reflexivity | contradiction].
  - apply StronglySorted_inv in Hs. destruct Hs as [Hs Ha].
    cbn [nearest]. split.
    + intros Hlt. destruct (Z.leb_spec (fst (fst a)) t); [lia | reflexivity].
    + intros Hle. destruct (Z.leb_spec (fst (fst a)) t); [| lia].
      destruct (IH a Hs) as [H1 H2].
      destruct anchors as [| a1 anchors].
      * cbn [nearest]. split; [left; reflexivity |]. split; [exact Hle |].
        intros b [<- | []] _. lia.
      * destruct (Z.le_gt_cases (fst (fst a1)) t) as [Hle1 | Hgt1].
        -- destruct (H2 Hle1) as (Hin & Hb & Hmax).
           split; [right; exact Hin |]. split; [exact Hb |].
           intros b [<- | Hbin] Hbt; [| apply Hmax; assumption].
           apply Forall_inv in Ha.
           specialize (Hmax a1 (or_introl eq_refl) Hle1). lia.
        -- rewrite (H1 Hgt1).
           split; [left; reflexivity |]. split; [exact Hle |].
           intros b [<- | Hbin] Hbt; [lia |].
           destruct Hbin as [<- | Hbin]; [lia |].
           apply StronglySorted_inv in Hs. destruct Hs as [_ Ha1].
           rewrite Forall_forall in Ha1. specialize (Ha1 b Hbin). lia.
Qed.

End Nearest.

Section ResolveSeek.
Import ReplayIdx.

(* the row that resolve_seek computes before it scans the anchors *)
Lemma resolve_seek_cases (anchors : list (Z * Z * Z)) (c r : Z)
      (t h : option Z) :
  let raw := match t with Some tm => tm / c | None => r end in
  let target := match h with
                | Some hint => Z.max 0 (Z.min raw (hint - 1))
                | None => raw
                end in
  resolve_seek anchors c r t h
  = match t, c =? 0 with
    | Some _, true => Err ZeroDivision
    | _, _ =>
        match anchors with
        | [] => Err IndexError
        | a0 :: _ => OK (target, nearest anchors target a0)
        end
    end.
Proof.
  cbv zeta. unfold resolve_seek.
  destruct t as [tm |]; [destruct (c =? 0) |]; cbn [bind]; reflexivity.
Qed.

(* What resolve_seek returns: the target row, and an anchor of the
   list; on anchors in increasing order of row, the last anchor at or
   before the target, or the first anchor when all are after it. *)
Lemma resolve_seek_sorted (anchors : list (Z * Z * Z)) (c r : Z)
      (t h : option Z) (target : Z) (a : Z * Z * Z) :
  resolve_seek anchors c r t h = OK (target, a) ->
  target = match h with
           | Some hint =>
               Z.max 0 (Z.min (match t with Some tm => tm / c | None => r end)
                              (hint - 1))
           | None => match t with Some tm => tm / c | None => r end
           end
  /\ In a anchors
  /\ (StronglySorted (fun x y : Z * Z * Z => fst (fst x) < fst (fst y)) anchors ->
      (forall b, In b anchors -> fst (fst b) <= target ->
                 fst (fst b) <= fst (fst a) <= target)
      /\ ((forall b, In b anchors -> target < fst (fst b)) ->
          nth_error anchors 0 = Some a)).
Proof.
  intros H. rewrite resolve_seek_cases in H. cbv zeta in H.
  assert (H' : match anchors with
               | [] => False
               | a0 :: _ =>
                   let raw := match t with Some tm => tm / c | None => r end in
                   let tg := match h with
                             | Some hint => Z.max 0 (Z.min raw (hint - 1))
                             | None => raw
                             end in
                   target = tg /\ a = nearest anchors tg a0
               end).
  { destruct t as [tm |]; [destruct (c =? 0); [discriminate |] |];
      (destruct anchors as [| a0 anchors]; [discriminate |]);
      apply OK_inj, pair_inj in H; destruct H as [<- <-];
      cbv zeta; split; reflexivity. }
  clear H. destruct anchors as [| a0 anchors]; [contradiction |].
  cbv zeta in H'. destruct H' as [Ht Ha].
  split; [exact Ht |].
  rewrite <- Ht in Ha. clear Ht.
  split.
  { rewrite Ha. destruct (nearest_In (a0 :: anchors) target a0) as [-> | Hin];
      [left; reflexivity | exact Hin]. }
  intros Hs.
  destruct (nearest_sorted (a0 :: anchors) target a0 Hs) as [H1 H2].
  rewrite <- Ha in H1, H2.
  destruct (Z.le_gt_cases (fst (fst a0)) target) as [Hle | Hgt].
  - destruct (H2 Hle) as (Hin & Hb & Hmax). split.
    + intros b Hb1 Hb2. split; [apply Hmax; assumption | exact Hb].
    + intros Hall. specialize (Hall a0 (or_introl eq_refl)). lia.
  - rewrite (H1 Hgt). split.
    + intros b [<- | Hbin] Hb2; [lia |].
      apply StronglySorted_inv in Hs. destruct Hs as [_ Ha0].
      rewrite Forall_forall in Ha0. specialize (Ha0 b Hbin). lia.
    + intros _. reflexivity.
Qed.

End ResolveSeek.

Section Preview.
Import ReplayIdx ReplaySpec PreviewSpec.
Variable fmt : args -> Z -> option string.

Lemma row_line_shift (a : args) (c r : Z) (m : nat) :
  map (row_line fmt a c (r + 1)) (seq 0 m) = map (row_line fmt a c r) (seq 1 m).
Proof.
  rewrite <- seq_shift, map_map. apply map_ext. intros i.
  unfold row_line. rewrite Nat2Z.inj_succ.
  replace (r + 1 + Z.of_nat i) with (r + Z.succ (Z.of_nat i)) by lia.
  reflexivity.
Qed.

Lemma preview_count_S (a : args) (count : nat) (r : Z) :
  match a_rows_hint a with Some h => r >=? h | None => false end = false ->
  preview_count a (S count) r = S (preview_count a count (r + 1)).
Proof.
  unfold preview_count. destruct (a_rows_hint a) as [hint |]; [| reflexivity].
  intros H. destruct (Z.geb_spec r hint); [discriminate |].
  replace (Z.to_nat (hint - r)) with (S (Z.to_nat (hint - (r + 1)))) by lia.
  reflexivity.
Qed.

Lemma preview_count_0 (a : args) (count : nat) (r : Z) :
  match a_rows_hint a with Some h => r >=? h | None => false end = true ->
  preview_count a count r = 0%nat.
Proof.
  unfold preview_count. destruct (a_rows_hint a) as [hint |]; [| discriminate].
  intros H. destruct (Z.geb_spec r hint); [| discriminate].
  replace (Z.to_nat (hint - r)) with 0%nat by lia. apply Nat.min_0_r.
Qed.

(* The preview prints the rows it is asked for when the formatter
   returns on each of them. *)
Lemma preview_rows (a : args) (c : Z) :
  forall count r out,
    (forall i, (i < preview_count a count r)%nat ->
               fmt a ((r + Z.of_nat i) * c) <> None) ->
    preview fmt count a r c out
    = (out ++ map (row_line fmt a c r) (seq 0 (preview_count a count r)), OK tt).
Proof.
  induction count as [| count IH]; intros r out Hf.
  - cbn [preview]. unfold preview_count.
    destruct (a_rows_hint a); cbn [Nat.min seq map];
      rewrite app_nil_r; reflexivity.
  - cbn [preview].
    destruct (match a_rows_hint a with Some h => r >=? h | None => false end)
      eqn:Eh.
    + rewrite (preview_count_0 _ _ _ Eh). cbn [seq map].
      rewrite app_nil_r. reflexivity.
    + rewrite (preview_count_S _ _ _ Eh) in Hf |- *.
      pose proof (Hf 0%nat ltac:(lia)) as H0.
      change (Z.of_nat 0) with 0 in H0. rewrite Z.add_0_r in H0.
      destruct (fmt a (r * c)) as [s |] eqn:Es; [| contradiction].
      rewrite IH.
      * cbn [seq map]. rewrite row_line_shift, <- app_assoc. cbn [app].
        unfold row_line at 2. change (Z.of_nat 0) with 0.
        rewrite Z.add_0_r, Es. reflexivity.
      * intros i Hi. specialize (Hf (S i) ltac:(lia)).
        rewrite Nat2Z.inj_succ in Hf.
        replace (r + 1 + Z.of_nat i) with (r + Z.succ (Z.of_nat i)) by lia.
        exact Hf.
Qed.

(* It stops at the first row on which the formatter raises. *)
Lemma preview_rows_fail (a : args) (c : Z) :
  forall count r out j,
    (j < preview_count a count r)%nat ->
    (forall i, (i < j)%nat -> fmt a ((r + Z.of_nat i) * c) <> None) ->
    fmt a ((r + Z.of_nat j) * c) = None ->
    preview fmt count a r c out
    = (out ++ map (row_line fmt a c r) (seq 0 j), Err DateError).
Proof.
  induction count as [| count IH]; intros r out j Hj Hf Hn.
  - unfold preview_count in Hj. destruct (a_rows_hint a); cbn in Hj; lia.
  - cbn [preview].
    destruct (match a_rows_hint a with Some h => r >=? h | None => false end)
      eqn:Eh.
    + rewrite (preview_count_0 _ _ _ Eh) in Hj. lia.
    + rewrite (preview_count_S _ _ _ Eh) in Hj.
      destruct j as [| j].
      * change (Z.of_nat 0) with 0 in Hn. rewrite Z.add_0_r in Hn.
        rewrite Hn. cbn [seq map]. rewrite app_nil_r. reflexivity.
      * pose proof (Hf 0%nat ltac:(lia)) as H0.
        change (Z.of_nat 0) with 0 in H0. rewrite Z.add_0_r in H0.
        destruct (fmt a (r * c)) as [s |] eqn:Es; [| contradiction].
        rewrite (IH (r + 1) _ j).
        -- cbn [seq map]. rewrite row_line_shift, <- app_assoc. cbn [app].
           unfold row_line at 2. change (Z.of_nat 0) with 0.
           rewrite Z.add_0_r, Es. reflexivity.
        -- lia.
        -- intros i Hi. specialize (Hf (S i) ltac:(lia)).
           rewrite Nat2Z.inj_succ in Hf.
           replace (r + 1 + Z.of_nat i) with (r + Z.succ (Z.of_nat i)) by lia.
           exact Hf.
        -- rewrite Nat2Z.inj_succ in Hn.
           replace (r + 1 + Z.of_nat j) with (r + Z.succ (Z.of_nat j)) by lia.
           exact Hn.
Qed.

End Preview.

Section Scripts04.
Import Prim Struct ReplayIdx Binding Index04 IndexFile04.
Variable sha256 : list Z -> list Z.
Variable fmt_epoch_minutes : Z -> option string.
Hypothesis sha256_digest :
  forall data, Forall is_byte (sha256 data) /\ length (sha256 data) = 32%nat.

Lemma le_bytes_bytes (k : nat) : forall v, Forall is_byte (le_bytes k v).
Proof.
  induction k as [| k IH]; intros v; cbn [le_bytes]; constructor; [| apply IH].
  unfold is_byte. apply Z.mod_pos_bound. lia.
Qed.

Lemma anchor_bytes_bytes (anchors : list (Z * Z)) :
  Forall is_byte (flat_map anchor_bytes anchors).
Proof.
  induction anchors as [| a anchors IH]; [constructor |].
  cbn [flat_map]. unfold anchor_bytes at 1.
  repeat (apply Forall_app; split); try apply le_bytes_bytes. exact IH.
Qed.

Lemma write_index_bytes (ae cad : Z) (anchors : list (Z * Z))
      (digest idx : list Z) :
  Forall is_byte digest ->
  write_index ae anchors (hex digest) cad = inr idx ->
  idx = Index04.MAGIC ++ le_bytes 4 VERSION_U32 ++ le_bytes 4 ae
          ++ le_bytes 4 (Z.of_nat (length anchors)) ++ le_bytes 4 0
          ++ le_bytes 8 cad ++ digest ++ flat_map anchor_bytes anchors.
Proof.
  intros Hd H. unfold write_index in H.
  rewrite (fromhex_hex digest Hd) in H.
  destruct (pack (pack_unsigned 4 VERSION_U32)) as [| b1] eqn:E1; cbn [sbind] in H;
    [discriminate |].
  destruct (pack (pack_unsigned 4 ae)) as [| b2] eqn:E2; cbn [sbind] in H;
    [discriminate |].
  destruct (pack (pack_unsigned 4 (Z.of_nat (length anchors)))) as [| b3] eqn:E3;
    cbn [sbind] in H; [discriminate |].
  destruct (pack (pack_unsigned 4 0)) as [| b4] eqn:E4; cbn [sbind] in H;
    [discriminate |].
  destruct (pack (pack_signed 8 cad)) as [| b5] eqn:E5; cbn [sbind] in H;
    [discriminate |].
  destruct (pack_anchors anchors) as [| body] eqn:Eb; cbn [sbind] in H;
    [discriminate |].
  injection H as H.
  apply pack_inv in E1, E2, E3, E4, E5.
  apply pack_unsigned_inv in E1, E2, E3, E4. apply pack_signed_ok in E5.
  destruct E1 as [-> _]. destruct E2 as [-> _]. destruct E3 as [-> _].
  destruct E4 as [-> _]. destruct E5 as [-> _].
  apply pack_anchors_inv in Eb. destruct Eb as [-> _].
  symmetry. exact H.
Qed.

Lemma written_bytes (ae cad : Z) (anchors : list (Z * Z))
      (digest idx : list Z) :
  Forall is_byte digest -> length digest = 32%nat ->
  write_index ae anchors (hex digest) cad = inr idx ->
  Forall is_byte idx
  /\ stored_digest Replay04.MAGIC_A Replay04.MAGIC_B idx = digest.
Proof.
  intros Hd Hl H. apply write_index_bytes in H; [| exact Hd]. split.
  - subst idx. repeat (apply Forall_app; split);
      try apply le_bytes_bytes; try apply anchor_bytes_bytes; try exact Hd;
      apply all_bytes_spec; reflexivity.
  - unfold stored_digest, header_pos.
    assert (Hm : startswith idx Replay04.MAGIC_A = true)
      by (subst idx; reflexivity).
    rewrite Hm.
    assert (Hs : skipn (length Replay04.MAGIC_A + 24) idx
                 = digest ++ flat_map anchor_bytes anchors)
      by (subst idx; reflexivity).
    rewrite Hs, firstn_app, Hl, Nat.sub_diag, firstn_O, app_nil_r.
    apply firstn_all2. lia.
Qed.

(* The index builder returns for arguments in range, and the replay
   script loads what it wrote. *)
Lemma main_index04 (star : list Z) (rows ae cad : Z) :
  0 < rows < 2 ^ 32 -> 0 < ae < 2 ^ 32 -> 0 < cad < 2 ^ 63 ->
  (rows - 1) * cad < 2 ^ 63 ->
  exists idx anchors,
    build_anchors rows cad ae = inr anchors
    /\ Index04.main sha256 star rows ae cad = inr idx
    /\ Replay04.load_index idx
       = OK (mkIndex Replay04.MAGIC_A VERSION_U32 ae (map loaded anchors) cad
                     false (hex (sha256 star)))
    /\ Forall is_byte idx
    /\ stored_digest Replay04.MAGIC_A Replay04.MAGIC_B idx = sha256 star.
Proof.
  intros Hr Ha Hc Ht.
  destruct (build_anchors_spec rows cad ae ltac:(lia) ltac:(lia))
    as (anchors & Hb & _ & Hin & Hlen).
  destruct (sha256_digest star) as [Hd Hl].
  assert (Hp : Forall anchor_packable anchors).
  { apply Forall_forall. intros [r t] Hrt. apply Hin in Hrt.
    destruct Hrt as (H1 & _ & ->). unfold anchor_packable. cbn [fst snd].
    change (256 ^ Z.of_nat 4) with (2 ^ 32).
    change (256 ^ Z.of_nat 8 / 2) with (2 ^ 63).
    split; [lia | nia]. }
  destruct (write_index_fits04 ae cad anchors (sha256 star) Hd) as [idx Hw];
    try exact Hp.
  - change (256 ^ Z.of_nat 4) with (2 ^ 32). lia.
  - change (256 ^ Z.of_nat 4) with (2 ^ 32). lia.
  - change (256 ^ Z.of_nat 8 / 2) with (2 ^ 63). lia.
  - exists idx, anchors. split; [exact Hb |]. split.
    + unfold Index04.main.
      destruct (Z.leb_spec rows 0); [lia |].
      destruct (Z.leb_spec ae 0); [lia |].
      destruct (Z.leb_spec cad 0); [lia |].
      rewrite Hb. cbn [sbind]. exact Hw.
    + split; [apply (load_write_index04 _ _ _ _ _ Hd Hl Hw) |].
      apply (written_bytes _ _ _ _ _ Hd Hl Hw).
Qed.

(* the guards of main *)
Lemma main_guards04 (star : list Z) (rows ae cad : Z) :
  (rows <= 0 -> Index04.main sha256 star rows ae cad = inl RowsNotPositive)
  /\ (0 < rows -> ae <= 0 ->
      Index04.main sha256 star rows ae cad = inl AnchorEveryNotPositive)
  /\ (0 < rows -> 0 < ae -> cad <= 0 ->
      Index04.main sha256 star rows ae cad = inl CadNotPositive).
Proof.
  unfold Index04.main. repeat split; intros;
    repeat match goal with
           | |- context [?x <=? 0] => destruct (Z.leb_spec x 0); try lia
           end; reflexivity.
Qed.

End Scripts04.

Section SeekBuilt.
Import ReplayIdx Index04 IndexFile04.

Lemma loaded_sorted (anchors : list (Z * Z)) :
  StronglySorted (fun x y : Z * Z => fst x < fst y) anchors ->
  StronglySorted (fun x y : Z * Z * Z => fst (fst x) < fst (fst y))
                 (map loaded anchors).
Proof.
  induction 1 as [| a anchors _ IH Ha]; cbn [map]; constructor; [exact IH |].
  apply Forall_map. eapply Forall_impl; [| exact Ha]. cbn. auto.
Qed.

(* Seeking a row of the file in the anchors the builder makes: the
   anchor found is the last row when that is the target, and otherwise
   the multiple of the interval below the target. *)
Lemma seek_built_anchors (rows cad ae r : Z) (anchors : list (Z * Z))
      (t : option Z) (h : option Z) (target : Z) (a : Z * Z * Z) :
  0 < rows -> 0 < ae ->
  build_anchors rows cad ae = inr anchors ->
  resolve_seek (map loaded anchors) cad r t h = OK (target, a) ->
  0 <= target < rows ->
  let n := ReplaySpec.anchor_row_before rows ae target in
  a = (n, n * cad, 0)
  /\ n <= target < n + ae
  /\ (n mod ae = 0 \/ n = rows - 1).
Proof.
  intros Hr Ha Hb Hs Ht. cbv zeta.
  destruct (build_anchors_spec rows cad ae Hr Ha) as (anchors' & Hb' & Hso & Hin & _).
  rewrite Hb in Hb'. injection Hb' as <-.
  apply resolve_seek_sorted in Hs.
  destruct Hs as (_ & Hina & Hsorted).
  destruct (Hsorted (loaded_sorted _ Hso)) as [Hmax _].
  apply in_map_iff in Hina. destruct Hina as ([n tn] & <- & Hina).
  apply Hin in Hina. destruct Hina as (Hn & Hmod & ->).
  cbn [loaded fst snd] in *.
  set (m := ae * (target / ae)).
  assert (Hm : m <= target < m + ae).
  { unfold m. pose proof (Z.div_mod target ae ltac:(lia)).
    pose proof (Z.mod_pos_bound target ae Ha). lia. }
  assert (Hm0 : 0 <= m) by (unfold m; pose proof (Z.div_pos target ae); nia).
  assert (Hmin : In (loaded (m, m * cad)) (map loaded anchors)).
  { apply in_map. apply Hin. split; [lia |]. split; [| reflexivity].
    left. unfold m. rewrite Z.mul_comm. apply Z.mod_mul; try lia. }
  pose proof (Hmax _ Hmin) as Hm1. cbn [loaded fst snd] in Hm1.
  specialize (Hm1 ltac:(lia)).
  unfold ReplaySpec.anchor_row_before. fold m.
  destruct (Z.eqb_spec target (rows - 1)) as [El | Nl].
  - assert (Hlast : In (loaded (rows - 1, (rows - 1) * cad)) (map loaded anchors)).
    { apply in_map. apply Hin. split; [lia |]. split; [right |]; reflexivity. }
    pose proof (Hmax _ Hlast) as Hl1. cbn [loaded fst snd] in Hl1.
    specialize (Hl1 ltac:(lia)).
    assert (n = target) by lia. subst n.
    split; [reflexivity |]. split; [lia | exact Hmod].
  - assert (En : n = m).
    { destruct Hmod as [Hmod | Hmod]; [| lia].
      apply Z.mod_divide in Hmod; [| lia]. destruct Hmod as [q Hq].
      unfold m. subst n.
      assert (target / ae = q); [| subst q; lia].
      symmetry. apply (Z.div_unique target ae q (target - q * ae)); lia. }
    subst n. split; [reflexivity |]. split; [lia |].
    left. unfold m. rewrite Z.mul_comm. apply Z.mod_mul; lia.
Qed.

End SeekBuilt.

Section IndexThenReplay04.
Import Prim Struct ReplayIdx Binding Index04 IndexFile04.
Variable sha256 : list Z -> list Z.
Variable fmt_epoch_minutes : Z -> option string.
Hypothesis sha256_digest :
  forall data, Forall is_byte (sha256 data) /\ length (sha256 data) = 32%nat.

(* The index builder, then the replay script on the same STAR file
   with a seek by row: everything that is printed. *)
Lemma index_then_replay04 (star : list Z) (rows ae cad r k : Z) :
  0 < rows < 2 ^ 32 -> 0 < ae < 2 ^ 32 -> 0 < cad < 2 ^ 63 ->
  (rows - 1) * cad < 2 ^ 63 ->
  0 <= r < rows ->
  let nr := ReplaySpec.anchor_row_before rows ae r in
  let a := mkArgs (Some r) None k None None None in
  exists idx anchors,
    Index04.main sha256 star rows ae cad = inr idx
    /\ build_anchors rows cad ae = inr anchors
    /\ nr <= r < nr + ae /\ (nr mod ae = 0 \/ nr = rows - 1)
    /\ let found := [LSha (hex (sha256 star));
                     LIdxOk Replay04.MAGIC_A ae (length anchors);
                     LSeekResolved; LTargetRow r; LNearestRow nr] in
       let shown_t := [LNearestT (nr * cad)
                                 (ReplaySpec.shown (fmt_epoch_minutes (nr * cad)));
                       LNote; LPreview] in
       let rows_from := map (PreviewSpec.row_line (fun _ => fmt_epoch_minutes)
                                                  a cad r) in
       (fmt_epoch_minutes (nr * cad) = None ->
        Replay04.main sha256 fmt_epoch_minutes star idx a
        = (found, Err DateError))
       /\ (fmt_epoch_minutes (nr * cad) <> None ->
           (forall i, (i < Z.to_nat k)%nat ->
                      fmt_epoch_minutes ((r + Z.of_nat i) * cad) <> None) ->
           Replay04.main sha256 fmt_epoch_minutes star idx a
           = (found ++ shown_t ++ rows_from (seq 0 (Z.to_nat k)), OK tt))
       /\ (fmt_epoch_minutes (nr * cad) <> None ->
           forall j, (j < Z.to_nat k)%nat ->
             (forall i, (i < j)%nat ->
                        fmt_epoch_minutes ((r + Z.of_nat i) * cad) <> None) ->
             fmt_epoch_minutes ((r + Z.of_nat j) * cad) = None ->
             Replay04.main sha256 fmt_epoch_minutes star idx a
             = (found ++ shown_t ++ rows_from (seq 0 j), Err DateError)).
Proof.
  intros Hrows Hae Hcad Ht Hr. cbv zeta.
  destruct (main_index04 sha256 sha256_digest star rows ae cad Hrows Hae Hcad Ht)
    as (idx & anchors & Hb & Hm & Hl & _ & _).
  destruct (build_anchors_spec rows cad ae ltac:(lia) ltac:(lia))
    as (anchors0 & Hb0 & _ & Hin & _).
  rewrite Hb in Hb0. injection Hb0 as <-.
  assert (Hne : exists a0 rest, map loaded anchors = a0 :: rest).
  { assert (H0 : In (0, 0 * cad) anchors).
    { apply Hin. split; [lia |]. split; [left; reflexivity | reflexivity]. }
    destruct anchors as [| a0 rest]; [contradiction |].
    eexists. eexists. reflexivity. }
  destruct Hne as (a0 & rest & Ea).
  pose proof (resolve_seek_cases (map loaded anchors) cad r None None) as Hrs.
  cbv zeta in Hrs. rewrite Ea in Hrs. rewrite <- Ea in Hrs.
  destruct (seek_built_anchors rows cad ae r anchors None None r
              (nearest (map loaded anchors) r a0)
              ltac:(lia) ltac:(lia) Hb Hrs Hr) as (Enr & Hnr & Hmod).
  set (nr := ReplaySpec.anchor_row_before rows ae r) in *.
  exists idx, anchors.
  split; [exact Hm |]. split; [exact Hb |]. split; [exact Hnr |].
  split; [exact Hmod |].
  rewrite <- (length_map loaded anchors).
  assert (Hrun : Replay04.main sha256 fmt_epoch_minutes star idx
                   (mkArgs (Some r) None k None None None)
                 = match fmt_epoch_minutes (nr * cad) with
                   | None =>
                       ([LSha (hex (sha256 star))]
                          ++ [LIdxOk Replay04.MAGIC_A ae
                                     (length (map loaded anchors))]
                          ++ [LSeekResolved; LTargetRow r; LNearestRow nr],
                        Err DateError)
                   | Some s =>
                       preview (fun _ => fmt_epoch_minutes) (Z.to_nat k)
                               (mkArgs (Some r) None k None None None) r cad
                               (([LSha (hex (sha256 star))]
                                   ++ [LIdxOk Replay04.MAGIC_A ae
                                              (length (map loaded anchors))]
                                   ++ [LSeekResolved; LTargetRow r; LNearestRow nr])
                                  ++ [LNearestT (nr * cad) s; LNote; LPreview])
                   end).
  { unfold Replay04.main, ReplayIdx.main. cbn [a_seek_row a_seek_time].
    unfold Replay04.load_index in Hl. rewrite Hl.
    cbn [star_sha_hex a_cadence_min cadence_min magic anchor_every
           ReplayIdx.anchors a_rows_hint a_rows].
    unfold sha256_file. rewrite String.eqb_refl. cbn [negb].
    rewrite Hrs, Enr.
    destruct (fmt_epoch_minutes (nr * cad)) as [s |]; [| reflexivity].
    rewrite Z.eqb_refl. cbn [app]. reflexivity. }
  split; [| split].
  - intros En. rewrite Hrun, En. reflexivity.
  - intros Hs Hf. rewrite Hrun.
    destruct (fmt_epoch_minutes (nr * cad)) as [s |] eqn:Es; [| contradiction].
    rewrite preview_rows; [| exact Hf].
    unfold PreviewSpec.preview_count. cbn [a_rows_hint ReplaySpec.shown].
    rewrite <- app_assoc. reflexivity.
  - intros Hs j Hj Hf Hn. rewrite Hrun.
    destruct (fmt_epoch_minutes (nr * cad)) as [s |] eqn:Es; [| contradiction].
    rewrite (preview_rows_fail _ _ _ _ _ _ j); [| exact Hj | exact Hf | exact Hn].
    cbn [ReplaySpec.shown]. rewrite <- app_assoc. reflexivity.
Qed.

(* An index built over one STAR file is refused with another. *)
Lemma index_other_star04 (star star' : list Z) (rows ae cad : Z) (a : args)
      (idx : list Z) :
  Index04.main sha256 star rows ae cad = inr idx ->
  sha256 star' <> sha256 star ->
  Replay04.main sha256 fmt_epoch_minutes star' idx a
  = match a_seek_row a, a_seek_time a with
    | None, None => ([], Err NoSeekKey)
    | _, _ => ([LSha (hex (sha256 star'))], Err BindingMismatch)
    end.
Proof.
  intros Hm Hne.
  destruct (a_seek_row a) as [sr |] eqn:Er;
    [| destruct (a_seek_time a) as [st |] eqn:Et].
  3: { unfold Replay04.main, ReplayIdx.main. rewrite Er, Et. reflexivity. }
  all: assert (Hk : has_seek_key a)
    by (unfold has_seek_key; rewrite ?Er, ?Et; (left + right); discriminate).
  all: unfold Index04.main in Hm;
    destruct (rows <=? 0); [discriminate |];
    destruct (ae <=? 0); [discriminate |];
    destruct (cad <=? 0); [discriminate |];
    destruct (build_anchors rows cad ae) as [| anchors]; cbn [sbind] in Hm;
    [discriminate |];
    destruct (sha256_digest star) as [Hd Hl];
    pose proof (load_write_index04 _ _ _ _ _ Hd Hl Hm) as Hload;
    destruct (written_bytes _ _ _ _ _ Hd Hl Hm) as [Hbytes Hst];
    unfold Replay04.main;
    apply (main_mismatch sha256 _ _ _ (fun d => proj1 (sha256_digest d))
             star' idx a _ Hk Hbytes Hload);
    rewrite Hst; intros E; apply Hne; symmetry; exact E.
Qed.

End IndexThenReplay04.

(** * Case-03: front coding *)

Section PrefixFree.
Import Prim Wire.

(* Two varints that start the same buffer are the same varint. *)
Lemma venc_prefix_free (a b : Z) (x y : list Z) :
  0 <= a -> 0 <= b -> venc a ++ x = venc b ++ y -> a = b /\ x = y.
Proof.
  intros Ha Hb E.
  set (L := 7 * Z.max a b).
  assert (HL : 0 <= L) by (unfold L; lia).
  assert (Hdiv : L / 7 = Z.max a b)
    by (unfold L; rewrite Z.mul_comm; apply Z.div_mul; lia).
  assert (Hbig : forall u, 0 <= u <= Z.max a b -> u < 2 ^ (7 * (L / 7 + 1))).
  { intros u Hu. rewrite Hdiv.
    apply Z.lt_le_trans with (2 ^ u); [apply Z.pow_gt_lin_r; lia |].
    apply Z.pow_le_mono_r; lia. }
  pose proof (varint_decode_with_venc L (venc a ++ x) x 0 a HL Ha eq_refl) as D1.
  pose proof (varint_decode_with_venc L (venc a ++ x) y 0 b HL Hb E) as D2.
  destruct (Z.ltb_spec a (2 ^ (7 * (L / 7 + 1)))) as [_ | G];
    [| specialize (Hbig a ltac:(lia)); lia].
  destruct (Z.ltb_spec b (2 ^ (7 * (L / 7 + 1)))) as [_ | G];
    [| specialize (Hbig b ltac:(lia)); lia].
  rewrite D1 in D2. apply OK_inj, pair_inj in D2. destruct D2 as [-> _].
  split; [reflexivity |]. apply app_inv_head in E. exact E.
Qed.

End PrefixFree.

Section FrontCoding.
Import Prim Wire Case03.

Lemma uvarint_encode_venc (n : Z) : 0 <= n -> uvarint_encode n = Some (venc n).
Proof. apply varint_encode_some. Qed.

Lemma firstn_S_nth (p : nat) (l : list Z) :
  (p < length l)%nat -> firstn (S p) l = firstn p l ++ [nth p l 0].
Proof.
  revert l. induction p as [| p IH]; intros [| x l] H; cbn [length] in H;
    try lia; [reflexivity |].
  cbn [firstn nth app]. rewrite <- IH by lia. reflexivity.
Qed.

(* What the prefix loop computes: the length of the longest common
   prefix. *)
Lemma prefix_loop_spec (prev cur : list Z) (m : nat) :
  (m <= length prev)%nat -> (m <= length cur)%nat ->
  forall fuel p,
    (p + fuel = m)%nat ->
    firstn p prev = firstn p cur ->
    let q := prefix_loop fuel prev cur p m in
    (p <= q <= m)%nat
    /\ firstn q prev = firstn q cur
    /\ ((q < m)%nat -> nth q prev 0 <> nth q cur 0).
Proof.
  intros Hp Hc. induction fuel as [| fuel IH]; intros p Hm Heq; cbv zeta.
  - cbn [prefix_loop]. split; [lia |]. split; [exact Heq | lia].
  - cbn [prefix_loop].
    destruct (Nat.ltb_spec p m) as [Hlt | Hge]; [| lia]. cbn [andb].
    destruct (Z.eqb_spec (nth p prev 0) (nth p cur 0)) as [E | NE].
    + assert (Heq' : firstn (S p) prev = firstn (S p) cur)
        by (rewrite !firstn_S_nth by lia; rewrite Heq, E; reflexivity).
      specialize (IH (S p) ltac:(lia) Heq'). cbv zeta in IH.
      destruct IH as (H1 & H2 & H3). split; [lia |]. split; assumption.
    + split; [lia |]. split; [exact Heq |]. intros _. exact NE.
Qed.

Lemma prefix_length (prev cur : list Z) :
  let m := Nat.min (length prev) (length cur) in
  let p := prefix_loop m prev cur 0 m in
  (p <= length prev)%nat /\ (p <= length cur)%nat
  /\ firstn p prev = firstn p cur
  /\ ((p < m)%nat -> nth p prev 0 <> nth p cur 0).
Proof.
  cbv zeta. set (m := Nat.min (length prev) (length cur)).
  destruct (prefix_loop_spec prev cur m ltac:(lia) ltac:(lia) m 0%nat
              ltac:(lia) eq_refl) as (H1 & H2 & H3).
  repeat split; try lia; assumption.
Qed.

(* the bytes appended are independent of what was packed before *)
Lemma encode_loop_packed (lines : list (list Z)) : forall prev packed,
  encode_loop lines prev packed
  = match encode_loop lines prev [] with
    | Some b => Some (packed ++ b)
    | None => None
    end.
Proof.
  induction lines as [| cur lines IH]; intros prev packed.
  - cbn. rewrite app_nil_r. reflexivity.
  - cbn [encode_loop]. cbv zeta.
    destruct (uvarint_encode _) as [bp |]; cbn [obind]; [| reflexivity].
    destruct (uvarint_encode _) as [bs |]; cbn [obind]; [| reflexivity].
    rewrite IH. rewrite (IH cur ([] ++ _)).
    destruct (encode_loop lines cur []) as [b |]; [| reflexivity].
    cbn [app]. rewrite <- !app_assoc. reflexivity.
Qed.

(* one record, then the records of the rest *)
Lemma encode_loop_cons (cur : list Z) (lines : list (list Z)) (prev : list Z) :
  let m := Nat.min (length prev) (length cur) in
  let p := prefix_loop m prev cur 0 m in
  encode_loop (cur :: lines) prev []
  = match encode_loop lines cur [] with
    | Some b =>
        Some (venc (Z.of_nat p) ++ venc (Z.of_nat (length cur - p))
                ++ skipn p cur ++ b)
    | None => None
    end.
Proof.
  cbv zeta. cbn [encode_loop]. cbv zeta.
  rewrite !uvarint_encode_venc by lia. cbn [obind].
  rewrite encode_loop_packed, length_skipn.
  destruct (encode_loop lines cur []) as [b |]; [| reflexivity].
  cbn [app]. rewrite <- !app_assoc. reflexivity.
Qed.

(* The packing loop returns for every list of lines. *)
Lemma encode_loop_total (lines : list (list Z)) : forall prev,
  exists b, encode_loop lines prev [] = Some b.
Proof.
  induction lines as [| cur lines IH]; intros prev.
  - exists []. reflexivity.
  - pose proof (encode_loop_cons cur lines prev) as H. cbv zeta in H.
    destruct (IH cur) as [b Hb]. rewrite Hb in H. eexists. exact H.
Qed.

Lemma app_inj_length {A : Type} (a : list A) : forall b x y,
  length a = length b -> a ++ x = b ++ y -> a = b /\ x = y.
Proof.
  induction a as [| u a IH]; intros [| w b] x y Hl E; cbn in Hl; try lia.
  - split; [reflexivity | exact E].
  - cbn [app] in E. injection E as -> E.
    destruct (IH b x y ltac:(lia) E) as [-> ->]. split; reflexivity.
Qed.

(* Front coding loses nothing: equal packings come from equal lines. *)
Lemma encode_loop_inj (l1 : list (list Z)) : forall l2 prev b,
  encode_loop l1 prev [] = Some b ->
  encode_loop l2 prev [] = Some b ->
  l1 = l2.
Proof.
  induction l1 as [| c1 l1 IH]; intros [| c2 l2] prev b H1 H2.
  - reflexivity.
  - exfalso. cbn in H1. injection H1 as <-.
    pose proof (encode_loop_cons c2 l2 prev) as H. cbv zeta in H.
    rewrite H2 in H. destruct (encode_loop l2 c2 []); [| discriminate].
    injection H as H.
    pose proof (venc_length_pos (Z.of_nat
      (prefix_loop (Nat.min (length prev) (length c2)) prev c2 0
         (Nat.min (length prev) (length c2)))) ltac:(lia)) as Hl.
    apply (f_equal (@length Z)) in H. rewrite length_app in H.
    cbn [length] in H. lia.
  - exfalso. cbn in H2. injection H2 as <-.
    pose proof (encode_loop_cons c1 l1 prev) as H. cbv zeta in H.
    rewrite H1 in H. destruct (encode_loop l1 c1 []); [| discriminate].
    injection H as H.
    pose proof (venc_length_pos (Z.of_nat
      (prefix_loop (Nat.min (length prev) (length c1)) prev c1 0
         (Nat.min (length prev) (length c1)))) ltac:(lia)) as Hl.
    apply (f_equal (@length Z)) in H. rewrite length_app in H.
    cbn [length] in H. lia.
  - pose proof (encode_loop_cons c1 l1 prev) as E1. cbv zeta in E1.
    pose proof (encode_loop_cons c2 l2 prev) as E2. cbv zeta in E2.
    rewrite H1 in E1. rewrite H2 in E2.
    destruct (prefix_length prev c1) as (P1 & P2 & P3 & _).
    destruct (prefix_length prev c2) as (Q1 & Q2 & Q3 & _).
    set (p1 := prefix_loop _ prev c1 0 _) in *.
    set (p2 := prefix_loop _ prev c2 0 _) in *.
    destruct (encode_loop l1 c1 []) as [b1 |] eqn:R1; [| discriminate].
    destruct (encode_loop l2 c2 []) as [b2 |] eqn:R2; [| discriminate].
    injection E1 as E1. injection E2 as E2. rewrite E1 in E2.
    apply venc_prefix_free in E2; [| lia | lia]. destruct E2 as [Ep E2].
    apply venc_prefix_free in E2; [| lia | lia]. destruct E2 as [Es E2].
    assert (Hp : p1 = p2) by lia.
    assert (Hs : length (skipn p1 c1) = length (skipn p2 c2))
      by (rewrite !length_skipn; lia).
    apply app_inj_length in E2; [| exact Hs]. destruct E2 as [Esuf Eb].
    assert (Hc : c1 = c2).
    { rewrite <- (firstn_skipn p1 c1), <- (firstn_skipn p2 c2).
      rewrite Esuf, <- P3, <- Q3, Hp. reflexivity. }
    subst c2 b2. f_equal.
    eapply IH; eassumption.
Qed.

End FrontCoding.

Section Main03.
Import Prim Wire Case03.
Variable splitlines : list Z -> list (list Z).

(* the data lines that main keeps *)
Lemma main_written (raw : list Z) (max_rows : option Z)
      (header : list Z) (data_lines : list (list Z)) :
  splitlines raw = header :: data_lines ->
  match max_rows with Some k => 0 <= k | None => True end ->
  let kept := match max_rows with
              | Some k => firstn (Z.to_nat k) data_lines
              | None => data_lines
              end in
  exists records,
    encode_lines_frontcoded kept = Some records
    /\ main splitlines raw max_rows
       = Some (Written (MAGIC ++ (venc (Z.of_nat (length header)) ++ header)
                          ++ records)
                       (length kept)).
Proof.
  intros Hs Hk. cbv zeta. unfold main. rewrite Hs.
  set (kept := match max_rows with
               | Some k => firstn (Z.to_nat k) data_lines
               | None => data_lines
               end).
  assert (E : match max_rows with
              | Some k => if k <? 0 then None
                          else Some (firstn (Z.to_nat k) data_lines)
              | None => Some data_lines
              end = Some kept).
  { unfold kept. destruct max_rows as [k |]; [| reflexivity].
    destruct (Z.ltb_spec k 0); [lia | reflexivity]. }
  rewrite E. rewrite uvarint_encode_venc by lia. cbn [obind].
  destruct (encode_loop_total kept []) as [records Hr].
  exists records. unfold encode_lines_frontcoded. rewrite Hr. cbn [obind].
  split; reflexivity.
Qed.

Lemma main_exits (raw : list Z) (max_rows : option Z) :
  (splitlines raw = [] -> main splitlines raw max_rows = Some EmptyInput)
  /\ (forall k, splitlines raw <> [] -> max_rows = Some k -> k < 0 ->
                main splitlines raw max_rows = Some NegativeMaxRows).
Proof.
  unfold main. split.
  - intros ->. reflexivity.
  - intros k Hne -> Hk. destruct (splitlines raw); [contradiction |].
    destruct (Z.ltb_spec k 0); [reflexivity | lia].
Qed.

(* What was packed determines the header line and the lines kept. *)
Lemma packed_inj (h1 h2 : list Z) (l1 l2 : list (list Z)) (r1 r2 : list Z) :
  encode_lines_frontcoded l1 = Some r1 ->
  encode_lines_frontcoded l2 = Some r2 ->
  MAGIC ++ (venc (Z.of_nat (length h1)) ++ h1) ++ r1
  = MAGIC ++ (venc (Z.of_nat (length h2)) ++ h2) ++ r2 ->
  h1 = h2 /\ l1 = l2.
Proof.
  intros E1 E2 H. apply app_inv_head in H. rewrite <- !app_assoc in H.
  apply venc_prefix_free in H; [| lia | lia]. destruct H as [Hl H].
  apply app_inj_length in H; [| lia]. destruct H as [-> ->].
  split; [reflexivity |].
  unfold encode_lines_frontcoded in *. eapply encode_loop_inj; eassumption.
Qed.

End Main03.

(** * The dispatcher on the files the encoders write *)

Section Detect.
Import Prim StarRun.

Lemma detect_case01 (x : list Z) :
  detect_case_from_star (Case01.MAGIC ++ x) = inr case01.
Proof. reflexivity. Qed.

Lemma detect_case02 (x : list Z) :
  detect_case_from_star (Case02.STAR_MAGIC ++ x) = inr case02.
Proof. reflexivity. Qed.

Lemma detect_case03 (x : list Z) :
  detect_case_from_star (Case03.MAGIC ++ x) = inr case03.
Proof. reflexivity. Qed.

Lemma detect_case04 (x : list Z) :
  detect_case_from_star (Case04.MAGIC8 ++ x) = inr case04.
Proof. reflexivity. Qed.

(* a magic that iter_record_offsets accepts and the dispatcher does not *)
Lemma detect_star01 (x : list Z) :
  detect_case_from_star (bytes_of_string "STAR01" ++ x) = inl UnknownMagic.
Proof. reflexivity. Qed.

Lemma encode_star_magic01 (bars : list Case01.Bar) (ps : Z) (blob : list Z) :
  Case01.encode_star bars ps = Some blob -> exists x, blob = Case01.MAGIC ++ x.
Proof.
  intros H. apply encode_star_cases in H.
  destruct H as [[_ ->] | (b0 & rest & _ & _ & ->)]; eexists; [reflexivity |].
  unfold Blocks01.encoded, Blocks01.header. rewrite <- !app_assoc. reflexivity.
Qed.

Lemma encode_star_magic02 (ticks : list Case02.AirTick) (blob : list Z) :
  Case02.encode_star ticks = Some blob -> exists x, blob = Case02.STAR_MAGIC ++ x.
Proof.
  intros H. apply encode_star_cases02 in H.
  destruct H as [[_ ->] | (b0 & rest & _ & ->)]; eexists; [reflexivity |].
  unfold Blocks02.encoded, Blocks02.header. rewrite <- !app_assoc. reflexivity.
Qed.

Lemma encode_case04_magic (rows : list Case04.Row) (blob : list Z) :
  Case04.encode_case04 rows = OK blob -> exists x, blob = Case04.MAGIC8 ++ x.
Proof.
  unfold Case04.encode_case04. intros H.
  repeat match type of H with
         | bind ?r _ = OK _ => destruct r; cbn [bind] in H; [| discriminate]
         end.
  apply OK_inj in H. subst blob. eexists. reflexivity.
Qed.

Lemma main03_magic (splitlines : list Z -> list (list Z)) (raw : list Z)
      (max_rows : option Z) (packed : list Z) (n : nat) :
  Case03.main splitlines raw max_rows = Some (Case03.Written packed n) ->
  exists x, packed = Case03.MAGIC ++ x.
Proof.
  unfold Case03.main. intros H.
  destruct (splitlines raw) as [| header data]; [discriminate |].
  destruct (match max_rows with
            | Some k => if k <? 0 then None else Some (firstn (Z.to_nat k) data)
            | None => Some data
            end) as [kept |]; [| discriminate].
  destruct (Case03.uvarint_encode _) as [hl |]; cbn [obind] in H; [| discriminate].
  destruct (Case03.encode_lines_frontcoded kept) as [rec |]; cbn [obind] in H;
    [| discriminate].
  injection H as <- _. eexists. reflexivity.
Qed.

End Detect.

(** * Case-01: the block offsets of a body *)

Section Offsets.
Import Prim Wire Case01 Index01 Boundary01 Offsets01.

Lemma skip_varints_tuple (buf : list Z) : forall k pos,
  skip_varints k buf pos
  = match read_tuple_with 63 k buf pos with
    | OK (vs, p) => OK p
    | Err e => Err e
    end.
Proof.
  induction k as [| k IH]; intros pos; [reflexivity |].
  cbn [skip_varints read_tuple_with]. unfold varint_decode.
  destruct (varint_decode_with 63 buf pos) as [[u p1] |]; cbn [bind];
    [| reflexivity].
  rewrite IH. destruct (read_tuple_with 63 k buf p1) as [[vs p2] |];
    reflexivity.
Qed.

(* One turn of the loop reads one block, as decode_block does. *)
Lemma offsets_loop_step (fuel : nat) (buf : list Z) (pos : nat)
      (offsets : list nat) :
  (pos < length buf)%nat ->
  offsets_loop (S fuel) buf pos offsets
  = match decode_block buf pos with
    | OK (tr, pos') => offsets_loop fuel buf pos' (offsets ++ [pos])
    | Err e => Err e
    end.
Proof.
  intros Hlt. cbn [offsets_loop].
  destruct (Nat.ltb_spec pos (length buf)); [| lia].
  unfold decode_block. rewrite (nth_error_nth' buf 0 Hlt).
  destruct (nth pos buf 0 =? 0).
  - destruct (varint_decode buf (S pos)) as [[run p1] |]; cbn [bind];
      [| reflexivity].
    rewrite skip_varints_tuple.
    destruct (read_tuple_with 63 6 buf p1) as [[vs p2] |]; reflexivity.
  - destruct (nth pos buf 0 =? 1); [| reflexivity].
    rewrite skip_varints_tuple.
    destruct (read_tuple_with 63 6 buf (S pos)) as [[vs p2] |]; reflexivity.
Qed.

Lemma decode_block_tag (buf : list Z) (i : nat) (tr : list Z * Z) (i' : nat) :
  decode_block buf i = OK (tr, i') -> tag_at buf i.
Proof.
  unfold decode_block, tag_at. intros H.
  destruct (nth_error buf i) as [tag |]; [| discriminate].
  destruct (Z.eqb_spec tag 0) as [E0 | _]; [left; f_equal; exact E0 |].
  destruct (Z.eqb_spec tag 1) as [E1 | _]; [right; f_equal; exact E1 | discriminate].
Qed.

Lemma block_start_step (buf : list Z) (a b : nat) (tr : list Z * Z) :
  decode_block buf a = OK (tr, b) ->
  forall p, block_start buf b p -> block_start buf a p.
Proof.
  intros Hd p H. induction H as [| p p' tr' _ IH Hp].
  - eapply start_next; [constructor | exact Hd].
  - eapply start_next; [exact IH | exact Hp].
Qed.

Lemma block_start_left (buf : list Z) (a p : nat) :
  block_start buf a p ->
  p = a \/ exists tr b, decode_block buf a = OK (tr, b) /\ block_start buf b p.
Proof.
  intros H. induction H as [| p p' tr _ IH Hp]; [left; reflexivity |].
  right. destruct IH as [-> | (tr0 & b & Hd & Hb)].
  - exists tr, p'. split; [exact Hp | constructor].
  - exists tr0, b. split; [exact Hd |]. eapply start_next; eassumption.
Qed.

Lemma block_start_ge (buf : list Z) (a p : nat) :
  block_start buf a p -> (a <= p)%nat.
Proof.
  intros H. induction H as [| p p' tr _ IH Hp]; [lia |].
  apply decode_block_advances in Hp. lia.
Qed.

(* The offsets collected are the block starts before the end of the
   buffer, in increasing order. *)
Lemma offsets_loop_spec (buf : list Z) : forall fuel pos offsets res,
  offsets_loop fuel buf pos offsets = OK res ->
  exists chain,
    res = offsets ++ chain
    /\ Forall (fun p => block_start buf pos p /\ (p < length buf)%nat
                        /\ tag_at buf p) chain
    /\ StronglySorted lt chain
    /\ (forall p, block_start buf pos p -> (p < length buf)%nat -> In p chain)
    /\ ((pos <= length buf)%nat -> block_start buf pos (length buf)).
Proof.
  induction fuel as [| fuel IH]; intros pos offsets res H.
  - cbn [offsets_loop] in H.
    destruct (Nat.ltb_spec pos (length buf)) as [Hlt | Hge]; [discriminate |].
    apply OK_inj in H. subst res. exists []. rewrite app_nil_r.
    split; [reflexivity |]. split; [constructor |]. split; [constructor |].
    split.
    + intros p Hp Hlt. apply block_start_ge in Hp. lia.
    + intros Hle. replace (length buf) with pos by lia. constructor.
  - destruct (Nat.ltb_spec pos (length buf)) as [Hlt | Hge].
    + rewrite offsets_loop_step in H by exact Hlt.
      destruct (decode_block buf pos) as [[tr pos'] |] eqn:Hd; [| discriminate].
      apply IH in H. destruct H as (chain & -> & Hall & Hs & Hc & Hend).
      pose proof (decode_block_advances _ _ _ _ Hd) as Hadv.
      exists (pos :: chain). rewrite <- app_assoc. split; [reflexivity |].
      split.
      { constructor.
        - split; [constructor |]. split; [exact Hlt |].
          eapply decode_block_tag. exact Hd.
        - eapply Forall_impl; [| exact Hall]. cbn.
          intros p (Hp & Hpl & Hpt). split; [| split; assumption].
          eapply block_start_step; eassumption. }
      split.
      { constructor; [exact Hs |].
        eapply Forall_impl; [| exact Hall]. cbn.
        intros p (Hp & _). apply block_start_ge in Hp. lia. }
      split.
      { intros p Hp Hpl. apply block_start_left in Hp.
        destruct Hp as [-> | (tr0 & b & Hd0 & Hb)]; [left; reflexivity |].
        right. rewrite Hd in Hd0. apply OK_inj, pair_inj in Hd0.
        destruct Hd0 as [_ <-]. apply Hc; assumption. }
      intros _. eapply block_start_step; [exact Hd |]. apply Hend. lia.
    + cbn [offsets_loop] in H.
      destruct (Nat.ltb_spec pos (length buf)); [lia |].
      apply OK_inj in H. subst res. exists []. rewrite app_nil_r.
      split; [reflexivity |]. split; [constructor |]. split; [constructor |].
      split.
      * intros p Hp Hlt. apply block_start_ge in Hp. lia.
      * intros Hle. replace (length buf) with pos by lia. constructor.
Qed.

(* The loop returns when whole blocks lead to the end of the buffer;
   the fuel of the embedding is never what stops it. *)
Lemma offsets_loop_returns (buf : list Z) : forall fuel pos offsets,
  (length buf - pos < fuel)%nat ->
  block_start buf pos (length buf) ->
  exists res, offsets_loop fuel buf pos offsets = OK res.
Proof.
  induction fuel as [| fuel IH]; intros pos offsets Hf Hb; [lia |].
  destruct (Nat.ltb_spec pos (length buf)) as [Hlt | Hge].
  - rewrite offsets_loop_step by exact Hlt.
    apply block_start_left in Hb.
    destruct Hb as [E | (tr & b & Hd & Hb)]; [lia |].
    rewrite Hd. apply IH; [| exact Hb].
    apply decode_block_advances in Hd. lia.
  - cbn [offsets_loop]. destruct (Nat.ltb_spec pos (length buf)); [lia |].
    eexists. reflexivity.
Qed.

Lemma offsets_loop_fuel (buf : list Z) : forall fuel pos offsets,
  (length buf - pos < fuel)%nat ->
  offsets_loop fuel buf pos offsets <> Err OutOfFuel.
Proof.
  induction fuel as [| fuel IH]; intros pos offsets Hf; [lia |].
  destruct (Nat.ltb_spec pos (length buf)) as [Hlt | Hge].
  - rewrite offsets_loop_step by exact Hlt.
    destruct (decode_block buf pos) as [[tr b] |] eqn:Hd.
    + apply IH. apply decode_block_advances in Hd. lia.
    + intros E. injection E as ->. eapply decode_block_errors; [exact Hd |].
      reflexivity.
  - cbn [offsets_loop]. destruct (Nat.ltb_spec pos (length buf)); [lia |].
    discriminate.
Qed.

(* After the header, iter_record_offsets is the loop from the start of
   the body. *)
Lemma iter_after_header (buf : list Z) (n ps : Z) (base : Bar) (body : nat) :
  parse_star1_header buf = OK (n, ps, base, body) ->
  n <> 0 ->
  iter_record_offsets buf = offsets_loop (S (length buf)) buf body []
  /\ (body <= length buf)%nat.
Proof.
  unfold parse_star1_header, iter_record_offsets. intros H Hn.
  change (ReplayIdx.startswith buf (bytes_of_string "STAR1"))
    with (tuple_eqb (firstn 5 buf) MAGIC).
  destruct (tuple_eqb (firstn 5 buf) MAGIC); cbn [negb] in H; [| discriminate].
  cbn [bind].
  destruct (varint_decode buf 5) as [[n' i1] |] eqn:E1; cbn [bind] in H;
    [| discriminate].
  destruct (Z.eqb_spec n' 0) as [-> | _].
  { apply OK_inj in H. injection H as <- _ _ _. contradiction. }
  destruct (varint_decode buf i1) as [[ps' i2] |] eqn:E2; cbn [bind] in H;
    [| discriminate].
  destruct (read_tuple_with 63 6 buf i2) as [[vals i3] |] eqn:E3;
    cbn [bind] in H; [| discriminate].
  apply OK_inj in H. injection H as _ _ _ <-.
  pose proof (varint_with_advances _ _ _ _ _ E1) as A1.
  pose proof (varint_with_advances _ _ _ _ _ E2) as A2.
  pose proof (read_tuple_advances _ _ _ _ _ _ E3) as A3.
  destruct (Nat.leb_spec (length buf) 5); [lia |].
  cbn [bind].
  destruct (Nat.leb_spec (length buf) i1); [lia |].
  rewrite E2. cbn [bind].
  rewrite skip_varints_tuple, E3. cbn [bind]. split; [reflexivity | lia].
Qed.

Lemma iter_offsets_spec (buf : list Z) (n ps : Z) (base : Bar) (body : nat) :
  parse_star1_header buf = OK (n, ps, base, body) ->
  n <> 0 ->
  ((exists offs, iter_record_offsets buf = OK offs)
   <-> block_start buf body (length buf))
  /\ iter_record_offsets buf <> Err OutOfFuel
  /\ forall offs,
       iter_record_offsets buf = OK offs ->
       (forall p, In p offs <-> block_start buf body p /\ (p < length buf)%nat)
       /\ StronglySorted lt offs
       /\ Forall (tag_at buf) offs.
Proof.
  intros Hh Hn. destruct (iter_after_header buf n ps base body Hh Hn) as [-> Hb].
  split; [| split].
  - split.
    + intros [offs H]. apply offsets_loop_spec in H.
      destruct H as (_ & _ & _ & _ & _ & Hend). apply Hend, Hb.
    + intros H. apply offsets_loop_returns; [lia | exact H].
  - apply offsets_loop_fuel. lia.
  - intros offs H. apply offsets_loop_spec in H.
    destruct H as (chain & -> & Hall & Hs & Hc & _). cbn [app].
    split; [| split].
    + intros p. split.
      * intros Hin. rewrite Forall_forall in Hall.
        destruct (Hall p Hin) as (H1 & H2 & _). split; assumption.
      * intros [H1 H2]. apply Hc; assumption.
    + exact Hs.
    + eapply Forall_impl; [| exact Hall]. cbn. intros p (_ & _ & Ht). exact Ht.
Qed.

End Offsets.

Section OffsetsOfAnchors.
Import Prim Wire Case01 Blocks01 Index01 Boundary01 Offsets01.

(* On a file the encoder wrote and an index was built over,
   iter_record_offsets returns, and lists the offset of every anchor
   that is not at the end of the file. *)
Lemma offsets_cover_anchors (bars : list Bar) (ps ae n : Z) (blob : list Z)
      (anchors : list anchor) :
  encode_star bars ps = Some blob ->
  build_index blob ae = OK (n, anchors) ->
  exists offs,
    iter_record_offsets blob = OK offs
    /\ StronglySorted lt offs
    /\ Forall (tag_at blob) offs
    /\ forall row off cur,
         In (row, off, cur) anchors -> (off < length blob)%nat -> In off offs.
Proof.
  intros Henc Hidx.
  destruct (encode_star_cases _ _ _ Henc)
    as [[-> ->] | (b0 & rest & -> & Hps & ->)].
  - exists []. split; [reflexivity |]. split; [constructor |].
    split; [constructor |].
    intros row off cur Hin Hlt.
    rewrite build_index_empty in Hidx.
    apply OK_inj, pair_inj in Hidx. destruct Hidx as [_ <-].
    destruct Hin as [E | []]. injection E as _ <- _. cbn in Hlt. lia.
  - destruct (build_index_encoded b0 rest ps ae n anchors Hps Hidx)
      as (Hn & Hhdr & Hfits & Hb).
    set (bs := body_blocks b0 rest) in *.
    set (body := length (header (Z.of_nat (S (length rest))) ps b0)) in *.
    pose proof (skipn_encoded_body b0 rest ps) as Hbody.
    fold body bs in Hbody.
    assert (Hp : parse_star1_header (encoded b0 rest ps)
                 = OK (Z.of_nat (S (length rest)), ps, base_of b0, body)).
    { unfold encoded. rewrite parse_header_encoded by lia.
      rewrite Hn in Hhdr. rewrite Hhdr. reflexivity. }
    assert (Hstart : forall j, (j <= length bs)%nat ->
               block_start (encoded b0 rest ps) body
                 (body + length (ser_blocks (firstn j bs)))).
    { intros j Hj. apply (block_start_boundary _ []); try assumption.
      - apply body_blocks_well_formed.
      - constructor.
      - rewrite app_nil_r. exact Hbody. }
    destruct (iter_offsets_spec _ _ _ _ _ Hp ltac:(lia)) as (Hret & _ & Hspec).
    assert (Hend : block_start (encoded b0 rest ps) body
                     (length (encoded b0 rest ps))).
    { rewrite encoded_length. fold body bs.
      pose proof (Hstart (length bs) ltac:(lia)) as He.
      rewrite firstn_all in He. exact He. }
    apply Hret in Hend. destruct Hend as [offs Ho].
    exists offs. split; [exact Ho |].
    destruct (Hspec offs Ho) as (Hin & Hs & Ht).
    split; [exact Hs |]. split; [exact Ht |].
    intros row off cur Ha Hlt. apply Hin. split; [| exact Hlt].
    rewrite Forall_forall in Hb. destruct (Hb _ Ha) as (j & Hj & Eb).
    unfold boundary in Eb. injection Eb as _ -> _. apply Hstart, Hj.
Qed.

End OffsetsOfAnchors.

(** * Case-01: the index file *)

Section IndexFile01Proofs.
Import Prim Struct Case01 Index01 Replay01 WriteIndex01 IndexFile01.

Lemma pack_anchor_inv (a : anchor) (b : list Z) :
  pack_anchor a = OK b -> b = anchor_bytes a /\ anchor_packable a.
Proof.
  destruct a as [[row off] bar]. unfold pack_anchor. intros H.
  destruct (pack_unsigned 4 row) as [b1 |] eqn:E1; cbn [bind] in H; [| discriminate].
  destruct (pack_unsigned 4 (Z.of_nat off)) as [b2 |] eqn:E2; cbn [bind] in H;
    [| discriminate].
  destruct (pack_signed 4 (d_days bar)) as [b3 |] eqn:E3; cbn [bind] in H;
    [| discriminate].
  destruct (pack_signed 8 (o bar)) as [b4 |] eqn:E4; cbn [bind] in H; [| discriminate].
  destruct (pack_signed 8 (h bar)) as [b5 |] eqn:E5; cbn [bind] in H; [| discriminate].
  destruct (pack_signed 8 (l bar)) as [b6 |] eqn:E6; cbn [bind] in H; [| discriminate].
  destruct (pack_signed 8 (c bar)) as [b7 |] eqn:E7; cbn [bind] in H; [| discriminate].
  destruct (pack_signed 8 (v bar)) as [b8 |] eqn:E8; cbn [bind] in H; [| discriminate].
  apply OK_inj in H. subst b.
  apply pack_unsigned_inv in E1, E2. apply pack_signed_ok in E3, E4, E5, E6, E7, E8.
  destruct E1 as [-> H1]. destruct E2 as [-> H2]. destruct E3 as [-> H3].
  destruct E4 as [-> H4]. destruct E5 as [-> H5]. destruct E6 as [-> H6].
  destruct E7 as [-> H7]. destruct E8 as [-> H8].
  split; [reflexivity |]. unfold anchor_packable.
  repeat split; try lia. repeat constructor; lia.
Qed.

Lemma pack_anchors_inv01 (anchors : list anchor) : forall b,
  pack_anchors anchors = OK b ->
  b = flat_map anchor_bytes anchors /\ Forall anchor_packable anchors.
Proof.
  induction anchors as [| a anchors IH]; intros b H.
  - cbn in H. apply OK_inj in H. subst b. split; [reflexivity | constructor].
  - cbn [pack_anchors] in H.
    destruct (pack_anchor a) as [ba |] eqn:Ea; cbn [bind] in H; [| discriminate].
    destruct (pack_anchors anchors) as [more |] eqn:Em; cbn [bind] in H;
      [| discriminate].
    apply OK_inj in H. subst b.
    apply pack_anchor_inv in Ea. destruct Ea as [-> Ha].
    destruct (IH more eq_refl) as [-> Hm].
    split; [reflexivity | constructor; assumption].
Qed.

Lemma anchor_bytes_length (a : anchor) : length (anchor_bytes a) = 52%nat.
Proof.
  destruct a as [[row off] bar]. unfold anchor_bytes.
  rewrite !length_app, !le_bytes_length. reflexivity.
Qed.

Lemma load_anchors_flat01 (anchors : list anchor) : forall buf pos post,
  Forall anchor_packable anchors ->
  skipn pos buf = flat_map anchor_bytes anchors ++ post ->
  load_anchors (length anchors) buf pos = OK (map loaded anchors).
Proof.
  induction anchors as [| [[row off] bar] anchors IH]; intros buf pos post Hp H;
    [reflexivity |].
  apply Forall_cons_iff in Hp. destruct Hp as [(Hr & Ho & Hd & Hv) Hp].
  apply Forall_cons_iff in Hv. destruct Hv as [Hvo Hv].
  apply Forall_cons_iff in Hv. destruct Hv as [Hvh Hv].
  apply Forall_cons_iff in Hv. destruct Hv as [Hvl Hv].
  apply Forall_cons_iff in Hv. destruct Hv as [Hvc Hv].
  apply Forall_cons_iff in Hv. destruct Hv as [Hvv _].
  cbn [flat_map length load_anchors].
  assert (Hlen : (pos + 52 <= length buf)%nat).
  { apply (f_equal (@length Z)) in H.
    rewrite length_skipn in H. cbn [flat_map] in H.
    rewrite !length_app, anchor_bytes_length in H. lia. }
  destruct (Nat.leb_spec (pos + 52) (length buf)); [| lia].
  cbn [flat_map] in H. unfold anchor_bytes at 1 in H.
  rewrite <- !app_assoc in H.
  rewrite (unpack_unsigned_le_bytes 4 buf _ pos row ltac:(lia) Hr H). cbn [bind].
  apply skipn_app_exact in H. rewrite le_bytes_length in H.
  rewrite (unpack_unsigned_le_bytes 4 buf _ _ _ ltac:(lia) Ho H). cbn [bind].
  apply skipn_app_exact in H. rewrite le_bytes_length in H.
  replace (pos + 4 + 4)%nat with (pos + 8)%nat in H by lia.
  rewrite (unpack_signed_le_bytes 4 buf _ _ _ ltac:(lia) Hd H). cbn [bind].
  apply skipn_app_exact in H. rewrite le_bytes_length in H.
  replace (pos + 8 + 4)%nat with (pos + 12)%nat in H by lia.
  rewrite (unpack_signed_le_bytes 8 buf _ _ _ ltac:(lia) Hvo H). cbn [bind].
  apply skipn_app_exact in H. rewrite le_bytes_length in H.
  replace (pos + 12 + 8)%nat with (pos + 20)%nat in H by lia.
  rewrite (unpack_signed_le_bytes 8 buf _ _ _ ltac:(lia) Hvh H). cbn [bind].
  apply skipn_app_exact in H. rewrite le_bytes_length in H.
  replace (pos + 20 + 8)%nat with (pos + 28)%nat in H by lia.
  rewrite (unpack_signed_le_bytes 8 buf _ _ _ ltac:(lia) Hvl H). cbn [bind].
  apply skipn_app_exact in H. rewrite le_bytes_length in H.
  replace (pos + 28 + 8)%nat with (pos + 36)%nat in H by lia.
  rewrite (unpack_signed_le_bytes 8 buf _ _ _ ltac:(lia) Hvc H). cbn [bind].
  apply skipn_app_exact in H. rewrite le_bytes_length in H.
  replace (pos + 36 + 8)%nat with (pos + 44)%nat in H by lia.
  rewrite (unpack_signed_le_bytes 8 buf _ _ _ ltac:(lia) Hvv H). cbn [bind].
  apply skipn_app_exact in H. rewrite le_bytes_length in H.
  replace (pos + 44 + 8)%nat with (pos + 52)%nat in H by lia.
  rewrite (IH buf _ post Hp H). cbn [bind map loaded].
  destruct bar. reflexivity.
Qed.

(* The index file written by the builder loads back, in the replay
   script, to what the builder was given, with the two key lists. *)
Lemma load_write_index01 (ae n : Z) (anchors : list anchor) (idx : list Z) :
  write_index ae n anchors = OK idx ->
  load_index idx
  = OK (ae, n, map loaded anchors,
        map (fun a : anchor => fst (fst a)) anchors,
        map (fun a : anchor => d_days (snd a)) anchors).
Proof.
  unfold write_index. intros H.
  destruct (pack_unsigned 4 ae) as [b1 |] eqn:E1; cbn [bind] in H; [| discriminate].
  destruct (pack_unsigned 4 n) as [b2 |] eqn:E2; cbn [bind] in H; [| discriminate].
  destruct (pack_unsigned 4 (Z.of_nat (length anchors))) as [b3 |] eqn:E3;
    cbn [bind] in H; [| discriminate].
  destruct (pack_anchors anchors) as [body |] eqn:Eb; cbn [bind] in H;
    [| discriminate].
  apply OK_inj in H.
  apply pack_unsigned_inv in E1, E2, E3.
  destruct E1 as [-> H1]. destruct E2 as [-> H2]. destruct E3 as [-> H3].
  apply pack_anchors_inv01 in Eb. destruct Eb as [-> Hp].
  unfold load_index.
  assert (Hm1 : firstn 5 idx = bytes_of_string "SIDX1") by (subst idx; reflexivity).
  assert (Hm2 : firstn 7 (skipn 5 idx) = bytes_of_string "CASE01" ++ [0])
    by (subst idx; reflexivity).
  rewrite Hm1, Hm2, !tuple_eqb_refl. cbn [negb].
  assert (H12 : skipn 12 idx
                = le_bytes 4 ae ++ le_bytes 4 n
                    ++ le_bytes 4 (Z.of_nat (length anchors))
                    ++ flat_map anchor_bytes anchors ++ [])
    by (subst idx; rewrite app_nil_r; cbn [app skipn]; rewrite <- !app_assoc;
        reflexivity).
  assert (Hlen : (24 <= length idx)%nat).
  { apply (f_equal (@length Z)) in H12. rewrite length_skipn in H12.
    rewrite !length_app, !le_bytes_length in H12. lia. }
  destruct (Nat.leb_spec 24 (length idx)); [| lia]. cbn [negb].
  rewrite (unpack_unsigned_le_bytes 4 idx _ 12 ae ltac:(lia) H1 H12). cbn [bind].
  apply skipn_app_exact in H12. rewrite le_bytes_length in H12.
  change (12 + 4)%nat with 16%nat in H12.
  rewrite (unpack_unsigned_le_bytes 4 idx _ 16 n ltac:(lia) H2 H12). cbn [bind].
  apply skipn_app_exact in H12. rewrite le_bytes_length in H12.
  change (16 + 4)%nat with 20%nat in H12.
  rewrite (unpack_unsigned_le_bytes 4 idx _ 20 _ ltac:(lia) H3 H12). cbn [bind].
  apply skipn_app_exact in H12. rewrite le_bytes_length in H12.
  change (20 + 4)%nat with 24%nat in H12.
  rewrite Nat2Z.id, (load_anchors_flat01 anchors idx 24 [] Hp H12). cbn [bind].
  rewrite !map_map. do 2 f_equal.
  - f_equal. apply map_ext. intros [[row off] bar]. reflexivity.
  - apply map_ext. intros [[row off] bar]. reflexivity.
Qed.

End IndexFile01Proofs.

(** * Case-01: replay towards any seek row *)

Section NumberedSlices.
Import Wire.
Context {A : Type}.

Lemma skipn_numbered (d : nat) : forall (lo : Z) (l : list A),
  skipn d (numbered lo l) = numbered (lo + Z.of_nat d) (skipn d l).
Proof.
  induction d as [| d IH]; intros lo l.
  - cbn [skipn]. rewrite Z.add_0_r. reflexivity.
  - destruct l as [| x l]; [reflexivity |].
    cbn [numbered skipn]. rewrite IH. f_equal. lia.
Qed.

Lemma firstn_numbered (k : nat) : forall (lo : Z) (l : list A),
  firstn k (numbered lo l) = numbered lo (firstn k l).
Proof.
  induction k as [| k IH]; intros lo l; [reflexivity |].
  destruct l as [| x l]; [reflexivity |].
  cbn [numbered firstn]. rewrite IH. reflexivity.
Qed.

End NumberedSlices.

Section ReplaySeek01.
Import Prim Wire Case01 Blocks01 Index01 Replay01.

(* One run, towards the seek row [sr]: the rows before it are passed
   over, those from it on are emitted until [k] are held. *)
Lemma replay_run_seek (kr : nat) (tup : list Z) (n sr : Z) (sd : option Z) (k : Z) :
  forall cur row results,
    row + Z.of_nat kr <= n - 1 ->
    Z.of_nat (length results) < k ->
    let skip := Z.to_nat (sr - (row + 1)) in
    let need := Z.to_nat (k - Z.of_nat (length results)) in
    let m := Nat.min kr (skip + need) in
    replay_run kr tup n (Some sr) sd k cur row results
    = (last (scan add_delta cur (repeat tup m)) cur, row + Z.of_nat m,
       results ++ firstn need
                    (skipn skip (numbered (row + 1)
                                   (scan add_delta cur (repeat tup kr))))).
Proof.
  induction kr as [| kr IH]; intros cur row results Hn Hk; cbv zeta.
  - cbn [Nat.min repeat scan numbered last]. rewrite skipn_nil, firstn_nil.
    rewrite Z.add_0_r, app_nil_r. reflexivity.
  - cbn [replay_run want_now].
    set (need := Z.to_nat (k - Z.of_nat (length results))).
    set (skip := Z.to_nat (sr - (row + 1))).
    assert (Hneed : (1 <= need)%nat) by (unfold need; lia).
    cbn [repeat scan numbered].
    destruct (Z.geb_spec (row + 1) sr) as [Hge | Hlt].
    + (* the row is wanted *)
      assert (Hskip : skip = 0%nat) by (unfold skip; lia).
      rewrite Hskip. cbn [skipn Nat.add].
      rewrite length_app. cbn [length].
      destruct (Z.geb_spec (Z.of_nat (length results + 1)) k) as [G | L].
      * assert (need = 1%nat) by (unfold need; lia).
        rewrite H. replace (Nat.min (S kr) 1) with 1%nat by lia.
        cbn [firstn repeat scan last]. reflexivity.
      * destruct (Z.geb_spec (row + 1) (n - 1)) as [G2 | L2].
        -- assert (kr = 0%nat) by lia. subst kr.
           cbn [repeat scan numbered].
           replace (Nat.min 1 need) with 1%nat by lia.
           destruct need as [| need']; [lia |].
           cbn [firstn repeat scan last]. rewrite firstn_nil.
           reflexivity.
        -- specialize (IH (add_delta cur tup) (row + 1)
                          (results ++ [(row + 1, add_delta cur tup)])
                          ltac:(lia)
                          ltac:(rewrite length_app; cbn [length]; lia)).
           cbv zeta in IH. rewrite IH. clear IH.
           rewrite length_app. cbn [length].
           replace (Z.to_nat (sr - (row + 1 + 1))) with 0%nat by lia.
           replace (Z.to_nat (k - Z.of_nat (length results + 1)))
             with (need - 1)%nat by (unfold need; lia).
           cbn [skipn Nat.add].
           replace (Nat.min (S kr) need) with (S (Nat.min kr (need - 1))) by lia.
           cbn [repeat scan]. rewrite last_cons_default.
           destruct need as [| need']; [lia |].
           replace (S need' - 1)%nat with need' by lia.
           cbn [firstn]. rewrite <- app_assoc. cbn [app].
           f_equal. f_equal. lia.
    + (* the row is before the seek row *)
      assert (Hskip : skip = S (Z.to_nat (sr - (row + 1 + 1))))
        by (unfold skip; lia).
      rewrite Hskip. cbn [skipn].
      destruct (Z.geb_spec (row + 1) (n - 1)) as [G2 | L2].
      * assert (kr = 0%nat) by lia. subst kr.
        cbn [repeat scan numbered]. rewrite skipn_nil, firstn_nil, app_nil_r.
        replace (Nat.min 1 (S (Z.to_nat (sr - (row + 1 + 1))) + need))
          with 1%nat by lia.
        cbn [repeat scan last]. reflexivity.
      * specialize (IH (add_delta cur tup) (row + 1) results ltac:(lia) Hk).
        cbv zeta in IH. rewrite IH. clear IH. fold need.
        replace (Nat.min (S kr) (S (Z.to_nat (sr - (row + 1 + 1))) + need))
          with (S (Nat.min kr (Z.to_nat (sr - (row + 1 + 1)) + need))) by lia.
        cbn [repeat scan]. rewrite last_cons_default.
        f_equal. f_equal. lia.
Qed.

Lemma replay_loop_seek (bs : list block) (post : list Z) :
  forall fuel buf n sr sd k row pos cur results,
    Forall (well_formed 6) bs ->
    forallb (block_fits 10) bs = true ->
    skipn pos buf = ser_blocks bs ++ post ->
    row + Z.of_nat (length (flatten bs)) = n - 1 ->
    (length bs < fuel)%nat ->
    replay_loop fuel buf n (Some sr) sd k row pos cur results
    = OK (results
            ++ firstn (Z.to_nat (k - Z.of_nat (length results)))
                 (skipn (Z.to_nat (sr - (row + 1)))
                    (numbered (row + 1)
                       (scan add_delta cur (map dec_tuple (flatten bs)))))).
Proof.
  induction bs as [| b bs IH]; intros fuel buf n sr sd k row pos cur results
                                      Hwf Hfit Hbuf Hn Hfuel.
  - cbn in Hn. destruct fuel; cbn [replay_loop];
      (destruct (Z.ltb_spec row (n - 1)); [lia |]); cbn [andb];
      cbn [flatten flat_map map scan numbered];
      rewrite skipn_nil, firstn_nil, app_nil_r; reflexivity.
  - destruct (Z.le_gt_cases k (Z.of_nat (length results))) as [Hdone | Hmore].
    { rewrite replay_loop_done by exact Hdone.
      replace (Z.to_nat (k - Z.of_nat (length results))) with 0%nat by lia.
      cbn [firstn]. rewrite app_nil_r. reflexivity. }
    apply Forall_cons_iff in Hwf. destruct Hwf as [Hb Hbs].
    pose proof Hb as [Hrows _].
    cbn [forallb] in Hfit. apply andb_true_iff in Hfit. destruct Hfit as [Hfb Hfbs].
    rewrite flatten_length_cons in Hn.
    destruct fuel as [| fuel]; [cbn in Hfuel; lia |].
    cbn [replay_loop].
    destruct (Z.ltb_spec row (n - 1)); [| lia].
    destruct (Z.ltb_spec (Z.of_nat (length results)) k); [| lia]. cbn [andb].
    rewrite ser_blocks_cons, <- app_assoc in Hbuf.
    rewrite (decode_block_ser b buf _ pos Hb Hbuf), Hfb. cbn [bind].
    pose proof (replay_run_seek (Z.to_nat (rows_of b)) (dec_tuple (b_tup b)) n sr sd k
                  cur row results ltac:(lia) ltac:(lia)) as Hrun.
    cbv zeta in Hrun. rewrite Hrun. clear Hrun.
    apply skipn_app_exact in Hbuf.
    set (kr := Z.to_nat (rows_of b)) in *.
    set (need := Z.to_nat (k - Z.of_nat (length results))) in *.
    set (skip := Z.to_nat (sr - (row + 1))) in *.
    rewrite flatten_cons, map_app, map_repeat, scan_app. fold kr.
    set (A := scan add_delta cur (repeat (dec_tuple (b_tup b)) kr)).
    assert (HA : length A = kr) by (subst A; rewrite scan_length; apply repeat_length).
    rewrite numbered_app, HA, skipn_app, numbered_length, HA, firstn_app.
    rewrite length_skipn, numbered_length, HA.
    set (P := skipn skip (numbered (row + 1) A)).
    assert (HP : length P = (kr - skip)%nat)
      by (subst P; rewrite length_skipn, numbered_length, HA; reflexivity).
    destruct (Nat.le_gt_cases kr (skip + need)) as [Hle | Hgt].
    + rewrite Nat.min_l by exact Hle. fold A.
      rewrite (IH fuel buf n sr sd k _ _ _ _ Hbs Hfbs Hbuf);
        [| lia | cbn [length] in Hfuel; lia].
      rewrite length_app, length_firstn, HP.
      rewrite (@firstn_all2 _ need P) by lia.
      rewrite <- app_assoc. do 2 f_equal.
      replace (Z.to_nat (k - Z.of_nat (length results + Nat.min need (kr - skip))))
        with (need - (kr - skip))%nat by (unfold need; lia).
      replace (Z.to_nat (sr - (row + Z.of_nat kr + 1))) with (skip - kr)%nat
        by (unfold skip; lia).
      replace (row + Z.of_nat kr + 1) with (row + 1 + Z.of_nat kr) by lia.
      reflexivity.
    + rewrite Nat.min_r by lia.
      rewrite replay_loop_done
        by (rewrite length_app, length_firstn, HP; unfold need in *; lia).
      replace (need - (kr - skip))%nat with 0%nat by lia.
      cbn [firstn]. rewrite app_nil_r. reflexivity.
Qed.

(* Replay from the boundary after [j] blocks towards a seek row at or
   after it: rows [sr, sr + k) of the decode, numbered. *)
Lemma replay_from_seek (bs : list block) (buf : list Z) (body : nat)
      (base : Bar) (n k sr : Z) (sd : option Z) (j : nat) (row : Z) (pos : nat)
      (cur : Bar) :
  Forall (well_formed 6) bs ->
  forallb (block_fits 10) bs = true ->
  skipn body buf = ser_blocks bs ->
  Z.of_nat (length (flatten bs)) = n - 1 ->
  (j <= length bs)%nat ->
  (row, pos, cur) = boundary add_delta 0 body base bs j ->
  row <= sr ->
  1 <= k ->
  replay_from buf row pos cur n (Some sr) sd k
  = OK (numbered sr
          (slice (Z.to_nat sr) (Z.to_nat k)
                 (base :: scan add_delta base (map dec_tuple (flatten bs))))).
Proof.
  intros Hwf Hfit Hbuf Hn Hj Hb Hsr Hk. unfold boundary in Hb.
  apply pair_inj in Hb. destruct Hb as [Hb Ecur].
  apply pair_inj in Hb. destruct Hb as [Erow Epos].
  rewrite Z.add_0_l in Erow.
  assert (Hwf' : Forall (well_formed 6) (skipn j bs)).
  { rewrite <- (firstn_skipn j bs) in Hwf. apply Forall_app in Hwf. apply Hwf. }
  assert (Hfit' : forallb (block_fits 10) (skipn j bs) = true).
  { rewrite <- (firstn_skipn j bs), forallb_app in Hfit.
    apply andb_true_iff in Hfit. apply Hfit. }
  assert (Hbuf' : skipn pos buf = ser_blocks (skipn j bs) ++ []).
  { rewrite Epos. apply skipn_boundary. rewrite app_nil_r. exact Hbuf. }
  assert (Hsplit : length (flatten bs)
                   = (length (flatten (firstn j bs)) + length (flatten (skipn j bs)))%nat).
  { rewrite <- (firstn_skipn j bs) at 1. rewrite flatten_app, length_app. reflexivity. }
  unfold replay_from.
  rewrite (replay_loop_seek (skipn j bs) [] _ buf n sr sd k row pos cur _
             Hwf' Hfit' Hbuf'); [| lia |].
  2:{ pose proof (ser_blocks_length (skipn j bs)) as Hl.
      assert (length (skipn pos buf) <= length buf)%nat
        by (rewrite length_skipn; lia).
      rewrite Hbuf', app_nil_r in H. lia. }
  set (rest := scan add_delta cur (map dec_tuple (flatten (skipn j bs)))).
  assert (Hfull : skipn (Z.to_nat row)
                    (base :: scan add_delta base (map dec_tuple (flatten bs)))
                  = cur :: rest).
  { rewrite Erow, Nat2Z.id, skipn_scan_boundary, <- Ecur. reflexivity. }
  unfold slice.
  replace (Z.to_nat sr) with (Z.to_nat (sr - row) + Z.to_nat row)%nat by lia.
  rewrite <- skipn_skipn, Hfull. f_equal.
  cbn [want_now].
  destruct (Z.geb_spec row sr) as [Hge | Hlt].
  - assert (sr = row) by lia. subst sr.
    replace (Z.to_nat (row - row)) with 0%nat by lia.
    replace (Z.to_nat (row - (row + 1))) with 0%nat by lia.
    cbn [skipn length].
    replace (Z.to_nat k) with (S (Z.to_nat (k - Z.of_nat 1))) by lia.
    cbn [firstn numbered app]. rewrite firstn_numbered. reflexivity.
  - cbn [length app].
    replace (Z.to_nat (sr - row)) with (S (Z.to_nat (sr - (row + 1)))) by lia.
    cbn [skipn]. rewrite Z.sub_0_r.
    rewrite skipn_numbered, firstn_numbered. f_equal. lia.
Qed.

End ReplaySeek01.

(** * Case-01: the replay script on the files of the encoder and of the
      index builder *)

Section Bisect.
Import Replay01.

Lemma sorted_map_rel {A B : Type} (R : B -> B -> Prop) (f : A -> B) (l : list A) :
  StronglySorted (fun x y => R (f x) (f y)) l -> StronglySorted R (map f l).
Proof.
  induction 1 as [| x l _ IH Hx]; cbn [map]; constructor; [exact IH |].
  apply Forall_map. exact Hx.
Qed.

Lemma sorted_lt_nth (l : list Z) :
  StronglySorted Z.lt l ->
  forall i j, (i < j < length l)%nat -> nth i l 0 < nth j l 0.
Proof.
  induction 1 as [| x l _ IH Hx]; intros i j Hij; [cbn in Hij; lia |].
  destruct j as [| j]; [lia |]. cbn [length] in Hij.
  destruct i as [| i]; cbn [nth].
  - rewrite Forall_forall in Hx. apply Hx. apply nth_In. lia.
  - apply IH. lia.
Qed.

(* The binary search on keys in non-decreasing order: the keys before
   the position returned are at most [x], those from it on are above. *)
Lemma bisect_loop_spec (a : list Z) (x : Z) :
  (forall i j, (i <= j < length a)%nat -> nth i a 0 <= nth j a 0) ->
  forall fuel lo hi,
    (lo <= hi <= length a)%nat -> (hi - lo < fuel)%nat ->
    (forall i, (i < lo)%nat -> nth i a 0 <= x) ->
    (forall i, (hi <= i < length a)%nat -> x < nth i a 0) ->
    let j := bisect_loop fuel a x lo hi in
    (lo <= j <= hi)%nat
    /\ (forall i, (i < j)%nat -> nth i a 0 <= x)
    /\ (forall i, (j <= i < length a)%nat -> x < nth i a 0).
Proof.
  intros Hmono. induction fuel as [| fuel IH]; intros lo hi Hb Hf Hlo Hhi;
    [lia |].
  cbv zeta. cbn [bisect_loop].
  destruct (Nat.ltb_spec lo hi) as [L | G].
  - assert (Hmid : (lo <= (lo + hi) / 2 < hi)%nat).
    { split.
      - apply Nat.div_le_lower_bound; lia.
      - apply Nat.Div0.div_lt_upper_bound; lia. }
    set (mid := ((lo + hi) / 2)%nat) in *.
    destruct (Z.ltb_spec x (nth mid a 0)) as [Hx | Hx].
    + specialize (IH lo mid ltac:(lia) ltac:(lia) Hlo).
      cbv zeta in IH. destruct IH as (H1 & H2 & H3).
      { intros i Hi. specialize (Hmono mid i ltac:(lia)). lia. }
      split; [lia |]. split; assumption.
    + specialize (IH (mid + 1)%nat hi ltac:(lia) ltac:(lia)).
      cbv zeta in IH. destruct IH as (H1 & H2 & H3).
      { intros i Hi. specialize (Hmono i mid ltac:(lia)). lia. }
      { exact Hhi. }
      split; [lia |]. split; assumption.
  - split; [lia |]. split; [exact Hlo |].
    intros i Hi. apply Hhi. lia.
Qed.

Lemma bisect_right_spec (a : list Z) (x : Z) :
  StronglySorted Z.lt a ->
  let j := bisect_right a x in
  (j <= length a)%nat
  /\ (forall i, (i < j)%nat -> nth i a 0 <= x)
  /\ (forall i, (j <= i < length a)%nat -> x < nth i a 0).
Proof.
  intros Hs. cbv zeta. unfold bisect_right.
  destruct (bisect_loop_spec a x) with (fuel := S (length a)) (lo := 0%nat)
                                        (hi := length a) as (H1 & H2 & H3);
    try lia.
  - intros i j Hij. destruct (Nat.eq_dec i j) as [-> | Hne]; [lia |].
    pose proof (sorted_lt_nth a Hs i j ltac:(lia)). lia.
  - split; [lia |]. split; assumption.
Qed.

End Bisect.

Section Script01Seek.
Import Prim Wire Case01 Blocks01 Index01 Replay01 WriteIndex01 IndexFile01.
Variable date_to_days : string -> option Z.
Variable fmt_bar : Bar -> Z -> option string.

(* The rows are printed in order when the formatter returns on each. *)
Lemma print_rows_total (ps : Z) (rows : list (Z * Bar)) :
  (forall p, In p rows -> fmt_bar (snd p) ps <> None) ->
  forall out,
    print_rows fmt_bar rows ps out
    = (out ++ map (fun p => LBar (ReplaySpec.shown (fmt_bar (snd p) ps))) rows,
       OK tt).
Proof.
  induction rows as [| [i b] rows IH]; intros Hf out.
  - cbn. rewrite app_nil_r. reflexivity.
  - cbn [print_rows map snd].
    pose proof (Hf (i, b) (or_introl eq_refl)) as H0. cbn [snd] in H0.
    destruct (fmt_bar b ps) as [s |] eqn:Es; [| contradiction].
    rewrite IH, <- app_assoc; [reflexivity |].
    intros p Hp. apply Hf. right. exact Hp.
Qed.

(* The printing stops at the first row on which the formatter raises. *)
Lemma print_rows_fail (ps : Z) (rows : list (Z * Bar)) :
  forall j p out,
    nth_error rows j = Some p ->
    (forall q, In q (firstn j rows) -> fmt_bar (snd q) ps <> None) ->
    fmt_bar (snd p) ps = None ->
    print_rows fmt_bar rows ps out
    = (out ++ map (fun p => LBar (ReplaySpec.shown (fmt_bar (snd p) ps)))
                  (firstn j rows),
       Err DateError).
Proof.
  induction rows as [| [i b] rows IH]; intros j p out Hj Hf Hn.
  - destruct j; discriminate.
  - destruct j as [| j].
    + injection Hj as <-. cbn [snd] in Hn. cbn [print_rows firstn map].
      rewrite Hn, app_nil_r. reflexivity.
    + cbn [nth_error] in Hj. cbn [print_rows firstn map snd].
      pose proof (Hf (i, b) (or_introl eq_refl)) as H0. cbn [snd] in H0.
      destruct (fmt_bar b ps) as [s |] eqn:Es; [| contradiction].
      rewrite (IH j p), <- app_assoc; [reflexivity | exact Hj | | exact Hn].
      intros q Hq. apply Hf. right. exact Hq.
Qed.

Lemma map_snd_numbered {A : Type} (l : list A) : forall lo,
  map snd (numbered lo l) = l.
Proof. induction l as [| x l IH]; intros lo; cbn; [| rewrite IH]; reflexivity. Qed.

(* The files of the encoder and of the index builder, then a seek by
   row: the rows that the replay script hands to its print loop. *)
Lemma main_seek_row (b0 : Bar) (rest : list Bar)
      (ps ae r k : Z) (idx : list Z) (full : list Bar) (meta : Z * option Z) :
  0 <= ps ->
  WriteIndex01.main (encoded b0 rest ps) ae = OK idx ->
  decode_star (encoded b0 rest ps) = OK (full, meta) ->
  0 <= r -> 1 <= k ->
  let rows := slice (Z.to_nat r) (Z.to_nat k) full in
  Replay01.main date_to_days fmt_bar (encoded b0 rest ps) idx
                (mkArgs (Some r) None k)
  = print_rows fmt_bar (numbered r rows) ps [LFromRow r (length rows)].
Proof.
  intros Hps Hmain Hdec Hr Hk. cbv zeta.
  unfold WriteIndex01.main in Hmain.
  destruct (build_index (encoded b0 rest ps) ae) as [[n anchors] |] eqn:Hidx;
    cbn [bind] in Hmain; [| discriminate].
  destruct (build_index_encoded b0 rest ps ae n anchors Hps Hidx)
    as (Hn & Hhdr & Hfits & _).
  destruct (build_index_sorted01 b0 rest ps ae n anchors Hps Hidx)
    as (js & Hanch & Hsorted & Hle).
  set (bs := body_blocks b0 rest) in *.
  set (body := length (header (Z.of_nat (S (length rest))) ps b0)) in *.
  set (JS := (0%nat :: js ++ (if Nat.eqb (length bs) 0 then [] else [length bs])))
    in *.
  set (B := boundary add_delta 0 body (base_of b0) bs) in *.
  assert (Hwf : Forall (well_formed 6) bs) by apply body_blocks_well_formed.
  assert (Hflat : Z.of_nat (length (flatten bs)) = n - 1).
  { subst bs. rewrite body_blocks_flatten, deltas_from_length. lia. }
(* the full decode *)
rewrite decode_star_encoded in Hdec by exact Hps.
rewrite <- Hn, Hhdr in Hdec. fold bs in Hdec. rewrite Hfits in Hdec.
cbn [andb] in Hdec. apply OK_inj, pair_inj in Hdec. destruct Hdec as [<- _].
rewrite <- body_blocks_flatten. fold bs.
(* the header and the index, as main reads them *)
assert (Hp : parse_star1_header (encoded b0 rest ps)
             = OK (n, ps, base_of b0, body)).
{ unfold encoded. rewrite parse_header_encoded by lia.
  pose proof Hhdr as Hhdr'. rewrite Hn in Hhdr'. rewrite Hhdr', Hn.
  reflexivity. }
pose proof (load_write_index01 ae n anchors idx Hmain) as Hload.
unfold Replay01.main. cbn [a_seek_row a_seek_time a_rows].
rewrite Hp, Hload. rewrite Z.eqb_refl. cbn [negb].
(* the anchor that the binary search selects *)
set (keys := map (fun a : anchor => fst (fst a)) anchors).
assert (Hkeys : StronglySorted Z.lt keys).
{ unfold keys. apply sorted_map_rel. rewrite Hanch.
  apply (boundary_rows_sorted add_delta 6); assumption. }
destruct (bisect_right_spec keys r Hkeys) as (Hj1 & Hbefore & Hafter).
set (j1 := bisect_right keys r) in *.
assert (Hlen : length keys = length JS)
  by (unfold keys; rewrite Hanch, !length_map; reflexivity).
assert (Hk0 : nth 0 keys 0 = 0).
{ unfold keys. rewrite Hanch. unfold JS. cbn [map nth]. unfold B.
  rewrite boundary_0. reflexivity. }
assert (Hj1pos : (1 <= j1)%nat).
{ destruct j1 as [| j1']; [| lia].
  specialize (Hafter 0%nat). rewrite Hk0 in Hafter.
  assert (0 < length keys)%nat by (rewrite Hlen; unfold JS; cbn [length]; lia).
  specialize (Hafter ltac:(lia)). lia. }
set (jj := nth (j1 - 1) JS 0%nat).
assert (HjjIn : In jj JS) by (apply nth_In; lia).
assert (Hjjle : (jj <= length bs)%nat)
  by (rewrite Forall_forall in Hle; apply Hle; exact HjjIn).
assert (Hnth : nth_error (map loaded anchors) (j1 - 1) = Some (loaded (B jj))).
{ rewrite Hanch, !nth_error_map.
  rewrite (nth_error_nth' JS 0%nat) by lia. reflexivity. }
rewrite Hnth.
assert (Hrow : fst (fst (B jj)) <= r).
{ specialize (Hbefore (j1 - 1)%nat ltac:(lia)).
  unfold keys in Hbefore. rewrite Hanch, map_map in Hbefore.
  rewrite (nth_indep _ 0 (fst (fst (B 0%nat)))) in Hbefore
    by (rewrite length_map; lia).
  rewrite (map_nth (fun j => fst (fst (B j)))) in Hbefore. exact Hbefore. }
destruct (B jj) as [[a_row a_off] a_bar] eqn:EB. cbn [loaded fst] in *.
rewrite Nat2Z.id.
rewrite (replay_from_seek bs (encoded b0 rest ps) body (base_of b0) n k r None
           jj a_row a_off a_bar Hwf Hfits (skipn_encoded_body b0 rest ps)
           Hflat Hjjle (eq_sym EB) Hrow Hk).
rewrite numbered_length. reflexivity.
Qed.

Lemma firstn_numbered_map {A : Type} (l : list A) (lo : Z) (j : nat) :
  map snd (firstn j (numbered lo l)) = firstn j l.
Proof. rewrite <- firstn_map, map_snd_numbered. reflexivity. Qed.

End Script01Seek.

(** * Case-02: replay towards a row where a block starts *)

Section ReplaySeek02.
Import Prim Wire Case02 Blocks02 Index02 Replay02 Boundary02.

(* a run passed over whole *)
Lemma skip_run_full (kr : nat) (tup : list Z) (seek : Z) : forall cur row,
  row + Z.of_nat kr <= seek ->
  skip_run kr tup seek cur row
  = (last (scan add_delta cur (repeat tup kr)) cur, row + Z.of_nat kr).
Proof.
  induction kr as [| kr IH]; intros cur row H.
  - cbn. rewrite Z.add_0_r. reflexivity.
  - cbn [skip_run]. destruct (Z.geb_spec row seek); [lia |].
    rewrite IH by lia. cbn [repeat scan]. rewrite last_cons_default.
    f_equal. lia.
Qed.

(* The walk from an anchor to a seek row that whole blocks reach. *)
Lemma skip_loop_blocks (bs : list block) (post : list Z) :
  forall fuel buf seek row pos cur,
    Forall (well_formed 8) bs ->
    forallb (block_fits 11) bs = true ->
    skipn pos buf = ser_blocks bs ++ post ->
    row + Z.of_nat (length (flatten bs)) = seek ->
    (length bs < fuel)%nat ->
    skip_loop fuel buf seek row pos cur
    = OK (seek, (pos + length (ser_blocks bs))%nat,
          last (scan add_delta cur (map dec_tuple (flatten bs))) cur).
Proof.
  induction bs as [| b bs IH]; intros fuel buf seek row pos cur
                                      Hwf Hfit Hbuf Hn Hfuel.
  - cbn in Hn. rewrite skip_loop_done by lia. cbn.
    rewrite Nat.add_0_r. f_equal. f_equal. f_equal. lia.
  - apply Forall_cons_iff in Hwf. destruct Hwf as [Hb Hbs].
    pose proof Hb as [Hrows _].
    cbn [forallb] in Hfit. apply andb_true_iff in Hfit. destruct Hfit as [Hfb Hfbs].
    rewrite flatten_length_cons in Hn.
    destruct fuel as [| fuel]; [cbn in Hfuel; lia |].
    cbn [skip_loop].
    destruct (Z.ltb_spec row seek); [| lia].
    rewrite ser_blocks_cons, <- app_assoc in Hbuf.
    rewrite (read_block_ser b buf _ pos Hb Hbuf), Hfb. cbn [bind].
    assert (Hstep :
      (if b_rle b
       then skip_run (Z.to_nat (rows_of b)) (dec_tuple (b_tup b)) seek cur row
       else (add_delta cur (dec_tuple (b_tup b)), row + 1))
      = (last (scan add_delta cur
                 (repeat (dec_tuple (b_tup b)) (Z.to_nat (rows_of b)))) cur,
         row + Z.of_nat (Z.to_nat (rows_of b)))).
    { unfold rows_of in *. destruct (b_rle b).
      - apply skip_run_full. lia.
      - reflexivity. }
    rewrite Hstep. clear Hstep.
    set (kr := Z.to_nat (rows_of b)) in *.
    apply skipn_app_exact in Hbuf.
    rewrite (IH fuel buf seek _ _ _ Hbs Hfbs Hbuf);
      [| lia | cbn [length] in Hfuel; lia].
    rewrite flatten_cons, map_app, map_repeat, scan_app, last_app_default.
    fold kr. rewrite ser_blocks_cons, length_app. f_equal. f_equal. f_equal. lia.
Qed.

(* The anchor chosen is one of the list, at or before the seek row
   when the first anchor is. *)
Lemma best_anchor_spec (seek : Z) (anchors : list anchor) : forall k best,
  let i := best_anchor anchors seek k best in
  i = best
  \/ ((k <= i)%nat
      /\ exists A, nth_error anchors (i - k) = Some A /\ anchor_row A <= seek).
Proof.
  induction anchors as [| [[r o] t] rest IH]; intros k best; cbv zeta;
    [left; reflexivity |].
  cbn [best_anchor]. destruct (Z.leb_spec r seek) as [Hle | Hgt];
    [| left; reflexivity].
  right. specialize (IH (S k) k). cbv zeta in IH.
  destruct IH as [-> | (Hk & A & HA & Hr)].
  - split; [lia |]. exists (r, o, t). rewrite Nat.sub_diag.
    split; [reflexivity | exact Hle].
  - split; [lia |]. exists A. split; [| exact Hr].
    replace (best_anchor rest seek (S k) k - k)%nat
      with (S (best_anchor rest seek (S k) k - S k)) by lia.
    exact HA.
Qed.

Lemma best_anchor_le (seek : Z) (A0 : anchor) (rest : list anchor) :
  anchor_row A0 <= seek ->
  exists A,
    nth_error (A0 :: rest) (best_anchor (A0 :: rest) seek 0 0) = Some A
    /\ anchor_row A <= seek.
Proof.
  intros H0.
  destruct (best_anchor_spec seek (A0 :: rest) 0 0) as [E | (_ & A & HA & Hr)].
  - cbv zeta in E. rewrite E. exists A0. split; [reflexivity | exact H0].
  - cbv zeta in HA. rewrite Nat.sub_0_r in HA. exists A. split; assumption.
Qed.

(* Replay of [k] rows from the row that [j1] whole blocks reach,
   through an index whose first anchor is the start of the body. *)
Lemma replay_loaded_boundary (bs : list block) (buf : list Z) (body : nat)
      (base : AirTick) (n k : Z) (js : list nat) (j1 : nat) :
  Forall (well_formed 8) bs ->
  forallb (block_fits 11) bs = true ->
  skipn body buf = ser_blocks bs ->
  Z.of_nat (length (flatten bs)) = n - 1 ->
  Forall (fun j => j <= length bs)%nat js ->
  (j1 <= length bs)%nat ->
  1 <= k ->
  let s := Z.of_nat (length (flatten (firstn j1 bs))) in
  replay_loaded buf n (map (boundary add_delta 0 body base bs) (0%nat :: js))
                (Some s) k
  = OK (slice (Z.to_nat s) (Z.to_nat k)
              (base :: scan add_delta base (map dec_tuple (flatten bs)))).
Proof.
  intros Hwf Hfit Hbuf Hn Hr Hj1 Hk. cbv zeta.
  set (s := Z.of_nat (length (flatten (firstn j1 bs)))).
  set (B := boundary add_delta 0 body base bs).
  assert (Hsn : 0 <= s <= n - 1).
  { unfold s. split; [lia |]. rewrite <- Hn.
    rewrite <- (firstn_skipn j1 bs) at 2. rewrite flatten_app, length_app. lia. }
  unfold replay_loaded.
  destruct (Z.eqb_spec n 0) as [E | _]; [lia |].
  destruct (Z.ltb_spec s 0); [lia |].
  destruct (Z.geb_spec s n); [lia |].
  cbn [map].
  destruct (best_anchor_le s (B 0%nat) (map B js)) as (A & HA & HAle).
  { unfold B, anchor_row. rewrite boundary_0. cbn [fst]. lia. }
  unfold anchor in *. rewrite HA.
  assert (HAin : In A (map B (0%nat :: js))) by (eapply nth_error_In; exact HA).
  apply in_map_iff in HAin. destruct HAin as (j0 & HB & Hj0).
  assert (Hj0le : (j0 <= length bs)%nat).
  { destruct Hj0 as [<- | Hj0]; [lia |].
    rewrite Forall_forall in Hr. apply Hr, Hj0. }
  subst A. unfold B, boundary, anchor_row in HAle. cbn [fst] in HAle.
  rewrite Z.add_0_l in HAle.
  assert (Hj01 : (j0 <= j1)%nat).
  { destruct (Nat.le_gt_cases j0 j1) as [L | G]; [exact L |].
    pose proof (flatten_firstn_mono 8 bs Hwf j1 j0 G Hj0le). unfold s in HAle. lia. }
  unfold B at 1. unfold boundary at 1.
(* the blocks between the anchor and the seek row *)
set (mid := firstn (j1 - j0) (skipn j0 bs)).
assert (Hsplit1 : firstn j1 bs = firstn j0 bs ++ mid).
{ unfold mid. rewrite <- (firstn_skipn j0 (firstn j1 bs)).
  rewrite firstn_firstn, Nat.min_l by lia.
  rewrite skipn_firstn_comm. reflexivity. }
assert (Hsplit2 : skipn j0 bs = mid ++ skipn j1 bs).
{ unfold mid. rewrite <- (firstn_skipn (j1 - j0) (skipn j0 bs)) at 1.
  rewrite skipn_skipn. replace (j1 - j0 + j0)%nat with j1 by lia. reflexivity. }
assert (Hwf0 : Forall (well_formed 8) (skipn j0 bs)).
{ rewrite <- (firstn_skipn j0 bs) in Hwf. apply Forall_app in Hwf. apply Hwf. }
assert (Hfit0 : forallb (block_fits 11) (skipn j0 bs) = true).
{ rewrite <- (firstn_skipn j0 bs), forallb_app in Hfit.
  apply andb_true_iff in Hfit. apply Hfit. }
rewrite Hsplit2 in Hwf0, Hfit0.
apply Forall_app in Hwf0. destruct Hwf0 as [Hwfm Hwf1].
rewrite forallb_app in Hfit0. apply andb_true_iff in Hfit0.
destruct Hfit0 as [Hfitm Hfit1].
assert (Hbuf0 : skipn (body + length (ser_blocks (firstn j0 bs))) buf
                = ser_blocks mid ++ ser_blocks (skipn j1 bs)).
{ rewrite <- ser_blocks_app, <- Hsplit2.
  rewrite <- (app_nil_r (ser_blocks (skipn j0 bs))).
  apply skipn_boundary. rewrite app_nil_r. exact Hbuf. }
assert (Hmidlen : (length mid <= length buf)%nat).
{ pose proof (ser_blocks_length mid) as Hl.
  assert (length (skipn (body + length (ser_blocks (firstn j0 bs))) buf)
          <= length buf)%nat by (rewrite length_skipn; lia).
  rewrite Hbuf0, length_app in H1. lia. }
rewrite (skip_loop_blocks mid _ _ buf s _ _ _ Hwfm Hfitm Hbuf0);
  [| | lia].
2:{ unfold s. rewrite Hsplit1, flatten_app, length_app. lia. }
cbn [bind].
apply skipn_app_exact in Hbuf0.
assert (Hbuf1 : skipn (body + length (ser_blocks (firstn j0 bs))
                       + length (ser_blocks mid)) buf
                = ser_blocks (skipn j1 bs) ++ [])
  by (rewrite app_nil_r; exact Hbuf0).
assert (Hrest : s + Z.of_nat (length (flatten (skipn j1 bs))) = n - 1).
{ unfold s. rewrite <- Hn. rewrite <- (firstn_skipn j1 bs) at 3.
  rewrite flatten_app, length_app. lia. }
rewrite (emit_loop_spec (skipn j1 bs) [] _ buf n (Z.min n (s + k)) s _ _ _
           Hwf1 Hfit1 Hbuf1 Hrest); [| lia |].
2:{ pose proof (ser_blocks_length (skipn j1 bs)) as Hl.
    assert (length (skipn (body + length (ser_blocks (firstn j0 bs))
                           + length (ser_blocks mid)) buf) <= length buf)%nat
      by (rewrite length_skipn; lia).
    rewrite Hbuf1, app_nil_r in H1. lia. }
(* the state after the walk is the boundary after [j1] blocks *)
set (cur0 := last (scan add_delta base (map dec_tuple (flatten (firstn j0 bs))))
                  base).
assert (Hcur : last (scan add_delta cur0 (map dec_tuple (flatten mid))) cur0
               = last (scan add_delta base
                         (map dec_tuple (flatten (firstn j1 bs)))) base).
{ rewrite Hsplit1, flatten_app, map_app, scan_app, last_app_default.
  reflexivity. }
rewrite Hcur. f_equal.
unfold slice, s. rewrite Nat2Z.id, skipn_scan_boundary.
set (cur := last (scan add_delta base (map dec_tuple (flatten (firstn j1 bs))))
                 base).
set (rest := scan add_delta cur (map dec_tuple (flatten (skipn j1 bs)))).
assert (Hlr : Z.of_nat (length rest) = n - 1 - s).
{ unfold rest. rewrite scan_length, length_map. lia. }
fold s.
replace (Z.to_nat k) with (S (Z.to_nat (k - 1))) by lia.
cbn [firstn app]. f_equal.
destruct (Z.le_gt_cases (s + k) n) as [Hin | Hout].
- rewrite Z.min_r by lia. f_equal. lia.
- rewrite Z.min_l by lia.
  rewrite !firstn_all2 by lia. reflexivity.
Qed.

End ReplaySeek02.

Section ReplaySeek02Files.
Import Prim Wire Case02 Blocks02 Index02 Replay02 Boundary02.

(* Through the index file, towards the row of any anchor that some
   index over the same file holds. *)
Lemma replay_seek_boundary02 (ticks : list AirTick) (ae ae' n : Z)
      (blob idx : list Z) (anchors' : list anchor) (s : Z) (off : nat)
      (cur : AirTick) (full : list AirTick) (k : Z) :
  encode_star ticks = Some blob ->
  build_index blob ae = OK idx ->
  build_anchors blob ae' = OK (n, anchors') ->
  In (s, off, cur) anchors' ->
  decode_star blob = OK full ->
  1 <= k ->
  replay_seek blob idx (Some s) k
  = OK (slice (Z.to_nat s) (Z.to_nat k) full).
Proof.
  intros Henc Hidx Hanch' Hin Hdec Hk.
  unfold build_index in Hidx.
  destruct (build_anchors blob ae) as [[n0 anchors] |] eqn:Hanch;
    cbn [bind] in Hidx; [| discriminate].
  apply load_write_index in Hidx.
  unfold replay_seek. rewrite Hidx. cbn [bind].
  destruct (encode_star_cases02 _ _ Henc) as [[-> ->] | (base & rest & -> & ->)].
  - apply build_anchors_empty in Hanch. destruct Hanch as [-> ->].
    apply build_anchors_empty in Hanch'. destruct Hanch' as [-> ->].
    destruct Hin as [E | []]. injection E as <- _ _.
    cbn in Hdec. apply OK_inj in Hdec. subst full.
    unfold slice. change (Z.to_nat 0) with 0%nat. cbn [skipn].
    rewrite firstn_nil. reflexivity.
  - destruct (build_anchors_encoded base rest ae n0 anchors Hanch)
      as (Hn0 & Hhdr & Hfits & js & -> & Hsorted & Hrange).
    destruct (build_anchors_encoded base rest ae' n anchors' Hanch')
      as (Hn & _ & _ & js' & -> & _ & Hrange').
    rewrite decode_star_encoded02 in Hdec.
    rewrite <- Hn0, Hhdr, Hfits in Hdec. cbn [andb] in Hdec.
    apply OK_inj in Hdec. subst full.
    destruct (header_parse02 (Z.of_nat (S (length rest))) base
                (ser_blocks (body_blocks base rest)) ltac:(lia)) as (Hm & _ & _).
    cbv zeta in Hm. fold (encoded base rest) in Hm. rewrite Hm. cbn [negb].
    rewrite <- body_blocks_flatten02.
    apply in_map_iff in Hin. destruct Hin as (j1 & HB & Hj1).
    rewrite Forall_forall in Hrange'. specialize (Hrange' j1 Hj1).
    unfold boundary in HB. injection HB as <- _ _.
    change (0 + Z.of_nat (length (flatten (firstn j1 (body_blocks base rest)))))
      with (Z.of_nat (length (flatten (firstn j1 (body_blocks base rest))))).
    apply Forall_cons_iff in Hrange. destruct Hrange as [_ Hrange].
    apply replay_loaded_boundary; try assumption.
    + apply body_blocks_well_formed02.
    + apply skipn_encoded_body02.
    + rewrite body_blocks_flatten02, deltas_from_length02. lia.
Qed.

End ReplaySeek02Files.

(** * Case-01: the anchors of an index, as a whole *)

Section Anchors01Structure.
Import Prim Wire Case01 Blocks01 Index01.

Lemma anchors01_structure (b0 : Bar) (rest : list Bar) (ps ae n : Z)
      (anchors : list anchor) (full : list Bar) (meta : Z * option Z) :
  0 <= ps ->
  build_index (encoded b0 rest ps) ae = OK (n, anchors) ->
  decode_star (encoded b0 rest ps) = OK (full, meta) ->
  n = Z.of_nat (length full)
  /\ StronglySorted (fun a b : anchor => fst (fst a) < fst (fst b)) anchors
  /\ Forall (fun a : anchor =>
               0 <= fst (fst a) <= n - 1
               /\ nth_error full (Z.to_nat (fst (fst a))) = Some (snd a))
            anchors
  /\ (exists off cur, nth_error anchors 0 = Some (0, off, cur))
  /\ last_row anchors = n - 1.
Proof.
  intros Hps Hidx Hdec.
  destruct (build_index_encoded b0 rest ps ae n anchors Hps Hidx)
    as (Hn & Hhdr & Hfits & _).
  destruct (build_index_sorted01 b0 rest ps ae n anchors Hps Hidx)
    as (js & Hanch & Hsorted & Hle).
  set (bs := body_blocks b0 rest) in *.
  set (body := length (header (Z.of_nat (S (length rest))) ps b0)) in *.
  set (JS := (0%nat :: js ++ (if Nat.eqb (length bs) 0 then [] else [length bs])))
    in *.
  set (B := boundary add_delta 0 body (base_of b0) bs) in *.
  assert (Hwf : Forall (well_formed 6) bs) by apply body_blocks_well_formed.
  assert (Hflat : Z.of_nat (length (flatten bs)) = n - 1).
  { subst bs. rewrite body_blocks_flatten, deltas_from_length. lia. }
  rewrite decode_star_encoded in Hdec by exact Hps.
  rewrite <- Hn, Hhdr in Hdec. fold bs in Hdec. rewrite Hfits in Hdec.
  cbn [andb] in Hdec. apply OK_inj, pair_inj in Hdec. destruct Hdec as [<- _].
  rewrite <- body_blocks_flatten. fold bs.
  split.
  { cbn [length]. rewrite scan_length, length_map. lia. }
  split.
  { rewrite Hanch. apply (boundary_rows_sorted add_delta 6); assumption. }
  split.
  { rewrite Hanch. apply Forall_map. apply Forall_forall. intros j Hj.
    destruct (B j) as [[row off] cur] eqn:EB. cbn [fst snd].
    destruct (boundary_snapshot add_delta (base_of b0) body bs j row off cur
                (eq_sym EB)) as [Hsnap Hrow].
    split; [lia | exact Hsnap]. }
  split.
  { rewrite Hanch. unfold JS. cbn [map nth_error]. unfold B.
    rewrite boundary_0. eexists. eexists. reflexivity. }
  rewrite Hanch. unfold last_row.
  rewrite (last_map_ne B JS 0%nat) by (unfold JS; discriminate).
  assert (Hl : last JS 0%nat = length bs).
  { unfold JS. destruct (Nat.eqb_spec (length bs) 0) as [E | N].
    - rewrite app_nil_r.
      destruct js as [| j js']; [cbn; lia |].
      exfalso. apply Forall_cons_iff in Hle. destruct Hle as [_ Hle].
      apply Forall_app in Hle. destruct Hle as [Hle _].
      apply StronglySorted_inv in Hsorted. destruct Hsorted as [_ H0].
      apply Forall_app in H0. destruct H0 as [H0 _].
      apply Forall_inv in Hle. apply Forall_inv in H0. lia.
    - change (0%nat :: js ++ [length bs]) with ((0%nat :: js) ++ [length bs]).
      apply last_app_single. }
  rewrite Hl. unfold B. rewrite boundary_all. cbn [fst]. lia.
Qed.

End Anchors01Structure.

(** * Further properties of the code *)

Section VarintOnAnyBuffer.
Import Prim Wire Binding.

(** Property X1.  The varint reader with the limit 63 (Case-01, its
    index builder and replay, and [read_uvarint] of Case-04), on any
    buffer and from any position: it fails as truncated exactly when
    at most nine bytes are left and each carries the continuation bit,
    as too long exactly when the next ten bytes all carry it, and in
    no other way; when it returns, it has consumed between one and
    ten bytes, all inside the buffer, and the value is that of the
    seven-bit groups of those bytes, low group first, never
    negative. *)
Theorem varint_reader_outcomes (buf : list Z) (i : nat) :
  (Case01.varint_decode buf i = Err TruncatedVarint
   <-> forallb cont (skipn i buf) = true /\ (length (skipn i buf) <= 9)%nat)
  /\ (Case01.varint_decode buf i = Err Overlong
      <-> (10 <= length (skipn i buf))%nat
          /\ forallb cont (firstn 10 (skipn i buf)) = true)
  /\ (forall e, Case01.varint_decode buf i = Err e ->
                e = TruncatedVarint \/ e = Overlong)
  /\ (forall u j, Case01.varint_decode buf i = OK (u, j) ->
                  (i < j <= i + 10)%nat /\ (j <= length buf)%nat
                  /\ u = leb128_value (firstn (j - i) (skipn i buf))
                  /\ 0 <= u).
Proof.
  unfold Case01.varint_decode.
  split; [apply varint63_truncated_iff |].
  split; [apply varint63_overlong_iff |].
  split.
  - intros e H. unfold varint_decode_with in H.
    eapply varint_loop_errors. exact H.
  - intros u j H. pose proof (varint_decode_with_nonneg _ _ _ _ _ H) as Hu.
    apply varint63_ok in H. destruct H as (H1 & H2 & H3 & _).
    repeat split; try lia; assumption.
Qed.

(** Property X2.  The varint writer returns for every non-negative
    integer; what it writes are bytes, as many as the value has
    started groups of seven bits; and a reader with the largest shift
    [limit], placed on those bytes anywhere in a buffer, returns the
    value and the position after them when the value is below
    2^(7 * (limit / 7 + 1)), and fails as too long otherwise. *)
Theorem varint_write_read (u limit : Z) (pre post : list Z) :
  0 <= u -> 0 <= limit ->
  exists bs,
    varint_encode u = Some bs
    /\ Forall is_byte bs
    /\ (forall k, 1 <= k -> (Z.of_nat (length bs) <= k <-> u < 2 ^ (7 * k)))
    /\ varint_decode_with limit (pre ++ bs ++ post) (length pre)
       = if u <? 2 ^ (7 * (limit / 7 + 1))
         then OK (u, (length pre + length bs)%nat)
         else Err Overlong.
Proof.
  intros Hu Hl. exists (venc u).
  split; [apply varint_encode_some, Hu |].
  split; [apply venc_bytes, Hu |].
  split; [apply venc_length_le, Hu |].
  apply (varint_decode_with_venc limit _ post); try assumption.
  rewrite skipn_app, skipn_all, Nat.sub_diag. reflexivity.
Qed.

Lemma varint_write_read_witness :
  exists bs,
    varint_encode 300 = Some bs
    /\ Forall is_byte bs
    /\ (forall k, 1 <= k -> (Z.of_nat (length bs) <= k <-> 300 < 2 ^ (7 * k)))
    /\ varint_decode_with 63 ([83; 84] ++ bs ++ [1]) (length [83; 84])
       = if 300 <? 2 ^ (7 * (63 / 7 + 1))
         then OK (300, (length [83; 84] + length bs)%nat)
         else Err Overlong.
Proof. apply (varint_write_read 300 63 [83; 84] [1]); lia. Defined.

End VarintOnAnyBuffer.

Section DecodedRows.
Import Prim Struct Samples.

(** Property X3.  Whatever the buffer, when the Case-01 decoder
    returns, it returns at least as many rows as the header announces
    (the count it reports); none when the header announces none; and
    otherwise the first row is the base row of the header, as the
    index builder parses it, and the price scale reported is the one
    of the header. *)
Theorem decode_star_at_least_n (buf : list Z) (bars : list Case01.Bar)
        (meta : Z * option Z) :
  Case01.decode_star buf = OK (bars, meta) ->
  fst meta <= Z.of_nat (length bars)
  /\ (fst meta = 0 -> bars = [] /\ snd meta = None)
  /\ (fst meta <> 0 ->
      exists price_scale base body more,
        Index01.parse_star1_header buf = OK (fst meta, price_scale, base, body)
        /\ snd meta = Some price_scale
        /\ bars = base :: more).
Proof.
  unfold Case01.decode_star, Index01.parse_star1_header. intros H.
  destruct (negb (tuple_eqb (firstn 5 buf) Case01.MAGIC)); [discriminate |].
  destruct (Case01.varint_decode buf 5) as [[n i] |]; cbn [bind] in H;
    [| discriminate].
  cbn [bind].
  destruct (Z.eqb_spec n 0) as [E | NE].
  - apply OK_inj, pair_inj in H. destruct H as [<- <-]. cbn [fst snd length].
    split; [lia |]. split; [auto | intros C; contradiction].
  - destruct (Case01.varint_decode buf i) as [[ps i1] |]; cbn [bind] in H |- *;
      [| discriminate].
    destruct (read_tuple_with 63 6 buf i1) as [[base i2] |];
      cbn [bind] in H |- *; [| discriminate].
    destruct (Case01.decode_body _ buf i2 n _) as [r |] eqn:Er; cbn [bind] in H;
      [| discriminate].
    apply OK_inj, pair_inj in H. destruct H as [<- <-].
    apply decode_body_atleast01 in Er. destruct Er as (Hn & more & ->).
    cbn [fst snd bind]. split; [exact Hn |].
    split; [intros C; contradiction |].
    intros _. exists ps, (Case01.bar_of_fields base), i2, more.
    split; [reflexivity |]. split; reflexivity.
Qed.

Lemma decode_star_at_least_n_witness :
  fst (4, Some 100) <= Z.of_nat (length [bar1; bar2; bar2; bar1])
  /\ (fst (4, Some 100) = 0 ->
      [bar1; bar2; bar2; bar1] = [] /\ snd (4, Some 100) = None)
  /\ (fst (4, Some 100) <> 0 ->
      exists price_scale base body more,
        Index01.parse_star1_header star1
        = OK (fst (4, Some 100), price_scale, base, body)
        /\ snd (4, Some 100) = Some price_scale
        /\ [bar1; bar2; bar2; bar1] = base :: more).
Proof.
  apply (decode_star_at_least_n star1 [bar1; bar2; bar2; bar1] (4, Some 100)).
  vm_compute. reflexivity.
Defined.

(** Property X4.  Whatever the buffer, when the Case-02 decoder
    returns, the number of ticks it returns is the row count that the
    header holds: a run that would pass the count is cut. *)
Theorem decode_star_exactly_n (buf : list Z) (ticks : list Case02.AirTick) :
  Case02.decode_star buf = OK ticks ->
  exists n i,
    Case02.varint_decode buf 6 = OK (n, i)
    /\ Z.of_nat (length ticks) = n.
Proof. apply decode_star_length02. Qed.

Lemma decode_star_exactly_n_witness :
  exists n i,
    Case02.varint_decode star2 6 = OK (n, i)
    /\ Z.of_nat (length [tick1; tick2; tick2]) = n.
Proof.
  apply (decode_star_exactly_n star2 [tick1; tick2; tick2]).
  vm_compute. reflexivity.
Defined.

(** Property X5.  Whatever the blob, when the Case-04 decoder
    returns, the blob has at least the sixteen bytes of its fixed
    header, starts with the magic, holds 12 as its column count, and
    the number of rows returned is the 32-bit row count of the
    header. *)
Theorem decode_case04_row_count (blob : list Z) (rows : list Case04.Row) :
  Case04.decode_case04 blob = OK rows ->
  (16 <= length blob)%nat
  /\ firstn 8 blob = Case04.MAGIC8
  /\ unpack_unsigned 4 blob 12 = OK 12
  /\ exists nrows,
       unpack_unsigned 4 blob 8 = OK nrows /\ length rows = Z.to_nat nrows.
Proof.
  intros H. apply decode_case04_count in H.
  destruct H as (Hlen & Hm & H12 & Hn).
  split; [exact Hlen |]. split; [exact Hm |].
  unfold unpack_unsigned.
  destruct (Nat.leb_spec (12 + 4) (length blob)); [| lia].
  destruct (Nat.leb_spec (8 + 4) (length blob)); [| lia].
  split; [f_equal; exact H12 |].
  eexists. split; [reflexivity | exact Hn].
Qed.

Lemma decode_case04_row_count_witness :
  (16 <= length (Wire04.encoded [row1; row2]))%nat
  /\ firstn 8 (Wire04.encoded [row1; row2]) = Case04.MAGIC8
  /\ unpack_unsigned 4 (Wire04.encoded [row1; row2]) 12 = OK 12
  /\ exists nrows,
       unpack_unsigned 4 (Wire04.encoded [row1; row2]) 8 = OK nrows
       /\ length [row1; row2] = Z.to_nat nrows.
Proof.
  apply (decode_case04_row_count (Wire04.encoded [row1; row2]) [row1; row2]).
  vm_compute. reflexivity.
Defined.

End DecodedRows.

Section Dictionaries04.
Import Case04.

(** Property X6.  The dictionary that the Case-04 encoder builds for a
    column holds every value of the column once, in the order of
    first appearance: the array has no duplicate, its entries are
    exactly the values that the column takes in the rows, the code
    that the map gives a value is the position of the value in the
    array, and appending rows to the input only appends entries, so
    that no code assigned for a prefix of the rows changes. *)
Theorem build_dict_is_dictionary (rows : list Row) (col : dict_col) :
  NoDup (snd (build_dict rows col))
  /\ (forall s, In s (snd (build_dict rows col))
                <-> exists row, In row rows /\ get_col col row = s)
  /\ (forall v i, dict_get (fst (build_dict rows col)) v = Some i
                  <-> 0 <= i
                      /\ nth_error (snd (build_dict rows col)) (Z.to_nat i)
                         = Some v)
  /\ (forall later, exists more,
         snd (build_dict (rows ++ later) col)
         = snd (build_dict rows col) ++ more).
Proof.
  destruct (build_dict_dictionary rows col) as (H1 & H2 & H3).
  split; [exact H1 |]. split; [exact H2 |]. split; [exact H3 |].
  intros later. apply build_dict_extends.
Qed.

End Dictionaries04.

Section Strings04.
Import Prim Wire Case04 Wire04.

(** Property X27.  [write_str] and [read_str] of Case-04.
    [write_str] fails exactly on a str that holds a lone surrogate
    (or an integer that is no code point), with the error of the
    UTF-8 encoder.  On any other str it writes the length of the
    UTF-8 bytes as a varint and then the bytes; and when that length
    is below 2^70, [read_str] placed on what was written, anywhere in
    a buffer, returns the str and the position after it. *)
Theorem write_str_read_str (s : str) (pre post : list Z) :
  (write_str s = Err UnicodeEncodeError <-> ~ encodable s)
  /\ (encodable s <->
      write_str s = OK (venc (Z.of_nat (length (utf8 s))) ++ utf8 s))
  /\ (encodable s -> Z.of_nat (length (utf8 s)) < 2 ^ 70 ->
      forall b, write_str s = OK b ->
                read_str (pre ++ b ++ post) (length pre)
                = OK (s, (length pre + length b)%nat)).
Proof.
  assert (Hbad : ~ encodable s -> write_str s = Err UnicodeEncodeError).
  { intros Hn. unfold write_str.
    destruct (encode_utf8 s) as [b | e] eqn:E.
    - exfalso. apply Hn. apply encode_utf8_encodable. exists b. exact E.
    - apply encode_utf8_errors in E. subst e. reflexivity. }
  assert (Hdec : encodable s \/ ~ encodable s).
  { destruct (encode_utf8 s) as [b | e] eqn:E.
    - left. apply encode_utf8_encodable. exists b. exact E.
    - right. intros H. apply encode_utf8_encodable in H.
      destruct H as [b H]. congruence. }
  split; [| split].
  - split; [| exact Hbad].
    intros H Hs. rewrite (write_str_ok s Hs) in H. discriminate.
  - split; [apply write_str_ok |].
    intros H. destruct Hdec as [Hs | Hn]; [exact Hs |].
    rewrite (Hbad Hn) in H. discriminate.
  - intros Hs Hl b Hb. rewrite (write_str_ok s Hs) in Hb.
    apply OK_inj in Hb. subst b.
    apply (read_str_ser _ post); [split; assumption |].
    rewrite skipn_app, skipn_all, Nat.sub_diag. reflexivity.
Qed.

Lemma write_str_read_str_witness :
  read_str ([7] ++ [4; 226; 130; 172; 50] ++ [9]) (length [7])
  = OK ([8364; 50], (length [7] + length [4; 226; 130; 172; 50])%nat).
Proof.
  apply (proj2 (proj2 (write_str_read_str [8364; 50] [7] [9]))).
  - repeat constructor; unfold scalar; lia.
  - vm_compute. reflexivity.
  - vm_compute. reflexivity.
Defined.

End Strings04.

Section IndexFiles.
Import Prim Struct Samples Samples2.

(** Property X7.  The Case-02 index file round trip: when the index
    builder has written a file for an anchor interval, a row count
    and a list of anchors, the loader of the replay script reads back
    that interval, that row count and those anchors (row, byte offset
    and the eight fields of the snapshot of each). *)
Theorem index02_file_round_trip (anchor_every n : Z)
        (anchors : list Index02.anchor) (idx : list Z) :
  Index02.write_index anchor_every n anchors = OK idx ->
  Replay02.load_index idx = OK (anchor_every, n, anchors).
Proof. apply load_write_index. Qed.

Lemma index02_file_round_trip_witness :
  Replay02.load_index index2
  = OK (1, 3, [(0, 15%nat, tick1); (1, 24%nat, tick2); (2, 33%nat, tick2)]).
Proof.
  apply (index02_file_round_trip 1 3
           [(0, 15%nat, tick1); (1, 24%nat, tick2); (2, 33%nat, tick2)] index2).
  vm_compute. reflexivity.
Defined.

(** Property X8.  The Case-01 index file round trip: when
    [write_index] of the index builder has written a file, [load_index]
    of the replay script reads back the anchor interval, the row count
    and the anchors, and its two key lists are the rows and the day
    numbers of the anchors, in the order of the anchors.  (A field
    that does not fit its width makes [write_index] fail, so nothing is
    truncated silently.) *)
Theorem index01_file_round_trip (anchor_every n_rows : Z)
        (anchors : list Index01.anchor) (idx : list Z) :
  WriteIndex01.write_index anchor_every n_rows anchors = OK idx ->
  Replay01.load_index idx
  = OK (anchor_every, n_rows, map IndexFile01.loaded anchors,
        map (fun a : Index01.anchor => fst (fst a)) anchors,
        map (fun a : Index01.anchor => Case01.d_days (snd a)) anchors)
  /\ Forall IndexFile01.anchor_packable anchors.
Proof.
  intros H. split; [apply load_write_index01, H |].
  unfold WriteIndex01.write_index in H.
  repeat match type of H with
         | bind ?r _ = OK _ =>
             let E := fresh "E" in
             destruct r eqn:E; cbn [bind] in H; [| discriminate]
         end.
  match goal with
  | E : WriteIndex01.pack_anchors anchors = OK _ |- _ =>
      apply pack_anchors_inv01 in E; apply E
  end.
Qed.

Lemma index01_file_round_trip_witness :
  Replay01.load_index index1
  = OK (2, 4,
        map IndexFile01.loaded
            [(0, 18%nat, bar1); (2, 33%nat, bar2); (3, 41%nat, bar1)],
        map (fun a : Index01.anchor => fst (fst a))
            [(0, 18%nat, bar1); (2, 33%nat, bar2); (3, 41%nat, bar1)],
        map (fun a : Index01.anchor => Case01.d_days (snd a))
            [(0, 18%nat, bar1); (2, 33%nat, bar2); (3, 41%nat, bar1)])
  /\ Forall IndexFile01.anchor_packable
            [(0, 18%nat, bar1); (2, 33%nat, bar2); (3, 41%nat, bar1)].
Proof.
  apply (index01_file_round_trip 2 4
           [(0, 18%nat, bar1); (2, 33%nat, bar2); (3, 41%nat, bar1)] index1).
  vm_compute. reflexivity.
Defined.

End IndexFiles.

Section AnchorsOfAnIndex.
Import Prim Wire Samples Samples2.

(** Property X9.  The anchors that the Case-01 index builder collects
    over a file written by the encoder from at least one bar: their
    rows are strictly increasing, the first anchor is at row 0 and the
    last at the last row of the file; the row of every anchor is a
    row of the file and its snapshot is that row of the full decode.
    The row count that the builder returns is the number of rows
    decoded. *)
Theorem anchors01_sorted_snapshots (bars : list Case01.Bar)
        (price_scale every n : Z) (blob : list Z)
        (anchors : list Index01.anchor) (full : list Case01.Bar)
        (meta : Z * option Z) :
  Case01.encode_star bars price_scale = Some blob ->
  bars <> [] ->
  Index01.build_index blob every = OK (n, anchors) ->
  Case01.decode_star blob = OK (full, meta) ->
  n = Z.of_nat (length full)
  /\ StronglySorted (fun a b : Index01.anchor => fst (fst a) < fst (fst b))
                    anchors
  /\ Forall (fun a : Index01.anchor =>
               0 <= fst (fst a) <= n - 1
               /\ nth_error full (Z.to_nat (fst (fst a))) = Some (snd a))
            anchors
  /\ (exists off cur, nth_error anchors 0 = Some (0, off, cur))
  /\ Index01.last_row anchors = n - 1.
Proof.
  intros Henc Hne Hidx Hdec.
  destruct (encode_star_cases _ _ _ Henc)
    as [[-> ->] | (b0 & rest & -> & Hps & ->)]; [contradiction |].
  eapply anchors01_structure; eassumption.
Qed.

Lemma anchors01_sorted_snapshots_witness :
  4 = Z.of_nat (length [bar1; bar2; bar2; bar1])
  /\ StronglySorted (fun a b : Index01.anchor => fst (fst a) < fst (fst b))
                    [(0, 18%nat, bar1); (2, 33%nat, bar2); (3, 41%nat, bar1)]
  /\ Forall (fun a : Index01.anchor =>
               0 <= fst (fst a) <= 4 - 1
               /\ nth_error [bar1; bar2; bar2; bar1] (Z.to_nat (fst (fst a)))
                  = Some (snd a))
            [(0, 18%nat, bar1); (2, 33%nat, bar2); (3, 41%nat, bar1)]
  /\ (exists off cur,
         nth_error [(0, 18%nat, bar1); (2, 33%nat, bar2); (3, 41%nat, bar1)] 0
         = Some (0, off, cur))
  /\ Index01.last_row [(0, 18%nat, bar1); (2, 33%nat, bar2); (3, 41%nat, bar1)]
     = 4 - 1.
Proof.
  apply (anchors01_sorted_snapshots
           [bar1; bar2; bar2; bar1] 100 2 4 star1
           [(0, 18%nat, bar1); (2, 33%nat, bar2); (3, 41%nat, bar1)]
           [bar1; bar2; bar2; bar1] (4, Some 100)).
  - vm_compute. reflexivity.
  - discriminate.
  - vm_compute. reflexivity.
  - vm_compute. reflexivity.
Defined.

(** Property X10.  [iter_record_offsets] on any buffer whose header
    parses with a non-zero row count: it returns exactly when decoding
    whole blocks from the start of the body ends at the end of the
    buffer (it does not stop at the row count, and it is never the
    fuel of the embedding that stops it); the offsets it returns are
    then the starts of those blocks, each before the end of the
    buffer, in strictly increasing order, and each holds a tag byte 0
    or 1. *)
Theorem iter_offsets_are_block_starts (buf : list Z) (n price_scale : Z)
        (base : Case01.Bar) (body : nat) :
  Index01.parse_star1_header buf = OK (n, price_scale, base, body) ->
  n <> 0 ->
  ((exists offs, Offsets01.iter_record_offsets buf = OK offs)
   <-> Boundary01.block_start buf body (length buf))
  /\ Offsets01.iter_record_offsets buf <> Err OutOfFuel
  /\ forall offs,
       Offsets01.iter_record_offsets buf = OK offs ->
       (forall p, In p offs
                  <-> Boundary01.block_start buf body p /\ (p < length buf)%nat)
       /\ StronglySorted lt offs
       /\ Forall (tag_at buf) offs.
Proof. apply iter_offsets_spec. Qed.

Lemma iter_offsets_are_block_starts_witness :
  ((exists offs, Offsets01.iter_record_offsets star1 = OK offs)
   <-> Boundary01.block_start star1 18 (length star1))
  /\ Offsets01.iter_record_offsets star1 <> Err OutOfFuel
  /\ forall offs,
       Offsets01.iter_record_offsets star1 = OK offs ->
       (forall p, In p offs
                  <-> Boundary01.block_start star1 18 p /\ (p < length star1)%nat)
       /\ StronglySorted lt offs
       /\ Forall (tag_at star1) offs.
Proof.
  apply (iter_offsets_are_block_starts star1 4 100 bar1 18).
  - vm_compute. reflexivity.
  - lia.
Defined.

(** Property X11.  On a file written by the Case-01 encoder over which
    an index could be built, [iter_record_offsets] returns; its
    offsets are strictly increasing positions of tag bytes, and the
    byte offset of every anchor of the index is one of them, unless it
    is the end of the file. *)
Theorem iter_offsets_cover_anchors (bars : list Case01.Bar)
        (price_scale every n : Z) (blob : list Z)
        (anchors : list Index01.anchor) :
  Case01.encode_star bars price_scale = Some blob ->
  Index01.build_index blob every = OK (n, anchors) ->
  exists offs,
    Offsets01.iter_record_offsets blob = OK offs
    /\ StronglySorted lt offs
    /\ Forall (tag_at blob) offs
    /\ forall row off cur,
         In (row, off, cur) anchors -> (off < length blob)%nat -> In off offs.
Proof. apply offsets_cover_anchors. Qed.

Lemma iter_offsets_cover_anchors_witness :
  exists offs,
    Offsets01.iter_record_offsets star1 = OK offs
    /\ StronglySorted lt offs
    /\ Forall (tag_at star1) offs
    /\ forall row off cur,
         In (row, off, cur)
            [(0, 18%nat, bar1); (2, 33%nat, bar2); (3, 41%nat, bar1)] ->
         (off < length star1)%nat -> In off offs.
Proof.
  apply (iter_offsets_cover_anchors [bar1; bar2; bar2; bar1] 100 2 4 star1
           [(0, 18%nat, bar1); (2, 33%nat, bar2); (3, 41%nat, bar1)]).
  - vm_compute. reflexivity.
  - vm_compute. reflexivity.
Defined.

End AnchorsOfAnIndex.

Section SeekAndReplay.
Import Prim Wire Samples Samples2 ReplaySpec.

(** Property X12.  [replay_from] of Case-01 on any buffer, from any
    start: when it returns, it returns at most [out_rows] rows (one at
    most when [out_rows] is below one: the start row is taken before
    the count is looked at), and every row returned passes the seek
    filter: its number is at least the seek row, or, with no seek row,
    its day is at least the seek day. *)
Theorem replay_from_output_bound (buf : list Z) (start_row : Z)
        (start_pos : nat) (start_bar : Case01.Bar) (n_rows : Z)
        (seek_row seek_days : option Z) (out_rows : Z)
        (res : list (Z * Case01.Bar)) :
  Replay01.replay_from buf start_row start_pos start_bar n_rows
                       seek_row seek_days out_rows = OK res ->
  Z.of_nat (length res) <= Z.max 1 out_rows
  /\ Forall (wanted seek_row seek_days) res.
Proof. apply replay_from_bound. Qed.

Lemma replay_from_output_bound_witness :
  Z.of_nat (length [(2, bar2); (3, bar1)]) <= Z.max 1 5
  /\ Forall (wanted (Some 2) None) [(2, bar2); (3, bar1)].
Proof.
  apply (replay_from_output_bound star1 0 18 bar1 4 (Some 2) None 5
           [(2, bar2); (3, bar1)]).
  vm_compute. reflexivity.
Defined.

(** Property X13.  [replay_seek] of Case-02 on any two files: when it
    returns, it returns at most [rows] ticks (one at most when [rows]
    is below one), and no more than the row count that the index file
    holds. *)
Theorem replay_seek_output_bound (buf idx : list Z) (seek_row : option Z)
        (rows : Z) (out : list Case02.AirTick) :
  Replay02.replay_seek buf idx seek_row rows = OK out ->
  Z.of_nat (length out) <= Z.max 1 rows
  /\ exists anchor_every nrows anchors,
       Replay02.load_index idx = OK (anchor_every, nrows, anchors)
       /\ Z.of_nat (length out) <= Z.max 0 nrows.
Proof.
  unfold Replay02.replay_seek. intros H.
  destruct (negb _); [discriminate |].
  destruct (Replay02.load_index idx) as [[[ae nrows] anchors] |];
    cbn [bind] in H; [| discriminate].
  apply replay_loaded_bound in H. destruct H as [H1 H2].
  split; [exact H1 |]. exists ae, nrows, anchors. split; [reflexivity | exact H2].
Qed.

Lemma replay_seek_output_bound_witness :
  Z.of_nat (length [tick2; tick2]) <= Z.max 1 5
  /\ exists anchor_every nrows anchors,
       Replay02.load_index index2 = OK (anchor_every, nrows, anchors)
       /\ Z.of_nat (length [tick2; tick2]) <= Z.max 0 nrows.
Proof.
  apply (replay_seek_output_bound star2 index2 (Some 1) 5 [tick2; tick2]).
  vm_compute. reflexivity.
Defined.

(** Property X14.  Case-01, from end to end: the encoder writes a
    file from at least one bar, the index builder ([main] of
    star_index_case01) writes its index file, and the replay script
    is run on the two files with --seek_row r (r >= 0) and --rows k
    (k >= 1).  Whatever the anchor interval, when the bar formatter
    returns on each of the rows [r, r + k) of the full decode (it
    raises on the price scale 0 and on a day outside the calendar),
    the script prints the line "Replay from row r (c rows):" and then
    exactly those rows, c of them (fewer than k at the end of the
    file, none past it), and it ends without an error. *)
Theorem seek_row_replay01
        (date_to_days : string -> option Z)
        (fmt_bar : Case01.Bar -> Z -> option string)
        (bars : list Case01.Bar) (price_scale every r k : Z)
        (blob idx : list Z) (full : list Case01.Bar) (meta : Z * option Z) :
  Case01.encode_star bars price_scale = Some blob ->
  bars <> [] ->
  WriteIndex01.main blob every = OK idx ->
  Case01.decode_star blob = OK (full, meta) ->
  0 <= r -> 1 <= k ->
  (forall b, In b (slice (Z.to_nat r) (Z.to_nat k) full) ->
             fmt_bar b price_scale <> None) ->
  Replay01.main date_to_days fmt_bar blob idx (Replay01.mkArgs (Some r) None k)
  = (Replay01.LFromRow r (length (slice (Z.to_nat r) (Z.to_nat k) full))
       :: map (fun b => Replay01.LBar (shown (fmt_bar b price_scale)))
              (slice (Z.to_nat r) (Z.to_nat k) full),
     OK tt).
Proof.
  intros Henc Hne Hidx Hdec Hr Hk Hf.
  destruct (encode_star_cases _ _ _ Henc)
    as [[-> ->] | (b0 & rest & -> & Hps & ->)]; [contradiction |].
  rewrite (main_seek_row date_to_days fmt_bar b0 rest price_scale every r k
             idx full meta Hps Hidx Hdec Hr Hk).
  rewrite print_rows_total.
  - cbn [app]. f_equal. f_equal.
    rewrite <- (map_map snd (fun b => Replay01.LBar
                                        (shown (fmt_bar b price_scale)))).
    rewrite map_snd_numbered. reflexivity.
  - intros p Hp. apply Hf. rewrite <- (map_snd_numbered _ r).
    apply in_map. exact Hp.
Qed.

Lemma seek_row_replay01_witness :
  Replay01.main no_date fmt_bar0 star1 index1 (Replay01.mkArgs (Some 1) None 2)
  = (Replay01.LFromRow 1
       (length (slice (Z.to_nat 1) (Z.to_nat 2) [bar1; bar2; bar2; bar1]))
       :: map (fun b => Replay01.LBar (shown (fmt_bar0 b 100)))
              (slice (Z.to_nat 1) (Z.to_nat 2) [bar1; bar2; bar2; bar1]),
     OK tt).
Proof.
  apply (seek_row_replay01 no_date fmt_bar0
           [bar1; bar2; bar2; bar1] 100 2 1 2 star1 index1
           [bar1; bar2; bar2; bar1] (4, Some 100)).
  - vm_compute. reflexivity.
  - discriminate.
  - vm_compute. reflexivity.
  - vm_compute. reflexivity.
  - lia.
  - lia.
  - intros b Hb. vm_compute in Hb.
    destruct Hb as [<- | [<- | []]]; vm_compute; discriminate.
Defined.

(** Property X15.  Case-02, through the index file: let a file be
    written by the encoder and an index file be built over it with
    any anchor interval.  For a seek row s at which a block of the
    body starts -- the row of an anchor of some index over the same
    file, built with the same or with another interval -- and k >= 1,
    [replay_seek] returns rows [s, s + k) of the full decode, cut at
    the end of the file.  For a seek row inside a run it need not: on
    the file of six ticks whose first five rise by one minute each,
    the replay of three rows from row 2 returns two ticks, the second
    of which (minute 8) is no row of the file. *)
Theorem replay_seek_block_rows :
  (forall (ticks : list Case02.AirTick) (every every' n : Z)
          (blob idx : list Z) (anchors' : list Index02.anchor)
          (s : Z) (off : nat) (cur : Case02.AirTick)
          (full : list Case02.AirTick) (k : Z),
      Case02.encode_star ticks = Some blob ->
      Index02.build_index blob every = OK idx ->
      Index02.build_anchors blob every' = OK (n, anchors') ->
      In (s, off, cur) anchors' ->
      Case02.decode_star blob = OK full ->
      1 <= k ->
      Replay02.replay_seek blob idx (Some s) k
      = OK (slice (Z.to_nat s) (Z.to_nat k) full))
  /\ (Case02.encode_star run_ticks = Some run_star
      /\ Index02.build_index run_star 1 = OK run_index
      /\ Case02.decode_star run_star = OK run_ticks
      /\ Replay02.replay_seek run_star run_index (Some 2) 3
         = OK [tick_at 2; tick_at 8]).
Proof.
  split.
  - intros ticks every every' n blob idx anchors' s off cur full k.
    apply replay_seek_boundary02.
  - repeat split; vm_compute; reflexivity.
Qed.

Lemma replay_seek_block_rows_witness :
  Replay02.replay_seek run_star run_index (Some 4) 5
  = OK (slice (Z.to_nat 4) (Z.to_nat 5) run_ticks).
Proof.
  apply (proj1 replay_seek_block_rows run_ticks 1 1 6 run_star run_index
           [(0, 15%nat, tick_at 0); (4, 25%nat, tick_at 4);
            (5, 34%nat, tick_at 10)]
           4 25%nat (tick_at 4) run_ticks 5).
  - vm_compute. reflexivity.
  - vm_compute. reflexivity.
  - vm_compute. reflexivity.
  - right. left. reflexivity.
  - vm_compute. reflexivity.
  - lia.
Defined.

End SeekAndReplay.

Section FrontCodedLines.
Import Prim Wire Samples2.

(** Property X16.  The front coding of Case-03 returns for every list
    of lines and loses nothing: two lists of lines with the same
    packing are the same list.  (Each record holds the length of the
    prefix shared with the line before, the length of the rest, and
    the rest.) *)
Theorem front_coding_lossless (lines lines' : list (list Z)) :
  (exists packed, Case03.encode_lines_frontcoded lines = Some packed)
  /\ (Case03.encode_lines_frontcoded lines
      = Case03.encode_lines_frontcoded lines' ->
      lines = lines').
Proof.
  split; [apply encode_loop_total |].
  intros E. destruct (encode_loop_total lines []) as [b Hb].
  unfold Case03.encode_lines_frontcoded in E. rewrite Hb in E.
  eapply encode_loop_inj; [exact Hb | symmetry; exact E].
Qed.

(** Property X17.  [main] of the Case-03 encoder, on the lines of its
    input: it exits on an input without lines, and on a negative
    --max_rows; otherwise it writes the magic, the length of the
    header line as a varint, the header line, and the front-coded
    records of the data lines it keeps (all of them, or the first
    --max_rows), and reports their number.  What it writes determines
    the header line and the lines kept. *)
Theorem case03_main_packs (splitlines : list Z -> list (list Z))
        (raw : list Z) (max_rows : option Z) :
  (splitlines raw = [] ->
   Case03.main splitlines raw max_rows = Some Case03.EmptyInput)
  /\ (forall k, splitlines raw <> [] -> max_rows = Some k -> k < 0 ->
                Case03.main splitlines raw max_rows = Some Case03.NegativeMaxRows)
  /\ (forall header data_lines,
         splitlines raw = header :: data_lines ->
         match max_rows with Some k => 0 <= k | None => True end ->
         let kept := match max_rows with
                     | Some k => firstn (Z.to_nat k) data_lines
                     | None => data_lines
                     end in
         exists records,
           Case03.encode_lines_frontcoded kept = Some records
           /\ Case03.main splitlines raw max_rows
              = Some (Case03.Written
                        (Case03.MAGIC
                           ++ (venc (Z.of_nat (length header)) ++ header)
                           ++ records)
                        (length kept))
           /\ forall header' kept' records',
                Case03.encode_lines_frontcoded kept' = Some records' ->
                Case03.MAGIC ++ (venc (Z.of_nat (length header)) ++ header)
                  ++ records
                = Case03.MAGIC ++ (venc (Z.of_nat (length header')) ++ header')
                    ++ records' ->
                header = header' /\ kept = kept').
Proof.
  destruct (main_exits splitlines raw max_rows) as [H1 H2].
  split; [exact H1 |]. split; [exact H2 |].
  intros header data_lines Hs Hk. cbv zeta.
  destruct (main_written splitlines raw max_rows header data_lines Hs Hk)
    as (records & Hr & Hm).
  exists records. split; [exact Hr |]. split; [exact Hm |].
  intros header' kept' records' Hr' E.
  eapply packed_inj; eassumption.
Qed.

Lemma case03_main_packs_witness :
  exists records,
    Case03.encode_lines_frontcoded
      (firstn (Z.to_nat 1) [bytes_of_string "16/12/2006;17:24:00";
                            bytes_of_string "16/12/2006;17:25:00"])
    = Some records
    /\ Case03.main split3 [] (Some 1)
       = Some (Case03.Written
                 (Case03.MAGIC
                    ++ (venc (Z.of_nat (length (bytes_of_string "Date;Time")))
                          ++ bytes_of_string "Date;Time")
                    ++ records)
                 (length (firstn (Z.to_nat 1)
                            [bytes_of_string "16/12/2006;17:24:00";
                             bytes_of_string "16/12/2006;17:25:00"]))).
Proof.
  destruct (proj2 (proj2 (case03_main_packs split3 [] (Some 1)))
              (bytes_of_string "Date;Time")
              [bytes_of_string "16/12/2006;17:24:00";
               bytes_of_string "16/12/2006;17:25:00"]
              eq_refl ltac:(cbn; lia)) as (records & Hr & Hm & _).
  exists records. split; [exact Hr | exact Hm].
Defined.

End FrontCodedLines.

Section Dispatcher.
Import Prim Samples Samples2.

(** Property X18.  The dispatcher of star_run recognises the file of
    each encoder: whatever the Case-01 encoder, the Case-02 encoder,
    [main] of the Case-03 encoder and the Case-04 encoder write is
    detected as case01, case02, case03 and case04.  A file that
    starts with "STAR01", the second magic that [iter_record_offsets]
    accepts, is refused as an unknown magic. *)
Theorem detect_case_of_encoders :
  (forall bars price_scale blob,
      Case01.encode_star bars price_scale = Some blob ->
      StarRun.detect_case_from_star blob = inr StarRun.case01)
  /\ (forall ticks blob,
         Case02.encode_star ticks = Some blob ->
         StarRun.detect_case_from_star blob = inr StarRun.case02)
  /\ (forall splitlines raw max_rows packed n,
         Case03.main splitlines raw max_rows = Some (Case03.Written packed n) ->
         StarRun.detect_case_from_star packed = inr StarRun.case03)
  /\ (forall rows blob,
         Case04.encode_case04 rows = OK blob ->
         StarRun.detect_case_from_star blob = inr StarRun.case04)
  /\ (forall rest,
         StarRun.detect_case_from_star (bytes_of_string "STAR01" ++ rest)
         = inl StarRun.UnknownMagic).
Proof.
  split; [| split; [| split; [| split]]].
  - intros bars ps blob H. apply encode_star_magic01 in H.
    destruct H as [x ->]. apply detect_case01.
  - intros ticks blob H. apply encode_star_magic02 in H.
    destruct H as [x ->]. apply detect_case02.
  - intros splitlines raw max_rows packed n H. apply main03_magic in H.
    destruct H as [x ->]. apply detect_case03.
  - intros rows blob H. apply encode_case04_magic in H.
    destruct H as [x ->]. apply detect_case04.
  - apply detect_star01.
Qed.

Lemma detect_case_of_encoders_witness :
  StarRun.detect_case_from_star star1 = inr StarRun.case01
  /\ StarRun.detect_case_from_star star2 = inr StarRun.case02.
Proof.
  split.
  - apply (proj1 detect_case_of_encoders [bar1; bar2; bar2; bar1] 100 star1).
    vm_compute. reflexivity.
  - apply (proj1 (proj2 detect_case_of_encoders) [tick1; tick2; tick2] star2).
    vm_compute. reflexivity.
Defined.

End Dispatcher.

Section IndexBuilder04.
Import Prim Struct ReplayIdx Binding Samples Samples2.
Import ReplaySpec PreviewSpec.

(** Property X19.  [build_anchors] of the Case-04 index builder, for a
    positive row count and a positive anchor interval: it returns the
    anchors in strictly increasing order of row; a row of the file is
    anchored exactly when it is a multiple of the interval or the last
    row, and the time of its anchor is row * cadence; there are at
    most as many anchors as rows, and at most
    (rows - 1) / interval + 2. *)
Theorem build_anchors04_rows (rows cadence_min anchor_every : Z) :
  0 < rows -> 0 < anchor_every ->
  exists anchors,
    Index04.build_anchors rows cadence_min anchor_every = inr anchors
    /\ StronglySorted (fun x y : Z * Z => fst x < fst y) anchors
    /\ (forall r t,
           In (r, t) anchors
           <-> 0 <= r < rows
               /\ (r mod anchor_every = 0 \/ r = rows - 1)
               /\ t = r * cadence_min)
    /\ Z.of_nat (length anchors)
       <= Z.min rows ((rows - 1) / anchor_every + 2).
Proof. apply build_anchors_spec. Qed.

Lemma build_anchors04_rows_witness :
  exists anchors,
    Index04.build_anchors 10 60 4 = inr anchors
    /\ StronglySorted (fun x y : Z * Z => fst x < fst y) anchors
    /\ (forall r t,
           In (r, t) anchors
           <-> 0 <= r < 10 /\ (r mod 4 = 0 \/ r = 10 - 1) /\ t = r * 60)
    /\ Z.of_nat (length anchors) <= Z.min 10 ((10 - 1) / 4 + 2).
Proof. apply (build_anchors04_rows 10 60 4); lia. Defined.

(** Property X20.  The Case-04 index file round trip: when
    [write_index] of the index builder has written a file for the hex
    form of a 32-byte digest, [load_index] of the replay script reads
    back version 4, the anchor interval, the cadence, the same hex
    digest, the flag "offsets present" unset, and the anchors in
    order, each with the byte offset 0. *)
Theorem index04_file_round_trip (anchor_every cadence_min : Z)
        (anchors : list (Z * Z)) (digest idx : list Z) :
  Forall is_byte digest -> length digest = 32%nat ->
  Index04.write_index anchor_every anchors (hex digest) cadence_min = inr idx ->
  Replay04.load_index idx
  = OK (mkIndex Replay04.MAGIC_A 4 anchor_every
                (map IndexFile04.loaded anchors) cadence_min false
                (hex digest)).
Proof. apply load_write_index04. Qed.

Lemma index04_file_round_trip_witness :
  Replay04.load_index
    (Index04.MAGIC ++ le_bytes 4 4 ++ le_bytes 4 256 ++ le_bytes 4 1
       ++ le_bytes 4 0 ++ le_bytes 8 60 ++ digest0 []
       ++ le_bytes 4 0 ++ le_bytes 8 0 ++ le_bytes 8 0)
  = OK (mkIndex Replay04.MAGIC_A 4 256 (map IndexFile04.loaded [(0, 0)]) 60
                false (hex (digest0 []))).
Proof.
  apply (index04_file_round_trip 256 60 [(0, 0)] (digest0 [])).
  - apply all_bytes_spec. reflexivity.
  - reflexivity.
  - vm_compute. reflexivity.
Defined.

(** Property X21.  Case-04, from end to end: the index builder run
    with --rows, --anchor_every and --cad in range (all positive,
    rows and interval below 2^32, the time of the last row below
    2^63) writes its file, and the replay script run on the same STAR
    file with that index, --seek_row r for a row r of the file and
    --rows k passes the binding check and prints the digest, the
    "IDX ok" line with the number of anchors, the target row r and
    the row of the nearest anchor: r itself when r is the last row,
    and otherwise the multiple of the interval below r.  If the time
    formatter raises on the time of that anchor (datetime overflows),
    the script ends there with that error.  Otherwise it prints the
    time of the anchor, the note on missing offsets, and the preview:
    when the formatter returns on each of the times (r + i) * cad,
    i < k, the k lines of the rows from r on, each with the time
    row * cad, ending without an error; and when it raises on one of
    them, the lines before the first such row, ending with that
    error.  The preview is not cut at the row count, which the index
    file does not hold. *)
Theorem index04_then_replay04
        (sha256 : list Z -> list Z) (fmt_epoch_minutes : Z -> option string)
        (star : list Z) (rows every cad r k : Z) :
  (forall data, Forall is_byte (sha256 data) /\ length (sha256 data) = 32%nat) ->
  0 < rows < 2 ^ 32 -> 0 < every < 2 ^ 32 -> 0 < cad < 2 ^ 63 ->
  (rows - 1) * cad < 2 ^ 63 ->
  0 <= r < rows ->
  let nearest_row := anchor_row_before rows every r in
  let a := mkArgs (Some r) None k None None None in
  exists idx anchors,
    Index04.main sha256 star rows every cad = inr idx
    /\ Index04.build_anchors rows cad every = inr anchors
    /\ nearest_row <= r < nearest_row + every
    /\ (nearest_row mod every = 0 \/ nearest_row = rows - 1)
    /\ let found := [LSha (hex (sha256 star));
                     LIdxOk Replay04.MAGIC_A every (length anchors);
                     LSeekResolved; LTargetRow r; LNearestRow nearest_row] in
       let shown_t := [LNearestT (nearest_row * cad)
                                 (shown (fmt_epoch_minutes (nearest_row * cad)));
                       LNote; LPreview] in
       let rows_from := map (row_line (fun _ => fmt_epoch_minutes) a cad r) in
       (fmt_epoch_minutes (nearest_row * cad) = None ->
        Replay04.main sha256 fmt_epoch_minutes star idx a
        = (found, Err DateError))
       /\ (fmt_epoch_minutes (nearest_row * cad) <> None ->
           (forall i, (i < Z.to_nat k)%nat ->
                      fmt_epoch_minutes ((r + Z.of_nat i) * cad) <> None) ->
           Replay04.main sha256 fmt_epoch_minutes star idx a
           = (found ++ shown_t ++ rows_from (seq 0 (Z.to_nat k)), OK tt))
       /\ (fmt_epoch_minutes (nearest_row * cad) <> None ->
           forall j, (j < Z.to_nat k)%nat ->
             (forall i, (i < j)%nat ->
                        fmt_epoch_minutes ((r + Z.of_nat i) * cad) <> None) ->
             fmt_epoch_minutes ((r + Z.of_nat j) * cad) = None ->
             Replay04.main sha256 fmt_epoch_minutes star idx a
             = (found ++ shown_t ++ rows_from (seq 0 j), Err DateError)).
Proof.
  intros Hsha. apply index_then_replay04. exact Hsha.
Qed.

Lemma index04_then_replay04_witness :
  exists idx anchors,
    Index04.main digest0 [1; 2; 3] 10 4 60 = inr idx
    /\ Index04.build_anchors 10 60 4 = inr anchors
    /\ Replay04.main digest0 fmt_minutes0 [1; 2; 3] idx
                     (mkArgs (Some 6) None 2 None None None)
       = ([LSha (hex (digest0 [1; 2; 3]));
           LIdxOk Replay04.MAGIC_A 4 (length anchors);
           LSeekResolved; LTargetRow 6; LNearestRow 4]
            ++ [LNearestT 240 (time_text 240); LNote; LPreview]
            ++ [LRow 6 360 (time_text 360); LRow 7 420 (time_text 420)],
          OK tt).
Proof.
  destruct (index04_then_replay04 digest0 fmt_minutes0 [1; 2; 3] 10 4 60 6 2)
    as (idx & anchors & Hm & Hb & _ & _ & _ & Hrun & _).
  - intros data. split; [apply all_bytes_spec; reflexivity | reflexivity].
  - lia.
  - lia.
  - lia.
  - lia.
  - lia.
  - exists idx, anchors. split; [exact Hm |]. split; [exact Hb |].
    apply Hrun.
    + vm_compute. discriminate.
    + intros i Hi. change (Z.to_nat 2) with 2%nat in Hi.
      destruct i as [| [| i]]; [vm_compute; discriminate
                               | vm_compute; discriminate | lia].
Defined.

(** Property X22.  An index file that the Case-04 index builder wrote
    over one STAR file is refused by the replay script with any STAR
    file of another digest: given a seek key (--seek_row or
    --seek_time), the script prints the digest of the file it was
    given and ends in the binding mismatch, before any seek or
    preview line.  Without a seek key it exits before it hashes the
    file: it prints nothing and does not reach the binding check. *)
Theorem index04_refuses_other_star
        (sha256 : list Z -> list Z) (fmt_epoch_minutes : Z -> option string)
        (star star' : list Z) (rows every cad : Z) (a : args) (idx : list Z) :
  (forall data, Forall is_byte (sha256 data) /\ length (sha256 data) = 32%nat) ->
  Index04.main sha256 star rows every cad = inr idx ->
  sha256 star' <> sha256 star ->
  Replay04.main sha256 fmt_epoch_minutes star' idx a
  = match a_seek_row a, a_seek_time a with
    | None, None => ([], Err NoSeekKey)
    | _, _ => ([LSha (hex (sha256 star'))], Err BindingMismatch)
    end.
Proof.
  intros Hsha. apply index_other_star04. exact Hsha.
Qed.

Lemma index04_refuses_other_star_witness :
  Replay04.main digest_len fmt_minutes0 [1; 2]
                (match Index04.main digest_len [1; 2; 3] 10 4 60 with
                 | inr idx => idx
                 | inl _ => []
                 end) seek_args
  = ([LSha (hex (digest_len [1; 2]))], Err BindingMismatch).
Proof.
  apply (index04_refuses_other_star digest_len fmt_minutes0 [1; 2; 3] [1; 2]
           10 4 60 seek_args).
  - intros data. split; [| apply repeat_length].
    apply Forall_forall. intros x Hx. apply repeat_spec in Hx. subst x.
    apply Z.mod_pos_bound. lia.
  - vm_compute. reflexivity.
  - vm_compute. discriminate.
Defined.

End IndexBuilder04.

Section SeekResolution.
Import Prim ReplayIdx Binding Samples Samples2 ReplaySpec PreviewSpec.

(** Property X23.  [resolve_seek] of the Case-03 and Case-04 replay
    scripts.  It fails with a division by zero exactly when a seek
    time is given and the cadence is 0, and otherwise with an index
    error exactly when there is no anchor.  When it returns, the
    target row is the seek row, or the floor quotient of seek time by
    cadence when a seek time is given, and with a rows_hint it is
    max(0, min(that row, rows_hint - 1)); the anchor returned is one
    of the list; and, on anchors in increasing order of row, it is
    the last one at or before the target, or the first anchor when
    every anchor is after the target. *)
Theorem resolve_seek_nearest_anchor (anchors : list (Z * Z * Z))
        (cadence_min seek_row : Z) (seek_time_min rows_hint : option Z) :
  (resolve_seek anchors cadence_min seek_row seek_time_min rows_hint
   = Err ZeroDivision
   <-> seek_time_min <> None /\ cadence_min = 0)
  /\ (resolve_seek anchors cadence_min seek_row seek_time_min rows_hint
      = Err IndexError
      <-> anchors = [] /\ ~ (seek_time_min <> None /\ cadence_min = 0))
  /\ (forall target a,
         resolve_seek anchors cadence_min seek_row seek_time_min rows_hint
         = OK (target, a) ->
         target = match rows_hint with
                  | Some hint =>
                      Z.max 0 (Z.min (match seek_time_min with
                                      | Some tm => tm / cadence_min
                                      | None => seek_row
                                      end) (hint - 1))
                  | None => match seek_time_min with
                            | Some tm => tm / cadence_min
                            | None => seek_row
                            end
                  end
         /\ In a anchors
         /\ (StronglySorted (fun x y : Z * Z * Z => fst (fst x) < fst (fst y))
                            anchors ->
             (forall b, In b anchors -> fst (fst b) <= target ->
                        fst (fst b) <= fst (fst a) <= target)
             /\ ((forall b, In b anchors -> target < fst (fst b)) ->
                 nth_error anchors 0 = Some a))).
Proof.
  pose proof (resolve_seek_cases anchors cadence_min seek_row seek_time_min
                rows_hint) as Hc. cbv zeta in Hc.
  split; [| split].
  - rewrite Hc. destruct seek_time_min as [tm |].
    + destruct (Z.eqb_spec cadence_min 0) as [E | NE].
      * split; [intros _; split; [discriminate | exact E] | reflexivity].
      * split; [destruct anchors; discriminate | intros [_ C]; contradiction].
    + split; [destruct anchors; discriminate | intros [C _]; contradiction].
  - rewrite Hc. destruct seek_time_min as [tm |].
    + destruct (Z.eqb_spec cadence_min 0) as [E | NE].
      * split; [discriminate |]. intros [_ C]. exfalso. apply C.
        split; [discriminate | exact E].
      * destruct anchors as [| a0 rest].
        -- split; [intros _; split; [reflexivity |] | reflexivity].
           intros [_ C]. contradiction.
        -- split; [discriminate | intros [C _]; discriminate].
    + destruct anchors as [| a0 rest].
      * split; [intros _; split; [reflexivity |] | reflexivity].
        intros [C _]. contradiction.
      * split; [discriminate | intros [C _]; discriminate].
  - intros target a H. apply resolve_seek_sorted. exact H.
Qed.

Lemma resolve_seek_nearest_anchor_witness :
  6 = Z.max 0 (Z.min (400 / 60) (10 - 1))
  /\ In (4, 240, 0) [(0, 0, 0); (4, 240, 0); (8, 480, 0)]
  /\ (StronglySorted (fun x y : Z * Z * Z => fst (fst x) < fst (fst y))
                     [(0, 0, 0); (4, 240, 0); (8, 480, 0)] ->
      (forall b, In b [(0, 0, 0); (4, 240, 0); (8, 480, 0)] ->
                 fst (fst b) <= 6 ->
                 fst (fst b) <= fst (fst (4, 240, 0)) <= 6)
      /\ ((forall b, In b [(0, 0, 0); (4, 240, 0); (8, 480, 0)] ->
                     6 < fst (fst b)) ->
          nth_error [(0, 0, 0); (4, 240, 0); (8, 480, 0)] 0 = Some (4, 240, 0))).
Proof.
  apply (proj2 (proj2 (resolve_seek_nearest_anchor
                         [(0, 0, 0); (4, 240, 0); (8, 480, 0)] 60 0
                         (Some 400) (Some 10)))
           6 (4, 240, 0)).
  vm_compute. reflexivity.
Defined.

(** Property X24.  The preview loop of the Case-03 and Case-04 replay
    scripts is asked for --rows rows from the target row on, and for
    no row from rows_hint on when a rows_hint is given.  When the
    time formatter returns on the time row * cadence of each of these
    rows, it prints one line per row, in order, each with that time,
    and ends without an error; when the formatter raises on one of
    them (datetime overflows), it prints the lines of the rows before
    the first such row and ends with that error. *)
Theorem preview_rows_printed (fmt : args -> Z -> option string)
        (a : args) (cadence_min : Z) (count : nat) (r : Z) (out : list line) :
  ((forall i, (i < preview_count a count r)%nat ->
              fmt a ((r + Z.of_nat i) * cadence_min) <> None) ->
   preview fmt count a r cadence_min out
   = (out ++ map (row_line fmt a cadence_min r) (seq 0 (preview_count a count r)),
      OK tt))
  /\ (forall j,
         (j < preview_count a count r)%nat ->
         (forall i, (i < j)%nat ->
                    fmt a ((r + Z.of_nat i) * cadence_min) <> None) ->
         fmt a ((r + Z.of_nat j) * cadence_min) = None ->
         preview fmt count a r cadence_min out
         = (out ++ map (row_line fmt a cadence_min r) (seq 0 j),
            Err DateError)).
Proof.
  split.
  - apply preview_rows.
  - intros j. apply preview_rows_fail.
Qed.

Lemma preview_rows_printed_witness :
  preview (fun _ => fmt_minutes0) 5 (mkArgs (Some 8) None 5 (Some 10) None None)
          8 60 [LPreview]
  = ([LPreview; LRow 8 480 (time_text 480); LRow 9 540 (time_text 540)], OK tt)
  /\ preview (fun _ => fmt_minutes0) 5
             (mkArgs (Some 70389527) None 5 None None None)
             70389527 60 [LPreview]
     = ([LPreview; LRow 70389527 4223371620 (time_text 4223371620)],
        Err DateError).
Proof.
  split.
  - apply (proj1 (preview_rows_printed
                    (fun _ => fmt_minutes0)
                    (mkArgs (Some 8) None 5 (Some 10) None None) 60 5 8
                    [LPreview])).
    intros i Hi. change (i < 2)%nat in Hi.
    destruct i as [| [| i]]; [vm_compute; discriminate
                             | vm_compute; discriminate | lia].
  - apply (proj2 (preview_rows_printed
                    (fun _ => fmt_minutes0)
                    (mkArgs (Some 70389527) None 5 None None None) 60 5 70389527
                    [LPreview]) 1%nat).
    + cbn. lia.
    + intros i Hi. destruct i as [| i]; [vm_compute; discriminate | lia].
    + vm_compute. reflexivity.
Defined.

End SeekResolution.
